(** * Cognitive core of minifi-cpp: hypergraph substrate and cognitive kernel

    A shallow embedding of
      - [extensions/cognitive-core/utils/HypergraphSubstrate.{h,cpp}]
      - [extensions/cognitive-core/utils/CognitiveKernel.{h,cpp}]
    and theorems about their behaviour.

    Conventions of the embedding.
      - [std::unordered_map<K, V>] is a [gmap K V], [std::unordered_set<K>] a
        [gset K]; a range-for over either walks [map_to_list] / [elements],
        one fixed order standing for the unspecified C++ one.
      - [double] is the kernel's binary64 [float]; [size_t] is a [Z] whose
        wrap-around at [2^64] is written out.
      - A member function is a function from the object to an [Outcome]:
        it returns a value, throws, or never returns.  The object after the
        call is part of the outcome, also when it throws.
      - [substrate_mutex_] is a field of the substrate.  [std::mutex] is not
        recursive: locking it while the same thread holds it never returns.
        The mutexes of [MemorySubstratePersistence] and [CognitiveMemory]
        and [kernel_mutex_] are taken and released inside one method each,
        never while held, and are left out. *)

From Stdlib Require Import ZArith Floats Ascii String QArith Qpower OrdersEx Lia Lqa.
From stdpp Require Import gmap strings list fin_maps sorting pretty.

Local Open Scope Z_scope.

(** ** Basic types *)

Abbreviation NodeId := string (only parsing).
Abbreviation EdgeId := string (only parsing).
Abbreviation Weight := float (only parsing).

(** [size_t] on the 64-bit targets the project builds for. *)
Definition size_t_max : Z := 2 ^ 64.
Definition to_size_t (z : Z) : Z := z mod size_t_max.

(** [static_cast<double>(n)] for an unsigned integer [n]: the nearest
    binary64 value, ties to even. *)
Definition double_of_size_t (n : Z) : float :=
  SF2Prim (SpecFloat.binary_normalize FloatOps.prec FloatOps.emax n 0 false).

(** The literals [0.7] and [1.2] denote the closest binary64 values. *)
Definition lit_0_7 : float := 0x1.6666666666666p-1%float.
Definition lit_1_2 : float := 0x1.3333333333333p+0%float.

(** [struct DeepTreeEcho] (CognitiveKernel.h). *)
Record DeepTreeEcho := mkDeepTreeEcho {
  identity_signature : string;
  resonance_frequency : Z;
  echo_patterns : list string;
  cognitive_weight : float
}.

(** [DeepTreeEcho() = default] and [DeepTreeEcho(signature)]. *)
Definition DeepTreeEcho_default : DeepTreeEcho :=
  mkDeepTreeEcho EmptyString 0 [] 1%float.
Definition DeepTreeEcho_of (signature : string) : DeepTreeEcho :=
  mkDeepTreeEcho signature 0 [] 1%float.

(** [struct HyperNode] (HypergraphSubstrate.h). *)
Module HyperNode.
Record t := mk {
  id : NodeId;
  label : string;
  attributes : gmap string string;
  echo_signature : DeepTreeEcho;
  activation_level : Weight
}.
(** [HyperNode(node_id, node_label)]. *)
Definition make (node_id : NodeId) (node_label : string) : t :=
  mk node_id node_label ∅ DeepTreeEcho_default 0%float.
Definition set_activation_level (a : Weight) (n : t) : t :=
  mk (id n) (label n) (attributes n) (echo_signature n) a.
Definition set_attribute (k v : string) (n : t) : t :=
  mk (id n) (label n) (<[k := v]> (attributes n)) (echo_signature n)
     (activation_level n).
End HyperNode.

(** [struct HyperEdge] (HypergraphSubstrate.h). *)
Module HyperEdge.
Record t := mk {
  id : EdgeId;
  label : string;
  connected_nodes : gset NodeId;
  attributes : gmap string string;
  strength : Weight
}.
(** [HyperEdge(edge_id, nodes)]. *)
Definition make (edge_id : EdgeId) (nodes : gset NodeId) : t :=
  mk edge_id EmptyString nodes ∅ 1%float.
End HyperEdge.

(** ** Outcomes of member functions *)

(** The exceptions the code throws or lets through: the two kinds of
    [std::exception] it meets, and an object of any other type, which an
    overriding hook or method may throw ([throw 42;]). *)
Inductive exception :=
  | invalid_argument (what : string)
  | runtime_error (what : string)
  | not_std_exception (description : string).

(** Whether a handler [catch (const std::exception&)] takes it. *)
Definition is_std_exception (e : exception) : bool :=
  match e with
  | invalid_argument _ | runtime_error _ => true
  | not_std_exception _ => false
  end.

(** What a call on an object of type [S] does: it returns [a], it throws
    [e], or it never returns (a thread locking a [std::mutex] it already
    holds, or a loop that does not end). *)
Inductive Outcome (S A : Type) :=
  | Returns (a : A) (s : S)
  | Throws (e : exception) (s : S)
  | Deadlock
  | Diverges.
Arguments Returns {S A} a s.
Arguments Throws {S A} e s.
Arguments Deadlock {S A}.
Arguments Diverges {S A}.

(** Sequencing of two calls on the same object. *)
Definition bind {S A B} (m : S → Outcome S A) (k : A → S → Outcome S B)
  : S → Outcome S B :=
  λ s, match m s with
       | Returns a s' => k a s'
       | Throws e s' => Throws e s'
       | Deadlock => Deadlock
       | Diverges => Diverges
       end.
Definition ret {S A} (a : A) : S → Outcome S A := λ s, Returns a s.

Notation "x <~ m ;; k" := (bind m (λ x, k))
  (at level 100, m at next level, right associativity).

(** A call completes when it returns or throws; [s'] is the object then. *)
Definition completes {S A} (o : Outcome S A) (s' : S) : Prop :=
  (∃ a, o = Returns a s') ∨ (∃ e, o = Throws e s').

(** ** The persistence strategy *)

(** [class SubstratePersistence]: eight pure virtual, non-const methods.
    [load_node(id, node&)] returning [true] is [Some node]. *)
Module SubstratePersistence.
Class Interface (P : Type) := {
  save_node : HyperNode.t → P → bool * P;
  save_edge : HyperEdge.t → P → bool * P;
  load_node : NodeId → P → option HyperNode.t * P;
  load_edge : EdgeId → P → option HyperEdge.t * P;
  remove_node : NodeId → P → bool * P;
  remove_edge : EdgeId → P → bool * P;
  get_all_node_ids : P → list NodeId * P;
  get_all_edge_ids : P → list EdgeId * P
}.
End SubstratePersistence.

(** [class MemorySubstratePersistence]: the in-memory reference strategy. *)
Module MemorySubstratePersistence.
Record t := mk {
  nodes_ : gmap NodeId HyperNode.t;
  edges_ : gmap EdgeId HyperEdge.t
}.
Definition empty : t := mk ∅ ∅.

Definition save_node (node : HyperNode.t) (p : t) : bool * t :=
  (true, mk (<[HyperNode.id node := node]> (nodes_ p)) (edges_ p)).
Definition save_edge (edge : HyperEdge.t) (p : t) : bool * t :=
  (true, mk (nodes_ p) (<[HyperEdge.id edge := edge]> (edges_ p))).
Definition load_node (id : NodeId) (p : t) : option HyperNode.t * t :=
  (nodes_ p !! id, p).
Definition load_edge (id : EdgeId) (p : t) : option HyperEdge.t * t :=
  (edges_ p !! id, p).
(** [nodes_.erase(id) > 0]. *)
Definition remove_node (id : NodeId) (p : t) : bool * t :=
  (bool_decide (is_Some (nodes_ p !! id)), mk (delete id (nodes_ p)) (edges_ p)).
Definition remove_edge (id : EdgeId) (p : t) : bool * t :=
  (bool_decide (is_Some (edges_ p !! id)), mk (nodes_ p) (delete id (edges_ p))).
Definition get_all_node_ids (p : t) : list NodeId * t :=
  ((map_to_list (nodes_ p)).*1, p).
Definition get_all_edge_ids (p : t) : list EdgeId * t :=
  ((map_to_list (edges_ p)).*1, p).
Definition clear (p : t) : t := mk ∅ ∅.
Definition node_count (p : t) : nat := size (nodes_ p).
Definition edge_count (p : t) : nat := size (edges_ p).

#[global] Instance interface : SubstratePersistence.Interface t := {|
  SubstratePersistence.save_node := save_node;
  SubstratePersistence.save_edge := save_edge;
  SubstratePersistence.load_node := load_node;
  SubstratePersistence.load_edge := load_edge;
  SubstratePersistence.remove_node := remove_node;
  SubstratePersistence.remove_edge := remove_edge;
  SubstratePersistence.get_all_node_ids := get_all_node_ids;
  SubstratePersistence.get_all_edge_ids := get_all_edge_ids
|}.
End MemorySubstratePersistence.

(** A strategy class with no objects: the instance for a program that only
    ever uses the in-memory strategy. *)
Module NoExternalPersistence.
#[global] Instance interface : SubstratePersistence.Interface Empty_set := {|
  SubstratePersistence.save_node := λ _ (x : Empty_set), match x with end;
  SubstratePersistence.save_edge := λ _ (x : Empty_set), match x with end;
  SubstratePersistence.load_node := λ _ (x : Empty_set), match x with end;
  SubstratePersistence.load_edge := λ _ (x : Empty_set), match x with end;
  SubstratePersistence.remove_node := λ _ (x : Empty_set), match x with end;
  SubstratePersistence.remove_edge := λ _ (x : Empty_set), match x with end;
  SubstratePersistence.get_all_node_ids := λ x : Empty_set, match x with end;
  SubstratePersistence.get_all_edge_ids := λ x : Empty_set, match x with end
|}.
End NoExternalPersistence.

(** ** The hypergraph substrate *)

(** [std::set<NodeId>] walks its elements in ascending order of
    [std::string::compare]. *)
Definition string_le (a b : string) : Prop := Stdlib.Strings.String.leb a b = true.
#[global] Instance string_le_dec a b : Decision (string_le a b).
Proof. unfold string_le. apply _. Defined.

Module HypergraphSubstrate.
Section Substrate.
Context {X : Type} `{!SubstratePersistence.Interface X}.

(** [std::unique_ptr<SubstratePersistence> persistence_]: the object
    behind the pointer is the in-memory strategy or an object of another
    strategy class [X].  A virtual call dispatches on it, and
    [dynamic_cast<MemorySubstratePersistence*>] tells the two apart. *)
Inductive persistence_ptr :=
  | Memory (m : MemorySubstratePersistence.t)
  | External (x : X).

Definition dispatch {A}
    (f : MemorySubstratePersistence.t → A * MemorySubstratePersistence.t)
    (g : X → A * X) (p : persistence_ptr) : A * persistence_ptr :=
  match p with
  | Memory m => ((f m).1, Memory (f m).2)
  | External x => ((g x).1, External (g x).2)
  end.

#[global] Instance virtual_call : SubstratePersistence.Interface persistence_ptr := {|
  SubstratePersistence.save_node node :=
    dispatch (MemorySubstratePersistence.save_node node) (SubstratePersistence.save_node node);
  SubstratePersistence.save_edge edge :=
    dispatch (MemorySubstratePersistence.save_edge edge) (SubstratePersistence.save_edge edge);
  SubstratePersistence.load_node id :=
    dispatch (MemorySubstratePersistence.load_node id) (SubstratePersistence.load_node id);
  SubstratePersistence.load_edge id :=
    dispatch (MemorySubstratePersistence.load_edge id) (SubstratePersistence.load_edge id);
  SubstratePersistence.remove_node id :=
    dispatch (MemorySubstratePersistence.remove_node id) (SubstratePersistence.remove_node id);
  SubstratePersistence.remove_edge id :=
    dispatch (MemorySubstratePersistence.remove_edge id) (SubstratePersistence.remove_edge id);
  SubstratePersistence.get_all_node_ids :=
    dispatch MemorySubstratePersistence.get_all_node_ids SubstratePersistence.get_all_node_ids;
  SubstratePersistence.get_all_edge_ids :=
    dispatch MemorySubstratePersistence.get_all_edge_ids SubstratePersistence.get_all_edge_ids
|}.

(** The private members of [class HypergraphSubstrate]; [substrate_mutex_]
    is [true] while a thread holds it. *)
Record t := mk {
  substrate_mutex_ : bool;
  nodes_ : gmap NodeId HyperNode.t;
  edges_ : gmap EdgeId HyperEdge.t;
  persistence_ : persistence_ptr
}.

Definition with_mutex (b : bool) (s : t) : t :=
  mk b (nodes_ s) (edges_ s) (persistence_ s).
Definition with_nodes (n : gmap NodeId HyperNode.t) (s : t) : t :=
  mk (substrate_mutex_ s) n (edges_ s) (persistence_ s).
Definition with_edges (e : gmap EdgeId HyperEdge.t) (s : t) : t :=
  mk (substrate_mutex_ s) (nodes_ s) e (persistence_ s).
Definition with_persistence (p : persistence_ptr) (s : t) : t :=
  mk (substrate_mutex_ s) (nodes_ s) (edges_ s) p.

(** A call [persistence_->f(...)] whose result is dropped. *)
Definition persist {A} (f : persistence_ptr → A * persistence_ptr) (s : t) : t :=
  with_persistence (f (persistence_ s)).2 s.

(** The constructor: a null pointer is replaced by a fresh in-memory
    strategy. *)
Definition new (persistence : option persistence_ptr) : t :=
  mk false ∅ ∅
     (match persistence with
      | Some p => p
      | None => Memory MemorySubstratePersistence.empty
      end).

(** [std::lock_guard<std::mutex> lock(substrate_mutex_)] around [body]:
    taken on entry, released when [body] returns or throws. *)
Definition lock_guard {A} (body : t → Outcome t A) : t → Outcome t A :=
  λ s,
    if substrate_mutex_ s then Deadlock
    else match body (with_mutex true s) with
         | Returns a s' => Returns a (with_mutex false s')
         | Throws e s' => Throws e (with_mutex false s')
         | Deadlock => Deadlock
         | Diverges => Diverges
         end.

(** *** Node management *)

Definition add_node (node : HyperNode.t) : t → Outcome t bool :=
  lock_guard (λ s,
    match nodes_ s !! HyperNode.id node with
    | Some _ => Returns false s
    | None =>
        let s := with_nodes (<[HyperNode.id node := node]> (nodes_ s)) s in
        let s := persist (SubstratePersistence.save_node node) s in
        Returns true s
    end).

(** The first loop of [remove_node]: the ids of the edges that hold [id],
    pushed in iteration order. *)
Definition edges_to_remove (id : NodeId) (s : t) : list EdgeId :=
  foldl (λ acc (p : EdgeId * HyperEdge.t),
           if bool_decide (id ∈ HyperEdge.connected_nodes p.2)
           then acc ++ [p.1] else acc)
        [] (map_to_list (edges_ s)).

(** One round of its second loop. *)
Definition erase_edge (s : t) (edge_id : EdgeId) : t :=
  let s := with_edges (delete edge_id (edges_ s)) s in
  persist (SubstratePersistence.remove_edge edge_id) s.

Definition remove_node (id : NodeId) : t → Outcome t bool :=
  lock_guard (λ s,
    let s := foldl erase_edge s (edges_to_remove id s) in
    match nodes_ s !! id with
    | Some _ =>
        let s := with_nodes (delete id (nodes_ s)) s in
        let s := persist (SubstratePersistence.remove_node id) s in
        Returns true s
    | None => Returns false s
    end).

Definition update_node (node : HyperNode.t) : t → Outcome t bool :=
  lock_guard (λ s,
    match nodes_ s !! HyperNode.id node with
    | None => Returns false s
    | Some _ =>
        let s := with_nodes (<[HyperNode.id node := node]> (nodes_ s)) s in
        let s := persist (SubstratePersistence.save_node node) s in
        Returns true s
    end).

(** [get_node(id, node&)]: [Some] is [true] with [node] assigned. *)
Definition get_node (id : NodeId) : t → Outcome t (option HyperNode.t) :=
  lock_guard (λ s, Returns (nodes_ s !! id) s).

Definition node_exists (id : NodeId) : t → Outcome t bool :=
  lock_guard (λ s, Returns (bool_decide (is_Some (nodes_ s !! id))) s).

(** *** Edge management *)

Definition referential_integrity_error (node_id : NodeId) : exception :=
  invalid_argument (String.append "Edge references non-existent node: " node_id).

Fixpoint validate_members (members : list NodeId) (s : t) : Outcome t unit :=
  match members with
  | [] => Returns () s
  | node_id :: rest =>
      match nodes_ s !! node_id with
      | None => Throws (referential_integrity_error node_id) s
      | Some _ => validate_members rest s
      end
  end.

Definition validate_edge_consistency (edge : HyperEdge.t) : t → Outcome t unit :=
  validate_members (elements (HyperEdge.connected_nodes edge)).

Definition add_edge (edge : HyperEdge.t) : t → Outcome t bool :=
  lock_guard (λ s,
    match edges_ s !! HyperEdge.id edge with
    | Some _ => Returns false s
    | None =>
        (_ <~ validate_edge_consistency edge ;;
         λ s,
           let s := with_edges (<[HyperEdge.id edge := edge]> (edges_ s)) s in
           let s := persist (SubstratePersistence.save_edge edge) s in
           Returns true s) s
    end).

Definition remove_edge (id : EdgeId) : t → Outcome t bool :=
  lock_guard (λ s,
    match edges_ s !! id with
    | Some _ =>
        let s := with_edges (delete id (edges_ s)) s in
        let s := persist (SubstratePersistence.remove_edge id) s in
        Returns true s
    | None => Returns false s
    end).

Definition update_edge (edge : HyperEdge.t) : t → Outcome t bool :=
  lock_guard (λ s,
    match edges_ s !! HyperEdge.id edge with
    | None => Returns false s
    | Some _ =>
        (_ <~ validate_edge_consistency edge ;;
         λ s,
           let s := with_edges (<[HyperEdge.id edge := edge]> (edges_ s)) s in
           let s := persist (SubstratePersistence.save_edge edge) s in
           Returns true s) s
    end).

Definition get_edge (id : EdgeId) : t → Outcome t (option HyperEdge.t) :=
  lock_guard (λ s, Returns (edges_ s !! id) s).

Definition edge_exists (id : EdgeId) : t → Outcome t bool :=
  lock_guard (λ s, Returns (bool_decide (is_Some (edges_ s !! id))) s).

(** *** Relationship queries *)

(** The [std::set<NodeId> connected] that [get_connected_nodes] fills. *)
Definition connected_set (id : NodeId) (edges : gmap EdgeId HyperEdge.t)
  : gset NodeId :=
  foldl (λ connected (p : EdgeId * HyperEdge.t),
           if bool_decide (id ∈ HyperEdge.connected_nodes p.2)
           then foldl (λ connected node_id,
                         if bool_decide (node_id ≠ id)
                         then {[node_id]} ∪ connected else connected)
                      connected (elements (HyperEdge.connected_nodes p.2))
           else connected)
        ∅ (map_to_list edges).

(** What [get_connected_nodes] does under its lock: the set, copied to a
    vector in its order. *)
Definition connected_nodes_body (id : NodeId) : t → Outcome t (list NodeId) :=
  λ s, Returns (merge_sort string_le (elements (connected_set id (edges_ s)))) s.

Definition get_connected_nodes (id : NodeId) : t → Outcome t (list NodeId) :=
  lock_guard (connected_nodes_body id).

(** The ids of the stored edges that hold [id], pushed in iteration order. *)
Definition get_incident_edges (id : NodeId) : t → Outcome t (list EdgeId) :=
  lock_guard (λ s,
    Returns
      (foldl (λ incident (p : EdgeId * HyperEdge.t),
                if bool_decide (id ∈ HyperEdge.connected_nodes p.2)
                then incident ++ [p.1] else incident)
             [] (map_to_list (edges_ s))) s).

(** The members of one edge, the node asked about or not; no members for
    an id that is not stored. *)
Definition get_neighbors_via_edge (edge_id : EdgeId) : t → Outcome t (list NodeId) :=
  lock_guard (λ s,
    Returns
      (match edges_ s !! edge_id with
       | Some edge => elements (HyperEdge.connected_nodes edge)
       | None => []
       end) s).

(** *** Substrate analysis *)

Definition find_nodes_by_attribute (key value : string)
  : t → Outcome t (list NodeId) :=
  lock_guard (λ s,
    Returns
      (foldl (λ matches (p : NodeId * HyperNode.t),
                match HyperNode.attributes p.2 !! key with
                | Some found =>
                    if bool_decide (found = value) then matches ++ [p.1]
                    else matches
                | None => matches
                end)
             [] (map_to_list (nodes_ s))) s).

Definition find_edges_by_attribute (key value : string)
  : t → Outcome t (list EdgeId) :=
  lock_guard (λ s,
    Returns
      (foldl (λ matches (p : EdgeId * HyperEdge.t),
                match HyperEdge.attributes p.2 !! key with
                | Some found =>
                    if bool_decide (found = value) then matches ++ [p.1]
                    else matches
                | None => matches
                end)
             [] (map_to_list (edges_ s))) s).

(** The inner loop of [find_nodes_by_echo_pattern] for one node: the
    first entry equal to [pattern] pushes the node and breaks. *)
Fixpoint scan_echo_patterns (node_id : NodeId) (echo_patterns : list string)
    (pattern : string) (matches : list NodeId) : list NodeId :=
  match echo_patterns with
  | [] => matches
  | echo_pattern :: rest =>
      if bool_decide (echo_pattern = pattern) then matches ++ [node_id]
      else scan_echo_patterns node_id rest pattern matches
  end.

Definition find_nodes_by_echo_pattern (pattern : string)
  : t → Outcome t (list NodeId) :=
  lock_guard (λ s,
    Returns
      (foldl (λ matches (p : NodeId * HyperNode.t),
                scan_echo_patterns p.1
                  (echo_patterns (HyperNode.echo_signature p.2)) pattern matches)
             [] (map_to_list (nodes_ s))) s).

(** *** Metrics *)

Definition node_count : t → Outcome t nat :=
  lock_guard (λ s, Returns (size (nodes_ s)) s).

Definition edge_count : t → Outcome t nat :=
  lock_guard (λ s, Returns (size (edges_ s)) s).

(** The two nested index loops of [calculate_clustering_coefficient]:
    [i] walks the vector, [j] the part after [i]; each round calls
    [lookup (neighbors[i])] and searches [neighbors[j]] in its result. *)
Fixpoint count_after (lookup : NodeId → t → Outcome t (list NodeId))
    (ni : NodeId) (after : list NodeId) (actual_edges : Z)
  : t → Outcome t Z :=
  match after with
  | [] => ret actual_edges
  | nj :: after' =>
      neighbor_connections <~ lookup ni ;;
      count_after lookup ni after'
        (if bool_decide (nj ∈ neighbor_connections)
         then to_size_t (actual_edges + 1) else actual_edges)
  end.

Fixpoint count_pairs (lookup : NodeId → t → Outcome t (list NodeId))
    (neighbors : list NodeId) (actual_edges : Z) : t → Outcome t Z :=
  match neighbors with
  | [] => ret actual_edges
  | ni :: after =>
      actual_edges <~ count_after lookup ni after actual_edges ;;
      count_pairs lookup after actual_edges
  end.

(** The body of [calculate_clustering_coefficient] under its lock, with
    the function it calls for the connected nodes as [lookup]. *)
Definition clustering_coefficient_with
    (lookup : NodeId → t → Outcome t (list NodeId)) (id : NodeId)
  : t → Outcome t float :=
  neighbors <~ lookup id ;;
  let n := Z.of_nat (length neighbors) in
  if n <? 2 then ret 0%float
  else
    let possible_edges := to_size_t (n * to_size_t (n - 1)) / 2 in
    actual_edges <~ count_pairs lookup neighbors 0 ;;
    ret (double_of_size_t actual_edges / double_of_size_t possible_edges)%float.

(** The code calls the public, locking [get_connected_nodes]. *)
Definition calculate_clustering_coefficient (id : NodeId) : t → Outcome t float :=
  lock_guard (clustering_coefficient_with get_connected_nodes id).

Definition calculate_substrate_density : t → Outcome t float :=
  lock_guard (λ s,
    let n := Z.of_nat (size (nodes_ s)) in
    if n <? 2 then Returns 0%float s
    else
      let possible_connections := to_size_t (n * to_size_t (n - 1)) / 2 in
      Returns (double_of_size_t (Z.of_nat (size (edges_ s)))
               / double_of_size_t possible_connections)%float s).

(** *** Activation propagation *)

(** The locals of [get_reachable_nodes]: the queue of (node, hops) pairs,
    the visited set and the result vector. *)
Record bfs_state := mk_bfs {
  queue : list (NodeId * Z);
  visited : gset NodeId;
  reachable : list NodeId
}.

(** The body of the innermost loop, for one [neighbor_id]. *)
Definition visit_neighbor (current_id : NodeId) (hops : Z)
    (st : bfs_state) (neighbor_id : NodeId) : bfs_state :=
  if bool_decide (neighbor_id ≠ current_id)
     && bool_decide (neighbor_id ∉ visited st)
  then mk_bfs (queue st ++ [(neighbor_id, hops + 1)])
              ({[neighbor_id]} ∪ visited st)
              (reachable st ++ [neighbor_id])
  else st.

(** The body of the loop over [edges_], for one edge. *)
Definition scan_edge (current_id : NodeId) (hops : Z)
    (st : bfs_state) (p : EdgeId * HyperEdge.t) : bfs_state :=
  if bool_decide (current_id ∈ HyperEdge.connected_nodes p.2)
  then foldl (visit_neighbor current_id hops) st
             (elements (HyperEdge.connected_nodes p.2))
  else st.

Definition expand (edges : gmap EdgeId HyperEdge.t)
    (current_id : NodeId) (hops : Z) (st : bfs_state) : bfs_state :=
  foldl (scan_edge current_id hops) st (map_to_list edges).

(** The [while (!queue.empty())] loop, [fuel] rounds of it at most:
    [None] when the rounds run out before the queue does. *)
Fixpoint bfs_loop (fuel : nat) (edges : gmap EdgeId HyperEdge.t)
    (max_hops : Z) (st : bfs_state) : option (list NodeId) :=
  match fuel with
  | O => None
  | S fuel =>
      match queue st with
      | [] => Some (reachable st)
      | (current_id, hops) :: rest =>
          let st := mk_bfs rest (visited st) (reachable st) in
          if max_hops <=? hops then bfs_loop fuel edges max_hops st
          else bfs_loop fuel edges max_hops (expand edges current_id hops st)
      end
  end.

(** Every id that is a member of some stored edge. *)
Definition member_ids (edges : gmap EdgeId HyperEdge.t) : gset NodeId :=
  ⋃ (HyperEdge.connected_nodes <$> (map_to_list edges).*2).

(** A node enters the queue once, when it enters [visited], so the loop
    makes at most one round per member id, one for the source and one to
    see the queue empty ([get_reachable_nodes_total] below). *)
Definition bfs_fuel (edges : gmap EdgeId HyperEdge.t) : nat :=
  S (S (size (member_ids edges))).

Definition bfs_init (source : NodeId) : bfs_state :=
  mk_bfs [(source, 0)] {[source]} [].

Definition get_reachable_nodes (source : NodeId) (max_hops : Z) (s : t)
  : option (list NodeId) :=
  bfs_loop (bfs_fuel (edges_ s)) (edges_ s) max_hops (bfs_init source).

(** [virtual void on_activation_propagation(...) {}]: the base class's
    hook does nothing. *)
Definition on_activation_propagation (source : NodeId)
    (targets : list NodeId) (activation : Weight) : t → Outcome t unit :=
  ret ().

(** One round of the loop over [reachable]. *)
Definition receive_activation (initial_activation : Weight)
    (s : t) (target_id : NodeId) : t :=
  match nodes_ s !! target_id with
  | Some target =>
      let propagated_activation := (initial_activation * lit_0_7)%float in
      with_nodes
        (<[target_id :=
             HyperNode.set_activation_level
               (HyperNode.activation_level target + propagated_activation)%float
               target]> (nodes_ s)) s
  | None => s
  end.

Definition propagate_activation (source_id : NodeId)
    (initial_activation : Weight) : t → Outcome t unit :=
  lock_guard (λ s,
    match nodes_ s !! source_id with
    | None => Returns () s
    | Some source =>
        let s :=
          with_nodes
            (<[source_id :=
                 HyperNode.set_activation_level initial_activation source]>
               (nodes_ s)) s in
        match get_reachable_nodes source_id 2 s with
        | None => Diverges
        | Some reachable =>
            let s := foldl (receive_activation initial_activation) s reachable in
            on_activation_propagation source_id reachable initial_activation s
        end
    end).

Definition update_node_activation (id : NodeId) (activation : Weight)
  : t → Outcome t unit :=
  lock_guard (λ s,
    match nodes_ s !! id with
    | Some node =>
        Returns ()
          (with_nodes
             (<[id := HyperNode.set_activation_level activation node]> (nodes_ s)) s)
    | None => Returns () s
    end).

Definition get_node_activation (id : NodeId) : t → Outcome t Weight :=
  lock_guard (λ s,
    Returns (match nodes_ s !! id with
             | Some node => HyperNode.activation_level node
             | None => 0%float
             end) s).

(** *** Persistence operations *)

(** The loops of [save_substrate]: stop at the first save that fails. *)
Fixpoint save_nodes (l : list (NodeId * HyperNode.t)) (p : persistence_ptr)
  : bool * persistence_ptr :=
  match l with
  | [] => (true, p)
  | (_, node) :: l =>
      let r := SubstratePersistence.save_node node p in
      if r.1 then save_nodes l r.2 else (false, r.2)
  end.

Fixpoint save_edges (l : list (EdgeId * HyperEdge.t)) (p : persistence_ptr)
  : bool * persistence_ptr :=
  match l with
  | [] => (true, p)
  | (_, edge) :: l =>
      let r := SubstratePersistence.save_edge edge p in
      if r.1 then save_edges l r.2 else (false, r.2)
  end.

Definition save_substrate : t → Outcome t bool :=
  lock_guard (λ s,
    let r := save_nodes (map_to_list (nodes_ s)) (persistence_ s) in
    if r.1 then
      let r := save_edges (map_to_list (edges_ s)) r.2 in
      Returns r.1 (with_persistence r.2 s)
    else Returns false (with_persistence r.2 s)).

(** One round of each loop of [load_substrate]. *)
Definition load_one_node (s : t) (node_id : NodeId) : t :=
  let r := SubstratePersistence.load_node node_id (persistence_ s) in
  let s := with_persistence r.2 s in
  match r.1 with
  | Some node => with_nodes (<[node_id := node]> (nodes_ s)) s
  | None => s
  end.

Definition load_one_edge (s : t) (edge_id : EdgeId) : t :=
  let r := SubstratePersistence.load_edge edge_id (persistence_ s) in
  let s := with_persistence r.2 s in
  match r.1 with
  | Some edge => with_edges (<[edge_id := edge]> (edges_ s)) s
  | None => s
  end.

Definition load_substrate : t → Outcome t bool :=
  lock_guard (λ s,
    let s := with_edges ∅ (with_nodes ∅ s) in
    let r := SubstratePersistence.get_all_node_ids (persistence_ s) in
    let s := foldl load_one_node (with_persistence r.2 s) r.1 in
    let r := SubstratePersistence.get_all_edge_ids (persistence_ s) in
    let s := foldl load_one_edge (with_persistence r.2 s) r.1 in
    Returns true s).

Definition clear_substrate : t → Outcome t unit :=
  lock_guard (λ s,
    let s := with_edges ∅ (with_nodes ∅ s) in
    match persistence_ s with
    | Memory memory_persistence =>
        Returns ()
          (with_persistence
             (Memory (MemorySubstratePersistence.clear memory_persistence)) s)
    | External _ => Returns () s
    end).
End Substrate.
End HypergraphSubstrate.

(** ** The cognitive kernel *)

(** [enum class CognitiveState]. *)
Inductive CognitiveState :=
  | DORMANT | AWAKENING | PROCESSING | LEARNING | REASONING | CREATING | REFLECTING.

#[global] Instance CognitiveState_eq_dec : EqDecision CognitiveState.
Proof. solve_decision. Defined.

(** [std::string::empty] and [haystack.find(needle)] (from position 0;
    [None] is [npos]). *)
Definition empty (s : string) : bool :=
  match s with EmptyString => true | String _ _ => false end.
Definition find (haystack needle : string) : option nat :=
  Stdlib.Strings.String.index 0 needle haystack.

(** [std::to_string] of an unsigned integer: its decimal digits. *)
Definition to_string (n : Z) : string := pretty (Z.to_N n).

(** [class CognitiveMemory]. *)
Module CognitiveMemory.
Record t := mk { memory_store_ : gmap string string }.
Definition store (key value : string) (m : t) : t :=
  mk (<[key := value]> (memory_store_ m)).
Definition retrieve (key : string) (m : t) : string :=
  default EmptyString (memory_store_ m !! key).
Definition exists_ (key : string) (m : t) : bool :=
  bool_decide (is_Some (memory_store_ m !! key)).
Definition clear (m : t) : t := mk ∅.
Definition size (m : t) : nat := base.size (memory_store_ m).
End CognitiveMemory.

Module CognitiveKernel.
Section Kernel.
(** The standard library's [std::hash<std::string>] and
    [std::to_string(double)], as the implementation in use defines them. *)
Variable hasher : string → Z.
Variable double_to_string : float → string.
(** The data members a derived class adds. *)
Variable Derived : Type.

Record t := mk {
  echo_identity_ : DeepTreeEcho;
  current_state_ : CognitiveState;
  cognitive_memory_ : CognitiveMemory.t;
  process_counter_ : Z;
  derived_ : Derived
}.

(** The two virtual hooks, as the dynamic class of the object defines
    them; the base class's do nothing. *)
Variable on_cognitive_process : string → t → Outcome t unit.
Variable on_state_transition : CognitiveState → CognitiveState → t → Outcome t unit.

Definition with_state (st : CognitiveState) (k : t) : t :=
  mk (echo_identity_ k) st (cognitive_memory_ k) (process_counter_ k) (derived_ k).
Definition with_identity (e : DeepTreeEcho) (k : t) : t :=
  mk e (current_state_ k) (cognitive_memory_ k) (process_counter_ k) (derived_ k).
Definition with_counter (c : Z) (k : t) : t :=
  mk (echo_identity_ k) (current_state_ k) (cognitive_memory_ k) c (derived_ k).
Definition remember (key value : string) (k : t) : t :=
  mk (echo_identity_ k) (current_state_ k)
     (CognitiveMemory.store key value (cognitive_memory_ k))
     (process_counter_ k) (derived_ k).

(** The constructor. *)
Definition new (d : Derived) : t :=
  mk DeepTreeEcho_default DORMANT (CognitiveMemory.mk ∅) 0 d.

Definition set_cognitive_state (new_state : CognitiveState) : t → Outcome t unit :=
  λ k,
    let old_state := current_state_ k in
    let k := with_state new_state k in
    if bool_decide (old_state ≠ new_state)
    then on_state_transition old_state new_state k
    else Returns () k.

Definition get_cognitive_state (k : t) : CognitiveState := current_state_ k.

(** [base_resonance]: both hashes are [size_t]; the difference is taken
    in [double], the maximum in [size_t] and then converted. *)
Definition base_resonance (input_hash identity_hash : Z) : float :=
  (1 / (1 + abs (double_of_size_t input_hash - double_of_size_t identity_hash)
            / double_of_size_t (Z.max input_hash identity_hash)))%float.

(** The loop over [echo_patterns]. *)
Definition pattern_influence (patterns : list string) (input_data : string) : float :=
  foldl (λ influence pattern,
           match find input_data pattern with
           | Some _ => (influence * lit_1_2)%float
           | None => influence
           end)
        1%float patterns.

Definition calculate_resonance (input_data : string) (k : t) : float :=
  if empty input_data || empty (identity_signature (echo_identity_ k))
  then 0%float
  else
    let input_hash := to_size_t (hasher input_data) in
    let identity_hash := to_size_t (hasher (identity_signature (echo_identity_ k))) in
    (base_resonance input_hash identity_hash
     * pattern_influence (echo_patterns (echo_identity_ k)) input_data
     * cognitive_weight (echo_identity_ k))%float.

(** [initialize]: the loop stores pattern [i] under
    ["deep_tree_echo.pattern." + std::to_string(i)]. *)
Fixpoint remember_patterns (i : Z) (patterns : list string) (k : t) : t :=
  match patterns with
  | [] => k
  | pattern :: rest =>
      remember_patterns (i + 1) rest
        (remember (String.append "deep_tree_echo.pattern." (to_string i)) pattern k)
  end.

Definition initialize (echo_identity : DeepTreeEcho) : t → Outcome t unit :=
  λ k,
    let k := with_identity echo_identity k in
    (_ <~ set_cognitive_state AWAKENING ;;
     λ k,
       let k := remember "deep_tree_echo.identity" (identity_signature echo_identity) k in
       let k := remember "deep_tree_echo.frequency"
                  (to_string (resonance_frequency echo_identity)) k in
       let k := remember "deep_tree_echo.weight"
                  (double_to_string (cognitive_weight echo_identity)) k in
       Returns () (remember_patterns 0 (echo_patterns echo_identity) k)) k.

(** The [try] block of [process_cognitive_signal]. *)
Definition process_attempt (signal_data : string) : t → Outcome t unit :=
  λ k,
    let resonance := calculate_resonance signal_data k in
    let k := remember "last_signal" signal_data k in
    let k := remember "last_resonance" (double_to_string resonance) k in
    let count := to_size_t (process_counter_ k + 1) in
    let k := with_counter count k in
    let k := remember "process_count" (to_string count) k in
    on_cognitive_process signal_data k.

(** [try { ... } catch (...) { set_cognitive_state(old_state); throw; }]
    between the two state changes. *)
Definition process_cognitive_signal (signal_data : string) : t → Outcome t unit :=
  λ k,
    let old_state := current_state_ k in
    (_ <~ set_cognitive_state PROCESSING ;;
     λ k,
       match process_attempt signal_data k with
       | Returns _ k => set_cognitive_state REFLECTING k
       | Throws e k => (_ <~ set_cognitive_state old_state ;; Throws e) k
       | Deadlock => Deadlock
       | Diverges => Diverges
       end) k.
End Kernel.
End CognitiveKernel.

(** ** The processors *)

(** Of MiNiFi's core, which lies outside this extension, the processors
    use: of [core::FlowFile] its UUID, its attribute map as a range-for
    walks it, and [addAttribute], whose result every caller drops; of
    [core::ProcessSession] the flow file [get()] hands out, the content
    [read] delivers to the callback, [clone] and [transfer]; of
    [core::ProcessorImpl] the processor's name, UUID and type; the system
    clock.  They enter as parameters; a session is followed by the
    transfers made through it.  The logger is left out. *)
Module core.
Class FlowFile (F : Type) := {
  getUUIDStr : F → string;
  getAttributes : F → list (string * string);
  addAttribute : string → string → F → F
}.
End core.

(** [std::to_string] of a signed integer. *)
Definition int_to_string (n : Z) : string := pretty n.

(** The literals [0.1], [0.2], [0.5], [0.6], [0.8] and [0.9]. *)
Definition lit_0_1 : float := 0x1.999999999999ap-4%float.
Definition lit_0_2 : float := 0x1.999999999999ap-3%float.
Definition lit_0_5 : float := 0x1p-1%float.
Definition lit_0_6 : float := 0x1.3333333333333p-1%float.
Definition lit_0_8 : float := 0x1.999999999999ap-1%float.
Definition lit_0_9 : float := 0x1.ccccccccccccdp-1%float.

(** [class CognitiveProcessor] (CognitiveKernel.h, CognitiveKernel.cpp). *)
Module CognitiveProcessor.
Section Processor.
Variable hasher : string → Z.
Variable double_to_string : float → string.
(** [getName()] and [getUUIDStr()] of the processor. *)
Variable getName : string.
Variable getUUIDStr : string.

(** The member [cognitive_kernel_] is a [CognitiveKernel] held by value:
    an object of the base class, whose two hooks do nothing. *)
Abbreviation kernel := (CognitiveKernel.t unit).

Definition on_cognitive_process (data : string) : kernel → Outcome kernel unit :=
  ret ().
Definition on_state_transition (from to : CognitiveState)
  : kernel → Outcome kernel unit :=
  ret ().

Definition set_cognitive_state : CognitiveState → kernel → Outcome kernel unit :=
  CognitiveKernel.set_cognitive_state unit on_state_transition.
Definition process_cognitive_signal : string → kernel → Outcome kernel unit :=
  CognitiveKernel.process_cognitive_signal hasher double_to_string unit
    on_cognitive_process on_state_transition.
Definition calculate_resonance : string → kernel → float :=
  CognitiveKernel.calculate_resonance hasher unit.

(** [initialize], after [ProcessorImpl::initialize()]. *)
Definition echo_identity : DeepTreeEcho :=
  mkDeepTreeEcho (getName +:+ "_cognitive_identity")
    (to_size_t (hasher getUUIDStr))
    ["cognitive"; "process"; "echo"; getName]
    1%float.

Definition initialize : kernel → Outcome kernel unit :=
  CognitiveKernel.initialize double_to_string unit on_state_transition
    echo_identity.

(** [onTrigger] of a derived class whose objects, with the session they
    work on, are the [W]: [cognitive_kernel] reads the kernel member,
    [with_cognitive_kernel] writes it, and [process_with_cognition] is the
    derived class's override of the pure virtual method. *)
Section OnTrigger.
Variable W : Type.
Variable cognitive_kernel : W → kernel.
Variable with_cognitive_kernel : kernel → W → W.
Variable process_with_cognition : W → Outcome W unit.

(** A call on the kernel member. *)
Definition on_kernel {A} (call : kernel → Outcome kernel A) : W → Outcome W A :=
  λ w,
    match call (cognitive_kernel w) with
    | Returns a k => Returns a (with_cognitive_kernel k w)
    | Throws e k => Throws e (with_cognitive_kernel k w)
    | Deadlock => Deadlock
    | Diverges => Diverges
    end.

(** [try { ... } catch (const std::exception& ex) { ...; throw; }]: the
    handler takes a [std::exception] only; anything else passes it
    untouched. *)
Definition onTrigger : W → Outcome W unit :=
  λ w,
    match (_ <~ on_kernel (set_cognitive_state PROCESSING) ;;
           _ <~ process_with_cognition ;;
           on_kernel (set_cognitive_state REFLECTING)) w with
    | Returns a w => Returns a w
    | Throws ex w =>
        if is_std_exception ex
        then (_ <~ on_kernel (set_cognitive_state DORMANT) ;; Throws ex) w
        else Throws ex w
    | Deadlock => Deadlock
    | Diverges => Diverges
    end.
End OnTrigger.
End Processor.
End CognitiveProcessor.

(** [class CognitiveEchoProcessor] (processors/CognitiveEchoProcessor.h,
    .cpp). *)
Module CognitiveEchoProcessor.
Section Echo.
Context {F : Type} `{!core.FlowFile F}.
Variable hasher : string → Z.
Variable double_to_string : float → string.
(** [getProcessorType()] of the processor and [session.clone]. *)
Variable getProcessorType : string.
Variable clone : F → option F.

Abbreviation kernel := (CognitiveKernel.t unit).

Inductive Relationship := Success | HighResonance | LowResonance.

(** The processor's members, the flow file behind the [shared_ptr] and
    the transfers made through the session. *)
Record t := mk {
  cognitive_kernel_ : kernel;
  echo_pattern_ : string;
  resonance_threshold_ : float;
  memory_store_enabled_ : bool;
  flow_file_ : F;
  transfers_ : list (F * Relationship)
}.

Definition with_cognitive_kernel (k : kernel) (p : t) : t :=
  mk k (echo_pattern_ p) (resonance_threshold_ p) (memory_store_enabled_ p)
     (flow_file_ p) (transfers_ p).
Definition with_flow_file (f : F) (p : t) : t :=
  mk (cognitive_kernel_ p) (echo_pattern_ p) (resonance_threshold_ p)
     (memory_store_enabled_ p) f (transfers_ p).

(** The constructor, [setup_properties] included, for a kernel and a
    session as they are found. *)
Definition new (k : kernel) (flow_file : F) : t :=
  mk k "cognitive_echo" lit_0_5 true flow_file [].

Definition on_kernel {A} (call : kernel → Outcome kernel A) : t → Outcome t A :=
  CognitiveProcessor.on_kernel t cognitive_kernel_ with_cognitive_kernel call.

(** [session.transfer(flow_file, relationship)]. *)
Definition transfer (flow_file : F) (relationship : Relationship)
  : t → Outcome t unit :=
  λ p,
    Returns ()
      (mk (cognitive_kernel_ p) (echo_pattern_ p) (resonance_threshold_ p)
          (memory_store_enabled_ p) (flow_file_ p)
          (transfers_ p ++ [(flow_file, relationship)])).

(** [kernel.get_memory().store(key, value)]. *)
Definition store (key value : string) : t → Outcome t unit :=
  λ p,
    Returns ()
      (with_cognitive_kernel
         (CognitiveKernel.remember unit key value (cognitive_kernel_ p)) p).

(** The [switch] over [kernel.get_cognitive_state()]. *)
Definition cognitive_state_str (state : CognitiveState) : string :=
  match state with
  | DORMANT => "dormant"
  | AWAKENING => "awakening"
  | PROCESSING => "processing"
  | LEARNING => "learning"
  | REASONING => "reasoning"
  | CREATING => "creating"
  | REFLECTING => "reflecting"
  end.

(** The loop of [add_cognitive_attributes] over the echo patterns. *)
Fixpoint add_pattern_attributes (i : Z) (patterns : list string) (flow_file : F)
  : F :=
  match patterns with
  | [] => flow_file
  | pattern :: rest =>
      add_pattern_attributes (i + 1) rest
        (core.addAttribute ("cognitive.echo.pattern." +:+ to_string i) pattern
           flow_file)
  end.

(** [add_cognitive_attributes], a [const] method; [now] is the clock's
    reading in milliseconds. *)
Definition add_cognitive_attributes (resonance : float)
    (cognitive_state : string) (now : Z) (p : t) (flow_file : F) : F :=
  let echo_identity := CognitiveKernel.echo_identity_ unit (cognitive_kernel_ p) in
  let flow_file :=
    core.addAttribute "cognitive.echo.identity"
      (identity_signature echo_identity) flow_file in
  let flow_file :=
    core.addAttribute "cognitive.echo.frequency"
      (to_string (resonance_frequency echo_identity)) flow_file in
  let flow_file :=
    core.addAttribute "cognitive.echo.weight"
      (double_to_string (cognitive_weight echo_identity)) flow_file in
  let flow_file :=
    core.addAttribute "cognitive.resonance" (double_to_string resonance) flow_file in
  let flow_file := core.addAttribute "cognitive.state" cognitive_state flow_file in
  let flow_file :=
    core.addAttribute "cognitive.processor" getProcessorType flow_file in
  let flow_file :=
    core.addAttribute "cognitive.timestamp" (int_to_string now) flow_file in
  add_pattern_attributes 0 (echo_patterns echo_identity) flow_file.

(** The [try] block of [process_with_cognition]; [content] is what
    [session.read] delivered. *)
Definition process_attempt (content : string) (now : Z) : t → Outcome t unit :=
  _ <~ on_kernel (CognitiveProcessor.process_cognitive_signal hasher
                    double_to_string content) ;;
  λ p,
    let resonance :=
      CognitiveProcessor.calculate_resonance hasher content (cognitive_kernel_ p) in
    let cognitive_state_str :=
      cognitive_state_str
        (CognitiveKernel.get_cognitive_state unit (cognitive_kernel_ p)) in
    let p :=
      with_flow_file
        (add_cognitive_attributes resonance cognitive_state_str now p
           (flow_file_ p)) p in
    (_ <~ (if memory_store_enabled_ p
           then (_ <~ store "last_processed_uuid" (core.getUUIDStr (flow_file_ p)) ;;
                 store "last_content_hash" (to_string (to_size_t (hasher content))))
           else ret ()) ;;
     _ <~ (λ p,
             if (resonance_threshold_ p <=? resonance)%float
             then transfer (flow_file_ p) HighResonance p
             else transfer (flow_file_ p) LowResonance p) ;;
     λ p,
       match clone (flow_file_ p) with
       | Some success_flow => transfer success_flow Success p
       | None => Returns () p
       end) p.

(** [process_with_cognition]; [got] is what [session.get()] handed out. *)
Definition process_with_cognition (got : option F) (content : string) (now : Z)
  : t → Outcome t unit :=
  match got with
  | None => ret ()
  | Some flow_file =>
      λ p,
        match process_attempt content now (with_flow_file flow_file p) with
        | Returns a p => Returns a p
        | Throws ex p =>
            if is_std_exception ex then transfer (flow_file_ p) Success p
            else Throws ex p
        | Deadlock => Deadlock
        | Diverges => Diverges
        end
  end.

(** [CognitiveProcessor::onTrigger] on an echo processor. *)
Definition onTrigger (got : option F) (content : string) (now : Z)
  : t → Outcome t unit :=
  CognitiveProcessor.onTrigger t cognitive_kernel_ with_cognitive_kernel
    (process_with_cognition got content now).
End Echo.
End CognitiveEchoProcessor.

(** ** Text of a flow file *)

(** [isspace], [::ispunct] and [::tolower] in the "C" locale.  On the
    bytes above 127 they are taken as the C library has them: no space, no
    punctuation, unchanged. *)
Definition isspace (c : ascii) : bool :=
  let n := nat_of_ascii c in
  ((9 <=? n)%nat && (n <=? 13)%nat) || (n =? 32)%nat.

Definition ispunct (c : ascii) : bool :=
  let n := nat_of_ascii c in
  ((33 <=? n)%nat && (n <=? 47)%nat) || ((58 <=? n)%nat && (n <=? 64)%nat)
  || ((91 <=? n)%nat && (n <=? 96)%nat) || ((123 <=? n)%nat && (n <=? 126)%nat).

Definition tolower (c : ascii) : ascii :=
  let n := nat_of_ascii c in
  if (65 <=? n)%nat && (n <=? 90)%nat then ascii_of_nat (n + 32) else c.

(** [while (iss >> word)]: the maximal runs of characters that are not
    white space, in their order; [word] is the run being read. *)
Fixpoint extract_words (content : string) (word : string) : list string :=
  match content with
  | EmptyString => if empty word then [] else [word]
  | String c rest =>
      if isspace c
      then if empty word then extract_words rest EmptyString
           else word :: extract_words rest EmptyString
      else extract_words rest (word +:+ String c EmptyString)
  end.

(** [word.erase(std::remove_if(..., ::ispunct), word.end())] and
    [std::transform(..., ::tolower)]. *)
Fixpoint remove_punctuation (word : string) : string :=
  match word with
  | EmptyString => EmptyString
  | String c rest =>
      if ispunct c then remove_punctuation rest
      else String c (remove_punctuation rest)
  end.

Fixpoint to_lower (word : string) : string :=
  match word with
  | EmptyString => EmptyString
  | String c rest => String (tolower c) (to_lower rest)
  end.

(** The [unique_words] of [create_content_node]. *)
Definition significant_words (content : string) : gset string :=
  foldl (λ unique_words word,
           let word := to_lower (remove_punctuation word) in
           if (3 <? String.length word)%nat then {[word]} ∪ unique_words
           else unique_words)
        ∅ (extract_words content EmptyString).

(** [std::set_intersection] of two sorted ranges. *)
Fixpoint set_intersection (first1 : list string) : list string → list string :=
  fix against (first2 : list string) : list string :=
    match first1, first2 with
    | [], _ | _, [] => []
    | a :: rest1, b :: rest2 =>
        if Stdlib.Strings.String.ltb a b then set_intersection rest1 first2
        else if Stdlib.Strings.String.ltb b a then against rest2
        else a :: set_intersection rest1 rest2
    end.

(** [class HypergraphProcessor] (HypergraphSubstrate.h, .cpp) and
    [class HypergraphMapperProcessor]
    (processors/HypergraphMapperProcessor.h, .cpp). *)
Module HypergraphMapperProcessor.
Section Mapper.
Context {F : Type} `{!core.FlowFile F}.
Variable hasher : string → Z.
Variable double_to_string : float → string.
(** [getName()] and [getUUIDStr()] of the processor. *)
Variable getName : string.
Variable getUUIDStr : string.

Abbreviation kernel := (CognitiveKernel.t unit).
(** [substrate_] is default-constructed: its strategy is the in-memory
    one. *)
Abbreviation substrate := (@HypergraphSubstrate.t Empty_set).

Inductive Relationship := Mapped | Enhanced | Clustered | Isolated.

(** The processor's members, the flow file behind the [shared_ptr] and
    the transfers made through the session. *)
Record t := mk {
  cognitive_kernel_ : kernel;
  substrate_ : substrate;
  node_counter_ : Z;
  edge_counter_ : Z;
  flow_file_ : F;
  transfers_ : list (F * Relationship)
}.

Definition with_cognitive_kernel (k : kernel) (p : t) : t :=
  mk k (substrate_ p) (node_counter_ p) (edge_counter_ p) (flow_file_ p)
     (transfers_ p).
Definition with_substrate (s : substrate) (p : t) : t :=
  mk (cognitive_kernel_ p) s (node_counter_ p) (edge_counter_ p) (flow_file_ p)
     (transfers_ p).
Definition with_edge_counter (n : Z) (p : t) : t :=
  mk (cognitive_kernel_ p) (substrate_ p) (node_counter_ p) n (flow_file_ p)
     (transfers_ p).
Definition with_flow_file (f : F) (p : t) : t :=
  mk (cognitive_kernel_ p) (substrate_ p) (node_counter_ p) (edge_counter_ p) f
     (transfers_ p).

(** The constructors, for a session as it is found. *)
Definition new (flow_file : F) : t :=
  mk (CognitiveKernel.new unit ()) (HypergraphSubstrate.new None) 0 0 flow_file [].

Definition on_kernel {A} (call : kernel → Outcome kernel A) : t → Outcome t A :=
  CognitiveProcessor.on_kernel t cognitive_kernel_ with_cognitive_kernel call.

(** A call on the substrate. *)
Definition on_substrate {A} (call : substrate → Outcome substrate A)
  : t → Outcome t A :=
  λ p,
    match call (substrate_ p) with
    | Returns a s => Returns a (with_substrate s p)
    | Throws e s => Throws e (with_substrate s p)
    | Deadlock => Deadlock
    | Diverges => Diverges
    end.

(** [flow_file.addAttribute(key, value)]. *)
Definition add_attribute (key value : string) : t → Outcome t unit :=
  λ p, Returns () (with_flow_file (core.addAttribute key value (flow_file_ p)) p).

(** [session.transfer(flow_file, relationship)]. *)
Definition transfer (relationship : Relationship) : t → Outcome t unit :=
  λ p,
    Returns ()
      (mk (cognitive_kernel_ p) (substrate_ p) (node_counter_ p)
          (edge_counter_ p) (flow_file_ p)
          (transfers_ p ++ [(flow_file_ p, relationship)])).

(** [edge_counter_.fetch_add(1)] on the [std::atomic<uint64_t>]. *)
Definition fetch_add_edge_counter : t → Outcome t Z :=
  λ p, Returns (edge_counter_ p) (with_edge_counter (to_size_t (edge_counter_ p + 1)) p).

(** [HypergraphProcessor::initialize]. *)
Definition processor_node (echo_identity : DeepTreeEcho) : HyperNode.t :=
  HyperNode.mk (getName +:+ "_root") "Processor Root Node"
    (<["processor_uuid" := getUUIDStr]>
       (<["processor_type" := "HypergraphProcessor"]> ∅))
    echo_identity 0%float.

Definition initialize : t → Outcome t unit :=
  _ <~ on_kernel (CognitiveProcessor.initialize hasher double_to_string
                    getName getUUIDStr) ;;
  λ p,
    (_ <~ on_substrate
            (HypergraphSubstrate.add_node
               (processor_node
                  (CognitiveKernel.echo_identity_ unit (cognitive_kernel_ p)))) ;;
     ret ()) p.

(** *** [create_content_node] *)

Definition content_node (content flow_id : string) (echo_identity : DeepTreeEcho)
  : HyperNode.t :=
  HyperNode.mk (flow_id +:+ "_content") "FlowFile Content"
    (<["content_hash" := to_string (to_size_t (hasher content))]>
       (<["content_length" := to_string (Z.of_nat (String.length content))]>
          (<["flow_id" := flow_id]> (<["type" := "content"]> ∅))))
    echo_identity 0%float.

Definition word_node (unique_word : string) : HyperNode.t :=
  HyperNode.mk ("word_" +:+ unique_word) ("Word: " +:+ unique_word)
    (<["word" := unique_word]> (<["type" := "word"]> ∅))
    DeepTreeEcho_default lit_0_1.

(** The loop over [unique_words]. *)
Fixpoint add_word_nodes (unique_words : list string)
    (content_related_nodes : gset NodeId) : t → Outcome t (gset NodeId) :=
  match unique_words with
  | [] => ret content_related_nodes
  | unique_word :: rest =>
      added <~ on_substrate (HypergraphSubstrate.add_node (word_node unique_word)) ;;
      add_word_nodes rest
        (if added then {["word_" +:+ unique_word]} ∪ content_related_nodes
         else content_related_nodes)
  end.

Definition content_edge (flow_id : string) (count : Z)
    (content_related_nodes : gset NodeId) : HyperEdge.t :=
  HyperEdge.mk (flow_id +:+ "_content_edge_" +:+ to_string count)
    "Content-Word Relationship" content_related_nodes
    (<["type" := "contains_words"]> ∅) 1%float.

Definition create_content_node (content flow_id : string) : t → Outcome t unit :=
  λ p,
    (_ <~ on_substrate
            (HypergraphSubstrate.add_node
               (content_node content flow_id
                  (CognitiveKernel.echo_identity_ unit (cognitive_kernel_ p)))) ;;
     content_related_nodes <~
       add_word_nodes (elements (significant_words content))
         {[flow_id +:+ "_content"]} ;;
     if (1 <? size content_related_nodes)%nat
     then
       (count <~ fetch_add_edge_counter ;;
        _ <~ on_substrate
               (HypergraphSubstrate.add_edge
                  (content_edge flow_id count content_related_nodes)) ;;
        ret ())
     else ret ()) p.

(** *** [create_attribute_nodes] *)

Definition attr_node (flow_id attr_name attr_value : string) : HyperNode.t :=
  HyperNode.mk (flow_id +:+ "_attr_" +:+ attr_name) ("Attribute: " +:+ attr_name)
    (<["value" := attr_value]>
       (<["name" := attr_name]> (<["type" := "attribute"]> ∅)))
    DeepTreeEcho_default lit_0_2.

Definition attr_edge (flow_id attr_name : string) : HyperEdge.t :=
  HyperEdge.mk (flow_id +:+ "_attr_edge_" +:+ attr_name)
    "FlowFile-Attribute Relationship"
    {[flow_id +:+ "_content"; flow_id +:+ "_attr_" +:+ attr_name]}
    (<["attribute_name" := attr_name]> (<["type" := "has_attribute"]> ∅))
    lit_0_8.

(** The loop over the flow file's attributes. *)
Fixpoint add_attribute_nodes (flow_id : string)
    (attributes : list (string * string)) (attribute_nodes : gset NodeId)
  : t → Outcome t (gset NodeId) :=
  match attributes with
  | [] => ret attribute_nodes
  | (attr_name, attr_value) :: rest =>
      if bool_decide (find attr_name "cognitive." ≠ Some 0%nat)
      then
        added <~ on_substrate
                   (HypergraphSubstrate.add_node
                      (attr_node flow_id attr_name attr_value)) ;;
        if added
        then
          _ <~ on_substrate
                 (HypergraphSubstrate.add_edge (attr_edge flow_id attr_name)) ;;
          add_attribute_nodes flow_id rest
            ({[flow_id +:+ "_attr_" +:+ attr_name]} ∪ attribute_nodes)
        else add_attribute_nodes flow_id rest attribute_nodes
      else add_attribute_nodes flow_id rest attribute_nodes
  end.

Definition attr_cluster_edge (flow_id : string) (count : Z)
    (attribute_nodes : gset NodeId) : HyperEdge.t :=
  HyperEdge.mk (flow_id +:+ "_attribute_cluster_" +:+ to_string count)
    "Attribute Cluster" attribute_nodes
    (<["type" := "attribute_cluster"]> ∅) lit_0_6.

Definition create_attribute_nodes (flow_id : string) : t → Outcome t unit :=
  λ p,
    (attribute_nodes <~
       add_attribute_nodes flow_id (core.getAttributes (flow_file_ p)) ∅ ;;
     if (1 <? size attribute_nodes)%nat
     then
       let attribute_nodes := {[flow_id +:+ "_content"]} ∪ attribute_nodes in
       (count <~ fetch_add_edge_counter ;;
        _ <~ on_substrate
               (HypergraphSubstrate.add_edge
                  (attr_cluster_edge flow_id count attribute_nodes)) ;;
        ret ())
     else ret ()) p.

(** *** [analyze_relationships] *)

(** The loop over [similar_content_nodes]. *)
Fixpoint collect_similar (main_node_id : NodeId)
    (similar_content_nodes : list NodeId) (similar_cluster : gset NodeId)
  : t → Outcome t (gset NodeId) :=
  match similar_content_nodes with
  | [] => ret similar_cluster
  | similar_node :: rest =>
      if bool_decide (similar_node ≠ main_node_id)
      then
        this_neighbors <~
          on_substrate (HypergraphSubstrate.get_connected_nodes main_node_id) ;;
        other_neighbors <~
          on_substrate (HypergraphSubstrate.get_connected_nodes similar_node) ;;
        let common_neighbors : gset NodeId :=
          list_to_set (set_intersection this_neighbors other_neighbors) in
        collect_similar main_node_id rest
          (if (2 <=? size common_neighbors)%nat
           then {[similar_node]} ∪ similar_cluster else similar_cluster)
      else collect_similar main_node_id rest similar_cluster
  end.

Definition similarity_edge (flow_id : string) (count : Z)
    (similar_cluster : gset NodeId) : HyperEdge.t :=
  HyperEdge.mk (flow_id +:+ "_similarity_" +:+ to_string count)
    "Content Similarity" similar_cluster
    (<["similarity_type" := "content_overlap"]> (<["type" := "similarity"]> ∅))
    lit_0_9.

Definition analyze_relationships (flow_id : string) : t → Outcome t unit :=
  let main_node_id := flow_id +:+ "_content" in
  _ <~ on_substrate (HypergraphSubstrate.propagate_activation main_node_id 1%float) ;;
  similar_content_nodes <~
    on_substrate (HypergraphSubstrate.find_nodes_by_attribute "type" "content") ;;
  similar_words <~
    on_substrate (HypergraphSubstrate.find_nodes_by_attribute "type" "word") ;;
  similar_cluster <~
    collect_similar main_node_id similar_content_nodes {[main_node_id]} ;;
  if (1 <? size similar_cluster)%nat
  then
    count <~ fetch_add_edge_counter ;;
    _ <~ on_substrate
           (HypergraphSubstrate.add_edge
              (similarity_edge flow_id count similar_cluster)) ;;
    add_attribute "hypergraph.similar_content_count"
      (to_string (to_size_t (Z.of_nat (size similar_cluster) - 1)))
  else ret ().

(** *** [add_hypergraph_attributes] *)

(** The stream of the first ten connected nodes, separated by commas. *)
Fixpoint connected_stream (i : nat) (connected_nodes : list NodeId) : string :=
  match connected_nodes with
  | [] => EmptyString
  | node_id :: rest =>
      if (i <? 10)%nat
      then (if (0 <? i)%nat then "," else EmptyString) +:+ node_id
           +:+ connected_stream (S i) rest
      else EmptyString
  end.

(** [now] is the clock's reading in milliseconds. *)
Definition add_hypergraph_attributes (node_id : string) (now : Z)
  : t → Outcome t unit :=
  total_nodes <~ on_substrate HypergraphSubstrate.node_count ;;
  _ <~ add_attribute "hypergraph.total_nodes" (to_string (Z.of_nat total_nodes)) ;;
  total_edges <~ on_substrate HypergraphSubstrate.edge_count ;;
  _ <~ add_attribute "hypergraph.total_edges" (to_string (Z.of_nat total_edges)) ;;
  density <~ on_substrate HypergraphSubstrate.calculate_substrate_density ;;
  _ <~ add_attribute "hypergraph.substrate_density" (double_to_string density) ;;
  let main_node_id := node_id +:+ "_content" in
  connected_nodes <~
    on_substrate (HypergraphSubstrate.get_connected_nodes main_node_id) ;;
  incident_edges <~
    on_substrate (HypergraphSubstrate.get_incident_edges main_node_id) ;;
  _ <~ add_attribute "hypergraph.node_connections"
         (to_string (Z.of_nat (length connected_nodes))) ;;
  _ <~ add_attribute "hypergraph.incident_edges"
         (to_string (Z.of_nat (length incident_edges))) ;;
  clustering_coefficient <~
    on_substrate (HypergraphSubstrate.calculate_clustering_coefficient main_node_id) ;;
  _ <~ add_attribute "hypergraph.clustering_coefficient"
         (double_to_string clustering_coefficient) ;;
  node_activation <~
    on_substrate (HypergraphSubstrate.get_node_activation main_node_id) ;;
  _ <~ add_attribute "hypergraph.node_activation" (double_to_string node_activation) ;;
  _ <~ (if bool_decide (connected_nodes ≠ [])
        then add_attribute "hypergraph.connected_nodes"
               (connected_stream 0 connected_nodes)
        else ret ()) ;;
  _ <~ add_attribute "hypergraph.analysis_timestamp" (int_to_string now) ;;
  _ <~ add_attribute "hypergraph.processor" "HypergraphMapperProcessor" ;;
  add_attribute "hypergraph.processor_uuid" getUUIDStr.

(** *** [process_with_hypergraph] *)

(** The routing at the end of the [try] block. *)
Definition route (flow_node_id : string) : t → Outcome t unit :=
  clustering_coeff <~
    on_substrate (HypergraphSubstrate.calculate_clustering_coefficient flow_node_id) ;;
  connected <~
    on_substrate (HypergraphSubstrate.get_connected_nodes flow_node_id) ;;
  let connection_count := length connected in
  if (lit_0_5 <? clustering_coeff)%float && (3 <=? connection_count)%nat
  then transfer Clustered
  else if (2 <=? connection_count)%nat then transfer Enhanced
  else if (1 <=? connection_count)%nat then transfer Mapped
  else transfer Isolated.

(** The [try] block; [content] is what [session.read] delivered. *)
Definition process_attempt (content : string) (now : Z) : t → Outcome t unit :=
  _ <~ on_kernel (CognitiveProcessor.process_cognitive_signal hasher
                    double_to_string content) ;;
  λ p,
    let flow_node_id := core.getUUIDStr (flow_file_ p) in
    (_ <~ create_content_node content flow_node_id ;;
     _ <~ create_attribute_nodes flow_node_id ;;
     _ <~ analyze_relationships flow_node_id ;;
     _ <~ add_hypergraph_attributes flow_node_id now ;;
     route flow_node_id) p.

(** [process_with_hypergraph], which [process_with_cognition] hands on
    to; [got] is what [session.get()] handed out. *)
Definition process_with_hypergraph (got : option F) (content : string) (now : Z)
  : t → Outcome t unit :=
  match got with
  | None => ret ()
  | Some flow_file =>
      λ p,
        match process_attempt content now (with_flow_file flow_file p) with
        | Returns a p => Returns a p
        | Throws ex p =>
            if is_std_exception ex then transfer Mapped p else Throws ex p
        | Deadlock => Deadlock
        | Diverges => Diverges
        end
  end.

Definition process_with_cognition (got : option F) (content : string) (now : Z)
  : t → Outcome t unit :=
  process_with_hypergraph got content now.

(** [CognitiveProcessor::onTrigger] on a mapper. *)
Definition onTrigger (got : option F) (content : string) (now : Z)
  : t → Outcome t unit :=
  CognitiveProcessor.onTrigger t cognitive_kernel_ with_cognitive_kernel
    (process_with_cognition got content now).
End Mapper.
End HypergraphMapperProcessor.

(** * Vocabulary of the statements *)

(** ** Substrate states *)

(** The object a sequence of calls leaves, [otherwise] if one blocks. *)
Definition state_after {S A} (o : Outcome S A) (otherwise : S) : S :=
  match o with
  | Returns _ s | Throws _ s => s
  | Deadlock | Diverges => otherwise
  end.

Section SubstrateVocabulary.
Context {X : Type}.
Import HypergraphSubstrate.
Abbreviation substrate := (@HypergraphSubstrate.t X).

(** No thread holds [substrate_mutex_]: the substrate between two calls. *)
Definition unlocked (s : substrate) : Prop := substrate_mutex_ s = false.

(** Every member of every stored edge is a key of the node table. *)
Definition referential_integrity (s : substrate) : Prop :=
  ∀ edge_id edge node_id,
    edges_ s !! edge_id = Some edge →
    node_id ∈ HyperEdge.connected_nodes edge →
    is_Some (nodes_ s !! node_id).

Definition members_exist (edge : HyperEdge.t) (s : substrate) : Prop :=
  ∀ n, n ∈ HyperEdge.connected_nodes edge → is_Some (nodes_ s !! n).

Definition member_missing (edge : HyperEdge.t) (s : substrate) : Prop :=
  ∃ n, n ∈ HyperEdge.connected_nodes edge ∧ nodes_ s !! n = None.

(** Every node and every edge is stored under its own id. *)
Definition keyed_by_id (s : substrate) : Prop :=
  (∀ id node, nodes_ s !! id = Some node → HyperNode.id node = id) ∧
  (∀ id edge, edges_ s !! id = Some edge → HyperEdge.id edge = id).

(** Written through: the strategy is the in-memory one and its store
    holds exactly the two tables. *)
Definition mirrored (s : substrate) : Prop :=
  persistence_ s = Memory (MemorySubstratePersistence.mk (nodes_ s) (edges_ s)).
End SubstrateVocabulary.

(** The six mutating operations of the public interface. *)
Inductive operation :=
  | Add_node (node : HyperNode.t)
  | Update_node (node : HyperNode.t)
  | Remove_node (id : NodeId)
  | Add_edge (edge : HyperEdge.t)
  | Update_edge (edge : HyperEdge.t)
  | Remove_edge (id : EdgeId).

Section SubstrateRuns.
Context {X : Type} `{!SubstratePersistence.Interface X}.
Import HypergraphSubstrate.
Abbreviation substrate := (@HypergraphSubstrate.t X).

Definition perform (op : operation) : substrate → Outcome substrate bool :=
  match op with
  | Add_node node => add_node node
  | Update_node node => update_node node
  | Remove_node id => remove_node id
  | Add_edge edge => add_edge edge
  | Update_edge edge => update_edge edge
  | Remove_edge id => remove_edge id
  end.

(** The substrates a program can hold: a new one, and the one left by an
    operation that returned or threw on such a substrate. *)
Inductive reachable_state : substrate → Prop :=
  | reachable_new persistence : reachable_state (new persistence)
  | reachable_step s op s' :
      reachable_state s → completes (perform op s) s' → reachable_state s'.

(** A program that calls the operations of [ops] in turn, catching what
    they throw. *)
Definition run_operations (ops : list operation) (s : substrate) : substrate :=
  foldl (λ s op, state_after (perform op s) s) s ops.
End SubstrateRuns.

(** ** Hops *)

Section HopVocabulary.
Variable edges : gmap EdgeId HyperEdge.t.
Import HypergraphSubstrate.

(** Two distinct ids one hop apart: both members of one stored edge. *)
Definition co_member (u v : NodeId) : Prop :=
  u ≠ v ∧ ∃ edge_id edge,
    edges !! edge_id = Some edge ∧
    u ∈ HyperEdge.connected_nodes edge ∧ v ∈ HyperEdge.connected_nodes edge.

Definition within_two_hops (source n : NodeId) : Prop :=
  n ≠ source ∧
  (co_member source n ∨ ∃ m, co_member source m ∧ co_member m n).

(** [n] can be reached from [source] by at most [k] hops. *)
Fixpoint within_hops (k : nat) (source n : NodeId) : Prop :=
  match k with
  | O => n = source
  | S k => within_hops k source n ∨ ∃ m, within_hops k source m ∧ co_member m n
  end.

(** [st'] is [st] after the ids of [new] were discovered at [hops + 1]. *)
Definition discovers (hops : Z) (st st' : bfs_state) (new : list NodeId) : Prop :=
  queue st' = queue st ++ ((λ n, (n, hops + 1)) <$> new) ∧
  visited st' = list_to_set new ∪ visited st ∧
  reachable st' = reachable st ++ new ∧
  NoDup new ∧
  ∀ n, n ∈ new → n ∉ visited st.
End HopVocabulary.

(** ** Resonance *)

(** [pattern] occurs in [text] as a substring. *)
Definition occurs_in (pattern text : string) : Prop :=
  ∃ before after, text = String.append before (String.append pattern after).

(** How many entries of the pattern list [find] locates in the text; an
    entry listed twice is counted twice. *)
Definition matching_entries (patterns : list string) (text : string) : nat :=
  length (filter (λ pattern, is_Some (find text pattern)) patterns).

(** The same count over the distinct patterns of the list. *)
Definition distinct_matching (patterns : list string) (text : string) : nat :=
  matching_entries (remove_dups patterns) text.

(** [boost n]: [1.0] multiplied [n] times by [1.2], in [double]. *)
Definition boost (n : nat) : float :=
  Nat.iter n (λ influence, (influence * lit_1_2)%float) 1%float.

(** A kernel of the base class holding [identity]. *)
Definition kernel_with (identity : DeepTreeEcho) : CognitiveKernel.t unit :=
  CognitiveKernel.with_identity unit identity (CognitiveKernel.new unit ()).

(** The resonance as the specification words it: one factor [1.2] for
    every distinct pattern that occurs in the text. *)
Definition resonance_as_specified (hasher : string → Z)
    (identity : DeepTreeEcho) (text : string) : float :=
  if empty text || empty (identity_signature identity) then 0%float
  else (CognitiveKernel.base_resonance (to_size_t (hasher text))
          (to_size_t (hasher (identity_signature identity)))
        * boost (distinct_matching (echo_patterns identity) text)
        * cognitive_weight identity)%float.

(** What the specification says of [calculate_resonance], at one input:
    the formula, a base score in (0, 1], and a result that is at least 0. *)
Definition resonance_claim (hasher : string → Z)
    (identity : DeepTreeEcho) (text : string) : Prop :=
  let result :=
    CognitiveKernel.calculate_resonance hasher unit text (kernel_with identity) in
  let base :=
    CognitiveKernel.base_resonance (to_size_t (hasher text))
      (to_size_t (hasher (identity_signature identity))) in
  result = resonance_as_specified hasher identity text ∧
  (empty text || empty (identity_signature identity) = false →
   (0 <? base)%float = true ∧ (base <=? 1)%float = true) ∧
  (0 <=? result)%float = true.

(** What it says of two texts, one matching no pattern and one matching
    two. *)
Definition monotonicity_claim (hasher : string → Z) (identity : DeepTreeEcho)
    (none two : string) : Prop :=
  matching_entries (echo_patterns identity) none = 0%nat →
  matching_entries (echo_patterns identity) two = 2%nat →
  (CognitiveKernel.calculate_resonance hasher unit none (kernel_with identity)
   <? CognitiveKernel.calculate_resonance hasher unit two (kernel_with identity))%float
  = true.

(** A list of floats in which every element is below all later ones. *)
Fixpoint below_all (x : float) (l : list float) : bool :=
  match l with
  | [] => true
  | y :: l => (x <? y)%float && below_all x l
  end.

Fixpoint strictly_ascending (l : list float) : bool :=
  match l with
  | [] => true
  | x :: l => below_all x l && strictly_ascending l
  end.

Definition boosts (n : nat) : list float := boost <$> seq 0 n.

(** ** Signal processing *)

Section SignalVocabulary.
Variable hasher : string → Z.
Variable double_to_string : float → string.
Variable Derived : Type.
Import CognitiveKernel.
Abbreviation kernel := (CognitiveKernel.t Derived).
Variable on_state_transition :
  CognitiveState → CognitiveState → kernel → Outcome kernel unit.

(** A transition hook that only takes note: it returns, and the state it
    was told about is still the current one. *)
Definition notifies_only : Prop :=
  ∀ from to (k : kernel),
    ∃ k', on_state_transition from to k = Returns () k' ∧
          current_state_ Derived k' = current_state_ Derived k.

(** The object as [on_cognitive_process] receives it, from the object as
    the [try] block starts with. *)
Definition at_hook (signal_data : string) (k : kernel) : kernel :=
  let resonance := calculate_resonance hasher Derived signal_data k in
  let k := remember Derived "last_signal" signal_data k in
  let k := remember Derived "last_resonance" (double_to_string resonance) k in
  let count := to_size_t (process_counter_ Derived k + 1) in
  let k := with_counter Derived count k in
  remember Derived "process_count" (to_string count) k.
End SignalVocabulary.

Section SignalRuns.
Variable hasher : string → Z.
Variable double_to_string : float → string.
Variable Derived : Type.
Variable on_cognitive_process :
  string → CognitiveKernel.t Derived → Outcome (CognitiveKernel.t Derived) unit.
Variable on_state_transition :
  CognitiveState → CognitiveState →
  CognitiveKernel.t Derived → Outcome (CognitiveKernel.t Derived) unit.

(** A transition hook that does nothing, as the base class's. *)
Definition does_nothing : Prop :=
  ∀ from to (k : CognitiveKernel.t Derived),
    on_state_transition from to k = Returns () k.

(** A program that hands the signals of [signals] to the kernel in turn. *)
Fixpoint process_signals (signals : list string)
  : CognitiveKernel.t Derived → Outcome (CognitiveKernel.t Derived) unit :=
  match signals with
  | [] => ret ()
  | signal_data :: rest =>
      _ <~ CognitiveKernel.process_cognitive_signal hasher double_to_string
             Derived on_cognitive_process on_state_transition signal_data ;;
      process_signals rest
  end.
End SignalRuns.

(** ** Processors *)

Section MapperVocabulary.
Context {F : Type}.

(** The substrate member of a mapper is unlocked, and the ids of its
    nodes. *)
Definition idle (p : @HypergraphMapperProcessor.t F) : Prop :=
  unlocked (HypergraphMapperProcessor.substrate_ p).
Definition node_ids (p : @HypergraphMapperProcessor.t F) : gset NodeId :=
  dom (HypergraphSubstrate.nodes_ (HypergraphMapperProcessor.substrate_ p)).

(** From [p] to [p'] the node table only gained entries; the edge table,
    the edge counter and the flow file did not change. *)
Definition extends_nodes (p p' : @HypergraphMapperProcessor.t F) : Prop :=
  idle p' ∧
  (∀ n node,
     HypergraphSubstrate.nodes_ (HypergraphMapperProcessor.substrate_ p) !! n
       = Some node →
     HypergraphSubstrate.nodes_ (HypergraphMapperProcessor.substrate_ p') !! n
       = Some node) ∧
  HypergraphSubstrate.edges_ (HypergraphMapperProcessor.substrate_ p')
    = HypergraphSubstrate.edges_ (HypergraphMapperProcessor.substrate_ p) ∧
  HypergraphMapperProcessor.edge_counter_ p'
    = HypergraphMapperProcessor.edge_counter_ p ∧
  HypergraphMapperProcessor.flow_file_ p'
    = HypergraphMapperProcessor.flow_file_ p.

(** From [p] to [p'] no node id and no edge was lost, and referential
    integrity was kept. *)
Definition grows_from (p p' : @HypergraphMapperProcessor.t F) : Prop :=
  idle p' ∧
  node_ids p ⊆ node_ids p' ∧
  (∀ edge_id edge,
     HypergraphSubstrate.edges_ (HypergraphMapperProcessor.substrate_ p) !! edge_id
       = Some edge →
     HypergraphSubstrate.edges_ (HypergraphMapperProcessor.substrate_ p') !! edge_id
       = Some edge) ∧
  (referential_integrity (HypergraphMapperProcessor.substrate_ p) →
   referential_integrity (HypergraphMapperProcessor.substrate_ p')).
End MapperVocabulary.

(** ** Fixtures: the scenarios of the repository's tests *)

Definition fresh_substrate : @HypergraphSubstrate.t Empty_set :=
  HypergraphSubstrate.new None.

(** "HypergraphSubstrate clustering analysis": nodes A, B, C and the
    edges A-B, B-C, A-C. *)
Definition triangle : @HypergraphSubstrate.t Empty_set :=
  state_after
    ((_ <~ HypergraphSubstrate.add_node (HyperNode.make "nodeA" "Node A") ;;
      _ <~ HypergraphSubstrate.add_node (HyperNode.make "nodeB" "Node B") ;;
      _ <~ HypergraphSubstrate.add_node (HyperNode.make "nodeC" "Node C") ;;
      _ <~ HypergraphSubstrate.add_edge (HyperEdge.make "edgeAB" {["nodeA"; "nodeB"]}) ;;
      _ <~ HypergraphSubstrate.add_edge (HyperEdge.make "edgeBC" {["nodeB"; "nodeC"]}) ;;
      HypergraphSubstrate.add_edge (HyperEdge.make "edgeAC" {["nodeA"; "nodeC"]}))
       fresh_substrate)
    fresh_substrate.

(** "HypergraphSubstrate node removal and consistency": nodes 1, 2, 3 and
    the edges e1 = {1, 2}, e2 = {1, 3}, e3 = {2, 3}. *)
Definition three_edges : @HypergraphSubstrate.t Empty_set :=
  state_after
    ((_ <~ HypergraphSubstrate.add_node (HyperNode.make "node1" "First Node") ;;
      _ <~ HypergraphSubstrate.add_node (HyperNode.make "node2" "Second Node") ;;
      _ <~ HypergraphSubstrate.add_node (HyperNode.make "node3" "Third Node") ;;
      _ <~ HypergraphSubstrate.add_edge (HyperEdge.make "edge1" {["node1"; "node2"]}) ;;
      _ <~ HypergraphSubstrate.add_edge (HyperEdge.make "edge2" {["node1"; "node3"]}) ;;
      HypergraphSubstrate.add_edge (HyperEdge.make "edge3" {["node2"; "node3"]}))
       fresh_substrate)
    fresh_substrate.

(** "HypergraphSubstrate persistence operations": one node with an
    attribute and one edge on it. *)
Definition persistent_node : HyperNode.t :=
  HyperNode.set_attribute "key" "value" (HyperNode.make "node1" "Persistent Node").

Definition populated : @HypergraphSubstrate.t Empty_set :=
  state_after
    ((_ <~ HypergraphSubstrate.add_node persistent_node ;;
      HypergraphSubstrate.add_edge (HyperEdge.make "edge1" {["node1"]}))
       fresh_substrate)
    fresh_substrate.

(** "HypergraphSubstrate activation propagation": the chain
    node1 - node2 - node3 - node4. *)
Definition chain : @HypergraphSubstrate.t Empty_set :=
  state_after
    ((_ <~ HypergraphSubstrate.add_node (HyperNode.make "node1" "Source Node") ;;
      _ <~ HypergraphSubstrate.add_node (HyperNode.make "node2" "Target Node 1") ;;
      _ <~ HypergraphSubstrate.add_node (HyperNode.make "node3" "Target Node 2") ;;
      _ <~ HypergraphSubstrate.add_node (HyperNode.make "node4" "Distant Node") ;;
      _ <~ HypergraphSubstrate.add_edge (HyperEdge.make "edge1" {["node1"; "node2"]}) ;;
      _ <~ HypergraphSubstrate.add_edge (HyperEdge.make "edge2" {["node2"; "node3"]}) ;;
      HypergraphSubstrate.add_edge (HyperEdge.make "edge3" {["node3"; "node4"]}))
       fresh_substrate)
    fresh_substrate.

(** "HypergraphSubstrate echo pattern queries": three nodes that carry
    echo patterns. *)
Definition echo_node (node_id label : string) (patterns : list string)
  : HyperNode.t :=
  HyperNode.mk node_id label ∅ (mkDeepTreeEcho EmptyString 0 patterns 1%float)
    0%float.

Definition echo_nodes : @HypergraphSubstrate.t Empty_set :=
  state_after
    ((_ <~ HypergraphSubstrate.add_node
             (echo_node "node1" "Echo Node 1" ["cognitive"; "pattern"; "test"]) ;;
      _ <~ HypergraphSubstrate.add_node
             (echo_node "node2" "Echo Node 2" ["cognitive"; "analysis"]) ;;
      HypergraphSubstrate.add_node
        (echo_node "node3" "Different Node" ["unrelated"; "pattern"]))
       fresh_substrate)
    fresh_substrate.

(** A store of the in-memory strategy that holds an edge and not its
    member. *)
Definition dangling_store : MemorySubstratePersistence.t :=
  MemorySubstratePersistence.mk ∅ {["edge1" := HyperEdge.make "edge1" {["ghost"]}]}.

(** An edge naming a node that was never added, as in
    "HypergraphSubstrate edge operations". *)
Definition invalid_edge : HyperEdge.t :=
  HyperEdge.make "invalid" {["node1"; "nonexistent"]}.

(** Identities for the resonance statements. *)
Definition repeated_pattern_identity : DeepTreeEcho :=
  mkDeepTreeEcho "a" 0 ["a"; "a"] 1%float.
Definition overflowing_identity : DeepTreeEcho :=
  mkDeepTreeEcho "a" 0 (replicate 4000 "a"%string) 0%float.
Definition zero_weight_identity : DeepTreeEcho :=
  mkDeepTreeEcho "test_identity" 0 ["cognitive"; "test"] 0%float.

(** Identities for the edges of the resonance: a negative weight, and the
    identity of the resonance test with the weights 1.0, the smallest
    positive [double] and infinity. *)
Definition negative_weight_identity : DeepTreeEcho :=
  mkDeepTreeEcho "test_identity" 0 ["cognitive"; "test"] (-1)%float.
Definition unit_weight_identity : DeepTreeEcho :=
  mkDeepTreeEcho "test_identity" 0 ["cognitive"; "test"] 1%float.
Definition tiny_weight_identity : DeepTreeEcho :=
  mkDeepTreeEcho "test_identity" 0 ["cognitive"; "test"] 0x1p-1074%float.
Definition infinite_weight_identity : DeepTreeEcho :=
  mkDeepTreeEcho "test_identity" 0 ["cognitive"; "test"] infinity.

(** A hash function that sends every string to 1, and one that sends
    the text "test cognitive data" far from the others. *)
Definition constant_hasher (_ : string) : Z := 1.
Definition uneven_hasher (s : string) : Z :=
  if String.eqb s "test cognitive data" then 2 ^ 63 else 1.

(** The identity of "CognitiveKernel initialization and state
    management". *)
Definition test_cognitive_identity : DeepTreeEcho :=
  mkDeepTreeEcho "test_cognitive_identity" 12345
    ["pattern1"; "pattern2"; "cognitive"] 0x1.8p+0%float.

(** A derived kernel whose processing hook always fails, a transition hook
    that does nothing, and a kernel in the state
    [CognitiveProcessor::onTrigger] leaves it in before the call. *)
Definition failing_hook (_ : string) (k : CognitiveKernel.t unit)
  : Outcome (CognitiveKernel.t unit) unit :=
  Throws (runtime_error "hook failed") k.
Definition silent_transition (_ _ : CognitiveState) (k : CognitiveKernel.t unit)
  : Outcome (CognitiveKernel.t unit) unit :=
  Returns () k.
(** The base class's processing hook: it does nothing. *)
Definition silent_process (_ : string) (k : CognitiveKernel.t unit)
  : Outcome (CognitiveKernel.t unit) unit :=
  Returns () k.
(** An override that throws an [int]: [throw 42;]. *)
Definition throws_an_int (k : CognitiveKernel.t unit)
  : Outcome (CognitiveKernel.t unit) unit :=
  Throws (not_std_exception "42") k.
Definition processing_kernel : CognitiveKernel.t unit :=
  CognitiveKernel.with_state unit PROCESSING (CognitiveKernel.new unit ()).
Definition awakening_kernel : CognitiveKernel.t unit :=
  CognitiveKernel.with_state unit AWAKENING (CognitiveKernel.new unit ()).

(** A flow file as the processors see it: its UUID and its attributes;
    [addAttribute] adds a key that is not there yet. *)
Record test_flow_file := {
  test_uuid : string;
  test_attributes : list (string * string)
}.

#[export] Instance test_flow_file_api : core.FlowFile test_flow_file := {|
  core.getUUIDStr := test_uuid;
  core.getAttributes := test_attributes;
  core.addAttribute key value flow_file :=
    if bool_decide (key ∈ (test_attributes flow_file).*1) then flow_file
    else {| test_uuid := test_uuid flow_file;
            test_attributes := test_attributes flow_file ++ [(key, value)] |}
|}.

Definition test_flow : test_flow_file :=
  {| test_uuid := "flow-1";
     test_attributes := [("filename", "a.txt"); ("cognitive.state", "dormant");
                         ("path", "/tmp")] |}.

(** ** Rounding to binary64 *)

(** The record [mrs] describes [N / T]: its integer part, whether the
    remainder reaches one half, and whether anything is left beside. *)
Definition located (N T : Z) (mrs : SpecFloat.shr_record) : Prop :=
  SpecFloat.shr_m mrs = N / T ∧
  (SpecFloat.shr_r mrs = true ↔ T ≤ 2 * (N mod T)) ∧
  (SpecFloat.shr_s mrs = true ↔ N mod T ≠ 0 ∧ 2 * (N mod T) ≠ T).

(** [l] places [N / D] with respect to its integer part [m]. *)
Definition loc_ok (N D m : Z) (l : SpecFloat.location) : Prop :=
  m = N / D ∧
  match l with
  | SpecFloat.loc_Exact => N mod D = 0
  | SpecFloat.loc_Inexact Lt => 0 < 2 * (N mod D) < D
  | SpecFloat.loc_Inexact Eq => 2 * (N mod D) = D
  | SpecFloat.loc_Inexact Gt => D < 2 * (N mod D)
  end.

(** [m] is an integer nearest to [N / T]. *)
Definition nearest (N T m : Z) : Prop :=
  (∀ k, N ≤ k * T → m ≤ k) ∧ (∀ k, k * T ≤ N → k ≤ m) ∧
  2 * Z.abs (m * T - N) ≤ T.

(** What [binary_round_aux] makes of the rounded integer [m] at the
    exponent [e]. *)
Definition encode (s : bool) (m e : Z) : spec_float :=
  if decide (m = 2 ^ 53)
  then if decide (e + 1 ≤ 971) then S754_finite s (2 ^ 52) (e + 1)
       else S754_infinity s
  else match m with
       | Z.pos p => if decide (e ≤ 971) then S754_finite s p e else S754_infinity s
       | _ => S754_zero s
       end.

(** [2^e] and the value [m * 2^e] as rationals. *)
Definition pow2 (e : Z) : Q := (2 ^ e)%Q.
Definition F2Q (m e : Z) : Q := (inject_Z m * pow2 e)%Q.

(** [m * 2^e] is a positive binary64 number in its canonical writing. *)
Definition canonical (m e : Z) : Prop :=
  0 < m ∧ Z.max (SpecFloat.Zdigits2 m + e - 53) (-1074) = e ∧ e ≤ 971.

(** [r] is the binary64 value with sign [s] that rounding the magnitude
    [V] gives. *)
Record rounds (s : bool) (V : Q) (r : spec_float) : Prop := {
  rounds_valid : SpecFloat.valid_binary prec emax r = true;
  rounds_shape :
    r = S754_zero s ∨ r = S754_infinity s ∨ ∃ p e, r = S754_finite s p e;
  rounds_upper : ∀ mf ef,
    canonical mf ef → (V <= F2Q mf ef)%Q →
    r = S754_zero s ∨
    ∃ p e, r = S754_finite s p e ∧ (F2Q (Z.pos p) e <= F2Q mf ef)%Q;
  rounds_lower : ∀ mf ef,
    canonical mf ef → (F2Q mf ef <= V)%Q →
    r = S754_infinity s ∨
    ∃ p e, r = S754_finite s p e ∧ (F2Q mf ef <= F2Q (Z.pos p) e)%Q;
  rounds_error : ∀ p e,
    r = S754_finite s p e → 2 ^ 52 ≤ Z.pos p →
    (F2Q (Z.pos p) e - V <= F2Q (Z.pos p) e * pow2 (-53)
     ∧ V - F2Q (Z.pos p) e <= F2Q (Z.pos p) e * pow2 (-53))%Q
}.

(** A positive finite [double] and its value. *)
Definition positive_finite (x : float) (v : Q) : Prop :=
  ∃ p e, Prim2SF x = S754_finite false p e ∧ canonical (Z.pos p) e ∧
         (F2Q (Z.pos p) e == v)%Q.

(** Zero, or a positive finite [double] of at most [2^k]. *)
Definition at_most (x : float) (k : Z) : Prop :=
  Prim2SF x = S754_zero false ∨
  ∃ v, positive_finite x v ∧ (v <= pow2 k)%Q.

(** The smallest positive normal [double], [2^-1022]. *)
Definition min_normal : float := 0x1p-1022%float.

(** * The substrate: locking, validation and the six operations *)

(** Unfolds the field projections and setters of a substrate. *)
Ltac fields :=
  cbn [HypergraphSubstrate.nodes_ HypergraphSubstrate.edges_
       HypergraphSubstrate.persistence_ HypergraphSubstrate.substrate_mutex_
       HypergraphSubstrate.with_mutex HypergraphSubstrate.with_nodes
       HypergraphSubstrate.with_edges HypergraphSubstrate.with_persistence
       HypergraphSubstrate.persist] in *.

Section SubstrateTheory.

Context {X : Type} `{!SubstratePersistence.Interface X}.
Import HypergraphSubstrate.
Abbreviation substrate := (@HypergraphSubstrate.t X).

Lemma lock_guard_unlocked {A} (body : substrate → Outcome substrate A) s :
  unlocked s →
  lock_guard body s =
    match body (with_mutex true s) with
    | Returns a s' => Returns a (with_mutex false s')
    | Throws e s' => Throws e (with_mutex false s')
    | Deadlock => Deadlock
    | Diverges => Diverges
    end.
Proof. unfold unlocked, lock_guard. intros ->. reflexivity. Qed.

Lemma lock_guard_locked {A} (body : substrate → Outcome substrate A) s :
  substrate_mutex_ s = true → lock_guard body s = Deadlock.
Proof. unfold lock_guard. intros ->. reflexivity. Qed.

Lemma validate_members_ok members (s : substrate) :
  (∀ n, n ∈ members → is_Some (nodes_ s !! n)) →
  validate_members members s = Returns () s.
Proof.
  induction members as [|n members IH]; intros Hall; simpl; [done|].
  destruct (Hall n) as [node ->]; [left|].
  apply IH. intros m Hm. apply Hall. by right.
Qed.

Lemma validate_members_throws members (s : substrate) :
  (∃ n, n ∈ members ∧ nodes_ s !! n = None) →
  ∃ n, n ∈ members ∧ nodes_ s !! n = None ∧
       validate_members members s = Throws (referential_integrity_error n) s.
Proof.
  induction members as [|m members IH]; intros (n & Hin & Hn).
  - by apply elem_of_nil in Hin.
  - simpl. destruct (nodes_ s !! m) as [node|] eqn:Hm.
    + apply elem_of_cons in Hin as [->|Hin]; [congruence|].
      destruct IH as (n' & ? & ? & ?); [by eauto|].
      exists n'. split_and!; [by right|done|done].
    + exists m. split_and!; [by left|done|done].
Qed.

Lemma validate_members_cases members (s : substrate) :
  (validate_members members s = Returns () s ∧
     ∀ n, n ∈ members → is_Some (nodes_ s !! n)) ∨
  (∃ n, n ∈ members ∧ nodes_ s !! n = None ∧
        validate_members members s = Throws (referential_integrity_error n) s).
Proof.
  destruct (decide (Forall (λ n, is_Some (nodes_ s !! n)) members)) as [Hall|Hex].
  - left. rewrite Forall_forall in Hall. split; [|done].
    by apply validate_members_ok.
  - right. apply validate_members_throws.
    apply not_Forall_Exists in Hex; [|apply _].
    apply Exists_exists in Hex as (n & Hin & Hn).
    exists n. split; [done|]. by apply eq_None_not_Some.
Qed.

(** Pushing the selected elements one by one is filtering. *)
Lemma foldl_push_filter {A B} (P : A → Prop) `{!∀ a, Decision (P a)}
    (f : A → B) (l : list A) (acc : list B) :
  foldl (λ acc a, if bool_decide (P a) then acc ++ [f a] else acc) acc l
  = acc ++ (f <$> filter P l).
Proof.
  revert acc. induction l as [|a l IH]; intros acc; simpl.
  - by rewrite app_nil_r.
  - rewrite IH, filter_cons. case_bool_decide.
    + rewrite decide_True by done. by rewrite <- app_assoc.
    + by rewrite decide_False by done.
Qed.

Lemma edges_to_remove_filter id (s : substrate) :
  edges_to_remove id s =
  (filter (λ p : EdgeId * HyperEdge.t, id ∈ HyperEdge.connected_nodes p.2)
          (map_to_list (edges_ s))).*1.
Proof. unfold edges_to_remove. by rewrite foldl_push_filter. Qed.

Lemma elem_of_edges_to_remove id (s : substrate) edge_id :
  edge_id ∈ edges_to_remove id s ↔
  ∃ edge, edges_ s !! edge_id = Some edge ∧ id ∈ HyperEdge.connected_nodes edge.
Proof.
  rewrite edges_to_remove_filter, list_elem_of_fmap. split.
  - intros ([eid edge] & -> & Hin). apply list_elem_of_filter in Hin as [Hid Hin].
    apply elem_of_map_to_list in Hin. eauto.
  - intros (edge & Hlook & Hid). exists (edge_id, edge). split; [done|].
    apply list_elem_of_filter. split; [done|]. by apply elem_of_map_to_list.
Qed.

Lemma NoDup_edges_to_remove id (s : substrate) : NoDup (edges_to_remove id s).
Proof.
  rewrite edges_to_remove_filter.
  eapply NoDup_fmap_fst.
  - intros k x y Hx Hy.
    apply list_elem_of_filter in Hx as [_ Hx], Hy as [_ Hy].
    apply elem_of_map_to_list in Hx, Hy. congruence.
  - apply NoDup_filter, NoDup_map_to_list.
Qed.

(** The second loop of [remove_node]. *)
Lemma foldl_erase_edge (l : list EdgeId) (s : substrate) :
  let s' := foldl erase_edge s l in
  substrate_mutex_ s' = substrate_mutex_ s ∧
  nodes_ s' = nodes_ s ∧
  (∀ edge_id : EdgeId, edges_ s' !! edge_id =
              if decide (edge_id ∈ l) then None else edges_ s !! edge_id) ∧
  persistence_ s' =
    foldl (λ p edge_id, (SubstratePersistence.remove_edge edge_id p).2)
          (persistence_ s) l.
Proof.
  revert s. induction l as [|e l IH]; intros s; simpl.
  - by split_and!.
  - destruct (IH (erase_edge s e)) as (Hm & Hn & He & Hp).
    split_and!; [by rewrite Hm|by rewrite Hn| |by rewrite Hp].
    intros edge_id. rewrite He. simpl.
    destruct (decide (edge_id = e)) as [->|Hne].
    + rewrite lookup_delete_eq. rewrite (decide_True (P := e ∈ e :: l)) by left.
      by destruct (decide (e ∈ l)).
    + rewrite lookup_delete_ne by done.
      destruct (decide (edge_id ∈ l)).
      * rewrite decide_True; [done|by right].
      * rewrite decide_False; [done|]. rewrite elem_of_cons. tauto.
Qed.


Lemma relock (s st : substrate) :
  unlocked s →
  nodes_ st = nodes_ s → edges_ st = edges_ s → persistence_ st = persistence_ s →
  with_mutex false st = s.
Proof. destruct s, st; unfold unlocked; simpl; by intros -> -> -> ->. Qed.

(** *** [add_edge] and [update_edge] *)

Lemma add_edge_duplicate edge (s : substrate) :
  unlocked s → is_Some (edges_ s !! HyperEdge.id edge) →
  add_edge edge s = Returns false s.
Proof.
  intros Hs [old Hold]. unfold add_edge. rewrite lock_guard_unlocked by done.
  simpl. rewrite Hold. f_equal. by apply relock.
Qed.

Lemma members_exist_or_missing edge (s : substrate) :
  members_exist edge s ∨ member_missing edge s.
Proof.
  destruct (validate_members_cases (elements (HyperEdge.connected_nodes edge)) s)
    as [[_ Hall]|(n & Hin & Hn & _)].
  - left. intros n Hn. apply Hall. set_solver.
  - right. exists n. set_solver.
Qed.

Lemma validate_edge_consistency_ok edge (s : substrate) :
  members_exist edge s → validate_edge_consistency edge s = Returns () s.
Proof.
  intros Hall. apply validate_members_ok. intros n Hn. apply Hall. set_solver.
Qed.

Lemma validate_edge_consistency_throws edge (s : substrate) :
  member_missing edge s →
  ∃ n, n ∈ HyperEdge.connected_nodes edge ∧ nodes_ s !! n = None ∧
       validate_edge_consistency edge s = Throws (referential_integrity_error n) s.
Proof.
  intros (n & Hin & Hn).
  destruct (validate_members_throws (elements (HyperEdge.connected_nodes edge)) s)
    as (m & Hm & Hmn & Hv); [exists n; set_solver|].
  exists m. split_and!; [set_solver|done|done].
Qed.

Lemma store_edge_relock edge (s : substrate) :
  unlocked s →
  with_mutex false
    (persist (SubstratePersistence.save_edge edge)
       (with_edges (<[HyperEdge.id edge := edge]> (edges_ (with_mutex true s)))
          (with_mutex true s)))
  = persist (SubstratePersistence.save_edge edge)
      (with_edges (<[HyperEdge.id edge := edge]> (edges_ s)) s).
Proof. destruct s; unfold unlocked; simpl; by intros ->. Qed.

Lemma add_edge_valid edge (s : substrate) :
  unlocked s → edges_ s !! HyperEdge.id edge = None → members_exist edge s →
  add_edge edge s =
    Returns true
      (persist (SubstratePersistence.save_edge edge)
         (with_edges (<[HyperEdge.id edge := edge]> (edges_ s)) s)).
Proof.
  intros Hs Hnew Hall. unfold add_edge. rewrite lock_guard_unlocked by done.
  simpl. rewrite Hnew. unfold bind.
  rewrite validate_edge_consistency_ok by done.
  f_equal. by apply store_edge_relock.
Qed.

Lemma add_edge_dangling edge (s : substrate) :
  unlocked s → edges_ s !! HyperEdge.id edge = None → member_missing edge s →
  ∃ n, n ∈ HyperEdge.connected_nodes edge ∧ nodes_ s !! n = None ∧
       add_edge edge s = Throws (referential_integrity_error n) s.
Proof.
  intros Hs Hnew Hmiss. unfold add_edge. rewrite lock_guard_unlocked by done.
  simpl. rewrite Hnew. unfold bind.
  destruct (validate_edge_consistency_throws edge (with_mutex true s) Hmiss)
    as (n & Hin & Hn & ->).
  exists n. split_and!; [done|done|]. f_equal. by apply relock.
Qed.

Lemma update_edge_absent edge (s : substrate) :
  unlocked s → edges_ s !! HyperEdge.id edge = None →
  update_edge edge s = Returns false s.
Proof.
  intros Hs Hnew. unfold update_edge. rewrite lock_guard_unlocked by done.
  simpl. rewrite Hnew. f_equal. by apply relock.
Qed.

Lemma update_edge_valid edge (s : substrate) :
  unlocked s → is_Some (edges_ s !! HyperEdge.id edge) → members_exist edge s →
  update_edge edge s =
    Returns true
      (persist (SubstratePersistence.save_edge edge)
         (with_edges (<[HyperEdge.id edge := edge]> (edges_ s)) s)).
Proof.
  intros Hs [old Hold] Hall. unfold update_edge. rewrite lock_guard_unlocked by done.
  simpl. rewrite Hold. unfold bind.
  rewrite validate_edge_consistency_ok by done.
  f_equal. by apply store_edge_relock.
Qed.

Lemma update_edge_dangling edge (s : substrate) :
  unlocked s → is_Some (edges_ s !! HyperEdge.id edge) → member_missing edge s →
  ∃ n, n ∈ HyperEdge.connected_nodes edge ∧ nodes_ s !! n = None ∧
       update_edge edge s = Throws (referential_integrity_error n) s.
Proof.
  intros Hs [old Hold] Hmiss. unfold update_edge. rewrite lock_guard_unlocked by done.
  simpl. rewrite Hold. unfold bind.
  destruct (validate_edge_consistency_throws edge (with_mutex true s) Hmiss)
    as (n & Hin & Hn & ->).
  exists n. split_and!; [done|done|]. f_equal. by apply relock.
Qed.

Lemma remove_edge_spec id (s : substrate) :
  unlocked s →
  remove_edge id s =
    match edges_ s !! id with
    | Some _ =>
        Returns true
          (persist (SubstratePersistence.remove_edge id)
             (with_edges (delete id (edges_ s)) s))
    | None => Returns false s
    end.
Proof.
  intros Hs. unfold remove_edge. rewrite lock_guard_unlocked by done. simpl.
  destruct (edges_ s !! id); f_equal; [|by apply relock].
  destruct s; unfold unlocked in Hs; simpl in *; by subst.
Qed.

(** *** Node management *)

Lemma add_node_spec node (s : substrate) :
  unlocked s →
  add_node node s =
    match nodes_ s !! HyperNode.id node with
    | Some _ => Returns false s
    | None =>
        Returns true
          (persist (SubstratePersistence.save_node node)
             (with_nodes (<[HyperNode.id node := node]> (nodes_ s)) s))
    end.
Proof.
  intros Hs. unfold add_node. rewrite lock_guard_unlocked by done. simpl.
  destruct (nodes_ s !! HyperNode.id node); f_equal; [by apply relock|].
  destruct s; unfold unlocked in Hs; simpl in *; by subst.
Qed.

Lemma update_node_spec node (s : substrate) :
  unlocked s →
  update_node node s =
    match nodes_ s !! HyperNode.id node with
    | None => Returns false s
    | Some _ =>
        Returns true
          (persist (SubstratePersistence.save_node node)
             (with_nodes (<[HyperNode.id node := node]> (nodes_ s)) s))
    end.
Proof.
  intros Hs. unfold update_node. rewrite lock_guard_unlocked by done. simpl.
  destruct (nodes_ s !! HyperNode.id node); f_equal; [|by apply relock].
  destruct s; unfold unlocked in Hs; simpl in *; by subst.
Qed.

(** The substrate [remove_node id] leaves behind. *)
Lemma remove_node_spec id (s : substrate) :
  unlocked s →
  ∃ s', remove_node id s = Returns (bool_decide (is_Some (nodes_ s !! id))) s' ∧
    unlocked s' ∧
    nodes_ s' = delete id (nodes_ s) ∧
    (∀ edge_id : EdgeId,
       edges_ s' !! edge_id =
       if decide (edge_id ∈ edges_to_remove id s) then None
       else edges_ s !! edge_id) ∧
    persistence_ s' =
      let p := foldl (λ p edge_id, (SubstratePersistence.remove_edge edge_id p).2)
                     (persistence_ s) (edges_to_remove id s) in
      if bool_decide (is_Some (nodes_ s !! id))
      then (SubstratePersistence.remove_node id p).2 else p.
Proof.
  intros Hs. unfold remove_node. rewrite lock_guard_unlocked by done.
  cbn zeta.
  destruct (foldl_erase_edge (edges_to_remove id (with_mutex true s)) (with_mutex true s))
    as (Hm & Hn & He & Hp).
  change (edges_to_remove id (with_mutex true s)) with (edges_to_remove id s) in *.
  set (s1 := foldl erase_edge (with_mutex true s) (edges_to_remove id s)) in *.
  fields. rewrite Hn.
  destruct (nodes_ s !! id) as [node|] eqn:Hnode.
  - rewrite bool_decide_eq_true_2 by eauto.
    eexists. split; [reflexivity|]. fields. rewrite ?Hn, ?Hp. by split_and!.
  - rewrite bool_decide_eq_false_2 by (intros [? ?]; done).
    eexists. split; [reflexivity|]. fields. rewrite ?Hn, ?Hp.
    split_and!; try done. by rewrite delete_id.
Qed.

(** *** Referential integrity *)

Lemma referential_integrity_new persistence :
  referential_integrity (new persistence : substrate).
Proof.
  intros edge_id edge node_id Hedge. unfold new in Hedge. simpl in Hedge.
  by rewrite lookup_empty in Hedge.
Qed.

Lemma referential_integrity_nodes (s s' : substrate) :
  referential_integrity s →
  edges_ s' = edges_ s →
  (∀ n, is_Some (nodes_ s !! n) → is_Some (nodes_ s' !! n)) →
  referential_integrity s'.
Proof.
  intros HRI He Hn edge_id edge node_id Hedge Hin.
  rewrite He in Hedge. eauto.
Qed.

Lemma referential_integrity_store edge (s s' : substrate) :
  referential_integrity s → members_exist edge s →
  nodes_ s' = nodes_ s →
  edges_ s' = <[HyperEdge.id edge := edge]> (edges_ s) →
  referential_integrity s'.
Proof.
  intros HRI Hall Hn He edge_id e node_id Hedge Hin.
  rewrite He in Hedge. rewrite Hn.
  destruct (decide (HyperEdge.id edge = edge_id)) as [<-|Hne].
  - rewrite lookup_insert_eq in Hedge. injection Hedge as <-. by apply Hall.
  - rewrite lookup_insert_ne in Hedge by done. eauto.
Qed.

Lemma completes_Returns {A} (a : A) (s s' : substrate) :
  completes (Returns a s) s' → s' = s.
Proof. intros [[? Heq]|[? Heq]]; congruence. Qed.

Lemma completes_Throws {A} e (s s' : substrate) :
  completes (Throws (A:=A) e s) s' → s' = s.
Proof. intros [[? Heq]|[? Heq]]; congruence. Qed.

Lemma perform_preserves op (s s' : substrate) :
  unlocked s → referential_integrity s →
  completes (perform op s) s' →
  unlocked s' ∧ referential_integrity s'.
Proof.
  intros Hs HRI Hc. destruct op as [node|node|id|edge|edge|id]; simpl in Hc.
  - rewrite add_node_spec in Hc by done.
    destruct (nodes_ s !! HyperNode.id node) eqn:Hnode;
      apply completes_Returns in Hc as ->; [done|].
    split; [done|]. eapply referential_integrity_nodes; [done|done|].
    intros n Hn. fields.
    destruct (decide (HyperNode.id node = n)) as [->|?].
    + by rewrite lookup_insert_eq.
    + by rewrite lookup_insert_ne.
  - rewrite update_node_spec in Hc by done.
    destruct (nodes_ s !! HyperNode.id node) eqn:Hnode;
      apply completes_Returns in Hc as ->; [|done].
    split; [done|]. eapply referential_integrity_nodes; [done|done|].
    intros n Hn. fields.
    destruct (decide (HyperNode.id node = n)) as [->|?].
    + by rewrite lookup_insert_eq.
    + by rewrite lookup_insert_ne.
  - destruct (remove_node_spec id s Hs) as (s1 & Hrun & Hs1 & Hn1 & He1 & _).
    rewrite Hrun in Hc. apply completes_Returns in Hc as ->.
    split; [done|]. intros edge_id edge node_id Hedge Hin.
    rewrite He1 in Hedge. case_decide as Hrem; [done|].
    rewrite Hn1. destruct (decide (node_id = id)) as [->|Hne].
    + exfalso. apply Hrem, elem_of_edges_to_remove. eauto.
    + rewrite lookup_delete_ne by done. eauto.
  - destruct (edges_ s !! HyperEdge.id edge) eqn:Hedge.
    + rewrite add_edge_duplicate in Hc by eauto.
      by apply completes_Returns in Hc as ->.
    + destruct (members_exist_or_missing edge s) as [Hall|Hmiss].
      * rewrite add_edge_valid in Hc by done.
        apply completes_Returns in Hc as ->. split; [done|].
        by eapply referential_integrity_store.
      * destruct (add_edge_dangling edge s) as (n & _ & _ & Hrun); [done..|].
        rewrite Hrun in Hc. by apply completes_Throws in Hc as ->.
  - destruct (edges_ s !! HyperEdge.id edge) eqn:Hedge.
    + destruct (members_exist_or_missing edge s) as [Hall|Hmiss].
      * rewrite update_edge_valid in Hc by eauto.
        apply completes_Returns in Hc as ->. split; [done|].
        by eapply referential_integrity_store.
      * destruct (update_edge_dangling edge s) as (n & _ & _ & Hrun); [by eauto..|].
        rewrite Hrun in Hc. by apply completes_Throws in Hc as ->.
    + rewrite update_edge_absent in Hc by done.
      by apply completes_Returns in Hc as ->.
  - rewrite remove_edge_spec in Hc by done.
    destruct (edges_ s !! id) eqn:Hedge;
      apply completes_Returns in Hc as ->; [|done].
    split; [done|]. intros edge_id edge node_id Hlook Hin. fields.
    apply lookup_delete_Some in Hlook as [_ Hlook]. eauto.
Qed.

Lemma reachable_state_invariant (s : substrate) :
  reachable_state s → unlocked s ∧ referential_integrity s.
Proof.
  induction 1 as [persistence|s op s' _ [Hs HRI] Hc].
  - split; [done|apply referential_integrity_new].
  - by eapply perform_preserves.
Qed.

(** On an unlocked substrate each of the six operations returns or
    throws; none of them blocks. *)
Lemma perform_completes op (s : substrate) :
  unlocked s → ∃ s', completes (perform op s) s'.
Proof.
  intros Hs. destruct op as [node|node|id|edge|edge|id]; simpl.
  - rewrite add_node_spec by done.
    destruct (nodes_ s !! _); eexists; left; eauto.
  - rewrite update_node_spec by done.
    destruct (nodes_ s !! _); eexists; left; eauto.
  - destruct (remove_node_spec id s Hs) as (s1 & -> & _).
    eexists; left; eauto.
  - destruct (edges_ s !! HyperEdge.id edge) eqn:Hedge.
    + rewrite add_edge_duplicate by eauto. eexists; left; eauto.
    + destruct (members_exist_or_missing edge s) as [Hall|Hmiss].
      * rewrite add_edge_valid by done. eexists; left; eauto.
      * destruct (add_edge_dangling edge s) as (n & _ & _ & ->); [done..|].
        eexists; right; eauto.
  - destruct (edges_ s !! HyperEdge.id edge) eqn:Hedge.
    + destruct (members_exist_or_missing edge s) as [Hall|Hmiss].
      * rewrite update_edge_valid by eauto. eexists; left; eauto.
      * destruct (update_edge_dangling edge s) as (n & _ & _ & ->); [by eauto..|].
        eexists; right; eauto.
    + rewrite update_edge_absent by done. eexists; left; eauto.
  - rewrite remove_edge_spec by done.
    destruct (edges_ s !! id); eexists; left; eauto.
Qed.

Lemma reachable_state_run ops (s : substrate) :
  reachable_state s → reachable_state (run_operations ops s).
Proof.
  revert s. induction ops as [|op ops IH]; intros s Hs; [done|].
  simpl. apply IH.
  destruct (perform_completes op s) as [s' Hc];
    [by apply reachable_state_invariant|].
  eapply reachable_step; [exact Hs|].
  destruct Hc as [[a Hc]|[e Hc]]; rewrite Hc; simpl; [left|right]; eauto.
Qed.

(** *** Saving, clearing and loading with the in-memory strategy *)

Lemma save_nodes_memory l m :
  ∃ m', save_nodes l (Memory m) = (true, Memory m').
Proof.
  revert m. induction l as [|[node_id node] l IH]; intros m; simpl; [by eauto|].
  apply IH.
Qed.

Lemma save_edges_memory l m :
  ∃ m', save_edges l (Memory m) = (true, Memory m').
Proof.
  revert m. induction l as [|[edge_id edge] l IH]; intros m; simpl; [by eauto|].
  apply IH.
Qed.

Lemma save_substrate_memory (s : substrate) m :
  unlocked s → persistence_ s = Memory m →
  ∃ m', save_substrate s = Returns true (with_persistence (Memory m') s).
Proof.
  intros Hs Hp. unfold save_substrate. rewrite lock_guard_unlocked by done.
  fields. rewrite Hp.
  destruct (save_nodes_memory (map_to_list (nodes_ s)) m) as [m1 ->].
  cbn [fst snd].
  destruct (save_edges_memory (map_to_list (edges_ s)) m1) as [m2 ->].
  cbn [fst snd]. exists m2. f_equal.
  destruct s; unfold unlocked in Hs; simpl in *; by subst.
Qed.

Lemma clear_substrate_memory (s : substrate) m :
  unlocked s → persistence_ s = Memory m →
  clear_substrate s =
    Returns () (mk false ∅ ∅ (Memory MemorySubstratePersistence.empty)).
Proof.
  intros Hs Hp. unfold clear_substrate. rewrite lock_guard_unlocked by done.
  fields. by rewrite Hp.
Qed.

Lemma load_substrate_empty_memory (s : substrate) :
  unlocked s → persistence_ s = Memory MemorySubstratePersistence.empty →
  load_substrate s =
    Returns true (mk false ∅ ∅ (Memory MemorySubstratePersistence.empty)).
Proof.
  intros Hs Hp. unfold load_substrate. rewrite lock_guard_unlocked by done.
  fields. rewrite Hp. reflexivity.
Qed.

(** Whatever the substrate held, after [save_substrate], [clear_substrate]
    and [load_substrate] with the in-memory strategy it holds nothing. *)
Lemma save_clear_load_memory (s : substrate) m :
  unlocked s → persistence_ s = Memory m →
  ∃ s1 s2 s3,
    save_substrate s = Returns true s1 ∧
    clear_substrate s1 = Returns () s2 ∧
    load_substrate s2 = Returns true s3 ∧
    nodes_ s1 = nodes_ s ∧ edges_ s1 = edges_ s ∧
    nodes_ s2 = ∅ ∧ edges_ s2 = ∅ ∧
    nodes_ s3 = ∅ ∧ edges_ s3 = ∅.
Proof.
  intros Hs Hp. destruct (save_substrate_memory s m Hs Hp) as [m' Hsave].
  eexists _, _, _. split; [exact Hsave|].
  split; [by eapply clear_substrate_memory|].
  split; [by apply load_substrate_empty_memory|]. done.
Qed.

(** *** The clustering coefficient *)

Lemma get_connected_nodes_locked id (s : substrate) :
  substrate_mutex_ s = true → get_connected_nodes id s = Deadlock.
Proof. apply lock_guard_locked. Qed.

Lemma calculate_clustering_coefficient_blocks id (s : substrate) :
  calculate_clustering_coefficient id s = Deadlock.
Proof.
  unfold calculate_clustering_coefficient, lock_guard.
  destruct (substrate_mutex_ s); [done|].
  unfold clustering_coefficient_with, bind.
  by rewrite get_connected_nodes_locked.
Qed.

(** The removals of [remove_node] as the in-memory strategy records them. *)
Lemma foldl_remove_edge_memory (l : list EdgeId) m :
  ∃ m',
    foldl (λ p edge_id, (SubstratePersistence.remove_edge edge_id p).2)
          (Memory m : persistence_ptr) l = Memory m' ∧
    MemorySubstratePersistence.nodes_ m' = MemorySubstratePersistence.nodes_ m ∧
    ∀ edge_id : EdgeId,
      MemorySubstratePersistence.edges_ m' !! edge_id =
      if decide (edge_id ∈ l) then None
      else MemorySubstratePersistence.edges_ m !! edge_id.
Proof.
  revert m. induction l as [|e l IH]; intros m.
  - exists m. by split_and!.
  - destruct (IH (MemorySubstratePersistence.remove_edge e m).2) as (m' & Hrun & Hn & He).
    exists m'. split_and!; [exact Hrun|by rewrite Hn|].
    intros edge_id. rewrite He. simpl.
    destruct (decide (edge_id = e)) as [->|Hne].
    + rewrite lookup_delete_eq. rewrite (decide_True (P := e ∈ e :: l)) by left.
      by destruct (decide (e ∈ l)).
    + rewrite lookup_delete_ne by done.
      destruct (decide (edge_id ∈ l)).
      * rewrite decide_True; [done|by right].
      * rewrite decide_False; [done|]. rewrite elem_of_cons. tauto.
Qed.

Lemma remove_node_memory id (s : substrate) m :
  unlocked s → persistence_ s = Memory m →
  ∃ s' m',
    remove_node id s = Returns (bool_decide (is_Some (nodes_ s !! id))) s' ∧
    persistence_ s' = Memory m' ∧
    MemorySubstratePersistence.nodes_ m' =
      (if bool_decide (is_Some (nodes_ s !! id))
       then delete id (MemorySubstratePersistence.nodes_ m)
       else MemorySubstratePersistence.nodes_ m) ∧
    ∀ edge_id : EdgeId,
      MemorySubstratePersistence.edges_ m' !! edge_id =
      if decide (edge_id ∈ edges_to_remove id s) then None
      else MemorySubstratePersistence.edges_ m !! edge_id.
Proof.
  intros Hs Hp.
  destruct (remove_node_spec id s Hs) as (s' & Hrun & _ & _ & _ & Hp').
  destruct (foldl_remove_edge_memory (edges_to_remove id s) m) as (m1 & Hfold & Hn1 & He1).
  rewrite Hp in Hp'. cbn zeta in Hp'. rewrite Hfold in Hp'.
  destruct (bool_decide (is_Some (nodes_ s !! id))).
  - exists s', (MemorySubstratePersistence.remove_node id m1).2.
    split_and!; [done|done|by simpl; rewrite Hn1|done].
  - exists s', m1. by split_and!.
Qed.

(** The counting loop on the set [get_connected_nodes] computes, without
    the second locking: a node with fewer than two connected nodes gets
    0.0. *)
Lemma clustering_few_neighbours id (s : substrate) :
  unlocked s →
  (size (connected_set id (edges_ s)) < 2)%nat →
  lock_guard (clustering_coefficient_with connected_nodes_body id) s
  = Returns 0%float s.
Proof.
  intros Hs Hfew. rewrite lock_guard_unlocked by done.
  unfold clustering_coefficient_with, bind, connected_nodes_body. fields.
  rewrite (Permutation_length (merge_sort_Permutation string_le _)).
  change (length (elements (connected_set id (edges_ s))))
    with (size (connected_set id (edges_ s))).
  rewrite (proj2 (Z.ltb_lt _ _)) by lia.
  unfold ret. f_equal. by apply relock.
Qed.

(** *** Density *)

Lemma calculate_substrate_density_spec (s : substrate) :
  unlocked s →
  calculate_substrate_density s =
    Returns
      (let n := Z.of_nat (size (nodes_ s)) in
       if n <? 2 then 0%float
       else (double_of_size_t (Z.of_nat (size (edges_ s)))
             / double_of_size_t (to_size_t (n * to_size_t (n - 1)) / 2))%float)
      s.
Proof.
  intros Hs. unfold calculate_substrate_density.
  rewrite lock_guard_unlocked by done. fields. cbn zeta.
  destruct (Z.of_nat (size (nodes_ s)) <? 2); f_equal; by apply relock.
Qed.

(** Below [2^32] nodes the product does not wrap: the divisor is the
    number of unordered pairs of nodes. *)
Lemma pairs_no_wrap n :
  2 ≤ n < 2 ^ 32 → to_size_t (n * to_size_t (n - 1)) / 2 = n * (n - 1) / 2.
Proof.
  intros Hn. unfold to_size_t, size_t_max.
  rewrite (Z.mod_small (n - 1)) by lia.
  rewrite Z.mod_small; [done|]. nia.
Qed.
End SubstrateTheory.

(** * Reachability within a hop bound and activation propagation *)

Section Reachability.
Context {X : Type} `{!SubstratePersistence.Interface X}.
Import HypergraphSubstrate.
Abbreviation substrate := (@HypergraphSubstrate.t X).
Abbreviation bfs := HypergraphSubstrate.bfs_state.

Variable edges : gmap EdgeId HyperEdge.t.

Lemma discovers_nil hops (st : bfs) : discovers hops st st [].
Proof.
  unfold discovers. simpl. rewrite !app_nil_r.
  split_and!; [done|set_solver|done|constructor|set_solver].
Qed.

Lemma discovers_app hops (st st1 st2 : bfs) new1 new2 :
  discovers hops st st1 new1 → discovers hops st1 st2 new2 →
  discovers hops st st2 (new1 ++ new2).
Proof.
  intros (Hq1 & Hv1 & Hr1 & Hd1 & Hn1) (Hq2 & Hv2 & Hr2 & Hd2 & Hn2).
  unfold discovers. rewrite Hq2, Hq1, Hv2, Hv1, Hr2, Hr1.
  rewrite fmap_app, !app_assoc, list_to_set_app_L.
  split_and!; [done|set_solver|done| |].
  - apply NoDup_app. split_and!; [done| |done].
    intros n Hin1 Hin2. apply Hn2 in Hin2. rewrite Hv1 in Hin2. set_solver.
  - intros n [Hin|Hin]%elem_of_app; [by apply Hn1|].
    apply Hn2 in Hin. rewrite Hv1 in Hin. set_solver.
Qed.

Lemma visit_neighbor_discovers current hops (st : bfs) n :
  ∃ new, discovers hops st (visit_neighbor current hops st n) new ∧
         ∀ m, m ∈ visited (visit_neighbor current hops st n) ↔
              m ∈ visited st ∨ (m = n ∧ m ≠ current).
Proof.
  unfold visit_neighbor.
  destruct (bool_decide (n ≠ current)) eqn:Hne;
    [destruct (bool_decide (n ∉ visited st)) eqn:Hnv|]; simpl.
  - apply bool_decide_eq_true in Hne, Hnv. exists [n]. split.
    + unfold discovers. simpl.
      split_and!; [done|set_solver|done|apply NoDup_singleton|set_solver].
    + set_solver.
  - apply bool_decide_eq_true in Hne. apply bool_decide_eq_false in Hnv.
    apply dec_stable in Hnv.
    exists []. split; [apply discovers_nil|]. set_solver.
  - apply bool_decide_eq_false in Hne. apply dec_stable in Hne.
    exists []. split; [apply discovers_nil|]. set_solver.
Qed.

Lemma foldl_visit_neighbor current hops l (st : bfs) :
  ∃ new, discovers hops st (foldl (visit_neighbor current hops) st l) new ∧
         ∀ m, m ∈ visited (foldl (visit_neighbor current hops) st l) ↔
              m ∈ visited st ∨ (m ∈ l ∧ m ≠ current).
Proof.
  revert st. induction l as [|n l IH]; intros st; simpl.
  - exists []. split; [apply discovers_nil|]. set_solver.
  - destruct (visit_neighbor_discovers current hops st n) as (new1 & Hd1 & Hv1).
    destruct (IH (visit_neighbor current hops st n)) as (new2 & Hd2 & Hv2).
    exists (new1 ++ new2). split; [by eapply discovers_app|].
    intros m. rewrite Hv2, Hv1. set_solver.
Qed.

Lemma scan_edge_discovers current hops (st : bfs) (p : EdgeId * HyperEdge.t) :
  ∃ new, discovers hops st (scan_edge current hops st p) new ∧
         ∀ m, m ∈ visited (scan_edge current hops st p) ↔
              m ∈ visited st ∨
              (current ∈ HyperEdge.connected_nodes p.2 ∧
               m ∈ HyperEdge.connected_nodes p.2 ∧ m ≠ current).
Proof.
  unfold scan_edge. case_bool_decide as Hcur.
  - destruct (foldl_visit_neighbor current hops
                (elements (HyperEdge.connected_nodes p.2)) st) as (new & Hd & Hv).
    exists new. split; [done|]. intros m. rewrite Hv. set_solver.
  - exists []. split; [apply discovers_nil|]. set_solver.
Qed.

Lemma foldl_scan_edge current hops (l : list (EdgeId * HyperEdge.t)) (st : bfs) :
  ∃ new, discovers hops st (foldl (scan_edge current hops) st l) new ∧
         ∀ m, m ∈ visited (foldl (scan_edge current hops) st l) ↔
              m ∈ visited st ∨
              (m ≠ current ∧ ∃ p, p ∈ l ∧
                 current ∈ HyperEdge.connected_nodes p.2 ∧
                 m ∈ HyperEdge.connected_nodes p.2).
Proof.
  revert st. induction l as [|p l IH]; intros st; simpl.
  - exists []. split; [apply discovers_nil|]. set_solver.
  - destruct (scan_edge_discovers current hops st p) as (new1 & Hd1 & Hv1).
    destruct (IH (scan_edge current hops st p)) as (new2 & Hd2 & Hv2).
    exists (new1 ++ new2). split; [by eapply discovers_app|].
    intros m. rewrite Hv2, Hv1. split.
    + intros [[?|(?&?&?)]|(?&q&?&?&?)]; [by left|right..].
      * split; [done|]. exists p. set_solver.
      * split; [done|]. exists q. set_solver.
    + intros [?|(?&q&[->|?]%elem_of_cons&?&?)]; [by left; left|by left; right|].
      right. split; [done|]. by exists q.
Qed.

(** One round of the loop for a node under the hop bound discovers its
    unvisited co-members, each once. *)
Lemma expand_discovers current hops (st : bfs) :
  ∃ new, discovers hops st (expand edges current hops st) new ∧
         ∀ n, n ∈ new ↔ co_member edges current n ∧ n ∉ visited st.
Proof.
  unfold expand.
  destruct (foldl_scan_edge current hops (map_to_list edges) st) as (new & Hd & Hv).
  exists new. split; [done|]. intros n.
  destruct Hd as (_ & Hvis & _ & _ & Hfresh).
  split.
  - intros Hin. split; [|by apply Hfresh].
    assert (n ∈ visited (foldl (scan_edge current hops) st (map_to_list edges)))
      as Hn by (rewrite Hvis; set_solver).
    apply Hv in Hn as [Hn|(Hne & [edge_id edge] & Hp & Hc & Hm)].
    + by apply Hfresh in Hin.
    + apply elem_of_map_to_list in Hp. split; [done|]. by exists edge_id, edge.
  - intros [(Hne & edge_id & edge & Hedge & Hc & Hm) Hnv].
    assert (n ∈ visited (foldl (scan_edge current hops) st (map_to_list edges)))
      as Hn.
    { apply Hv. right. split; [done|]. exists (edge_id, edge).
      split; [by apply elem_of_map_to_list|done]. }
    rewrite Hvis in Hn. set_solver.
Qed.

Lemma expand_fields current hops (st : bfs) :
  ∃ new,
    expand edges current hops st =
      mk_bfs (queue st ++ ((λ n, (n, hops + 1)) <$> new))
             (list_to_set new ∪ visited st) (reachable st ++ new) ∧
    NoDup new ∧
    ∀ n, n ∈ new ↔ co_member edges current n ∧ n ∉ visited st.
Proof.
  destruct (expand_discovers current hops st) as (new & Hd & Hnew).
  destruct Hd as (Hq & Hv & Hr & Hnd & _).
  exists new. split_and!; [|done..].
  destruct (expand edges current hops st); simpl in *. by subst.
Qed.

Lemma bfs_loop_mono fuel fuel' max_hops (st : bfs) result :
  bfs_loop fuel edges max_hops st = Some result → (fuel ≤ fuel')%nat →
  bfs_loop fuel' edges max_hops st = Some result.
Proof.
  revert fuel' st. induction fuel as [|fuel IH]; intros fuel' st Hrun Hle; [done|].
  destruct fuel' as [|fuel']; [lia|]. simpl in *.
  destruct (queue st) as [|[current hops] rest]; [done|].
  destruct (max_hops <=? hops); (apply IH; [done|lia]).
Qed.

(** Entries at the hop bound are popped and dropped. *)
Lemma bfs_loop_skip max_hops q v r :
  Forall (λ p : NodeId * Z, max_hops ≤ p.2) q →
  bfs_loop (S (length q)) edges max_hops (mk_bfs q v r) = Some r.
Proof.
  induction q as [|[n hops] q IH]; intros Hall; [done|].
  apply Forall_cons in Hall as [Hhops Hall]. simpl in Hhops.
  change (bfs_loop (S (length ((n, hops) :: q))) edges max_hops (mk_bfs ((n, hops) :: q) v r))
    with (if max_hops <=? hops
          then bfs_loop (S (length q)) edges max_hops (mk_bfs q v r)
          else bfs_loop (S (length q)) edges max_hops
                 (expand edges n hops (mk_bfs q v r))).
  rewrite (proj2 (Z.leb_le _ _)) by done. by apply IH.
Qed.

(** The rounds for the entries one hop under the bound: what they
    discover is dropped later, so the result grows by exactly the
    unvisited co-members of those entries. *)
Lemma bfs_loop_last_hop hops L T v r :
  Forall (λ p : NodeId * Z, hops + 1 ≤ p.2) T →
  ∃ new,
    bfs_loop (length L + length T + length new + 1) edges (hops + 1)
      (mk_bfs (((λ n, (n, hops)) <$> L) ++ T) v r) = Some (r ++ new) ∧
    NoDup new ∧
    ∀ n, n ∈ new ↔ (n ∉ v) ∧ ∃ c, c ∈ L ∧ co_member edges c n.
Proof.
  revert T v r. induction L as [|c L IH]; intros T v r HT.
  - exists []. split_and!; [|constructor|set_solver].
    rewrite app_nil_r. simpl.
    replace (length T + 0 + 1)%nat with (S (length T)) by lia.
    by apply bfs_loop_skip.
  - destruct (expand_fields c hops (mk_bfs (((λ n, (n, hops)) <$> L) ++ T) v r))
      as (new1 & Hexp & Hnd1 & Hnew1). simpl in Hexp, Hnew1.
    rewrite <- app_assoc in Hexp.
    destruct (IH (T ++ ((λ n, (n, hops + 1)) <$> new1))
                 (list_to_set new1 ∪ v) (r ++ new1)) as (new2 & Hrun & Hnd2 & Hnew2).
    { apply Forall_app. split; [done|]. apply Forall_fmap, Forall_forall.
      intros n _. simpl. lia. }
    exists (new1 ++ new2). split_and!.
    + replace (length (c :: L) + length T + length (new1 ++ new2) + 1)%nat
        with (S (length L + length (T ++ ((λ n, (n, hops + 1)) <$> new1))
                 + length new2 + 1))
        by (rewrite !length_app, length_fmap; simpl; lia).
      cbn [bfs_loop fmap list_fmap app queue visited reachable].
      rewrite (proj2 (Z.leb_gt _ _)) by lia.
      rewrite Hexp, Hrun. by rewrite app_assoc.
    + apply NoDup_app. split_and!; [done| |done].
      intros n Hin1 Hin2. apply Hnew2 in Hin2 as [Hnv _]. set_solver.
    + intros n. rewrite elem_of_app, Hnew1, Hnew2. split.
      * intros [[Hc Hnv]|[Hnv (c' & Hc' & Hco)]].
        -- split; [done|]. exists c. split; [left|done].
        -- split; [set_solver|]. exists c'. split; [by right|done].
      * intros [Hnv (c' & [->|Hc']%elem_of_cons & Hco)]; [by left|].
        destruct (decide (n ∈ new1)) as [Hin|Hnin].
        -- left. by apply Hnew1.
        -- right. split; [set_solver|]. by exists c'.
Qed.

Lemma elem_of_member_ids n :
  n ∈ member_ids edges ↔
  ∃ edge_id edge, edges !! edge_id = Some edge ∧ n ∈ HyperEdge.connected_nodes edge.
Proof.
  unfold member_ids. rewrite elem_of_union_list. split.
  - intros (ns & Hns & Hn).
    apply list_elem_of_fmap in Hns as (edge & -> & Hedge).
    apply list_elem_of_fmap in Hedge as ([edge_id edge'] & -> & Hp).
    apply elem_of_map_to_list in Hp. by exists edge_id, edge'.
  - intros (edge_id & edge & Hedge & Hn).
    exists (HyperEdge.connected_nodes edge). split; [|done].
    apply list_elem_of_fmap. exists edge. split; [done|].
    apply list_elem_of_fmap. exists (edge_id, edge). split; [done|].
    by apply elem_of_map_to_list.
Qed.

(** The loop ends: a round pops one entry and pushes only ids that leave
    the unvisited members. *)
Lemma bfs_loop_total fuel max_hops (st : bfs) :
  (length (queue st) + size (member_ids edges ∖ visited st) < fuel)%nat →
  is_Some (bfs_loop fuel edges max_hops st).
Proof.
  revert st. induction fuel as [|fuel IH]; intros st Hlt; [lia|].
  simpl. destruct st as [q v r]. simpl in *.
  destruct q as [|[current hops] rest]; [by eauto|].
  destruct (max_hops <=? hops).
  - apply IH. simpl in *. lia.
  - destruct (expand_fields current hops (mk_bfs rest v r))
      as (new & -> & Hnd & Hnew). simpl in *.
    apply IH. simpl. rewrite length_app, length_fmap.
    assert (size (list_to_set new ∪ (member_ids edges ∖ (list_to_set new ∪ v)) : gset NodeId)
            = (length new + size (member_ids edges ∖ (list_to_set new ∪ v)))%nat)
      as Hsize.
    { rewrite size_union by set_solver. by rewrite size_list_to_set. }
    assert (list_to_set new ∪ (member_ids edges ∖ (list_to_set new ∪ v))
            ⊆ member_ids edges ∖ v) as Hsub.
    { intros n [Hn| Hn]%elem_of_union; [|set_solver].
      apply elem_of_list_to_set, Hnew in Hn as [(_ & edge_id & edge & ? & _ & ?) ?].
      apply elem_of_difference. split; [|done].
      apply elem_of_member_ids. eauto. }
    apply subseteq_size in Hsub. lia.
Qed.

Lemma bfs_loop_two_hops source :
  ∃ fuel result,
    bfs_loop fuel edges 2 (bfs_init source) = Some result ∧
    NoDup result ∧
    ∀ n, n ∈ result ↔ within_two_hops edges source n.
Proof.
  destruct (expand_fields source 0 (mk_bfs [] {[source]} []))
    as (new1 & Hexp & Hnd1 & Hnew1). simpl in Hexp, Hnew1.
  destruct (bfs_loop_last_hop 1 new1 [] (list_to_set new1 ∪ {[source]}) new1)
    as (new2 & Hrun & Hnd2 & Hnew2); [constructor|].
  rewrite app_nil_r in Hrun. change (1 + 1) with 2 in Hrun.
  change (0 + 1) with 1 in Hexp.
  exists (S (length new1 + length (@nil (NodeId * Z)) + length new2 + 1)),
         (new1 ++ new2).
  split_and!.
  - unfold bfs_init. cbn [bfs_loop queue visited reachable].
    change (2 <=? 0) with false. cbn iota. by rewrite Hexp, Hrun.
  - apply NoDup_app. split_and!; [done| |done].
    intros n Hin1 Hin2. apply Hnew2 in Hin2 as [Hnv _]. set_solver.
  - intros n. rewrite elem_of_app, Hnew1, Hnew2. unfold within_two_hops. split.
    + intros [[Hco Hns]|[Hnv (c & Hc & Hco)]].
      * split; [set_solver|by left].
      * split; [set_solver|]. right. exists c. split; [|done].
        by apply Hnew1 in Hc as [? _].
    + intros [Hne [Hco|(m & Hsm & Hmn)]].
      * left. split; [done|set_solver].
      * destruct (decide (n ∈ new1)) as [Hin|Hnin].
        -- left. by apply Hnew1.
        -- right. split; [set_solver|]. exists m. split; [|done].
           apply Hnew1. split; [done|]. destruct Hsm as [? _]. set_solver.
Qed.
End Reachability.

Section Propagation.
Context {X : Type} `{!SubstratePersistence.Interface X}.
Import HypergraphSubstrate.
Abbreviation substrate := (@HypergraphSubstrate.t X).

(** [get_reachable_nodes] returns for every hop bound. *)
Lemma get_reachable_nodes_total source max_hops (s : substrate) :
  is_Some (get_reachable_nodes source max_hops s).
Proof.
  unfold get_reachable_nodes. apply bfs_loop_total. unfold bfs_fuel. simpl.
  assert (size (member_ids (edges_ s) ∖ {[source]}) ≤ size (member_ids (edges_ s)))%nat
    by (apply subseteq_size; set_solver).
  lia.
Qed.

(** With the bound 2 it returns the ids within two hops, each once. *)
Lemma get_reachable_nodes_two_hops source (s : substrate) :
  ∃ result,
    get_reachable_nodes source 2 s = Some result ∧
    NoDup result ∧
    ∀ n, n ∈ result ↔ within_two_hops (edges_ s) source n.
Proof.
  destruct (bfs_loop_two_hops (edges_ s) source) as (fuel & result & Hrun & Hnd & Hres).
  destruct (get_reachable_nodes_total source 2 s) as [result' Hrun'].
  exists result. split_and!; [|done..].
  rewrite Hrun'. unfold get_reachable_nodes in Hrun'.
  eapply bfs_loop_mono in Hrun; [|apply (Nat.le_max_l _ (bfs_fuel (edges_ s)))].
  eapply bfs_loop_mono in Hrun'; [|apply (Nat.le_max_r fuel)].
  congruence.
Qed.

(** The loop of [propagate_activation] over a duplicate-free vector. *)
Lemma foldl_receive_activation a l (s : substrate) :
  NoDup l →
  let s' := foldl (receive_activation a) s l in
  substrate_mutex_ s' = substrate_mutex_ s ∧
  edges_ s' = edges_ s ∧
  persistence_ s' = persistence_ s ∧
  ∀ n : NodeId,
    nodes_ s' !! n =
    if decide (n ∈ l)
    then (λ node,
            HyperNode.set_activation_level
              (HyperNode.activation_level node + a * lit_0_7)%float node)
         <$> nodes_ s !! n
    else nodes_ s !! n.
Proof.
  revert s. induction l as [|t l IH]; intros s Hnd; simpl.
  - by split_and!.
  - apply NoDup_cons in Hnd as [Ht Hnd].
    destruct (IH (receive_activation a s t) Hnd) as (Hm & He & Hp & Hn).
    assert (substrate_mutex_ (receive_activation a s t) = substrate_mutex_ s ∧
            edges_ (receive_activation a s t) = edges_ s ∧
            persistence_ (receive_activation a s t) = persistence_ s) as (Hm1 & He1 & Hp1).
    { unfold receive_activation. by destruct (nodes_ s !! t). }
    split_and!; [congruence..|].
    intros n. rewrite Hn. unfold receive_activation.
    destruct (decide (n = t)) as [->|Hne].
    + rewrite decide_False by done. rewrite decide_True by left.
      destruct (nodes_ s !! t) as [target|] eqn:Htarget; simpl.
      * by rewrite lookup_insert_eq.
      * by rewrite Htarget.
    + destruct (nodes_ s !! t) as [target|] eqn:Htarget; simpl.
      * rewrite lookup_insert_ne by done.
        destruct (decide (n ∈ l)).
        -- rewrite decide_True; [done|by right].
        -- rewrite decide_False; [done|]. rewrite elem_of_cons. tauto.
      * destruct (decide (n ∈ l)).
        -- rewrite decide_True; [done|by right].
        -- rewrite decide_False; [done|]. rewrite elem_of_cons. tauto.
Qed.

Lemma propagate_activation_absent source a (s : substrate) :
  unlocked s → nodes_ s !! source = None →
  propagate_activation source a s = Returns () s.
Proof.
  intros Hs Hsrc. unfold propagate_activation. rewrite lock_guard_unlocked by done.
  simpl. rewrite Hsrc. f_equal. by apply relock.
Qed.

Lemma propagate_activation_present source a (s : substrate) src :
  unlocked s → nodes_ s !! source = Some src →
  ∃ s',
    propagate_activation source a s = Returns () s' ∧
    unlocked s' ∧ edges_ s' = edges_ s ∧ persistence_ s' = persistence_ s ∧
    nodes_ s' !! source = Some (HyperNode.set_activation_level a src) ∧
    (∀ n node,
       nodes_ s !! n = Some node → within_two_hops (edges_ s) source n →
       nodes_ s' !! n =
         Some (HyperNode.set_activation_level
                 (HyperNode.activation_level node + a * lit_0_7)%float node)) ∧
    (∀ n, n ≠ source → ¬ within_two_hops (edges_ s) source n →
          nodes_ s' !! n = nodes_ s !! n).
Proof.
  intros Hs Hsrc. unfold propagate_activation. rewrite lock_guard_unlocked by done.
  cbn [nodes_ with_mutex]. rewrite Hsrc. cbn zeta.
  set (s1 := with_nodes _ (with_mutex true s)).
  destruct (get_reachable_nodes_two_hops source s1) as (result & -> & Hnd & Hres).
  destruct (foldl_receive_activation a result s1 Hnd) as (Hm & He & Hp & Hn).
  unfold on_activation_propagation, ret.
  eexists. split; [reflexivity|].
  set (s2 := foldl (receive_activation a) s1 result) in *.
  assert (∀ n, n ∈ result ↔ within_two_hops (edges_ s) source n) as Hres'
    by exact Hres.
  split_and!; [done|by cbn; rewrite He|by cbn; rewrite Hp| | |]; cbn [nodes_ with_mutex].
  - rewrite Hn. rewrite decide_False.
    + subst s1. cbn [nodes_ with_nodes]. by rewrite lookup_insert_eq.
    + intros Hin. apply Hres' in Hin as [Hne _]. done.
  - intros n node Hnode Hwithin. rewrite Hn.
    rewrite decide_True by (by apply Hres').
    subst s1. cbn [nodes_ with_nodes].
    rewrite lookup_insert_ne by (destruct Hwithin as [Hne _]; congruence).
    by rewrite Hnode.
  - intros n Hne Hfar. rewrite Hn.
    rewrite decide_False by (by rewrite Hres').
    subst s1. cbn [nodes_ with_nodes]. by rewrite lookup_insert_ne.
Qed.
End Propagation.

(** * The cognitive kernel *)

(** ** Facts of binary64 arithmetic *)

Lemma Prim2SF_inj x y : Prim2SF x = Prim2SF y → x = y.
Proof. intros Heq. by rewrite <- (SF2Prim_Prim2SF x), Heq, SF2Prim_Prim2SF. Qed.

Lemma mul_zero_not_less (x y : float) : (x * 0 <? y * 0)%float = false.
Proof.
  rewrite ltb_spec, !mul_spec.
  change (Prim2SF 0) with (S754_zero false).
  by destruct (Prim2SF x) as [[]|[]| |[] ? ?], (Prim2SF y) as [[]|[]| |[] ? ?].
Qed.

Lemma mul_infinity_zero (b : float) : (b * infinity * 0)%float = nan.
Proof.
  apply Prim2SF_inj. rewrite !mul_spec.
  change (Prim2SF 0) with (S754_zero false).
  change (Prim2SF infinity) with (S754_infinity false).
  change (Prim2SF nan) with S754_nan.
  by destruct (Prim2SF b) as [[]|[]| |[] ? ?].
Qed.

Lemma self_distance (x : float) :
  (1 / (1 + abs (x - x) / x))%float = 1%float ∨
  (1 / (1 + abs (x - x) / x))%float = nan.
Proof.
  destruct (Prim2SF x) as [s|s| |s m e] eqn:Hx.
  - right. apply Prim2SF_inj.
    rewrite div_spec, add_spec, div_spec, abs_spec, sub_spec, Hx.
    by destruct s.
  - right. apply Prim2SF_inj.
    rewrite div_spec, add_spec, div_spec, abs_spec, sub_spec, Hx.
    by destruct s.
  - right. apply Prim2SF_inj.
    by rewrite div_spec, add_spec, div_spec, abs_spec, sub_spec, Hx.
  - left. apply Prim2SF_inj.
    rewrite div_spec, add_spec, div_spec, abs_spec, sub_spec, Hx.
    unfold SF64sub, SFsub. rewrite Z.sub_diag.
    cbn [SpecFloat.binary_normalize SFabs].
    unfold SF64div at 2. cbn [SFdiv xorb].
    change (Prim2SF 1) with (S754_finite false 4503599627370496 (-52)).
    by destruct s.
Qed.

(** ** Substring search *)

Lemma append_cons a (p q : string) :
  String.append (String a p) q = String a (String.append p q).
Proof. reflexivity. Qed.

Lemma prefix_append (p t : string) :
  Stdlib.Strings.String.prefix p t = true ↔ ∃ after, t = String.append p after.
Proof.
  revert t. induction p as [|a p IH]; intros [|b t]; simpl.
  - split; [intros _; by exists EmptyString|done].
  - split; [intros _; by exists (String b t)|done].
  - split; [done|intros [after Heq]; done].
  - destruct (Ascii.ascii_dec a b) as [->|Hne].
    + rewrite IH. split.
      * intros [after ->]. by exists after.
      * intros [after Heq]. rewrite append_cons in Heq. injection Heq as ->.
        by exists after.
    + split; [done|]. intros [after Heq]. rewrite append_cons in Heq. congruence.
Qed.

Lemma find_occurs (text pattern : string) :
  is_Some (find text pattern) ↔ occurs_in pattern text.
Proof.
  unfold find, occurs_in. induction text as [|b text IH].
  - destruct pattern as [|a pattern]; simpl.
    + split; [intros _; by exists EmptyString, EmptyString|by eauto].
    + split; [intros [? ?]; done|].
      intros (before & after & Heq). destruct before; [|done].
      by rewrite append_cons in Heq.
  - cbn [Stdlib.Strings.String.index].
    destruct (Stdlib.Strings.String.prefix pattern (String b text)) eqn:Hpre.
    + split; [intros _|by eauto].
      apply prefix_append in Hpre as [after Heq]. by exists EmptyString, after.
    + assert (is_Some (match Stdlib.Strings.String.index 0 pattern text with
                       | Some n => Some (S n) | None => None end)
              ↔ is_Some (Stdlib.Strings.String.index 0 pattern text)) as ->.
      { destruct (Stdlib.Strings.String.index 0 pattern text);
          split; intros [? ?]; eauto; done. }
      rewrite IH. split.
      * intros (before & after & ->). by exists (String b before), after.
      * intros (before & after & Heq). destruct before as [|c before].
        -- exfalso.
           assert (Stdlib.Strings.String.prefix pattern (String b text) = true) as Ht
             by (apply prefix_append; eauto).
           congruence.
        -- rewrite append_cons in Heq. injection Heq as -> ->.
           by exists before, after.
Qed.

#[global] Instance occurs_in_dec pattern text : Decision (occurs_in pattern text).
Proof.
  refine (cast_if (decide (is_Some (find text pattern)))); by rewrite <- find_occurs.
Defined.

(** The entries [find] locates are the entries that occur in the text. *)
Lemma matching_entries_occurrences patterns text :
  matching_entries patterns text =
  length (filter (λ pattern, occurs_in pattern text) patterns).
Proof.
  unfold matching_entries. f_equal. apply list_filter_iff.
  intros pattern. apply find_occurs.
Qed.

(** ** The resonance formula *)

Section Resonance.
Variable hasher : string → Z.
Variable Derived : Type.
Import CognitiveKernel.
Abbreviation kernel := (CognitiveKernel.t Derived).

Lemma foldl_pattern_influence patterns text (influence : float) :
  foldl (λ influence pattern,
           match find text pattern with
           | Some _ => (influence * lit_1_2)%float
           | None => influence
           end) influence patterns
  = Nat.iter (matching_entries patterns text)
      (λ influence, (influence * lit_1_2)%float) influence.
Proof.
  revert influence. induction patterns as [|pattern patterns IH]; intros influence; [done|].
  simpl. rewrite IH. unfold matching_entries. rewrite filter_cons.
  destruct (find text pattern) as [pos|] eqn:Hfind.
  - rewrite decide_True by eauto. simpl. set (n := length _).
    symmetry. exact (Nat.iter_succ_r n (λ i : float, (i * lit_1_2)%float) influence).
  - rewrite decide_False by (intros [? ?]; done). done.
Qed.

Lemma pattern_influence_boost patterns text :
  pattern_influence patterns text = boost (matching_entries patterns text).
Proof. apply foldl_pattern_influence. Qed.

Lemma calculate_resonance_unfold text (k : kernel) :
  calculate_resonance hasher Derived text k =
  if empty text || empty (identity_signature (echo_identity_ Derived k))
  then 0%float
  else (base_resonance (to_size_t (hasher text))
          (to_size_t (hasher (identity_signature (echo_identity_ Derived k))))
        * boost (matching_entries (echo_patterns (echo_identity_ Derived k)) text)
        * cognitive_weight (echo_identity_ Derived k))%float.
Proof. unfold calculate_resonance. by rewrite pattern_influence_boost. Qed.
End Resonance.

Lemma calculate_resonance_with hasher identity text :
  CognitiveKernel.calculate_resonance hasher unit text (kernel_with identity) =
  if empty text || empty (identity_signature identity) then 0%float
  else (CognitiveKernel.base_resonance (to_size_t (hasher text))
          (to_size_t (hasher (identity_signature identity)))
        * boost (matching_entries (echo_patterns identity) text)
        * cognitive_weight identity)%float.
Proof. apply calculate_resonance_unfold. Qed.

(** A factor that overflowed to infinity and a zero weight give NaN. *)
Lemma calculate_resonance_overflow hasher Derived
    (k : CognitiveKernel.t Derived) text :
  let identity := CognitiveKernel.echo_identity_ Derived k in
  empty text || empty (identity_signature identity) = false →
  boost (matching_entries (echo_patterns identity) text) = infinity →
  cognitive_weight identity = 0%float →
  CognitiveKernel.calculate_resonance hasher Derived text k = nan.
Proof.
  intros identity Hfull Hboost Hweight.
  rewrite calculate_resonance_unfold. fold identity.
  rewrite Hfull, Hboost, Hweight. apply mul_infinity_zero.
Qed.

Lemma base_resonance_same_hash h :
  CognitiveKernel.base_resonance h h = 1%float ∨
  CognitiveKernel.base_resonance h h = nan.
Proof. unfold CognitiveKernel.base_resonance. rewrite Z.max_id. apply self_distance. Qed.

Lemma float_neq (x y : float) : Prim2SF x ≠ Prim2SF y → x ≠ y.
Proof. congruence. Qed.

Lemma zero_weight_never_greater hasher identity (none two : string) :
  cognitive_weight identity = 0%float →
  (CognitiveKernel.calculate_resonance hasher unit none (kernel_with identity)
   <? CognitiveKernel.calculate_resonance hasher unit two (kernel_with identity))%float
  = false.
Proof.
  intros Hw. rewrite !calculate_resonance_with, Hw.
  destruct (empty none || empty (identity_signature identity)),
           (empty two || empty (identity_signature identity)).
  - reflexivity.
  - rewrite <- (mul_zero_not_less 0 (CognitiveKernel.base_resonance
                 (to_size_t (hasher two)) (to_size_t (hasher (identity_signature identity)))
               * boost (matching_entries (echo_patterns identity) two))).
    reflexivity.
  - rewrite <- (mul_zero_not_less (CognitiveKernel.base_resonance
                 (to_size_t (hasher none)) (to_size_t (hasher (identity_signature identity)))
               * boost (matching_entries (echo_patterns identity) none)) 0).
    reflexivity.
  - apply mul_zero_not_less.
Qed.

Lemma below_all_lookup x l j y :
  below_all x l = true → l !! j = Some y → (x <? y)%float = true.
Proof.
  revert j. induction l as [|z l IH]; intros j Hall Hj; [done|].
  simpl in Hall. apply andb_prop in Hall as [Hz Hall].
  destruct j as [|j]; simpl in Hj; [by injection Hj as <-|eauto].
Qed.

Lemma strictly_ascending_lookup l i j x y :
  strictly_ascending l = true → l !! i = Some x → l !! j = Some y →
  (i < j)%nat → (x <? y)%float = true.
Proof.
  revert i j. induction l as [|z l IH]; intros i j Hasc Hi Hj Hlt; [done|].
  simpl in Hasc. apply andb_prop in Hasc as [Hz Hasc].
  destruct j as [|j]; [lia|]. destruct i as [|i]; simpl in Hi, Hj.
  - injection Hi as <-. by eapply below_all_lookup.
  - eapply (IH i j); [done..|lia].
Qed.

Lemma boost_increasing j k :
  (j < k ≤ 3894)%nat → (boost j <? boost k)%float = true.
Proof.
  intros [Hjk Hk].
  assert (strictly_ascending (boosts 3895) = true) as Hasc
    by (vm_compute; reflexivity).
  apply (strictly_ascending_lookup (boosts 3895) j k); [done| | |done].
  - unfold boosts. rewrite list_lookup_fmap, lookup_seq_lt by lia. done.
  - unfold boosts. rewrite list_lookup_fmap, lookup_seq_lt by lia. done.
Qed.

Lemma boost_saturates : boost 3894 = infinity ∧ boost 3895 = infinity.
Proof. split; vm_compute; reflexivity. Qed.

(** ** Signal processing *)

Section SignalProcessing.
Variable hasher : string → Z.
Variable double_to_string : float → string.
Variable Derived : Type.
Import CognitiveKernel.
Abbreviation kernel := (CognitiveKernel.t Derived).
Variable on_cognitive_process : string → kernel → Outcome kernel unit.
Variable on_state_transition :
  CognitiveState → CognitiveState → kernel → Outcome kernel unit.

Abbreviation set_state :=
  (set_cognitive_state Derived on_state_transition).
Abbreviation process :=
  (process_cognitive_signal hasher double_to_string Derived
     on_cognitive_process on_state_transition).
Abbreviation notifying := (notifies_only Derived on_state_transition).
Abbreviation hook_input := (at_hook hasher double_to_string Derived).

Lemma set_cognitive_state_sets new_state (k : kernel) :
  notifying →
  ∃ k', set_state new_state k = Returns () k' ∧
        current_state_ Derived k' = new_state.
Proof.
  intros Hnote. unfold set_cognitive_state. case_bool_decide.
  - destruct (Hnote (current_state_ Derived k) new_state
                (with_state Derived new_state k)) as (k' & -> & Hk').
    by exists k'.
  - by eexists.
Qed.

Lemma process_cognitive_signal_cases signal_data (k : kernel) :
  notifying →
  ∃ k_in,
    current_state_ Derived k_in = PROCESSING ∧
    (∀ e k_out,
       on_cognitive_process signal_data (hook_input signal_data k_in) = Throws e k_out →
       ∃ k', process signal_data k = Throws e k' ∧
             current_state_ Derived k' = current_state_ Derived k) ∧
    (∀ k_out,
       on_cognitive_process signal_data (hook_input signal_data k_in) = Returns () k_out →
       ∃ k', process signal_data k = Returns () k' ∧
             current_state_ Derived k' = REFLECTING).
Proof.
  intros Hnote.
  destruct (set_cognitive_state_sets PROCESSING k Hnote) as (k_in & Hset & Hin).
  exists k_in. split; [done|]. split.
  - intros e k_out Hhook.
    destruct (set_cognitive_state_sets (current_state_ Derived k) k_out Hnote)
      as (k' & Hback & Hk').
    exists k'. split; [|done].
    unfold process_cognitive_signal, bind. rewrite Hset.
    unfold process_attempt. fold (hook_input signal_data k_in).
    by rewrite Hhook, Hback.
  - intros k_out Hhook.
    destruct (set_cognitive_state_sets REFLECTING k_out Hnote) as (k' & Hfin & Hk').
    exists k'. split; [|done].
    unfold process_cognitive_signal, bind. rewrite Hset.
    unfold process_attempt. fold (hook_input signal_data k_in).
    by rewrite Hhook.
Qed.
(** Whatever the processing hook does: a call that throws leaves the state
    it found and throws what the hook threw, and a call that returns leaves
    [REFLECTING]. *)
Lemma process_cognitive_signal_outcomes signal_data (k : kernel) :
  notifying →
  (∀ e k',
     process signal_data k = Throws e k' →
     current_state_ Derived k' = current_state_ Derived k ∧
     ∃ k_in k_out, on_cognitive_process signal_data k_in = Throws e k_out) ∧
  (∀ a k',
     process signal_data k = Returns a k' →
     current_state_ Derived k' = REFLECTING).
Proof.
  intros Hnote.
  destruct (set_cognitive_state_sets PROCESSING k Hnote) as (k_in & Hset & Hin).
  assert (process signal_data k =
          match on_cognitive_process signal_data (hook_input signal_data k_in) with
          | Returns _ k_out => set_state REFLECTING k_out
          | Throws e k_out =>
              (_ <~ set_state (current_state_ Derived k) ;; Throws e) k_out
          | Deadlock => Deadlock
          | Diverges => Diverges
          end) as Hrun.
  { unfold process_cognitive_signal, bind at 1. by rewrite Hset. }
  rewrite Hrun.
  destruct (on_cognitive_process signal_data (hook_input signal_data k_in))
    as [[] k_out|e0 k_out| |] eqn:Hhook.
  - destruct (set_cognitive_state_sets REFLECTING k_out Hnote) as (k1 & -> & Hk1).
    split; [done|]. intros a k' [= _ <-]. done.
  - destruct (set_cognitive_state_sets (current_state_ Derived k) k_out Hnote)
      as (k1 & Hback & Hk1).
    unfold bind. rewrite Hback. split; [|done].
    intros e k' [= <- <-]. split; [done|]. eauto.
  - done.
  - done.
Qed.
(** The first state change stands before the [try]: when the transition
    hook throws there, the call throws with the kernel in [PROCESSING] and
    nothing is restored. *)
Lemma transition_failure_is_not_rolled_back signal_data (k : kernel) e k1 :
  current_state_ Derived k ≠ PROCESSING →
  on_state_transition (current_state_ Derived k) PROCESSING
    (with_state Derived PROCESSING k) = Throws e k1 →
  process signal_data k = Throws e k1.
Proof.
  intros Hne Hhook. unfold process_cognitive_signal, bind, set_cognitive_state.
  rewrite bool_decide_eq_true_2 by done. by rewrite Hhook.
Qed.
End SignalProcessing.

(** * Rounding to binary64, from the kernel's specification of [float] *)

Section Digits.

Lemma digits2_pos_size p : SpecFloat.digits2_pos p = Pos.size p.
Proof. induction p as [p IH|p IH|]; simpl; by rewrite ?IH. Qed.

Lemma Zdigits2_bounds m :
  0 < m → 2 ^ (SpecFloat.Zdigits2 m - 1) ≤ m < 2 ^ SpecFloat.Zdigits2 m.
Proof.
  destruct m as [|p|p]; [lia| |lia]. intros _. simpl.
  rewrite digits2_pos_size.
  pose proof (Pos.size_gt p) as Hgt. pose proof (Pos.size_le p) as Hle.
  apply Pos2Z.pos_lt_pos in Hgt. apply Pos2Z.pos_le_pos in Hle.
  rewrite Pos2Z.inj_pow in Hgt, Hle.
  change (Z.pos 2) with 2 in *. split; [|done].
  replace (Z.pos (Pos.size p)) with (Z.pos (Pos.size p) - 1 + 1) in Hle by lia.
  rewrite Z.pow_add_r in Hle by lia. lia.
Qed.

Lemma Zdigits2_nonneg m : 0 ≤ SpecFloat.Zdigits2 m.
Proof. by destruct m. Qed.

Lemma Zdigits2_pos m : 0 < m → 0 < SpecFloat.Zdigits2 m.
Proof. destruct m; [lia|done|lia]. Qed.

Lemma Zdigits2_unique m d :
  0 < d → 2 ^ (d - 1) ≤ m < 2 ^ d → SpecFloat.Zdigits2 m = d.
Proof.
  intros Hd [Hlo Hhi].
  assert (0 < m) as Hm by (pose proof (Z.pow_pos_nonneg 2 (d - 1)); lia).
  pose proof (Zdigits2_bounds m Hm) as [Hlo' Hhi'].
  pose proof (Zdigits2_pos m Hm) as Hpos.
  assert (SpecFloat.Zdigits2 m - 1 < d) as H1.
  { apply (Z.pow_lt_mono_r_iff 2); lia. }
  assert (d - 1 < SpecFloat.Zdigits2 m) as H2.
  { apply (Z.pow_lt_mono_r_iff 2); lia. }
  lia.
Qed.

End Digits.

(** The exponent of the format, for binary64. *)
Lemma fexp_binary64 e : SpecFloat.fexp prec emax e = Z.max (e - 53) (-1074).
Proof. reflexivity. Qed.

Section Shifts.

Lemma iter_pos_nat {A} (f : A → A) p x :
  SpecFloat.iter_pos f p x = Nat.iter (Pos.to_nat p) f x.
Proof.
  revert x. induction p as [p IH|p IH|]; intros x; cbn [SpecFloat.iter_pos].
  - rewrite !IH, Pos2Nat.inj_xI.
    replace (S (2 * Pos.to_nat p)) with (Pos.to_nat p + (Pos.to_nat p + 1))%nat by lia.
    rewrite !Nat.iter_add. simpl. done.
  - rewrite !IH, Pos2Nat.inj_xO.
    replace (2 * Pos.to_nat p)%nat with (Pos.to_nat p + Pos.to_nat p)%nat by lia.
    by rewrite Nat.iter_add.
  - done.
Qed.

Lemma halve N T m b :
  0 < T → 0 ≤ N mod T < T → N / T = 2 * m + b → 0 ≤ b ≤ 1 →
  N / (2 * T) = m ∧ N mod (2 * T) = N mod T + b * T.
Proof.
  intros HT Hrho Hm Hb.
  pose proof (Z.div_mod N T ltac:(lia)) as HN.
  assert (N = 2 * T * m + (N mod T + b * T)) as HN' by nia.
  assert (0 ≤ N mod T + b * T < 2 * T) as Hr by nia.
  split.
  - symmetry. apply (Z.div_unique N (2 * T) m (N mod T + b * T)); [lia|done].
  - symmetry. apply (Z.mod_unique N (2 * T) m (N mod T + b * T)); [lia|done].
Qed.

Lemma shr_1_located N T mrs :
  0 ≤ N → 0 < T → located N T mrs → located N (2 * T) (SpecFloat.shr_1 mrs).
Proof.
  intros HN HT (Hm & Hr & Hs). destruct mrs as [m r s]. simpl in Hm, Hr, Hs.
  pose proof (Z.mod_pos_bound N T HT) as Hrho.
  assert (0 ≤ m) as Hm0 by (rewrite Hm; apply Z.div_pos; lia).
  assert (r || s = true ↔ N mod T ≠ 0) as Hrs.
  { rewrite orb_true_iff, Hr, Hs. lia. }
  destruct m as [|[p|p|]|p]; [| | | |lia]; simpl.
  - destruct (halve N T 0 0 HT Hrho) as [Hq Hm']; [lia|lia|].
    unfold located; simpl. rewrite Hq, Hm'. split_and!; [done|lia|].
    rewrite Hrs. lia.
  - destruct (halve N T (Z.pos p) 1 HT Hrho) as [Hq Hm']; [lia|lia|].
    unfold located; simpl. rewrite Hq, Hm'. split_and!; [done|lia|].
    rewrite Hrs. lia.
  - destruct (halve N T (Z.pos p) 0 HT Hrho) as [Hq Hm']; [lia|lia|].
    unfold located; simpl. rewrite Hq, Hm'. split_and!; [done|lia|].
    rewrite Hrs. lia.
  - destruct (halve N T 0 1 HT Hrho) as [Hq Hm']; [lia|lia|].
    unfold located; simpl. rewrite Hq, Hm'. split_and!; [done|lia|].
    rewrite Hrs. lia.
Qed.

Lemma shr_iter_located N T mrs n :
  0 ≤ N → 0 < T → located N T mrs →
  located N (T * 2 ^ Z.of_nat n) (Nat.iter n SpecFloat.shr_1 mrs).
Proof.
  intros HN HT Hloc. induction n as [|n IH].
  - simpl. by rewrite Z.mul_1_r.
  - rewrite Nat2Z.inj_succ, Z.pow_succ_r by lia. simpl.
    replace (T * (2 * 2 ^ Z.of_nat n)) with (2 * (T * 2 ^ Z.of_nat n)) by lia.
    apply shr_1_located; [done| |done].
    pose proof (Z.pow_pos_nonneg 2 (Z.of_nat n)). nia.
Qed.

(** [shr] by [n] places, for any [n]. *)
Lemma shr_located N T mrs e n :
  0 ≤ N → 0 < T → located N T mrs →
  ∃ mrs', SpecFloat.shr mrs e n = (mrs', e + Z.max n 0) ∧
          located N (T * 2 ^ Z.max n 0) mrs'.
Proof.
  intros HN HT Hloc. destruct n as [|p|p]; simpl.
  - exists mrs. rewrite Z.add_0_r, Z.mul_1_r. done.
  - eexists. split; [done|]. rewrite iter_pos_nat.
    replace (Z.max (Z.pos p) 0) with (Z.of_nat (Pos.to_nat p)) by lia.
    by apply shr_iter_located.
  - exists mrs. rewrite Z.add_0_r, Z.mul_1_r. done.
Qed.

End Shifts.

Section Rounding.

Lemma record_of_loc_located N D m l :
  0 < D → loc_ok N D m l → located N D (SpecFloat.shr_record_of_loc m l).
Proof.
  intros HD [Hm Hl]. pose proof (Z.mod_pos_bound N D HD) as Hrho.
  destruct l as [|[| |]]; unfold located; simpl; split_and!; try done; lia.
Qed.

Lemma round_nearest_even_nearest N T mrs :
  0 ≤ N → 0 < T → located N T mrs →
  let m := SpecFloat.round_nearest_even (SpecFloat.shr_m mrs)
             (SpecFloat.loc_of_shr_record mrs) in
  nearest N T m ∧ N / T ≤ m ≤ N / T + 1.
Proof.
  intros HN HT (Hm & Hr & Hs). destruct mrs as [m r s]. simpl in Hm, Hr, Hs.
  pose proof (Z.mod_pos_bound N T HT) as Hrho.
  pose proof (Z.div_mod N T ltac:(lia)) as Hdiv.
  rewrite <- Hm in *. set (rho := N mod T) in *.
  assert (∀ m', (m' = m ∧ 2 * rho ≤ T) ∨ (m' = m + 1 ∧ T ≤ 2 * rho) →
                nearest N T m' ∧ m ≤ m' ≤ m + 1) as Hcases.
  { intros m' Hm'. unfold nearest. split_and!; [| | |lia|lia].
    - intros k Hk. nia.
    - intros k Hk. nia.
    - nia. }
  destruct r, s; simpl.
  - apply Hcases. right. lia.
  - destruct (Z.even m); apply Hcases; [left|right]; lia.
  - apply Hcases. left.
    destruct (Z.le_gt_cases T (2 * rho)) as [Hle|Hgt]; [|lia].
    apply Hr in Hle. done.
  - apply Hcases. left.
    destruct (Z.le_gt_cases T (2 * rho)) as [Hle|Hgt]; [|lia].
    apply Hr in Hle. done.
Qed.

(** The integer part after the first shift: below [2^53], and at least
    [2^52] unless the exponent is the smallest one. *)
Lemma shifted_mantissa_bounds mx ex :
  0 ≤ mx → ex ≤ Z.max (SpecFloat.Zdigits2 mx + ex - 53) (-1074) →
  let e1 := Z.max (SpecFloat.Zdigits2 mx + ex - 53) (-1074) in
  mx / 2 ^ (e1 - ex) < 2 ^ 53 ∧
  (2 ^ 52 ≤ mx / 2 ^ (e1 - ex) ∨ e1 = -1074).
Proof.
  intros Hmx Hex e1.
  assert (0 ≤ e1 - ex) as Hn by lia.
  pose proof (Z.pow_pos_nonneg 2 (e1 - ex) ltac:(lia) Hn) as Hpow.
  destruct (Z.eq_dec mx 0) as [->|Hne].
  - rewrite Z.div_0_l by lia. split; [done|]. right. simpl in Hex, e1. lia.
  - assert (0 < mx) as Hpos by lia.
    pose proof (Zdigits2_bounds mx Hpos) as [Hlo Hhi].
    pose proof (Zdigits2_pos mx Hpos) as Hd.
    set (d := SpecFloat.Zdigits2 mx) in *.
    split.
    + apply Z.div_lt_upper_bound; [done|].
      rewrite <- Z.pow_add_r by lia.
      eapply Z.lt_le_trans; [exact Hhi|].
      apply Z.pow_le_mono_r; lia.
    + destruct (Z.le_gt_cases (-1074) (d + ex - 53)) as [Hnormal|Hsub]; [left|right; lia].
      assert (e1 - ex = d - 53) as -> by lia.
      apply Z.div_le_lower_bound; [apply Z.pow_pos_nonneg; lia|].
      rewrite <- Z.pow_add_r by lia.
      replace (d - 53 + 52) with (d - 1) by lia. done.
Qed.

Lemma binary_round_aux_encode s N D mx ex lx :
  0 ≤ N → 0 < D → loc_ok N D mx lx →
  ex ≤ SpecFloat.fexp prec emax (SpecFloat.Zdigits2 mx + ex) →
  let e1 := SpecFloat.fexp prec emax (SpecFloat.Zdigits2 mx + ex) in
  ∃ m,
    SpecFloat.binary_round_aux prec emax s mx ex lx = encode s m e1 ∧
    nearest N (D * 2 ^ (e1 - ex)) m ∧
    0 ≤ m ≤ 2 ^ 53 ∧
    (2 ^ 52 ≤ m ∨ e1 = -1074) ∧
    -1074 ≤ e1.
Proof.
  intros HN HD Hloc Hex e1. rewrite fexp_binary64 in Hex.
  assert (e1 = Z.max (SpecFloat.Zdigits2 mx + ex - 53) (-1074)) as He1 by done.
  clearbody e1.
  assert (mx = N / D) as Hmx by (by destruct Hloc).
  assert (0 ≤ mx) as Hmx0 by (rewrite Hmx; apply Z.div_pos; lia).
  destruct (shifted_mantissa_bounds mx ex Hmx0 Hex) as [Hhi Hlo].
  rewrite <- He1 in Hhi, Hlo.
  unfold SpecFloat.binary_round_aux, SpecFloat.shr_fexp at 1.
  rewrite fexp_binary64, <- He1.
  destruct (shr_located N D (SpecFloat.shr_record_of_loc mx lx) ex (e1 - ex) HN HD)
    as (mrs' & -> & Hloc'); [by apply record_of_loc_located|].
  replace (Z.max (e1 - ex) 0) with (e1 - ex) in * by lia.
  replace (ex + (e1 - ex)) with e1 by lia.
  set (T := D * 2 ^ (e1 - ex)) in *.
  assert (0 < T) as HT.
  { pose proof (Z.pow_pos_nonneg 2 (e1 - ex) ltac:(lia) ltac:(lia)). unfold T. nia. }
  destruct (round_nearest_even_nearest N T mrs' HN HT Hloc') as [Hnear Hfloor].
  set (m := SpecFloat.round_nearest_even _ _) in *.
  assert (N / T = mx / 2 ^ (e1 - ex)) as Hq.
  { unfold T. rewrite <- Z.div_div, <- Hmx; [done|lia|].
    apply Z.pow_pos_nonneg; lia. }
  rewrite Hq in Hfloor.
  assert (0 ≤ mx / 2 ^ (e1 - ex)) as Hq0.
  { apply Z.div_pos; [done|]. apply Z.pow_pos_nonneg; lia. }
  exists m. split_and!; [|done|lia|lia| |lia].
  - unfold SpecFloat.shr_fexp. rewrite fexp_binary64. unfold encode.
    destruct (decide (m = 2 ^ 53)) as [->|Hm].
    + change (SpecFloat.Zdigits2 (2 ^ 53)) with 54.
      replace (Z.max (54 + e1 - 53) (-1074) - e1) with 1 by lia.
      simpl. destruct (decide (e1 + 1 ≤ 971)) as [Hle|Hgt].
      * by rewrite (proj2 (Z.leb_le _ _)) by (unfold prec, emax; lia).
      * by rewrite (proj2 (Z.leb_gt _ _)) by (unfold prec, emax; lia).
    + destruct (Z.eq_dec m 0) as [Hz|Hnz].
      * rewrite Hz. simpl.
        destruct (Z.max (0 + e1 - 53) (-1074) - e1) eqn:Hshift; simpl; try done; lia.
      * assert (0 < m < 2 ^ 53) as Hm' by lia.
        assert (SpecFloat.Zdigits2 m ≤ 53) as Hd.
        { pose proof (Zdigits2_bounds m ltac:(lia)) as [Hlo' _].
          destruct (Z.le_gt_cases (SpecFloat.Zdigits2 m) 53) as [|Hgt]; [done|].
          assert (2 ^ 53 ≤ 2 ^ (SpecFloat.Zdigits2 m - 1))
            by (apply Z.pow_le_mono_r; lia).
          lia. }
        destruct (Z.max (SpecFloat.Zdigits2 m + e1 - 53) (-1074) - e1) eqn:Hshift;
          [|lia|].
        -- simpl. destruct m as [|p|p]; [lia| |lia].
           destruct (decide (e1 ≤ 971)) as [Hle|Hgt].
           ++ by rewrite (proj2 (Z.leb_le _ _)) by (unfold prec, emax; lia).
           ++ by rewrite (proj2 (Z.leb_gt _ _)) by (unfold prec, emax; lia).
        -- simpl. destruct m as [|q|q]; [lia| |lia].
           destruct (decide (e1 ≤ 971)) as [Hle|Hgt].
           ++ by rewrite (proj2 (Z.leb_le _ _)) by (unfold prec, emax; lia).
           ++ by rewrite (proj2 (Z.leb_gt _ _)) by (unfold prec, emax; lia).
  - destruct Hlo as [Hlo|Hlo]; [left; lia|by right].
Qed.

End Rounding.

Section Powers.

Lemma pow2_pos e : (0 < pow2 e)%Q.
Proof. apply Qpower_0_lt. reflexivity. Qed.

Lemma pow2_add a b : (pow2 (a + b) == pow2 a * pow2 b)%Q.
Proof. apply Qpower_plus. discriminate. Qed.

Lemma pow2_Z a : 0 ≤ a → (pow2 a == inject_Z (2 ^ a))%Q.
Proof. intros Ha. unfold pow2. by rewrite Zpower_Qpower. Qed.

Lemma pow2_le a b : a ≤ b → (pow2 a <= pow2 b)%Q.
Proof.
  intros Hab. replace b with (a + (b - a)) by lia.
  rewrite pow2_add, (pow2_Z (b - a) ltac:(lia)).
  pose proof (pow2_pos a) as Ha.
  assert (1 <= inject_Z (2 ^ (b - a)))%Q as Hone.
  { rewrite <- (Zle_Qle 1). pose proof (Z.pow_pos_nonneg 2 (b - a)). lia. }
  nra.
Qed.

Lemma pow2_lt a b : a < b → (pow2 a < pow2 b)%Q.
Proof.
  intros Hab. replace b with (a + (b - a)) by lia.
  rewrite pow2_add, (pow2_Z (b - a) ltac:(lia)).
  pose proof (pow2_pos a) as Ha.
  assert (2 <= inject_Z (2 ^ (b - a)))%Q as Hone.
  { rewrite <- (Zle_Qle 2). replace (b - a) with (1 + (b - a - 1)) by lia.
    rewrite Z.pow_add_r by lia. pose proof (Z.pow_pos_nonneg 2 (b - a - 1)). lia. }
  nra.
Qed.

Lemma pow2_sub a b : (pow2 (a - b) == pow2 a / pow2 b)%Q.
Proof.
  pose proof (pow2_pos b) as Hb.
  replace a with (a - b + b) at 2 by lia. rewrite pow2_add.
  field. lra.
Qed.

Lemma F2Q_shift m e n : 0 ≤ n → (F2Q (m * 2 ^ n) e == F2Q m (e + n))%Q.
Proof.
  intros Hn. unfold F2Q. rewrite inject_Z_mult, pow2_add, (pow2_Z n Hn). ring.
Qed.

Lemma F2Q_le m m' e : m ≤ m' → (F2Q m e <= F2Q m' e)%Q.
Proof.
  intros Hm. unfold F2Q. pose proof (pow2_pos e). rewrite Zle_Qle in Hm. nra.
Qed.

Lemma F2Q_lt m m' e : m < m' → (F2Q m e < F2Q m' e)%Q.
Proof.
  intros Hm. unfold F2Q. pose proof (pow2_pos e). rewrite Zlt_Qlt in Hm. nra.
Qed.

Lemma F2Q_le_inv m m' e : (F2Q m e <= F2Q m' e)%Q → m ≤ m'.
Proof.
  unfold F2Q. intros Hm. pose proof (pow2_pos e). rewrite Zle_Qle. nra.
Qed.

Lemma F2Q_pos m e : 0 < m → (0 < F2Q m e)%Q.
Proof.
  intros Hm. unfold F2Q. pose proof (pow2_pos e).
  assert (0 < inject_Z m)%Q by (by rewrite <- (Zlt_Qlt 0)). nra.
Qed.

(** The value lies between the powers of two its digits give. *)
Lemma F2Q_digits m e :
  0 < m →
  (pow2 (SpecFloat.Zdigits2 m + e - 1) <= F2Q m e
   ∧ F2Q m e < pow2 (SpecFloat.Zdigits2 m + e))%Q.
Proof.
  intros Hm. pose proof (Zdigits2_bounds m Hm) as [Hlo Hhi].
  pose proof (Zdigits2_pos m Hm) as Hd. pose proof (pow2_pos e) as He.
  unfold F2Q. split.
  - replace (SpecFloat.Zdigits2 m + e - 1) with ((SpecFloat.Zdigits2 m - 1) + e) by lia.
    rewrite pow2_add, (pow2_Z (SpecFloat.Zdigits2 m - 1) ltac:(lia)).
    rewrite Zle_Qle in Hlo. nra.
  - rewrite pow2_add, (pow2_Z (SpecFloat.Zdigits2 m) ltac:(lia)).
    rewrite Zlt_Qlt in Hhi. nra.
Qed.

End Powers.

Section Values.

Lemma canonical_valid s p e :
  canonical (Z.pos p) e →
  SpecFloat.valid_binary prec emax (S754_finite s p e) = true.
Proof.
  intros (_ & Hc & He). simpl. unfold SpecFloat.bounded, SpecFloat.canonical_mantissa.
  rewrite fexp_binary64. simpl in Hc. rewrite Hc, Z.eqb_refl. simpl.
  apply Z.leb_le. unfold prec, emax. lia.
Qed.

Lemma valid_canonical s p e :
  SpecFloat.valid_binary prec emax (S754_finite s p e) = true →
  canonical (Z.pos p) e.
Proof.
  simpl. unfold SpecFloat.bounded, SpecFloat.canonical_mantissa.
  rewrite fexp_binary64. intros [Hc He]%andb_true_iff.
  apply Z.eqb_eq in Hc. apply Z.leb_le in He. unfold prec, emax in He.
  split_and!; [done|done|lia].
Qed.

Lemma canonical_digits m e : canonical m e → SpecFloat.Zdigits2 m ≤ 53 ∧ -1074 ≤ e.
Proof. intros (_ & Hc & _). lia. Qed.

Lemma canonical_below m e : canonical m e → (F2Q m e < pow2 1024)%Q.
Proof.
  intros Hc. pose proof (canonical_digits m e Hc) as [Hd He].
  destruct Hc as (Hm & Hc & Hmax).
  destruct (F2Q_digits m e Hm) as [_ Hhi].
  eapply Qlt_le_trans; [exact Hhi|]. apply pow2_le. lia.
Qed.

Lemma encode_cases s m e :
  0 ≤ m ≤ 2 ^ 53 → 2 ^ 52 ≤ m ∨ e = -1074 → -1074 ≤ e →
  (m = 0 ∧ encode s m e = S754_zero s) ∨
  (∃ p e', encode s m e = S754_finite s p e' ∧ 0 < m ∧
           (F2Q (Z.pos p) e' == F2Q m e)%Q ∧ canonical (Z.pos p) e' ∧
           (2 ^ 52 ≤ Z.pos p → 2 ^ 52 ≤ m) ∧ e ≤ e') ∨
  (encode s m e = S754_infinity s ∧ (pow2 1024 <= F2Q m e)%Q).
Proof.
  intros Hm Hnormal He. unfold encode.
  destruct (decide (m = 2 ^ 53)) as [->|Hne].
  - destruct (decide (e + 1 ≤ 971)) as [Hle|Hgt].
    + right. left. exists (2 ^ 52)%positive, (e + 1). split_and!; [done|done| | |done|lia].
      * change (Z.pos (2 ^ 52)) with (2 ^ 52). change (2 ^ 53) with (2 ^ 52 * 2 ^ 1).
        by rewrite F2Q_shift, Z.add_comm.
      * split_and!; [done| |done]. change (SpecFloat.Zdigits2 (Z.pos (2 ^ 52))) with 53. lia.
    + right. right. split; [done|].
      change (2 ^ 53) with (1 * 2 ^ 53). rewrite F2Q_shift by lia.
      unfold F2Q. pose proof (pow2_le 1024 (e + 53) ltac:(lia)).
      change (inject_Z 1) with 1%Q. lra.
  - destruct m as [|p|p]; [by left| |lia].
    destruct (decide (e ≤ 971)) as [Hle|Hgt].
    + right. left. exists p, e. split_and!; [done|done|done| |done|done].
      split_and!; [done| |done].
      assert (Z.pos p < 2 ^ 53) as Hlt by lia.
      destruct Hnormal as [Hn| ->].
      * rewrite (Zdigits2_unique (Z.pos p) 53); [lia|lia|]. simpl. lia.
      * assert (SpecFloat.Zdigits2 (Z.pos p) ≤ 53) as Hd; [|lia].
        pose proof (Zdigits2_bounds (Z.pos p) ltac:(lia)) as [Hlo' _].
        destruct (Z.le_gt_cases (SpecFloat.Zdigits2 (Z.pos p)) 53) as [|Hgt]; [done|].
        assert (2 ^ 53 ≤ 2 ^ (SpecFloat.Zdigits2 (Z.pos p) - 1))
          by (apply Z.pow_le_mono_r; lia).
        lia.
    + right. right. split; [done|].
      destruct Hnormal as [Hn|Hn]; [|lia].
      eapply Qle_trans; [|apply (F2Q_le (2 ^ 52)); done].
      change (2 ^ 52) with (1 * 2 ^ 52). rewrite F2Q_shift by lia.
      unfold F2Q. pose proof (pow2_le 1024 (e + 52) ltac:(lia)).
      change (inject_Z 1) with 1%Q. lra.
Qed.

(** The rounded integer against a multiple of the unit. *)
Lemma nearest_value N D ex e1 m V :
  0 < D → ex ≤ e1 → nearest N (D * 2 ^ (e1 - ex)) m →
  (V * inject_Z D == inject_Z N * pow2 ex)%Q →
  (∀ k, (V <= F2Q k e1)%Q → (F2Q m e1 <= F2Q k e1)%Q) ∧
  (∀ k, (F2Q k e1 <= V)%Q → (F2Q k e1 <= F2Q m e1)%Q) ∧
  (F2Q m e1 - V <= pow2 (e1 - 1) ∧ V - F2Q m e1 <= pow2 (e1 - 1))%Q.
Proof.
  intros HD Hex (Hup & Hdown & Herr) HV.
  set (T := D * 2 ^ (e1 - ex)) in *.
  pose proof (Z.pow_pos_nonneg 2 (e1 - ex) ltac:(lia) ltac:(lia)) as Hpow.
  assert (0 < T) as HT by (unfold T; nia).
  pose proof (pow2_pos e1) as He1. pose proof (pow2_pos ex) as Hex'.
  assert (V * inject_Z T == inject_Z N * pow2 e1)%Q as HVT.
  { unfold T. rewrite inject_Z_mult.
    replace e1 with (ex + (e1 - ex)) at 2 by lia.
    rewrite pow2_add, (pow2_Z (e1 - ex) ltac:(lia)).
    transitivity (V * inject_Z D * inject_Z (2 ^ (e1 - ex)))%Q; [ring|].
    rewrite HV. ring. }
  assert (0 < inject_Z T)%Q as HTq by (by rewrite <- (Zlt_Qlt 0)).
  assert (∀ k, (V <= F2Q k e1)%Q ↔ N ≤ k * T) as Hle.
  { intros k. unfold F2Q. rewrite Zle_Qle, inject_Z_mult. split; intros H; nra. }
  assert (∀ k, (F2Q k e1 <= V)%Q ↔ k * T ≤ N) as Hge.
  { intros k. unfold F2Q. rewrite Zle_Qle, inject_Z_mult. split; intros H; nra. }
  split_and!.
  - intros k Hk. apply F2Q_le, Hup. by apply Hle.
  - intros k Hk. apply F2Q_le, Hdown. by apply Hge.
  - assert (2 * (m * T) ≤ T + 2 * N) as H1 by lia.
    rewrite Zle_Qle, inject_Z_plus, !inject_Z_mult in H1.
    replace e1 with (1 + (e1 - 1)) in HVT, He1 |- * by lia.
    unfold F2Q. replace (1 + (e1 - 1) - 1) with (e1 - 1) by lia.
    rewrite pow2_add in *. change (pow2 1) with 2%Q in *.
    pose proof (pow2_pos (e1 - 1)). change (inject_Z 2) with 2%Q in H1. nra.
  - assert (2 * N ≤ T + 2 * (m * T)) as H1 by lia.
    rewrite Zle_Qle, inject_Z_plus, !inject_Z_mult in H1.
    replace e1 with (1 + (e1 - 1)) in HVT, He1 |- * by lia.
    unfold F2Q. replace (1 + (e1 - 1) - 1) with (e1 - 1) by lia.
    rewrite pow2_add in *. change (pow2 1) with 2%Q in *.
    pose proof (pow2_pos (e1 - 1)). change (inject_Z 2) with 2%Q in H1. nra.
Qed.

End Values.

Section RoundAux.

Lemma binary_round_aux_rounds s N D mx ex lx V :
  0 ≤ N → 0 < D → loc_ok N D mx lx →
  ex ≤ SpecFloat.fexp prec emax (SpecFloat.Zdigits2 mx + ex) →
  (V * inject_Z D == inject_Z N * pow2 ex)%Q →
  rounds s V (SpecFloat.binary_round_aux prec emax s mx ex lx).
Proof.
  intros HN HD Hloc Hex HV.
  destruct (binary_round_aux_encode s N D mx ex lx HN HD Hloc Hex)
    as (m & -> & Hnear & Hm & Hnormal & He1).
  rewrite fexp_binary64 in *.
  set (e1 := Z.max (SpecFloat.Zdigits2 mx + ex - 53) (-1074)) in *.
  destruct (nearest_value N D ex e1 m V HD Hex Hnear HV) as (Hup & Hdown & Herr).
  assert (mx = N / D) as Hmx by (by destruct Hloc).
  assert (0 ≤ mx) as Hmx0 by (rewrite Hmx; apply Z.div_pos; lia).
  pose proof (pow2_pos ex) as Hpex. pose proof (pow2_pos e1) as Hpe1.
  assert (0 < inject_Z D)%Q as HDq by (by rewrite <- (Zlt_Qlt 0)).
  (* above every canonical number of a smaller exponent *)
  assert (∀ mf ef, canonical mf ef → ef < e1 →
            (F2Q mf ef < pow2 (e1 + 52))%Q ∧ (pow2 (e1 + 52) <= V)%Q ∧ 2 ^ 52 ≤ m)
    as Hsmall.
  { intros mf ef Hc Hlt.
    pose proof (canonical_digits mf ef Hc) as [Hdf Hef].
    destruct Hc as (Hmf & Hcf & _).
    assert (0 < mx) as Hpos.
    { destruct (Z.eq_dec mx 0) as [Hz|]; [|lia].
      subst e1. rewrite Hz in *. simpl in *. lia. }
    assert (e1 = SpecFloat.Zdigits2 mx + ex - 53) as He by lia.
    split_and!.
    - destruct (F2Q_digits mf ef Hmf) as [_ Hhi].
      eapply Qlt_le_trans; [exact Hhi|]. apply pow2_le. lia.
    - destruct (F2Q_digits mx ex Hpos) as [Hlo _].
      replace (e1 + 52) with (SpecFloat.Zdigits2 mx + ex - 1) by lia.
      eapply Qle_trans; [exact Hlo|]. unfold F2Q.
      assert (mx * D ≤ N) as Hfloor.
      { rewrite Hmx, Z.mul_comm. apply Z.mul_div_le. lia. }
      rewrite Zle_Qle, inject_Z_mult in Hfloor. nra.
    - destruct Hnormal; [done|lia]. }
  assert (∀ mf ef, canonical mf ef → e1 ≤ ef →
            (F2Q (mf * 2 ^ (ef - e1)) e1 == F2Q mf ef)%Q) as Hsame.
  { intros mf ef _ Hle. rewrite F2Q_shift by lia. by replace (e1 + (ef - e1)) with ef by lia. }
  assert (∀ mf ef, canonical mf ef → (V <= F2Q mf ef)%Q → (F2Q m e1 <= F2Q mf ef)%Q)
    as Hupper.
  { intros mf ef Hc HVF. destruct (Z.le_gt_cases e1 ef) as [Hle|Hgt].
    - rewrite <- (Hsame mf ef Hc Hle) in HVF |- *. by apply Hup.
    - destruct (Hsmall mf ef Hc ltac:(lia)) as (H1 & H2 & _). lra. }
  assert (∀ mf ef, canonical mf ef → (F2Q mf ef <= V)%Q → (F2Q mf ef <= F2Q m e1)%Q)
    as Hlower.
  { intros mf ef Hc HVF. destruct (Z.le_gt_cases e1 ef) as [Hle|Hgt].
    - rewrite <- (Hsame mf ef Hc Hle) in HVF |- *. by apply Hdown.
    - destruct (Hsmall mf ef Hc ltac:(lia)) as (H1 & _ & H3).
      apply Qlt_le_weak. eapply Qlt_le_trans; [exact H1|].
      eapply Qle_trans; [|apply (F2Q_le (2 ^ 52)); done].
      change (2 ^ 52) with (1 * 2 ^ 52). rewrite F2Q_shift by lia.
      unfold F2Q. change (inject_Z 1) with 1%Q. lra. }
  destruct (encode_cases s m e1 Hm Hnormal He1)
    as [[Hz Hr]|[(p & e' & Hr & Hpos & Hval & Hcan & Hnorm & Hee)|[Hr Hover]]];
    rewrite Hr; split.
  - done.
  - by left.
  - intros. by left.
  - intros mf ef Hc HVF. exfalso.
    pose proof (Hlower mf ef Hc HVF) as H. rewrite Hz in H.
    pose proof (F2Q_pos mf ef ltac:(by destruct Hc)) as H'.
    unfold F2Q in H at 2. change (inject_Z 0) with 0%Q in H. lra.
  - intros ?? [=].
  - by apply canonical_valid.
  - right. right. eauto.
  - intros mf ef Hc HVF. right. exists p, e'. split; [done|].
    rewrite Hval. by apply Hupper.
  - intros mf ef Hc HVF. right. exists p, e'. split; [done|].
    rewrite Hval. by apply Hlower.
  - intros p' e'' [= <- <-] Hp. rewrite Hval.
    assert (pow2 (e1 - 1) <= F2Q m e1 * pow2 (-53))%Q as Hulp.
    { eapply Qle_trans; [|apply Qmult_le_compat_r;
                           [apply (F2Q_le (2 ^ 52)); by apply Hnorm
                           |apply Qlt_le_weak, pow2_pos]].
      change (2 ^ 52) with (1 * 2 ^ 52). rewrite F2Q_shift by lia.
      unfold F2Q. change (inject_Z 1) with 1%Q. rewrite Qmult_1_l, <- pow2_add.
      apply pow2_le. lia. }
    lra.
  - done.
  - right. by left.
  - intros mf ef Hc HVF. exfalso.
    pose proof (Hupper mf ef Hc HVF) as H.
    pose proof (canonical_below mf ef Hc) as H'. lra.
  - intros. by left.
  - intros ?? [=].
Qed.

End RoundAux.

Section Operations.

Lemma Zdigits2_mul_ge a b :
  0 < a → 0 < b →
  SpecFloat.Zdigits2 a + SpecFloat.Zdigits2 b - 1 ≤ SpecFloat.Zdigits2 (a * b).
Proof.
  intros Ha Hb.
  pose proof (Zdigits2_bounds a Ha) as [Hla _].
  pose proof (Zdigits2_bounds b Hb) as [Hlb _].
  pose proof (Zdigits2_bounds (a * b) ltac:(nia)) as [_ Hhi].
  pose proof (Zdigits2_pos a Ha). pose proof (Zdigits2_pos b Hb).
  pose proof (Zdigits2_nonneg (a * b)).
  assert (2 ^ (SpecFloat.Zdigits2 a - 1 + (SpecFloat.Zdigits2 b - 1)) ≤ a * b) as Hlo.
  { rewrite Z.pow_add_r by lia.
    pose proof (Z.pow_pos_nonneg 2 (SpecFloat.Zdigits2 a - 1)).
    pose proof (Z.pow_pos_nonneg 2 (SpecFloat.Zdigits2 b - 1)). nia. }
  assert (SpecFloat.Zdigits2 a - 1 + (SpecFloat.Zdigits2 b - 1)
          < SpecFloat.Zdigits2 (a * b)); [|lia].
  apply (Z.pow_lt_mono_r_iff 2); lia.
Qed.

Lemma Zdigits2_shift a n :
  0 < a → 0 ≤ n → SpecFloat.Zdigits2 (a * 2 ^ n) = SpecFloat.Zdigits2 a + n.
Proof.
  intros Ha Hn. pose proof (Zdigits2_bounds a Ha) as [Hlo Hhi].
  pose proof (Zdigits2_pos a Ha). pose proof (Z.pow_pos_nonneg 2 n).
  apply Zdigits2_unique; [lia|].
  replace (SpecFloat.Zdigits2 a + n - 1) with (SpecFloat.Zdigits2 a - 1 + n) by lia.
  rewrite !Z.pow_add_r by lia. nia.
Qed.

(** ** Multiplication *)

Lemma SFmul_rounds sx mx ex sy my ey :
  canonical (Z.pos mx) ex → canonical (Z.pos my) ey →
  rounds (xorb sx sy) (F2Q (Z.pos mx) ex * F2Q (Z.pos my) ey)
    (SF64mul (S754_finite sx mx ex) (S754_finite sy my ey)).
Proof.
  intros (_ & Hcx & _) (_ & Hcy & _). unfold SF64mul, SpecFloat.SFmul.
  apply (binary_round_aux_rounds _ (Z.pos (mx * my)) 1); [lia|lia| | |].
  - split; [by rewrite Z.div_1_r|by rewrite Z.mod_1_r].
  - rewrite fexp_binary64, Pos2Z.inj_mul.
    pose proof (Zdigits2_mul_ge (Z.pos mx) (Z.pos my) ltac:(lia) ltac:(lia)).
    pose proof (Zdigits2_pos (Z.pos mx) ltac:(lia)).
    pose proof (Zdigits2_pos (Z.pos my) ltac:(lia)). lia.
  - unfold F2Q. rewrite Pos2Z.inj_mul, inject_Z_mult, pow2_add.
    change (inject_Z 1) with 1%Q. ring.
Qed.

(** ** Division *)

Lemma new_location_ok N D :
  0 ≤ N → 0 < D →
  loc_ok N D (N / D) (SpecFloat.new_location D (N mod D)).
Proof.
  intros HN HD. split; [done|].
  pose proof (Z.mod_pos_bound N D HD) as Hr. set (r := N mod D) in *.
  unfold SpecFloat.new_location.
  destruct (Z.even D) eqn:Heven.
  - unfold SpecFloat.new_location_even.
    destruct (Z.eqb_spec r 0) as [->|Hne]; [done|].
    change (Z.pos 2) with 2.
    destruct (Z.compare_spec (2 * r) D); lia.
  - unfold SpecFloat.new_location_odd.
    destruct (Z.eqb_spec r 0) as [->|Hne]; [done|].
    change (Z.pos 2) with 2. change (Z.pos 1) with 1.
    assert (Z.odd D = true) as Hodd by (by rewrite <- Z.negb_even, Heven).
    apply Z.odd_spec in Hodd as [k Hk].
    destruct (Z.compare_spec (2 * r + 1) D); lia.
Qed.

Lemma SFdiv_rounds sx mx ex sy my ey :
  canonical (Z.pos mx) ex → canonical (Z.pos my) ey →
  rounds (xorb sx sy) (F2Q (Z.pos mx) ex / F2Q (Z.pos my) ey)
    (SF64div (S754_finite sx mx ex) (S754_finite sy my ey)).
Proof.
  intros Hcx Hcy. unfold SF64div, SpecFloat.SFdiv, SpecFloat.SFdiv_core_binary.
  rewrite fexp_binary64.
  set (d1 := SpecFloat.Zdigits2 (Z.pos mx)). set (d2 := SpecFloat.Zdigits2 (Z.pos my)).
  set (e' := Z.min (Z.max (d1 + ex - (d2 + ey) - 53) (-1074)) (ex - ey)).
  set (s := ex - ey - e').
  assert (0 ≤ s) as Hs by lia.
  set (m' := match s with Z.pos _ => Z.shiftl (Z.pos mx) s | 0 => Z.pos mx | Z.neg _ => 0 end).
  assert (m' = Z.pos mx * 2 ^ s) as Hm'.
  { unfold m'. destruct s as [|p|p] eqn:Hsp; [lia| |lia].
    by rewrite Z.shiftl_mul_pow2. }
  clearbody m'.
  pose proof (Z.pow_pos_nonneg 2 s ltac:(lia) Hs) as Hpow.
  assert (0 < m') as Hm'pos by nia.
  destruct (IntDef.Z.div_eucl m' (Z.pos my)) as [q r] eqn:Hqr.
  assert (q = m' / Z.pos my) as Hq by (unfold Z.div; change Z.div_eucl with IntDef.Z.div_eucl; by rewrite Hqr).
  assert (r = m' mod Z.pos my) as Hr by (unfold Z.modulo; change Z.div_eucl with IntDef.Z.div_eucl; by rewrite Hqr).
  clear Hqr. subst q r.
  pose proof (F2Q_pos (Z.pos my) ey ltac:(lia)) as Hy.
  pose proof (pow2_pos ey) as Hpey. pose proof (pow2_pos e') as Hpe'.
  apply (binary_round_aux_rounds _ m' (Z.pos my)); [lia|lia| | |].
  - apply new_location_ok; lia.
  - rewrite fexp_binary64.
    assert (d1 + s - d2 ≤ SpecFloat.Zdigits2 (m' / Z.pos my)) as Hdq.
    { pose proof (Zdigits2_nonneg (m' / Z.pos my)).
      destruct (Z.le_gt_cases (d1 + s - d2) 0) as [|Hk]; [lia|].
      pose proof (Zdigits2_bounds (Z.pos mx) ltac:(lia)) as [Hlx _].
      pose proof (Zdigits2_bounds (Z.pos my) ltac:(lia)) as [_ Hhy].
      fold d1 in Hlx. fold d2 in Hhy.
      pose proof (Zdigits2_pos (Z.pos mx) ltac:(lia)) as Hd1. fold d1 in Hd1.
      pose proof (Zdigits2_pos (Z.pos my) ltac:(lia)) as Hd2. fold d2 in Hd2.
      assert (2 ^ (d1 + s - d2 - 1) ≤ m' / Z.pos my) as Hlow.
      { apply Z.div_le_lower_bound; [lia|].
        assert (Z.pos my * 2 ^ (d1 + s - d2 - 1) ≤ 2 ^ d2 * 2 ^ (d1 + s - d2 - 1)) as H1.
        { apply Z.mul_le_mono_nonneg_r; [apply Z.pow_nonneg; lia|lia]. }
        rewrite <- Z.pow_add_r in H1 by lia.
        replace (d2 + (d1 + s - d2 - 1)) with (d1 - 1 + s) in H1 by lia.
        rewrite Z.pow_add_r in H1 by lia. nia. }
      assert (0 < m' / Z.pos my) as Hqpos.
      { pose proof (Z.pow_pos_nonneg 2 (d1 + s - d2 - 1)). lia. }
      pose proof (Zdigits2_bounds _ Hqpos) as [_ Hhq].
      assert (d1 + s - d2 - 1 < SpecFloat.Zdigits2 (m' / Z.pos my)); [|lia].
      apply (Z.pow_lt_mono_r_iff 2); lia. }
    lia.
  - unfold F2Q in *. rewrite Hm', inject_Z_mult.
    rewrite <- (pow2_Z s Hs).
    assert (pow2 ex == pow2 s * pow2 e' * pow2 ey)%Q as Hex.
    { rewrite <- !pow2_add. by replace (s + e' + ey) with ex by lia. }
    assert (0 < inject_Z (Z.pos my))%Q as Hmyq by (by rewrite <- (Zlt_Qlt 0)).
    rewrite Hex. field. split; lra.
Qed.

End Operations.

Section Normalize.

Lemma Pos_iter_xO m d : Z.pos (Pos.iter xO m d) = Z.pos m * 2 ^ Z.pos d.
Proof.
  induction d as [|d IH] using Pos.peano_ind.
  - simpl. lia.
  - rewrite Pos.iter_succ, Pos2Z.inj_succ, Z.pow_succ_r by lia.
    rewrite Pos2Z.inj_xO, IH. lia.
Qed.

Lemma shl_align_fst mx ex ez :
  ez ≤ ex →
  Z.pos (fst (SpecFloat.shl_align mx ex ez)) = Z.pos mx * 2 ^ (ex - ez).
Proof.
  intros Hle. unfold SpecFloat.shl_align.
  destruct (ez - ex) as [|d|d] eqn:Hd; [|lia|].
  - replace (ex - ez) with 0 by lia. simpl. lia.
  - simpl. rewrite Pos_iter_xO. f_equal. f_equal. lia.
Qed.

Lemma binary_round_rounds s p e :
  rounds s (F2Q (Z.pos p) e) (SpecFloat.binary_round prec emax s p e).
Proof.
  unfold SpecFloat.binary_round, SpecFloat.shl_align.
  rewrite fexp_binary64.
  change (Z.pos (SpecFloat.digits2_pos p)) with (SpecFloat.Zdigits2 (Z.pos p)).
  set (target := Z.max (SpecFloat.Zdigits2 (Z.pos p) + e - 53) (-1074)).
  destruct (target - e) as [|d|d] eqn:Hd.
  - apply (binary_round_aux_rounds _ (Z.pos p) 1); [lia|lia| | |].
    + split; [by rewrite Z.div_1_r|by rewrite Z.mod_1_r].
    + rewrite fexp_binary64. fold target. lia.
    + change (inject_Z 1) with 1%Q. unfold F2Q. ring.
  - apply (binary_round_aux_rounds _ (Z.pos p) 1); [lia|lia| | |].
    + split; [by rewrite Z.div_1_r|by rewrite Z.mod_1_r].
    + rewrite fexp_binary64. fold target. lia.
    + change (inject_Z 1) with 1%Q. unfold F2Q. ring.
  - apply (binary_round_aux_rounds _ (Z.pos (Pos.iter xO p d)) 1); [lia|lia| | |].
    + split; [by rewrite Z.div_1_r|by rewrite Z.mod_1_r].
    + rewrite fexp_binary64, Pos_iter_xO, Zdigits2_shift by lia. fold target. lia.
    + change (inject_Z 1) with 1%Q. rewrite Qmult_1_r, Pos_iter_xO.
      rewrite (F2Q_shift (Z.pos p) target (Z.pos d) ltac:(lia)).
      by replace (target + Z.pos d) with e by lia.
Qed.

Lemma binary_normalize_rounds m e szero :
  m ≠ 0 →
  rounds (m <? 0) (F2Q (Z.abs m) e) (SpecFloat.binary_normalize prec emax m e szero).
Proof.
  intros Hm. destruct m as [|p|p]; [done| |]; apply binary_round_rounds.
Qed.

(** ** Addition and subtraction of positive numbers *)

Lemma aligned_value mx ex ez :
  ez ≤ ex →
  (F2Q (Z.pos (fst (SpecFloat.shl_align mx ex ez))) ez == F2Q (Z.pos mx) ex)%Q.
Proof.
  intros Hle. rewrite shl_align_fst by done.
  rewrite (F2Q_shift (Z.pos mx) ez (ex - ez) ltac:(lia)).
  by replace (ez + (ex - ez)) with ex by lia.
Qed.

Lemma SFadd_rounds mx ex my ey :
  rounds false (F2Q (Z.pos mx) ex + F2Q (Z.pos my) ey)
    (SF64add (S754_finite false mx ex) (S754_finite false my ey)).
Proof.
  unfold SF64add, SpecFloat.SFadd, SpecFloat.cond_Zopp.
  set (ez := Z.min ex ey).
  pose proof (aligned_value mx ex ez ltac:(lia)) as Hx.
  pose proof (aligned_value my ey ez ltac:(lia)) as Hy.
  set (ax := fst (SpecFloat.shl_align mx ex ez)) in *.
  set (ay := fst (SpecFloat.shl_align my ey ez)) in *.
  pose proof (binary_normalize_rounds (Z.pos ax + Z.pos ay) ez false ltac:(lia)) as Hr.
  replace (Z.pos ax + Z.pos ay <? 0) with false in Hr by (symmetry; apply Z.ltb_ge; lia).
  assert (F2Q (Z.abs (Z.pos ax + Z.pos ay)) ez
          == F2Q (Z.pos mx) ex + F2Q (Z.pos my) ey)%Q as HV.
  { rewrite <- Hx, <- Hy. rewrite Z.abs_eq by lia. unfold F2Q.
    rewrite inject_Z_plus. ring. }
  destruct Hr as [H1 H2 H3 H4 H5]. split; [done|done| | |].
  - intros mf ef Hc HVF. apply H3; [done|]. by rewrite HV.
  - intros mf ef Hc HVF. apply H4; [done|]. by rewrite HV.
  - intros p e Hp Hn. rewrite <- HV. by apply H5.
Qed.

Lemma SFsub_rounds mx ex my ey :
  let r := SF64sub (S754_finite false mx ex) (S754_finite false my ey) in
  (r = S754_zero false ∧ (F2Q (Z.pos mx) ex == F2Q (Z.pos my) ey)%Q) ∨
  (rounds false (F2Q (Z.pos mx) ex - F2Q (Z.pos my) ey) r
   ∧ (F2Q (Z.pos my) ey < F2Q (Z.pos mx) ex)%Q) ∨
  (rounds true (F2Q (Z.pos my) ey - F2Q (Z.pos mx) ex) r
   ∧ (F2Q (Z.pos mx) ex < F2Q (Z.pos my) ey)%Q).
Proof.
  unfold SF64sub, SpecFloat.SFsub, SpecFloat.cond_Zopp.
  set (ez := Z.min ex ey).
  pose proof (aligned_value mx ex ez ltac:(lia)) as Hx.
  pose proof (aligned_value my ey ez ltac:(lia)) as Hy.
  set (ax := fst (SpecFloat.shl_align mx ex ez)) in *.
  set (ay := fst (SpecFloat.shl_align my ey ez)) in *.
  pose proof (pow2_pos ez) as Hpez.
  cbn zeta.
  destruct (Z.lt_trichotomy (Z.pos ax) (Z.pos ay)) as [Hlt|[Heq|Hgt]].
  - right. right.
    pose proof (binary_normalize_rounds (Z.pos ax - Z.pos ay) ez false ltac:(lia)) as Hr.
    replace (Z.pos ax - Z.pos ay <? 0) with true in Hr by (symmetry; apply Z.ltb_lt; lia).
    assert (F2Q (Z.abs (Z.pos ax - Z.pos ay)) ez
            == F2Q (Z.pos my) ey - F2Q (Z.pos mx) ex)%Q as HV.
    { rewrite <- Hx, <- Hy. rewrite Z.abs_neq by lia. unfold F2Q.
      replace (- (Z.pos ax - Z.pos ay)) with (Z.pos ay + - Z.pos ax) by lia.
      rewrite inject_Z_plus, inject_Z_opp. ring. }
    split.
    + destruct Hr as [H1 H2 H3 H4 H5]. split; [done|done| | |].
      * intros mf ef Hc HVF. apply H3; [done|]. by rewrite HV.
      * intros mf ef Hc HVF. apply H4; [done|]. by rewrite HV.
      * intros p e Hp Hn. rewrite <- HV. by apply H5.
    + rewrite <- Hx, <- Hy. unfold F2Q. rewrite Zlt_Qlt in Hlt. nra.
  - left. rewrite Heq, Z.sub_diag. split; [done|].
    rewrite <- Hx, <- Hy. by rewrite Heq.
  - right. left.
    pose proof (binary_normalize_rounds (Z.pos ax - Z.pos ay) ez false ltac:(lia)) as Hr.
    replace (Z.pos ax - Z.pos ay <? 0) with false in Hr by (symmetry; apply Z.ltb_ge; lia).
    assert (F2Q (Z.abs (Z.pos ax - Z.pos ay)) ez
            == F2Q (Z.pos mx) ex - F2Q (Z.pos my) ey)%Q as HV.
    { rewrite <- Hx, <- Hy. rewrite Z.abs_eq by lia. unfold F2Q.
      replace (Z.pos ax - Z.pos ay) with (Z.pos ax + - Z.pos ay) by lia.
      rewrite inject_Z_plus, inject_Z_opp. ring. }
    split.
    + destruct Hr as [H1 H2 H3 H4 H5]. split; [done|done| | |].
      * intros mf ef Hc HVF. apply H3; [done|]. by rewrite HV.
      * intros mf ef Hc HVF. apply H4; [done|]. by rewrite HV.
      * intros p e Hp Hn. rewrite <- HV. by apply H5.
    + rewrite <- Hx, <- Hy. unfold F2Q. rewrite Zlt_Qlt in Hgt. nra.
Qed.

End Normalize.

Section Comparison.

Lemma SFcompare_canonical m1 e1 m2 e2 :
  canonical (Z.pos m1) e1 → canonical (Z.pos m2) e2 →
  SpecFloat.SFcompare (S754_finite false m1 e1) (S754_finite false m2 e2)
  = Some (F2Q (Z.pos m1) e1 ?= F2Q (Z.pos m2) e2)%Q.
Proof.
  intros Hc1 Hc2. cbn [SpecFloat.SFcompare]. f_equal.
  pose proof (canonical_digits _ _ Hc1) as [Hd1 He1].
  pose proof (canonical_digits _ _ Hc2) as [Hd2 He2].
  destruct Hc1 as (_ & Hc1 & _), Hc2 as (_ & Hc2 & _).
  destruct (F2Q_digits (Z.pos m1) e1 ltac:(lia)) as [Hlo1 Hhi1].
  destruct (F2Q_digits (Z.pos m2) e2 ltac:(lia)) as [Hlo2 Hhi2].
  destruct (Z.compare_spec e1 e2) as [Heq|Hlt|Hgt].
  - subst e2. rewrite Pos.compare_cont_spec. cbn [Pos.switch_Eq].
    pose proof (pow2_pos e1) as Hp.
    destruct (Pos.compare_spec m1 m2) as [Hm|Hm|Hm]; symmetry.
    + subst. apply Qeq_alt. reflexivity.
    + apply Qlt_alt. apply F2Q_lt. lia.
    + apply Qgt_alt. apply F2Q_lt. lia.
  - symmetry. rewrite <- Qlt_alt.
    pose proof (pow2_le (SpecFloat.Zdigits2 (Z.pos m1) + e1)
                  (SpecFloat.Zdigits2 (Z.pos m2) + e2 - 1) ltac:(lia)). lra.
  - symmetry. rewrite <- Qgt_alt.
    pose proof (pow2_le (SpecFloat.Zdigits2 (Z.pos m2) + e2)
                  (SpecFloat.Zdigits2 (Z.pos m1) + e1 - 1) ltac:(lia)). lra.
Qed.

End Comparison.

(** * The resonance in binary64 *)

Section Brackets.

Lemma canonical_pow2 k :
  -1022 ≤ k ≤ 1023 →
  canonical (2 ^ 52) (k - 52) ∧ (F2Q (2 ^ 52) (k - 52) == pow2 k)%Q.
Proof.
  intros Hk. split.
  - split_and!; [done| |lia]. change (SpecFloat.Zdigits2 (2 ^ 52)) with 53. lia.
  - change (2 ^ 52) with (1 * 2 ^ 52). rewrite (F2Q_shift 1 (k - 52) 52 ltac:(lia)).
    replace (k - 52 + 52) with k by lia. unfold F2Q.
    change (inject_Z 1) with 1%Q. ring.
Qed.

Lemma rounds_finite_canonical s V r p e :
  rounds s V r → r = S754_finite s p e → canonical (Z.pos p) e.
Proof. intros Hr ->. eapply valid_canonical, rounds_valid, Hr. Qed.

Lemma rounds_at_least s V r k :
  rounds s V r → -1022 ≤ k ≤ 1023 → (pow2 k <= V)%Q →
  r = S754_infinity s ∨
  ∃ p e, r = S754_finite s p e ∧ canonical (Z.pos p) e ∧ (pow2 k <= F2Q (Z.pos p) e)%Q.
Proof.
  intros Hr Hk HV. destruct (canonical_pow2 k Hk) as [Hc Hval].
  destruct (rounds_lower s V r Hr _ _ Hc) as [?|(p & e & Hp & Hle)];
    [by rewrite Hval|by left|].
  right. exists p, e. split_and!; [done|by eapply rounds_finite_canonical|by rewrite <- Hval].
Qed.

Lemma rounds_at_most s V r k :
  rounds s V r → -1022 ≤ k ≤ 1023 → (V <= pow2 k)%Q →
  r = S754_zero s ∨
  ∃ p e, r = S754_finite s p e ∧ canonical (Z.pos p) e ∧ (F2Q (Z.pos p) e <= pow2 k)%Q.
Proof.
  intros Hr Hk HV. destruct (canonical_pow2 k Hk) as [Hc Hval].
  destruct (rounds_upper s V r Hr _ _ Hc) as [?|(p & e & Hp & Hle)];
    [by rewrite Hval|by left|].
  right. exists p, e. split_and!; [done|by eapply rounds_finite_canonical|by rewrite <- Hval].
Qed.

Lemma rounds_between s V r j k :
  rounds s V r → -1022 ≤ j ≤ 1023 → -1022 ≤ k ≤ 1023 →
  (pow2 j <= V)%Q → (V <= pow2 k)%Q →
  ∃ p e, r = S754_finite s p e ∧ canonical (Z.pos p) e ∧
         (pow2 j <= F2Q (Z.pos p) e)%Q ∧ (F2Q (Z.pos p) e <= pow2 k)%Q.
Proof.
  intros Hr Hj Hk Hlo Hhi.
  destruct (rounds_at_least s V r j Hr Hj Hlo) as [Hinf|(p & e & Hp & Hc & Hle)].
  - destruct (rounds_at_most s V r k Hr Hk Hhi) as [Hz|(p & e & Hp & _)];
      rewrite Hinf in *; done.
  - exists p, e. split_and!; [done..|].
    destruct (rounds_at_most s V r k Hr Hk Hhi) as [Hz|(p' & e' & Hp' & _ & Hle')].
    + rewrite Hp in Hz. done.
    + rewrite Hp in Hp'. by injection Hp' as -> ->.
Qed.

End Brackets.

Section Conversion.

Lemma Prim2SF_one : Prim2SF 1 = S754_finite false (2 ^ 52) (-52).
Proof. reflexivity. Qed.

Lemma Prim2SF_zero : Prim2SF 0 = S754_zero false.
Proof. reflexivity. Qed.

(** [static_cast<double>] of a [size_t]: zero, or a value from 1 to
    [2^64]. *)
Lemma double_of_size_t_range h :
  0 ≤ h < 2 ^ 64 →
  (h = 0 ∧ Prim2SF (double_of_size_t h) = S754_zero false) ∨
  (0 < h ∧ ∃ v, positive_finite (double_of_size_t h) v ∧ (1 <= v <= pow2 64)%Q).
Proof.
  intros Hh. unfold double_of_size_t.
  destruct (Z.eq_dec h 0) as [->|Hne]; [left; split; [done|]; reflexivity|].
  right. split; [lia|].
  pose proof (binary_normalize_rounds h 0 false Hne) as Hr.
  replace (h <? 0) with false in Hr by (symmetry; apply Z.ltb_ge; lia).
  rewrite Z.abs_eq in Hr by lia.
  pose proof (Prim2SF_SF2Prim _ (rounds_valid _ _ _ Hr)) as Hback.
  assert (1 <= F2Q h 0 ∧ F2Q h 0 <= pow2 64)%Q as [Hlo Hhi].
  { unfold F2Q. change (pow2 0) with 1%Q. rewrite Qmult_1_r. split.
    - rewrite <- (Zle_Qle 1). lia.
    - rewrite (pow2_Z 64 ltac:(lia)), <- Zle_Qle. lia. }
  destruct (rounds_between false _ _ 0 64 Hr) as (p & e & Hp & Hc & H1 & H2);
    [lia|lia|done|done|].
  exists (F2Q (Z.pos p) e). split; [|by split].
  exists p, e. by rewrite Hback, Hp.
Qed.

End Conversion.

Section BaseScore.

Lemma positive_finite_pos x v : positive_finite x v → (0 < v)%Q.
Proof. intros (p & e & _ & _ & <-). apply F2Q_pos. lia. Qed.

Lemma distance_range x y :
  at_most x 64 → at_most y 64 → at_most (abs (x - y)) 64.
Proof.
  intros Hx Hy. unfold at_most, positive_finite in *.
  rewrite abs_spec, sub_spec.
  destruct Hx as [Hx|(vx & (px & ex & Hx & Hcx & Hvx) & Hlx)],
           Hy as [Hy|(vy & (py & ey & Hy & Hcy & Hvy) & Hly)];
    rewrite Hx, Hy.
  - by left.
  - right. exists vy. split; [|done]. by exists py, ey.
  - right. exists vx. split; [|done]. by exists px, ex.
  - pose proof (positive_finite_pos x vx ltac:(by exists px, ex)) as Hpx.
    pose proof (positive_finite_pos y vy ltac:(by exists py, ey)) as Hpy.
    destruct (SFsub_rounds px ex py ey) as [[-> _]|[[Hr Hlt]|[Hr Hlt]]]; [by left| |].
    + destruct (rounds_at_most _ _ _ 64 Hr) as [->|(p & e & -> & Hc & Hle)];
        [lia|lra|by left|].
      right. exists (F2Q (Z.pos p) e). split; [by exists p, e|done].
    + destruct (rounds_at_most _ _ _ 64 Hr) as [->|(p & e & -> & Hc & Hle)];
        [lia|lra|by left|].
      right. exists (F2Q (Z.pos p) e). split; [by exists p, e|done].
Qed.

Lemma quotient_range d m vm :
  at_most d 64 → positive_finite m vm → (1 <= vm)%Q → at_most (d / m) 64.
Proof.
  intros Hd (pm & em & Hm & Hcm & Hvm) Hone. unfold at_most, positive_finite.
  rewrite div_spec, Hm.
  destruct Hd as [Hd|(vd & (pd & ed & Hd & Hcd & Hvd) & Hld)]; rewrite Hd; [by left|].
  pose proof (SFdiv_rounds false pd ed false pm em Hcd Hcm) as Hr. simpl xorb in Hr.
  pose proof (positive_finite_pos d vd ltac:(by exists pd, ed)) as Hpd.
  destruct (rounds_at_most _ _ _ 64 Hr) as [->|(p & e & -> & Hc & Hle)];
    [lia| |by left|].
  - rewrite Hvd, Hvm. apply Qle_shift_div_r; [lra|].
    pose proof (pow2_pos 64). nra.
  - right. exists (F2Q (Z.pos p) e). split; [by exists p, e|done].
Qed.

Lemma one_plus_range q :
  at_most q 64 →
  ∃ v, positive_finite (1 + q) v ∧ (1 <= v)%Q ∧ (v <= pow2 65)%Q.
Proof.
  intros Hq. unfold positive_finite. rewrite add_spec, Prim2SF_one.
  assert (canonical (Z.pos (2 ^ 52)) (-52) ∧ (F2Q (Z.pos (2 ^ 52)) (-52) == 1)%Q)
    as [Hc1 Hv1] by (split; [by split_and!|reflexivity]).
  destruct Hq as [Hq|(vq & (pq & eq & Hq & Hcq & Hvq) & Hlq)]; rewrite Hq.
  - exists 1%Q. split; [by exists (2 ^ 52)%positive, (-52)|].
    split; [lra|]. pose proof (pow2_le 0 65 ltac:(lia)). change (pow2 0) with 1%Q in *. done.
  - pose proof (SFadd_rounds (2 ^ 52) (-52) pq eq) as Hr.
    pose proof (positive_finite_pos q vq ltac:(by exists pq, eq)) as Hpq.
    destruct (rounds_between _ _ _ 0 65 Hr) as (p & e & -> & Hc & Hlo & Hhi);
      [lia|lia| | |].
    + rewrite Hv1, Hvq. change (pow2 0) with 1%Q. lra.
    + rewrite Hv1, Hvq. change (pow2 65) with (2 * pow2 64)%Q.
      pose proof (pow2_le 0 64 ltac:(lia)). change (pow2 0) with 1%Q in *. lra.
    + exists (F2Q (Z.pos p) e). split; [by exists p, e|]. by split.
Qed.

Lemma inverse_range z vz :
  positive_finite z vz → (1 <= vz)%Q → (vz <= pow2 65)%Q →
  ∃ v, positive_finite (1 / z) v ∧ (pow2 (-65) <= v)%Q ∧ (v <= 1)%Q.
Proof.
  intros (pz & ez & Hz & Hcz & Hvz) Hlo Hhi. unfold positive_finite.
  rewrite div_spec, Prim2SF_one, Hz.
  assert (canonical (Z.pos (2 ^ 52)) (-52) ∧ (F2Q (Z.pos (2 ^ 52)) (-52) == 1)%Q)
    as [Hc1 Hv1] by (split; [by split_and!|reflexivity]).
  pose proof (SFdiv_rounds false (2 ^ 52) (-52) false pz ez Hc1 Hcz) as Hr.
  simpl xorb in Hr.
  destruct (rounds_between _ _ _ (-65) 0 Hr) as (p & e & -> & Hc & Hlo' & Hhi');
    [lia|lia| | |].
  - rewrite Hv1, Hvz. apply Qle_shift_div_l; [lra|].
    assert (pow2 (-65) * pow2 65 == 1)%Q as H by reflexivity. nra.
  - rewrite Hv1, Hvz. change (pow2 0) with 1%Q. apply Qle_shift_div_r; lra.
  - exists (F2Q (Z.pos p) e). split; [by exists p, e|]. by split.
Qed.

(** The base score of two hashes that are not both zero is a finite
    [double] from [2^-65] to 1. *)
Lemma base_resonance_range input_hash identity_hash :
  0 ≤ input_hash < 2 ^ 64 → 0 ≤ identity_hash < 2 ^ 64 →
  ¬ (input_hash = 0 ∧ identity_hash = 0) →
  ∃ v, positive_finite (CognitiveKernel.base_resonance input_hash identity_hash) v
       ∧ (pow2 (-65) <= v)%Q ∧ (v <= 1)%Q.
Proof.
  intros H1 H2 Hnz. unfold CognitiveKernel.base_resonance.
  assert (∀ h, 0 ≤ h < 2 ^ 64 → at_most (double_of_size_t h) 64) as Hconv.
  { intros h Hh. destruct (double_of_size_t_range h Hh) as [[_ Hz]|(_ & v & Hv & _ & Hle)].
    - by left.
    - right. by exists v. }
  pose proof (distance_range _ _ (Hconv _ H1) (Hconv _ H2)) as Hd.
  destruct (double_of_size_t_range (Z.max input_hash identity_hash) ltac:(lia))
    as [[Hz _]|(_ & vm & Hm & Hone & _)]; [lia|].
  pose proof (quotient_range _ _ vm Hd Hm Hone) as Hq.
  destruct (one_plus_range _ Hq) as (vz & Hz & Hlo & Hhi).
  by apply (inverse_range _ vz).
Qed.

End BaseScore.

Section Doubles.

Lemma rounds_ext s V V' r : (V == V')%Q → rounds s V r → rounds s V' r.
Proof.
  intros HV [H1 H2 H3 H4 H5]. split; [done|done| | |].
  - intros mf ef Hc HVF. apply H3; [done|]. by rewrite HV.
  - intros mf ef Hc HVF. apply H4; [done|]. by rewrite HV.
  - intros p e Hp Hn. rewrite <- HV. by apply H5.
Qed.

Lemma mul_rounds x y vx vy :
  positive_finite x vx → positive_finite y vy →
  rounds false (vx * vy) (Prim2SF (x * y)).
Proof.
  intros (px & ex & Hx & Hcx & Hvx) (py & ey & Hy & Hcy & Hvy).
  rewrite mul_spec, Hx, Hy.
  eapply rounds_ext; [|apply (SFmul_rounds false px ex false py ey Hcx Hcy)].
  by rewrite Hvx, Hvy.
Qed.

Lemma positive_finite_unique x v v' :
  positive_finite x v → positive_finite x v' → (v == v')%Q.
Proof.
  intros (p & e & Hx & _ & <-) (p' & e' & Hx' & _ & <-).
  rewrite Hx in Hx'. by injection Hx' as <- <-.
Qed.

Lemma positive_finite_ext x v v' : (v == v')%Q → positive_finite x v → positive_finite x v'.
Proof. intros Hv (p & e & Hx & Hc & Hval). exists p, e. by rewrite <- Hv. Qed.

(** The value of what [rounds] gives, when that is finite. *)
Lemma rounds_positive_finite V x p e :
  rounds false V (Prim2SF x) → Prim2SF x = S754_finite false p e →
  positive_finite x (F2Q (Z.pos p) e).
Proof.
  intros Hr Hx. exists p, e. split_and!; [done| |done].
  by eapply rounds_finite_canonical.
Qed.

Lemma zero_ltb_positive x v : positive_finite x v → (0 <? x)%float = true.
Proof. intros (p & e & Hx & _). by rewrite ltb_spec, Hx. Qed.

Lemma zero_leb_positive x v : positive_finite x v → (0 <=? x)%float = true.
Proof. intros (p & e & Hx & _). by rewrite leb_spec, Hx. Qed.

Lemma compare_positive x y vx vy :
  positive_finite x vx → positive_finite y vy →
  SpecFloat.SFcompare (Prim2SF x) (Prim2SF y) = Some (vx ?= vy)%Q.
Proof.
  intros (px & ex & Hx & Hcx & Hvx) (py & ey & Hy & Hcy & Hvy).
  rewrite Hx, Hy, SFcompare_canonical by done. by rewrite Hvx, Hvy.
Qed.

Lemma ltb_positive x y vx vy :
  positive_finite x vx → positive_finite y vy →
  (x <? y)%float = true ↔ (vx < vy)%Q.
Proof.
  intros Hx Hy. rewrite ltb_spec. unfold SpecFloat.SFltb.
  rewrite (compare_positive x y vx vy Hx Hy), Qlt_alt.
  destruct (vx ?= vy)%Q; naive_solver.
Qed.

Lemma leb_positive x y vx vy :
  positive_finite x vx → positive_finite y vy →
  (x <=? y)%float = true ↔ (vx <= vy)%Q.
Proof.
  intros Hx Hy. rewrite leb_spec. unfold SpecFloat.SFleb.
  rewrite (compare_positive x y vx vy Hx Hy), Qle_alt.
  destruct (vx ?= vy)%Q; naive_solver.
Qed.

Lemma positive_finite_one : positive_finite 1 1.
Proof. exists (2 ^ 52)%positive, (-52). by split_and!. Qed.

Lemma positive_finite_lit_1_2 :
  ∃ v, positive_finite lit_1_2 v ∧ (119 # 100 <= v)%Q ∧ (v <= 121 # 100)%Q.
Proof.
  eexists. split; [eexists _, _; split_and!; [reflexivity| |reflexivity]|].
  - by split_and!.
  - by split.
Qed.

End Doubles.

Section BaseRange.

(** The base score is in (0, 1]. *)
Lemma base_resonance_unit input_hash identity_hash :
  0 ≤ input_hash < 2 ^ 64 → 0 ≤ identity_hash < 2 ^ 64 →
  ¬ (input_hash = 0 ∧ identity_hash = 0) →
  let base := CognitiveKernel.base_resonance input_hash identity_hash in
  (0 <? base)%float = true ∧ (base <=? 1)%float = true.
Proof.
  intros H1 H2 Hnz base.
  destruct (base_resonance_range _ _ H1 H2 Hnz) as (v & Hv & Hlo & Hhi).
  split; [by eapply zero_ltb_positive|].
  by apply (leb_positive _ _ v 1 Hv positive_finite_one).
Qed.

End BaseRange.

Section Boost.

(** The factor is at least 1, or it has overflowed. *)
Lemma boost_shape n :
  (∃ v, positive_finite (boost n) v ∧ (1 <= v)%Q) ∨ boost n = infinity.
Proof.
  induction n as [|n IH].
  - left. exists 1%Q. split; [apply positive_finite_one|lra].
  - change (boost (S n)) with (boost n * lit_1_2)%float.
    destruct IH as [(v & Hv & Hone)| ->]; [|by right].
    destruct positive_finite_lit_1_2 as (c & Hc & Hlo & _).
    pose proof (mul_rounds _ _ _ _ Hv Hc) as Hr.
    destruct (rounds_at_least _ _ _ 0 Hr) as [Hinf|(p & e & Hp & Hcan & Hle)]; [lia| | |].
    + change (pow2 0) with 1%Q. nra.
    + right. apply Prim2SF_inj. by rewrite Hinf.
    + left. exists (F2Q (Z.pos p) e). split; [by exists p, e|done].
Qed.

End Boost.

Section Products.

Lemma Prim2SF_infinity : Prim2SF infinity = S754_infinity false.
Proof. reflexivity. Qed.

(** Base score times factor: at least [2^-65] and at most the factor, or
    infinite with the factor. *)
Lemma product_shape b vb n :
  positive_finite b vb → (pow2 (-65) <= vb)%Q → (vb <= 1)%Q →
  (boost n = infinity ∧ (b * boost n)%float = infinity) ∨
  (∃ vB v, positive_finite (boost n) vB ∧ (1 <= vB)%Q ∧
           positive_finite (b * boost n) v ∧
           (pow2 (-65) <= v)%Q ∧ (v <= vB)%Q ∧
           rounds false (vb * vB) (Prim2SF (b * boost n))).
Proof.
  intros Hb Hlo Hhi. destruct (boost_shape n) as [(vB & HB & Hone)|HB].
  - right. pose proof (mul_rounds _ _ _ _ Hb HB) as Hr.
    pose proof (positive_finite_pos _ _ Hb) as Hbpos.
    destruct HB as (pB & eB & HB & HcB & HvB).
    destruct (rounds_at_least _ _ _ (-65) Hr) as [Hinf|(p & e & Hp & Hcan & Hle)];
      [lia|nra| |].
    + destruct (rounds_upper _ _ _ Hr _ _ HcB) as [Hz|(p & e & Hp & _)];
        [rewrite HvB; nra|rewrite Hinf in *; done..].
    + destruct (rounds_upper _ _ _ Hr _ _ HcB) as [Hz|(p' & e' & Hp' & Hle')];
        [rewrite HvB; nra|by rewrite Hp in Hz|].
      rewrite Hp in Hp'. injection Hp' as <- <-.
      exists vB, (F2Q (Z.pos p) e).
      split_and!; [by exists pB, eB|done|by exists p, e|done|by rewrite <- HvB|done].
  - left. split; [done|]. rewrite HB. apply Prim2SF_inj.
    destruct Hb as (p & e & Hp & _). by rewrite mul_spec, Hp.
Qed.

(** The result is at least 0 for a weight that is, unless the factor
    has overflowed and the weight is zero. *)
Lemma resonance_nonneg b vb n w :
  positive_finite b vb → (pow2 (-65) <= vb)%Q → (vb <= 1)%Q →
  (0 <=? w)%float = true →
  (boost n = infinity → (w =? 0)%float = false) →
  (0 <=? b * boost n * w)%float = true.
Proof.
  intros Hb Hlo Hhi Hw Hover.
  rewrite leb_spec, Prim2SF_zero in Hw |- *.
  rewrite mul_spec. pose proof (Prim2SF_valid w) as Hvalid.
  destruct (product_shape b vb n Hb Hlo Hhi)
    as [[HB ->]|(vB & v & _ & _ & (p & e & -> & Hc & _) & _)].
  - specialize (Hover HB). rewrite FloatAxioms.eqb_spec, Prim2SF_zero in Hover.
    rewrite Prim2SF_infinity.
    destruct (Prim2SF w) as [[]|[]| |[] pw ew]; done.
  - destruct (Prim2SF w) as [[]|[]| |[] pw ew] eqn:Hpw; try done.
    pose proof (SFmul_rounds false p e false pw ew Hc (valid_canonical _ _ _ Hvalid)) as Hr.
    destruct (rounds_shape _ _ _ Hr) as [->|[->|(q & eq & ->)]]; done.
Qed.

End Products.

Section RelativeError.

Lemma ulp_small : (0 < pow2 (-53))%Q ∧ (pow2 (-53) <= 1 # 1000)%Q.
Proof. split; [apply pow2_pos|by vm_compute]. Qed.

Lemma canonical_normal p e :
  canonical p e → (pow2 (-1022) <= F2Q p e)%Q → 2 ^ 52 ≤ p.
Proof.
  intros Hc Hv. destruct (Z.le_gt_cases (2 ^ 52) p) as [|Hlt]; [done|exfalso].
  pose proof (canonical_digits p e Hc) as [Hd He]. destruct Hc as (Hp & Hc & _).
  pose proof (Zdigits2_bounds p Hp) as [Hlo _].
  assert (SpecFloat.Zdigits2 p ≤ 52) as Hd52.
  { destruct (Z.le_gt_cases (SpecFloat.Zdigits2 p) 52) as [|Hgt]; [done|].
    assert (2 ^ 52 ≤ 2 ^ (SpecFloat.Zdigits2 p - 1)) by (apply Z.pow_le_mono_r; lia).
    lia. }
  assert (e = -1074) as -> by lia.
  assert (F2Q p (-1074) < F2Q (2 ^ 52) (-1074))%Q as H by (by apply F2Q_lt).
  assert (F2Q (2 ^ 52) (-1074) == pow2 (-1022))%Q as H' by reflexivity.
  lra.
Qed.

(** A normal result is within [2^-53] of the exact value, relative to
    itself. *)
Lemma relative_error V x v :
  rounds false V (Prim2SF x) → positive_finite x v → (pow2 (-1022) <= v)%Q →
  (v - V <= v * pow2 (-53))%Q ∧ (V - v <= v * pow2 (-53))%Q.
Proof.
  intros Hr (p & e & Hx & Hc & Hv) Hn. rewrite <- Hv in Hn |- *.
  apply (rounds_error _ _ _ Hr p e Hx). by eapply canonical_normal.
Qed.

Lemma ratio_step (a b c d u : Q) :
  (0 < u)%Q → (u <= 1 # 1000)%Q → (0 < a)%Q → (0 < b)%Q →
  (a - c <= a * u)%Q → (d - b <= b * u)%Q → ((118 # 100) * c <= d)%Q →
  ((117 # 100) * a <= b)%Q.
Proof.
  intros Hu Hu' Ha Hb Hac Hdb Hcd.
  destruct (Qlt_le_dec b ((117 # 100) * a)) as [Hlt|]; [exfalso|done].
  assert (b * u <= (117 # 100) * a * u)%Q as H1 by nra.
  assert (a * u <= a * (1 # 1000))%Q as H2 by nra.
  lra.
Qed.

Lemma ratio_strict (a b c d u : Q) :
  (0 < u)%Q → (u <= 1 # 1000)%Q → (0 < a)%Q → (0 < b)%Q →
  (a - c <= a * u)%Q → (d - b <= b * u)%Q → ((117 # 100) * c <= d)%Q →
  (a < b)%Q.
Proof.
  intros Hu Hu' Ha Hb Hac Hdb Hcd.
  destruct (Qlt_le_dec a b) as [|Hle]; [done|exfalso].
  assert (b * u <= a * u)%Q as H1 by nra.
  assert (a * u <= a * (1 # 1000))%Q as H2 by nra.
  lra.
Qed.

End RelativeError.

Section BoostRatio.

Lemma boost_infinity_mono j k : (j ≤ k)%nat → boost j = infinity → boost k = infinity.
Proof.
  intros Hjk Hj. induction Hjk as [|k Hjk IH]; [done|].
  change (boost (S k)) with (boost k * lit_1_2)%float. by rewrite IH.
Qed.

Lemma positive_finite_not_infinity x v : positive_finite x v → x ≠ infinity.
Proof. intros (p & e & Hx & _) ->. done. Qed.

Lemma boost_finite_before j k v :
  (j ≤ k)%nat → positive_finite (boost k) v →
  ∃ v', positive_finite (boost j) v' ∧ (1 <= v')%Q.
Proof.
  intros Hjk Hk. destruct (boost_shape j) as [?|Hinf]; [done|].
  apply (boost_infinity_mono j k Hjk) in Hinf.
  by apply positive_finite_not_infinity in Hk.
Qed.

Lemma boost_step n v v' :
  positive_finite (boost n) v → positive_finite (boost (S n)) v' →
  ((118 # 100) * v <= v')%Q.
Proof.
  intros Hv Hv'. destruct positive_finite_lit_1_2 as (c & Hc & Hlo & _).
  pose proof (mul_rounds _ _ _ _ Hv Hc) as Hr.
  change (boost n * lit_1_2)%float with (boost (S n)) in Hr.
  destruct (boost_shape (S n)) as [(v'' & Hv'' & Hone)|Hinf];
    [|by apply positive_finite_not_infinity in Hv'].
  rewrite (positive_finite_unique _ _ _ Hv'' Hv') in Hone.
  destruct (relative_error _ _ _ Hr Hv') as [_ Herr].
  { pose proof (pow2_le (-1022) 0 ltac:(lia)). change (pow2 0) with 1%Q in *. lra. }
  destruct ulp_small as [Hu Hu']. pose proof (positive_finite_pos _ _ Hv) as Hpos.
  assert (v' * pow2 (-53) <= v' * (1 # 1000))%Q as H1 by nra.
  assert ((119 # 100) * v <= v * c)%Q as H2 by nra.
  lra.
Qed.

Lemma boost_ratio j k vj vk :
  (j < k)%nat → positive_finite (boost j) vj → positive_finite (boost k) vk →
  ((118 # 100) * vj <= vk)%Q.
Proof.
  intros Hjk Hj. revert vk. induction Hjk as [|k Hjk IH]; intros vk Hk.
  - by apply (boost_step j).
  - destruct (boost_finite_before k (S k) vk ltac:(lia) Hk) as (v & Hv & _).
    pose proof (IH v Hv) as H1. pose proof (boost_step k v vk Hv Hk) as H2.
    pose proof (positive_finite_pos _ _ Hj). lra.
Qed.

End BoostRatio.

Section Strict.

Lemma positive_finite_min_normal : positive_finite min_normal (pow2 (-1022)).
Proof. exists (2 ^ 52)%positive, (-1074). by split_and!. Qed.

Lemma canonical_max : canonical (2 ^ 53 - 1) 971.
Proof. by split_and!. Qed.

Lemma max_double_bounds :
  (pow2 1023 <= F2Q (2 ^ 53 - 1) 971)%Q ∧
  (pow2 1024 * (1 + (1 # 1000)) <= (117 # 100) * F2Q (2 ^ 53 - 1) 971)%Q.
Proof. split; by vm_compute. Qed.

Lemma Prim2SF_min_normal : Prim2SF min_normal = S754_finite false (2 ^ 52) (-1074).
Proof. reflexivity. Qed.

(** The weight behind a result that is at least [min_normal]. *)
Lemma weight_of_normal_result P w :
  (∃ vP, positive_finite P vP) ∨ P = infinity →
  (min_normal <=? P * w)%float = true →
  (∃ vw, positive_finite w vw) ∨ w = infinity.
Proof.
  intros HP Hle. rewrite leb_spec, mul_spec, Prim2SF_min_normal in Hle.
  pose proof (Prim2SF_valid w) as Hvalid.
  destruct (Prim2SF w) as [s|s| |s pw ew] eqn:Hw.
  - destruct HP as [(vP & p & e & HP & _)|HP]; rewrite HP, ?Prim2SF_infinity in Hle;
      by destruct s.
  - destruct s.
    + destruct HP as [(vP & p & e & HP & _)|HP]; rewrite HP, ?Prim2SF_infinity in Hle;
        done.
    + right. apply Prim2SF_inj. by rewrite Hw.
  - destruct HP as [(vP & p & e & HP & _)|HP]; rewrite HP, ?Prim2SF_infinity in Hle;
      done.
  - destruct s.
    + exfalso. destruct HP as [(vP & p & e & HP & Hc & _)|HP];
        rewrite HP, ?Prim2SF_infinity in Hle; [|done].
      pose proof (SFmul_rounds false p e true pw ew Hc (valid_canonical _ _ _ Hvalid))
        as Hr.
      destruct (rounds_shape _ _ _ Hr) as [Hz|[Hz|(q & eq & Hz)]];
        rewrite Hz in Hle; done.
    + left. exists (F2Q (Z.pos pw) ew). exists pw, ew.
      split_and!; [done|by eapply valid_canonical|done].
Qed.

(** With the same base score and a positive weight, more matching
    entries give a strictly greater result, as long as the smaller result
    is a normal number and the greater one finite. *)
Lemma resonance_strict b vb j k w :
  positive_finite b vb → (pow2 (-65) <= vb)%Q → (vb <= 1)%Q →
  (j < k)%nat →
  (min_normal <=? b * boost j * w)%float = true →
  (b * boost k * w <? infinity)%float = true →
  (b * boost j * w <? b * boost k * w)%float = true.
Proof.
  intros Hb Hlo Hhi Hjk H1 H2.
  destruct ulp_small as [Hu Hu'].
  pose proof (positive_finite_pos _ _ Hb) as Hbpos.
  (* the weight is positive and finite *)
  assert (∃ vw, positive_finite w vw) as [vw Hw].
  { destruct (weight_of_normal_result (b * boost j) w) as [?|Hinf]; [|done|done|].
    - destruct (product_shape b vb j Hb Hlo Hhi)
        as [[_ ->]|(_ & v & _ & _ & Hv & _)]; [by right|left; by exists v].
    - exfalso. subst w. rewrite ltb_spec, mul_spec, !Prim2SF_infinity in H2.
      destruct (product_shape b vb k Hb Hlo Hhi)
        as [[_ HP]|(_ & v & _ & _ & (p & e & HP & _) & _)];
        rewrite ?HP, ?Prim2SF_infinity in H2; done. }
  pose proof (positive_finite_pos _ _ Hw) as Hwpos.
  (* both factors are finite *)
  destruct (product_shape b vb k Hb Hlo Hhi)
    as [[_ HP]|(vBk & pk & HBk & Hk1 & HPk & Hpklo & Hpkhi & Hrk)].
  { exfalso. rewrite ltb_spec, mul_spec, HP, Prim2SF_infinity in H2.
    destruct Hw as (p & e & Hpw & _). by rewrite Hpw in H2. }
  destruct (product_shape b vb j Hb Hlo Hhi)
    as [[HBj _]|(vBj & pj & HBj & Hj1 & HPj & Hpjlo & Hpjhi & Hrj)].
  { exfalso. apply (boost_infinity_mono j k ltac:(lia)) in HBj.
    by apply positive_finite_not_infinity in HBk. }
  pose proof (positive_finite_pos _ _ HPj) as Hpjpos.
  pose proof (positive_finite_pos _ _ HPk) as Hpkpos.
  (* the products keep the factors apart *)
  pose proof (boost_ratio j k vBj vBk Hjk HBj HBk) as Hratio.
  pose proof (pow2_le (-1022) (-65) ltac:(lia)) as Hsmall.
  destruct (relative_error _ _ _ Hrj HPj ltac:(lra)) as [Hj_up _].
  destruct (relative_error _ _ _ Hrk HPk ltac:(lra)) as [_ Hk_down].
  assert ((117 # 100) * pj <= pk)%Q as Hp.
  { apply (ratio_step pj pk (vb * vBj) (vb * vBk) (pow2 (-53))); try done. nra. }
  (* the results *)
  pose proof (mul_rounds _ _ _ _ HPj Hw) as Hr1.
  pose proof (mul_rounds _ _ _ _ HPk Hw) as Hr2.
  set (r1 := (b * boost j * w)%float) in *.
  set (r2 := (b * boost k * w)%float) in *.
  assert ((117 # 100) * (pj * vw) <= pk * vw)%Q as HV by nra.
  assert (∃ q2, positive_finite r2 q2 ∨ Prim2SF r2 = S754_zero false) as [q2 Hq2].
  { rewrite ltb_spec, Prim2SF_infinity in H2.
    destruct (rounds_shape _ _ _ Hr2) as [Hz|[Hz|(p & e & Hz)]].
    - exists 0%Q. by right.
    - by rewrite Hz in H2.
    - exists (F2Q (Z.pos p) e). left. by eapply rounds_positive_finite. }
  assert (∃ q1, positive_finite r1 q1 ∧ (pow2 (-1022) <= q1)%Q) as (q1 & Hq1 & Hn1).
  { destruct (rounds_shape _ _ _ Hr1) as [Hz|[Hz|(p & e & Hz)]].
    - by rewrite leb_spec, Prim2SF_min_normal, Hz in H1.
    - exfalso.
      (* an infinite smaller result forces an infinite greater one *)
      destruct max_double_bounds as [Hmax1 Hmax2].
      pose proof (pow2_pos 1023) as Hpos1023. pose proof (pow2_pos 1024) as Hpos1024.
      assert (F2Q (2 ^ 53 - 1) 971 < pj * vw)%Q as Hbig.
      { destruct (Qlt_le_dec (F2Q (2 ^ 53 - 1) 971) (pj * vw)) as [|Hle]; [done|].
        destruct (rounds_upper _ _ _ Hr1 _ _ canonical_max Hle) as [Hz'|(p & e & Hz' & _)];
          rewrite Hz in Hz'; done. }
      destruct (rounds_at_least _ _ _ 1023 Hr2) as [Hinf|(p & e & Hp2 & Hc2 & Hle2)];
        [lia|lra| |].
      + destruct Hq2 as [(p & e & Hp2 & _)|Hp2]; rewrite Hinf in Hp2; done.
      + pose proof (rounds_positive_finite _ _ _ _ Hr2 Hp2) as Hpf.
        pose proof (pow2_le (-1022) 1023 ltac:(lia)).
        destruct (relative_error _ _ _ Hr2 Hpf ltac:(lra)) as [_ Herr].
        pose proof (canonical_below _ _ Hc2) as Hbelow.
        assert (F2Q (Z.pos p) e * pow2 (-53) <= F2Q (Z.pos p) e * (1 # 1000))%Q by nra.
        lra.
    - exists (F2Q (Z.pos p) e).
      pose proof (rounds_positive_finite _ _ _ _ Hr1 Hz) as Hpf. split; [done|].
      by apply (leb_positive _ _ _ _ positive_finite_min_normal Hpf). }
  pose proof (positive_finite_pos _ _ Hq1) as Hq1pos.
  destruct (relative_error _ _ _ Hr1 Hq1 Hn1) as [H1_up _].
  assert (q1 * pow2 (-53) <= q1 * (1 # 1000))%Q as Hq1u by nra.
  destruct (rounds_at_least _ _ _ (-1022) Hr2) as [Hinf|(p & e & Hp2 & Hc2 & Hle2)];
    [lia|lra| |].
  { rewrite ltb_spec, Hinf in H2. done. }
  pose proof (rounds_positive_finite _ _ _ _ Hr2 Hp2) as Hpf2.
  destruct (relative_error _ _ _ Hr2 Hpf2 Hle2) as [_ H2_down].
  apply (ltb_positive _ _ _ _ Hq1 Hpf2).
  apply (ratio_strict q1 (F2Q (Z.pos p) e) (pj * vw) (pk * vw) (pow2 (-53)));
    try done.
  apply F2Q_pos. lia.
Qed.

End Strict.

Section Edges.

Lemma to_size_t_range z : 0 ≤ to_size_t z < 2 ^ 64.
Proof. unfold to_size_t, size_t_max. apply Z.mod_pos_bound. lia. Qed.

(** Whatever the base score, an infinite factor and a zero weight of
    either sign give NaN. *)
Lemma mul_infinity_any_zero (b w : float) :
  (w =? 0)%float = true → (b * infinity * w)%float = nan.
Proof.
  intros Hw. apply Prim2SF_inj. rewrite FloatAxioms.eqb_spec in Hw.
  rewrite !mul_spec. change (Prim2SF infinity) with (S754_infinity false).
  change (Prim2SF 0) with (S754_zero false) in Hw.
  destruct (Prim2SF w) as [sw|sw| |sw pw ew];
    [|by destruct sw|done|by destruct sw].
  by destruct (Prim2SF b) as [s|s| |s p e].
Qed.

(** A NaN base score gives a NaN result, which no comparison accepts. *)
Lemma nan_score_not_normal (B w : float) :
  (min_normal <=? nan * B * w)%float = false.
Proof.
  rewrite leb_spec, !mul_spec. change (Prim2SF nan) with S754_nan.
  by destruct (Prim2SF min_normal).
Qed.

Lemma nan_score_not_nonneg (B w : float) : (0 <=? nan * B * w)%float = false.
Proof. rewrite leb_spec, !mul_spec. change (Prim2SF nan) with S754_nan. done. Qed.

Lemma base_resonance_zero_hashes : CognitiveKernel.base_resonance 0 0 = nan.
Proof. reflexivity. Qed.

End Edges.

(** * The claims *)

(** ** Substrate *)

(** C1.  Referential integrity is an invariant of the public mutating
    interface: on a substrate obtained from a new one by any sequence of
    [add_node], [update_node], [remove_node], [add_edge], [update_edge] and
    [remove_edge] calls, every member of every stored edge is a key of the
    node table; and on such a substrate each of these calls completes and
    leaves a substrate with the same property. *)
Theorem referential_integrity_invariant
    (X : Type) (I : SubstratePersistence.Interface X)
    (s : @HypergraphSubstrate.t X) :
  reachable_state s →
  referential_integrity s ∧
  ∀ op, ∃ s', completes (perform op s) s' ∧ referential_integrity s'.
Proof.
  intros Hs. destruct (reachable_state_invariant s Hs) as [Hfree HRI].
  split; [done|]. intros op.
  destruct (perform_completes op s Hfree) as [s' Hc].
  exists s'. split; [done|]. by eapply perform_preserves.
Qed.

Lemma referential_integrity_invariant_witness :
  referential_integrity three_edges.
Proof.
  refine (proj1 (referential_integrity_invariant Empty_set _ three_edges _)).
  change three_edges
    with (run_operations
            [Add_node (HyperNode.make "node1" "First Node");
             Add_node (HyperNode.make "node2" "Second Node");
             Add_node (HyperNode.make "node3" "Third Node");
             Add_edge (HyperEdge.make "edge1" {["node1"; "node2"]});
             Add_edge (HyperEdge.make "edge2" {["node1"; "node3"]});
             Add_edge (HyperEdge.make "edge3" {["node2"; "node3"]})]
            fresh_substrate).
  apply reachable_state_run, reachable_new.
Defined.

(** C2.  On an unlocked substrate [remove_node id] returns [true] when
    [id] is a key of the node table: the edges left are exactly the stored
    edges that do not have [id] as a member, the node is gone, and the
    persistence strategy was told to remove each removed edge, once, and
    then the node; it returns [false] when [id] is no key.  With nodes 1,
    2, 3 and edges e1 = {1, 2}, e2 = {1, 3}, e3 = {2, 3}, removing node 1
    leaves edge e3 alone and two nodes. *)
Theorem remove_node_cascade
    (X : Type) (I : SubstratePersistence.Interface X)
    (s : @HypergraphSubstrate.t X) (id : NodeId) :
  unlocked s →
  (is_Some (HypergraphSubstrate.nodes_ s !! id) →
   ∃ s' removed,
     HypergraphSubstrate.remove_node id s = Returns true s' ∧
     unlocked s' ∧
     HypergraphSubstrate.nodes_ s' = delete id (HypergraphSubstrate.nodes_ s) ∧
     (∀ edge_id edge,
        HypergraphSubstrate.edges_ s' !! edge_id = Some edge ↔
        HypergraphSubstrate.edges_ s !! edge_id = Some edge ∧
        id ∉ HyperEdge.connected_nodes edge) ∧
     NoDup removed ∧
     (∀ edge_id,
        edge_id ∈ removed ↔
        ∃ edge, HypergraphSubstrate.edges_ s !! edge_id = Some edge ∧
                id ∈ HyperEdge.connected_nodes edge) ∧
     HypergraphSubstrate.persistence_ s' =
       (SubstratePersistence.remove_node id
          (foldl (λ p edge_id, (SubstratePersistence.remove_edge edge_id p).2)
                 (HypergraphSubstrate.persistence_ s) removed)).2) ∧
  (HypergraphSubstrate.nodes_ s !! id = None →
   ∃ s', HypergraphSubstrate.remove_node id s = Returns false s') ∧
  (∃ s', HypergraphSubstrate.remove_node "node1" three_edges = Returns true s' ∧
         dom (HypergraphSubstrate.edges_ s') = {["edge3"]} ∧
         size (HypergraphSubstrate.nodes_ s') = 2%nat).
Proof.
  intros Hs.
  destruct (remove_node_spec id s Hs) as (s' & Hrun & Hs' & Hn & He & Hp).
  split_and!.
  - intros Hnode. rewrite bool_decide_eq_true_2 in Hrun, Hp by done.
    exists s', (HypergraphSubstrate.edges_to_remove id s).
    split_and!; [done|done|done| |apply NoDup_edges_to_remove| |done].
    + intros edge_id edge. rewrite He. case_decide as Hrem.
      * apply elem_of_edges_to_remove in Hrem as (edge' & Hedge' & Hin).
        split; [done|]. intros [Hedge Hnin]. congruence.
      * split; [|by intros [? _]]. intros Hedge. split; [done|].
        intros Hin. apply Hrem, elem_of_edges_to_remove. eauto.
    + intros edge_id. apply elem_of_edges_to_remove.
  - intros Hnode. rewrite bool_decide_eq_false_2 in Hrun by (rewrite Hnode; by intros [? ?]).
    eauto.
  - eexists. split; [vm_compute; reflexivity|]. split; vm_compute; reflexivity.
Qed.

Lemma remove_node_cascade_witness :
  ∃ s', HypergraphSubstrate.remove_node "node2" three_edges = Returns true s' ∧
        HypergraphSubstrate.nodes_ s' !! "node2" = None.
Proof.
  destruct (remove_node_cascade Empty_set _ three_edges "node2" eq_refl)
    as (Hpresent & _ & _).
  destruct Hpresent as (s' & removed & Hrun & _ & Hn & _);
    [vm_compute; eauto|].
  exists s'. split; [exact Hrun|]. rewrite Hn. apply lookup_delete_eq.
Defined.

(** C3.  On an unlocked substrate, an edge one of whose members is no key
    of the node table is refused with the exception
    [std::invalid_argument], not with a returned [false]: by [add_edge]
    when its id is new and by [update_edge] when its id is stored.  The
    substrate after the throw is the substrate before the call, so the
    edge is not stored and the edge count is what it was. *)
Theorem dangling_edge_rejected
    (X : Type) (I : SubstratePersistence.Interface X)
    (s : @HypergraphSubstrate.t X) (edge : HyperEdge.t) :
  unlocked s → member_missing edge s →
  (HypergraphSubstrate.edges_ s !! HyperEdge.id edge = None →
   ∃ n, n ∈ HyperEdge.connected_nodes edge ∧
        HypergraphSubstrate.nodes_ s !! n = None ∧
        HypergraphSubstrate.add_edge edge s =
          Throws (HypergraphSubstrate.referential_integrity_error n) s) ∧
  (is_Some (HypergraphSubstrate.edges_ s !! HyperEdge.id edge) →
   ∃ n, n ∈ HyperEdge.connected_nodes edge ∧
        HypergraphSubstrate.nodes_ s !! n = None ∧
        HypergraphSubstrate.update_edge edge s =
          Throws (HypergraphSubstrate.referential_integrity_error n) s).
Proof.
  intros Hs Hmiss. split; intros Hid.
  - by apply add_edge_dangling.
  - by apply update_edge_dangling.
Qed.

Lemma dangling_edge_rejected_witness :
  HypergraphSubstrate.add_edge invalid_edge three_edges =
    Throws (invalid_argument "Edge references non-existent node: nonexistent")
           three_edges.
Proof.
  assert (member_missing invalid_edge three_edges) as Hmiss.
  { exists "nonexistent". split; [vm_compute; set_solver|vm_compute; reflexivity]. }
  destruct (dangling_edge_rejected Empty_set _ three_edges invalid_edge eq_refl Hmiss)
    as [Hadd _].
  destruct Hadd as (n & Hin & Hn & Hrun); [vm_compute; reflexivity|].
  rewrite Hrun. f_equal.
  assert (n = "nonexistent") as ->; [|reflexivity].
  change (HyperEdge.connected_nodes invalid_edge)
    with ({["node1"; "nonexistent"]} : gset string) in Hin.
  apply elem_of_union in Hin as [Hin|Hin]; apply elem_of_singleton in Hin; subst n;
    [vm_compute in Hn; discriminate|reflexivity].
Defined.

(** C10.  In [add_edge] the duplicate check comes first: on an unlocked
    substrate an edge whose id is stored gets [false] and the substrate is
    left as it was, whatever its members are; so [add_edge] throws only for
    an id that is not stored. *)
Theorem duplicate_check_precedes_validation
    (X : Type) (I : SubstratePersistence.Interface X)
    (s : @HypergraphSubstrate.t X) (edge : HyperEdge.t) :
  unlocked s →
  (is_Some (HypergraphSubstrate.edges_ s !! HyperEdge.id edge) →
   HypergraphSubstrate.add_edge edge s = Returns false s) ∧
  (∀ e s', HypergraphSubstrate.add_edge edge s = Throws e s' →
           HypergraphSubstrate.edges_ s !! HyperEdge.id edge = None).
Proof.
  intros Hs. split.
  - by apply add_edge_duplicate.
  - intros e s' Hthrow.
    destruct (HypergraphSubstrate.edges_ s !! HyperEdge.id edge) eqn:Hid; [|done].
    rewrite add_edge_duplicate in Hthrow by eauto. discriminate.
Qed.

Lemma duplicate_check_precedes_validation_witness :
  member_missing (HyperEdge.make "edge1" {["ghost"]}) three_edges ∧
  HypergraphSubstrate.add_edge (HyperEdge.make "edge1" {["ghost"]}) three_edges
  = Returns false three_edges.
Proof.
  split.
  - exists "ghost". split; [set_solver|vm_compute; reflexivity].
  - apply (duplicate_check_precedes_validation Empty_set _ three_edges
             (HyperEdge.make "edge1" {["ghost"]}) eq_refl).
    vm_compute. eauto.
Defined.

(** C4, at the scenario of the repository's persistence test.  A default
    substrate holding one node and one edge saves them; [clear_substrate]
    then empties the in-memory strategy's store as well as the tables, so
    [load_substrate] finds nothing: the counts are 0 and 0, not the
    original 1 and 1, and node1 is gone. *)
Theorem round_trip_loses_the_substrate :
  ∃ s1 s2 s3,
    HypergraphSubstrate.save_substrate populated = Returns true s1 ∧
    HypergraphSubstrate.clear_substrate s1 = Returns () s2 ∧
    HypergraphSubstrate.load_substrate s2 = Returns true s3 ∧
    size (HypergraphSubstrate.nodes_ populated) = 1%nat ∧
    size (HypergraphSubstrate.edges_ populated) = 1%nat ∧
    size (HypergraphSubstrate.nodes_ s3) = 0%nat ∧
    size (HypergraphSubstrate.edges_ s3) = 0%nat ∧
    HypergraphSubstrate.nodes_ s3 !! "node1" = None.
Proof.
  eexists _, _, _.
  split; [vm_compute; reflexivity|].
  split; [vm_compute; reflexivity|].
  split; [vm_compute; reflexivity|].
  split_and!; vm_compute; reflexivity.
Qed.

(** C5.  On an unlocked substrate [propagate_activation source a] returns.
    When [source] is no key of the node table nothing changes.  Otherwise
    the source's activation is [a]; every node within two hops of the
    source has [a * 0.7] added, once, to the activation it had; every other
    node is as it was; and edges and persistence are untouched. *)
Theorem propagate_activation_two_hops
    (X : Type) (I : SubstratePersistence.Interface X)
    (s : @HypergraphSubstrate.t X) (source : NodeId) (a : Weight) :
  unlocked s →
  (HypergraphSubstrate.nodes_ s !! source = None →
   HypergraphSubstrate.propagate_activation source a s = Returns () s) ∧
  (∀ src,
     HypergraphSubstrate.nodes_ s !! source = Some src →
     ∃ s',
       HypergraphSubstrate.propagate_activation source a s = Returns () s' ∧
       unlocked s' ∧
       HypergraphSubstrate.edges_ s' = HypergraphSubstrate.edges_ s ∧
       HypergraphSubstrate.persistence_ s' = HypergraphSubstrate.persistence_ s ∧
       HypergraphSubstrate.nodes_ s' !! source =
         Some (HyperNode.set_activation_level a src) ∧
       (∀ n node,
          HypergraphSubstrate.nodes_ s !! n = Some node →
          within_two_hops (HypergraphSubstrate.edges_ s) source n →
          HypergraphSubstrate.nodes_ s' !! n =
            Some (HyperNode.set_activation_level
                    (HyperNode.activation_level node + a * lit_0_7)%float node)) ∧
       (∀ n, n ≠ source →
             ¬ within_two_hops (HypergraphSubstrate.edges_ s) source n →
             HypergraphSubstrate.nodes_ s' !! n = HypergraphSubstrate.nodes_ s !! n)).
Proof.
  intros Hs. split.
  - by apply propagate_activation_absent.
  - intros src Hsrc. by apply propagate_activation_present.
Qed.

Lemma propagate_activation_two_hops_witness :
  ∃ s',
    HypergraphSubstrate.propagate_activation "node1" 1%float chain = Returns () s' ∧
    HyperNode.activation_level <$> HypergraphSubstrate.nodes_ s' !! "node1"
      = Some 1%float.
Proof.
  destruct (propagate_activation_two_hops Empty_set _ chain "node1" 1%float eq_refl)
    as [_ Hpresent].
  destruct (Hpresent (HyperNode.make "node1" "Source Node")) as (s' & Hrun & _ & _ & _ & Hsrc & _);
    [vm_compute; reflexivity|].
  exists s'. split; [exact Hrun|]. by rewrite Hsrc.
Defined.

(** The scenario of the repository's propagation test: along the chain
    node1 - node2 - node3 - node4, propagating 1.0 from node1 leaves 1.0 on
    node1, 0.7 on node2 and node3, and node4 as it was. *)
Example chain_propagation :
  ∃ s',
    HypergraphSubstrate.propagate_activation "node1" 1%float chain = Returns () s' ∧
    (λ n, HyperNode.activation_level <$> HypergraphSubstrate.nodes_ s' !! n)
      <$> ["node1"; "node2"; "node3"; "node4"]
    = [Some 1%float; Some lit_0_7; Some lit_0_7; Some 0%float].
Proof. eexists. split; vm_compute; reflexivity. Qed.

(** C6, the clustering coefficient.  [calculate_clustering_coefficient]
    takes [substrate_mutex_] and then calls the public
    [get_connected_nodes], which takes it again: on every substrate and for
    every id the call blocks, so it returns neither 1.0 on the triangle nor
    0.0 for a node with fewer than two neighbours. *)
Theorem clustering_coefficient_never_returns
    (X : Type) (I : SubstratePersistence.Interface X)
    (s : @HypergraphSubstrate.t X) (id : NodeId) :
  HypergraphSubstrate.calculate_clustering_coefficient id s = Deadlock.
Proof. apply calculate_clustering_coefficient_blocks. Qed.

(** What C6 says besides holds.  The density is 0.0 under two nodes and
    otherwise the edge count over the number of node pairs; it is 1.0 on
    the triangle.  The counting loop, handed the set that
    [get_connected_nodes] computes instead of calling it, yields 0.0 for a
    node with fewer than two connected nodes and 1.0 for each node of the
    triangle. *)
Lemma density_and_unlocked_clustering :
  (∀ (X : Type) (I : SubstratePersistence.Interface X) (s : @HypergraphSubstrate.t X),
     unlocked s →
     let n := Z.of_nat (size (HypergraphSubstrate.nodes_ s)) in
     HypergraphSubstrate.calculate_substrate_density s =
       Returns (if n <? 2 then 0%float
                else (double_of_size_t (Z.of_nat (size (HypergraphSubstrate.edges_ s)))
                      / double_of_size_t (to_size_t (n * to_size_t (n - 1)) / 2))%float) s ∧
     (2 ≤ n < 2 ^ 32 → to_size_t (n * to_size_t (n - 1)) / 2 = n * (n - 1) / 2)) ∧
  HypergraphSubstrate.calculate_substrate_density triangle = Returns 1%float triangle ∧
  (∀ (X : Type) (I : SubstratePersistence.Interface X) (s : @HypergraphSubstrate.t X) id,
     unlocked s →
     (size (HypergraphSubstrate.connected_set id (HypergraphSubstrate.edges_ s)) < 2)%nat →
     HypergraphSubstrate.lock_guard
       (HypergraphSubstrate.clustering_coefficient_with
          HypergraphSubstrate.connected_nodes_body id) s
     = Returns 0%float s) ∧
  (∀ id, id ∈ ["nodeA"; "nodeB"; "nodeC"] →
     HypergraphSubstrate.lock_guard
       (HypergraphSubstrate.clustering_coefficient_with
          HypergraphSubstrate.connected_nodes_body id) triangle
     = Returns 1%float triangle).
Proof.
  split_and!.
  - intros X I s Hs n. split.
    + by apply calculate_substrate_density_spec.
    + apply pairs_no_wrap.
  - vm_compute. reflexivity.
  - intros X I s id. apply clustering_few_neighbours.
  - intros id Hid. repeat (apply elem_of_cons in Hid as [->|Hid]);
      [vm_compute; reflexivity..|by apply elem_of_nil in Hid].
Qed.

(** ** Cognitive kernel *)

(** A NaN base score gives a NaN result. *)
Lemma nan_score (B w : float) : (nan * B * w)%float = nan.
Proof.
  apply Prim2SF_inj. rewrite !mul_spec. by change (Prim2SF nan) with S754_nan.
Qed.

(** C7 as the specification states it fails.  Whatever [std::hash] is:
    with the pattern "a" listed twice, text and signature both "a" and
    weight 1.0, either the result is not the formula with one factor 1.2
    (the code applies two), or the base score is NaN and not in (0, 1];
    with 4000 entries "a" and weight 0.0 the factor overflows to infinity
    and the result is NaN, which is not at least 0; and with the weight
    -1.0, text and signature both "test_identity", the result is -1.2 or
    NaN.  With a hash function that sends text and signature to 0 the base
    score is NaN. *)
Lemma resonance_claim_fails :
  (¬ ∃ hasher, resonance_claim hasher repeated_pattern_identity "a") ∧
  (¬ ∃ hasher, resonance_claim hasher overflowing_identity "a") ∧
  (¬ ∃ hasher, resonance_claim hasher negative_weight_identity "test_identity") ∧
  (¬ resonance_claim (λ _, 0) (DeepTreeEcho_of "a") "a").
Proof.
  split_and!.
  - intros [hasher (Hformula & Hrange & _)].
    rewrite calculate_resonance_with in Hformula.
    unfold resonance_as_specified in Hformula.
    cbn [repeated_pattern_identity identity_signature echo_patterns cognitive_weight
         empty orb] in Hformula, Hrange.
    destruct (base_resonance_same_hash (to_size_t (hasher "a"))) as [Hbase|Hbase];
      rewrite Hbase in *.
    + revert Hformula. apply float_neq. vm_compute. discriminate.
    + destruct Hrange as [Hpos _]; [done|]. vm_compute in Hpos. discriminate.
  - intros [hasher (_ & _ & Hnonneg)]. cbn zeta in Hnonneg.
    rewrite calculate_resonance_with in Hnonneg.
    cbn [overflowing_identity identity_signature echo_patterns cognitive_weight
         empty orb] in Hnonneg.
    assert (boost (matching_entries (replicate 4000 "a"%string) "a") = infinity)
      as Hboost by (vm_compute; reflexivity).
    rewrite Hboost, mul_infinity_zero in Hnonneg. vm_compute in Hnonneg. discriminate.
  - intros [hasher (_ & _ & Hnonneg)]. cbn zeta in Hnonneg.
    rewrite calculate_resonance_with in Hnonneg.
    cbn [negative_weight_identity identity_signature echo_patterns cognitive_weight
         empty orb] in Hnonneg.
    destruct (base_resonance_same_hash (to_size_t (hasher "test_identity")))
      as [Hbase|Hbase];
      rewrite Hbase in Hnonneg; vm_compute in Hnonneg; discriminate.
  - intros (_ & Hrange & _). destruct Hrange as [Hpos _]; [done|].
    vm_compute in Hpos. discriminate.
Qed.

(** C7, amended.  [calculate_resonance] returns 0.0 when the text or the
    identity's signature is empty; otherwise it returns, in [double], the
    base score [1 / (1 + |hash(text) - hash(signature)| / max(...))] times
    1.2 once for every entry of the pattern list that occurs in the text as
    a substring (an entry listed twice counts twice) times the weight.
    The base score is in (0, 1], except that it is NaN, and with it the
    result, when both hashes are 0.  The result is at least 0 whenever the
    weight is, the hashes are not both 0, and the factor has not overflowed
    to infinity while the weight is zero; in that last case the result is
    NaN. *)
Theorem calculate_resonance_formula
    (hasher : string → Z) (Derived : Type)
    (k : CognitiveKernel.t Derived) (text : string) :
  let identity := CognitiveKernel.echo_identity_ Derived k in
  let matches :=
    length (filter (λ pattern, occurs_in pattern text) (echo_patterns identity)) in
  let input_hash := to_size_t (hasher text) in
  let identity_hash := to_size_t (hasher (identity_signature identity)) in
  let base := CognitiveKernel.base_resonance input_hash identity_hash in
  let result := CognitiveKernel.calculate_resonance hasher Derived text k in
  result =
    (if empty text || empty (identity_signature identity) then 0%float
     else (base * boost matches * cognitive_weight identity)%float) ∧
  (input_hash = 0 ∧ identity_hash = 0 →
   base = nan ∧
   (empty text || empty (identity_signature identity) = false → result = nan)) ∧
  (¬ (input_hash = 0 ∧ identity_hash = 0) →
   (0 <? base)%float = true ∧ (base <=? 1)%float = true) ∧
  (¬ (input_hash = 0 ∧ identity_hash = 0) →
   (0 <=? cognitive_weight identity)%float = true →
   (boost matches = infinity → (cognitive_weight identity =? 0)%float = false) →
   (0 <=? result)%float = true) ∧
  (empty text || empty (identity_signature identity) = false →
   boost matches = infinity → (cognitive_weight identity =? 0)%float = true →
   result = nan).
Proof.
  intros identity matches input_hash identity_hash base result.
  assert (result =
            (if empty text || empty (identity_signature identity) then 0%float
             else (base * boost matches * cognitive_weight identity)%float))
    as Hformula.
  { unfold result. rewrite calculate_resonance_unfold.
    by rewrite matching_entries_occurrences. }
  pose proof (to_size_t_range (hasher text)) as Hin.
  pose proof (to_size_t_range (hasher (identity_signature identity))) as Hid.
  split_and!.
  - exact Hformula.
  - intros [Hz Hz'].
    assert (base = nan) as Hbase
      by (unfold base; rewrite Hz, Hz'; apply base_resonance_zero_hashes).
    split; [exact Hbase|]. intros Hfull.
    rewrite Hformula, Hfull, Hbase. apply nan_score.
  - intros Hnz. by apply base_resonance_unit.
  - intros Hnz Hweight Hover. rewrite Hformula.
    destruct (empty text || empty (identity_signature identity)); [reflexivity|].
    destruct (base_resonance_range input_hash identity_hash Hin Hid Hnz)
      as (v & Hv & Hlo & Hhi).
    by apply (resonance_nonneg base v).
  - intros Hfull Hboost Hweight. rewrite Hformula, Hfull, Hboost.
    by apply mul_infinity_any_zero.
Qed.

Lemma calculate_resonance_formula_witness :
  (0 <=? CognitiveKernel.calculate_resonance constant_hasher unit
           "test cognitive data" (kernel_with unit_weight_identity))%float = true ∧
  CognitiveKernel.calculate_resonance constant_hasher unit "a"
    (kernel_with overflowing_identity) = nan.
Proof.
  split.
  - destruct (calculate_resonance_formula constant_hasher unit
                (kernel_with unit_weight_identity) "test cognitive data")
      as (_ & _ & _ & Hnonneg & _).
    apply Hnonneg.
    + intros [Hz _]. vm_compute in Hz. discriminate Hz.
    + reflexivity.
    + intros _. reflexivity.
  - destruct (calculate_resonance_formula constant_hasher unit
                (kernel_with overflowing_identity) "a")
      as (_ & _ & _ & _ & Hnan).
    apply Hnan; [reflexivity| |reflexivity].
    rewrite <- matching_entries_occurrences. vm_compute. reflexivity.
Defined.

(** C8 as the specification states it fails.  Whatever [std::hash] is,
    under the identity of the repository's resonance test with weight 0.0
    the text matching both patterns does not score above the text matching
    none.  Nor does it with weight 1.0 under a hash function that puts
    the matching text far from the signature and the other text on it,
    with the smallest positive weight, where both results underflow to
    that weight, with an infinite weight, where both are infinite, or with
    the weight -1.0, where the matching text scores -1.44 and the other
    -1.0. *)
Lemma monotonicity_claim_fails :
  (¬ ∃ hasher,
       monotonicity_claim hasher zero_weight_identity
         "unrelated information" "test cognitive data") ∧
  (¬ monotonicity_claim uneven_hasher unit_weight_identity
       "unrelated information" "test cognitive data") ∧
  (¬ monotonicity_claim constant_hasher tiny_weight_identity
       "unrelated information" "test cognitive data") ∧
  (¬ monotonicity_claim constant_hasher infinite_weight_identity
       "unrelated information" "test cognitive data") ∧
  (¬ monotonicity_claim constant_hasher negative_weight_identity
       "unrelated information" "test cognitive data").
Proof.
  split_and!.
  - intros [hasher Hclaim].
    assert ((CognitiveKernel.calculate_resonance hasher unit "unrelated information"
               (kernel_with zero_weight_identity)
             <? CognitiveKernel.calculate_resonance hasher unit "test cognitive data"
                  (kernel_with zero_weight_identity))%float = true) as Hless
      by (apply Hclaim; vm_compute; reflexivity).
    rewrite zero_weight_never_greater in Hless by reflexivity.
    discriminate.
  - intros Hclaim. specialize (Hclaim eq_refl eq_refl).
    vm_compute in Hclaim. discriminate.
  - intros Hclaim. specialize (Hclaim eq_refl eq_refl).
    vm_compute in Hclaim. discriminate.
  - intros Hclaim. specialize (Hclaim eq_refl eq_refl).
    vm_compute in Hclaim. discriminate.
  - intros Hclaim. specialize (Hclaim eq_refl eq_refl).
    vm_compute in Hclaim. discriminate.
Qed.

(** C8, amended.  For a fixed identity and two texts with the same base
    score (all else equal), the text in which more entries of the pattern
    list occur has the strictly greater resonance, in [double], as long as
    the smaller result is a normal number (at least [2^-1022], so the
    weight is positive and nothing underflows) and the greater one is
    finite (nothing overflows).  With weight 0.0 no text scores strictly
    above another. *)
Theorem resonance_pattern_monotonicity
    (hasher : string → Z) (identity : DeepTreeEcho) (text text' : string) :
  let base t :=
    CognitiveKernel.base_resonance (to_size_t (hasher t))
      (to_size_t (hasher (identity_signature identity))) in
  let result t :=
    CognitiveKernel.calculate_resonance hasher unit t (kernel_with identity) in
  (empty text = false → empty text' = false →
   empty (identity_signature identity) = false →
   base text = base text' →
   (matching_entries (echo_patterns identity) text
    < matching_entries (echo_patterns identity) text')%nat →
   (min_normal <=? result text)%float = true →
   (result text' <? infinity)%float = true →
   (result text <? result text')%float = true) ∧
  (cognitive_weight identity = 0%float →
   (result text <? result text')%float = false).
Proof.
  intros base result. split.
  - intros Hfull Hfull' Hsig Hbase Hmore Hnormal Hfinite.
    unfold result in *. rewrite !calculate_resonance_with in *.
    rewrite Hfull, Hfull', Hsig in *. cbn [orb] in *. fold (base text) (base text') in *.
    rewrite <- Hbase in *.
    pose proof (to_size_t_range (hasher text)) as Hin.
    pose proof (to_size_t_range (hasher (identity_signature identity))) as Hid.
    destruct (decide (to_size_t (hasher text) = 0
                      ∧ to_size_t (hasher (identity_signature identity)) = 0))
      as [[Hz Hz']|Hnz].
    + exfalso. unfold base in Hnormal. rewrite Hz, Hz', base_resonance_zero_hashes in Hnormal.
      by rewrite nan_score_not_normal in Hnormal.
    + destruct (base_resonance_range _ _ Hin Hid Hnz) as (v & Hv & Hlo & Hhi).
      by apply (resonance_strict (base text) v).
  - intros Hweight. by apply zero_weight_never_greater.
Qed.

Lemma resonance_pattern_monotonicity_witness :
  (CognitiveKernel.calculate_resonance constant_hasher unit "unrelated information"
     (kernel_with unit_weight_identity)
   <? CognitiveKernel.calculate_resonance constant_hasher unit "test cognitive data"
        (kernel_with unit_weight_identity))%float = true ∧
  (CognitiveKernel.calculate_resonance constant_hasher unit "unrelated information"
     (kernel_with zero_weight_identity)
   <? CognitiveKernel.calculate_resonance constant_hasher unit "test cognitive data"
        (kernel_with zero_weight_identity))%float = false.
Proof.
  split.
  - destruct (resonance_pattern_monotonicity constant_hasher unit_weight_identity
                "unrelated information" "test cognitive data") as [Hstrict _].
    apply Hstrict; try reflexivity.
    vm_compute. lia.
  - destruct (resonance_pattern_monotonicity constant_hasher zero_weight_identity
                "unrelated information" "test cognitive data") as [_ Hzero].
    apply Hzero. reflexivity.
Defined.

(** C9 as the specification states it fails: a kernel that is in
    [PROCESSING] when [process_cognitive_signal] is called, as it is when
    [CognitiveProcessor::onTrigger] calls it, is in [PROCESSING] again
    after its hook failed. *)
Lemma rollback_leaves_processing :
  ∃ k',
    CognitiveKernel.process_cognitive_signal (λ _, 0) (λ _, EmptyString) unit
      failing_hook silent_transition "signal" processing_kernel
    = Throws (runtime_error "hook failed") k' ∧
    CognitiveKernel.current_state_ unit k' = PROCESSING.
Proof. eexists. split; [vm_compute; reflexivity|reflexivity]. Qed.

(** C9, amended.  With a transition hook that only takes note, a call of
    [process_cognitive_signal] on a kernel in state [s] hands the
    processing hook a kernel in [PROCESSING]; when the hook throws, the
    call throws the same exception and leaves the kernel in [s], which is
    [PROCESSING] only if [s] is; when the hook returns, the call returns
    and leaves [REFLECTING].  No call that throws leaves another state
    than [s], and no call that returns another than [REFLECTING]. *)
Theorem process_cognitive_signal_rollback
    (hasher : string → Z) (double_to_string : float → string) (Derived : Type)
    (on_cognitive_process :
       string → CognitiveKernel.t Derived → Outcome (CognitiveKernel.t Derived) unit)
    (on_state_transition :
       CognitiveState → CognitiveState →
       CognitiveKernel.t Derived → Outcome (CognitiveKernel.t Derived) unit)
    (signal_data : string) (k : CognitiveKernel.t Derived) :
  notifies_only Derived on_state_transition →
  let process :=
    CognitiveKernel.process_cognitive_signal hasher double_to_string Derived
      on_cognitive_process on_state_transition signal_data in
  (∃ k_in,
     CognitiveKernel.current_state_ Derived k_in = PROCESSING ∧
     (∀ e k_out,
        on_cognitive_process signal_data
          (at_hook hasher double_to_string Derived signal_data k_in) = Throws e k_out →
        ∃ k', process k = Throws e k' ∧
              CognitiveKernel.current_state_ Derived k' =
              CognitiveKernel.current_state_ Derived k) ∧
     (∀ k_out,
        on_cognitive_process signal_data
          (at_hook hasher double_to_string Derived signal_data k_in) = Returns () k_out →
        ∃ k', process k = Returns () k' ∧
              CognitiveKernel.current_state_ Derived k' = REFLECTING)) ∧
  (∀ e k',
     process k = Throws e k' →
     CognitiveKernel.current_state_ Derived k' = CognitiveKernel.current_state_ Derived k ∧
     (CognitiveKernel.current_state_ Derived k' = PROCESSING →
      CognitiveKernel.current_state_ Derived k = PROCESSING)) ∧
  (∀ a k',
     process k = Returns a k' →
     CognitiveKernel.current_state_ Derived k' = REFLECTING).
Proof.
  intros Hnote process. split_and!.
  - by apply process_cognitive_signal_cases.
  - intros e k' Hthrow.
    destruct (process_cognitive_signal_outcomes hasher double_to_string Derived
                on_cognitive_process on_state_transition signal_data k Hnote)
      as [Hthrows _].
    destruct (Hthrows e k' Hthrow) as [Hsame _]. split; [done|]. congruence.
  - intros a k' Hret.
    destruct (process_cognitive_signal_outcomes hasher double_to_string Derived
                on_cognitive_process on_state_transition signal_data k Hnote)
      as [_ Hreturns].
    by eapply Hreturns.
Qed.

Lemma process_cognitive_signal_rollback_witness :
  ∃ k',
    CognitiveKernel.process_cognitive_signal (λ _, 0) (λ _, EmptyString) unit
      failing_hook silent_transition "signal" awakening_kernel
    = Throws (runtime_error "hook failed") k' ∧
    CognitiveKernel.current_state_ unit k' = AWAKENING.
Proof.
  assert (notifies_only unit silent_transition) as Hnote
    by (intros from to k; by exists k).
  destruct (process_cognitive_signal_rollback (λ _, 0) (λ _, EmptyString) unit
              failing_hook silent_transition "signal" awakening_kernel Hnote)
    as ((k_in & _ & Hthrows & _) & _ & _).
  destruct (Hthrows (runtime_error "hook failed") _ eq_refl) as (k' & Hrun & Hstate).
  exists k'. split; [exact Hrun|]. rewrite Hstate. reflexivity.
Defined.

(** * Further properties of the substrate: queries *)

(** [std::less<std::string>] is a total order. *)
Lemma string_le_alt a b : string_le a b ↔ a = b ∨ String_as_OT.lt a b.
Proof.
  unfold string_le, Stdlib.Strings.String.leb.
  change (Stdlib.Strings.String.compare a b) with (String_as_OT.compare a b).
  destruct (String_as_OT.compare_spec a b) as [Heq|Hlt|Hgt].
  - split; [by left|done].
  - split; [by right|done].
  - split; [done|]. intros [->|Hlt].
    + by apply (irreflexivity String_as_OT.lt) in Hgt.
    + exfalso. apply (irreflexivity String_as_OT.lt a). by etrans.
Qed.

#[global] Instance string_le_trans : Transitive string_le.
Proof.
  intros a b c. rewrite !string_le_alt. intros [->|H1] [->|H2]; eauto.
  right. by etrans.
Qed.

#[global] Instance string_le_total : Total string_le.
Proof. intros a b. apply Stdlib.Strings.String.leb_total. Qed.

Section QueryTheory.
Context {X : Type} `{!SubstratePersistence.Interface X}.
Import HypergraphSubstrate.
Abbreviation substrate := (@HypergraphSubstrate.t X).

Lemma with_mutex_unlocked (s : substrate) :
  unlocked s → with_mutex false (with_mutex true s) = s.
Proof. destruct s as [m n e p]. unfold unlocked. simpl. by intros ->. Qed.

(** A [const] member function that only reads the tables. *)
Lemma lock_guard_read {A} (f : substrate → A) (s : substrate) :
  unlocked s → f (with_mutex true s) = f s →
  lock_guard (λ s, Returns (f s) s) s = Returns (f s) s.
Proof.
  intros Hs Hf. rewrite lock_guard_unlocked by done.
  by rewrite Hf, with_mutex_unlocked.
Qed.

Lemma foldl_connected_members id (l : list NodeId) (acc : gset NodeId) n :
  n ∈ foldl (λ connected node_id,
               if bool_decide (node_id ≠ id)
               then {[node_id]} ∪ connected else connected) acc l
  ↔ n ∈ acc ∨ (n ∈ l ∧ n ≠ id).
Proof.
  revert acc. induction l as [|m l IH]; intros acc; simpl.
  - set_solver.
  - rewrite IH. case_bool_decide; set_solver.
Qed.

Lemma elem_of_connected_set id (edges : gmap EdgeId HyperEdge.t) n :
  n ∈ connected_set id edges ↔ co_member edges id n.
Proof.
  unfold connected_set, co_member.
  assert (∀ (l : list (EdgeId * HyperEdge.t)) (acc : gset NodeId),
    n ∈ foldl (λ connected (p : EdgeId * HyperEdge.t),
                 if bool_decide (id ∈ HyperEdge.connected_nodes p.2)
                 then foldl (λ connected node_id,
                               if bool_decide (node_id ≠ id)
                               then {[node_id]} ∪ connected else connected)
                            connected (elements (HyperEdge.connected_nodes p.2))
                 else connected) acc l
    ↔ n ∈ acc ∨ (n ≠ id ∧ ∃ p, p ∈ l ∧ id ∈ HyperEdge.connected_nodes p.2 ∧
                                 n ∈ HyperEdge.connected_nodes p.2)) as Hfold.
  { induction l as [|p l IH]; intros acc; simpl.
    - set_solver.
    - rewrite IH. case_bool_decide as Hin.
      + rewrite foldl_connected_members, elem_of_elements. split.
        * intros [[?|[? ?]]|(? & q & ? & ? & ?)]; [by left|right..].
          -- split; [done|]. exists p. set_solver.
          -- split; [done|]. exists q. set_solver.
        * intros [?|(? & q & [->|?]%elem_of_cons & ? & ?)]; [by left; left| |].
          -- left; right. done.
          -- right. split; [done|]. by exists q.
      + split.
        * intros [?|(? & q & ? & ? & ?)]; [by left|right].
          split; [done|]. exists q. set_solver.
        * intros [?|(? & q & [->|?]%elem_of_cons & ? & ?)]; [by left|done|].
          right. split; [done|]. by exists q. }
  rewrite Hfold. split.
  - intros [?|(Hne & [edge_id edge] & Hp%elem_of_map_to_list & ? & ?)]; [set_solver|].
    split; [done|]. by exists edge_id, edge.
  - intros (Hne & edge_id & edge & Hedge & ? & ?). right. split; [done|].
    exists (edge_id, edge). by rewrite elem_of_map_to_list.
Qed.

Lemma get_connected_nodes_returns id (s : substrate) :
  unlocked s →
  get_connected_nodes id s =
    Returns (merge_sort string_le (elements (connected_set id (edges_ s)))) s.
Proof.
  intros Hs. unfold get_connected_nodes, connected_nodes_body.
  by apply (lock_guard_read
    (λ s, merge_sort string_le (elements (connected_set id (edges_ s))))).
Qed.

Lemma get_connected_nodes_spec id (s : substrate) :
  unlocked s →
  ∃ connected,
    get_connected_nodes id s = Returns connected s ∧
    StronglySorted string_le connected ∧
    NoDup connected ∧
    ∀ n, n ∈ connected ↔ co_member (edges_ s) id n.
Proof.
  intros Hs. eexists. split; [by apply get_connected_nodes_returns|].
  split_and!.
  - apply (StronglySorted_merge_sort _).
  - rewrite merge_sort_Permutation. apply NoDup_elements.
  - intros n. rewrite merge_sort_Permutation, elem_of_elements.
    apply elem_of_connected_set.
Qed.

Lemma get_incident_edges_returns id (s : substrate) :
  unlocked s → get_incident_edges id s = Returns (edges_to_remove id s) s.
Proof.
  intros Hs. unfold get_incident_edges.
  by apply (lock_guard_read (edges_to_remove id)).
Qed.

Lemma get_neighbors_via_edge_returns edge_id (s : substrate) :
  unlocked s →
  get_neighbors_via_edge edge_id s =
    Returns (match edges_ s !! edge_id with
             | Some edge => elements (HyperEdge.connected_nodes edge)
             | None => []
             end) s.
Proof.
  intros Hs. unfold get_neighbors_via_edge.
  by apply (lock_guard_read
    (λ s, match edges_ s !! edge_id with
          | Some edge => elements (HyperEdge.connected_nodes edge)
          | None => []
          end)).
Qed.

(** The keys a range-for over a table pushes when it keeps the entries
    that satisfy [P]. *)
Lemma elem_of_filter_keys {V} (P : string * V → Prop) `{!∀ p, Decision (P p)}
    (m : gmap string V) k :
  k ∈ (filter P (map_to_list m)).*1 ↔ ∃ v, m !! k = Some v ∧ P (k, v).
Proof.
  rewrite list_elem_of_fmap. split.
  - intros ([k' v] & -> & [HP Hin%elem_of_map_to_list]%list_elem_of_filter). eauto.
  - intros (v & Hk & HP). exists (k, v). split; [done|].
    apply list_elem_of_filter. by rewrite elem_of_map_to_list.
Qed.

Lemma NoDup_filter_keys {V} (P : string * V → Prop) `{!∀ p, Decision (P p)}
    (m : gmap string V) :
  NoDup (filter P (map_to_list m)).*1.
Proof.
  eapply NoDup_fmap_fst.
  - intros k x y [_ Hx%elem_of_map_to_list]%list_elem_of_filter
                 [_ Hy%elem_of_map_to_list]%list_elem_of_filter.
    congruence.
  - apply NoDup_filter, NoDup_map_to_list.
Qed.

Lemma foldl_push_attribute {V} (attributes : V → gmap string string)
    (key value : string) (l : list (string * V)) (acc : list string) :
  foldl (λ matches (p : string * V),
           match attributes p.2 !! key with
           | Some found =>
               if bool_decide (found = value) then matches ++ [p.1] else matches
           | None => matches
           end) acc l
  = acc ++ (filter (λ p : string * V, attributes p.2 !! key = Some value) l).*1.
Proof.
  revert acc. induction l as [|p l IH]; intros acc; simpl.
  - by rewrite app_nil_r.
  - rewrite IH. rewrite filter_cons.
    destruct (attributes p.2 !! key) as [found|] eqn:Hfound.
    + case_bool_decide as Heq.
      * subst. rewrite decide_True by done. simpl. by rewrite <- app_assoc.
      * rewrite decide_False by congruence. done.
    + rewrite decide_False by done. done.
Qed.

Lemma find_nodes_by_attribute_returns key value (s : substrate) :
  unlocked s →
  find_nodes_by_attribute key value s =
    Returns (filter (λ p : NodeId * HyperNode.t,
                       HyperNode.attributes p.2 !! key = Some value)
                    (map_to_list (nodes_ s))).*1 s.
Proof.
  intros Hs. unfold find_nodes_by_attribute.
  rewrite (lock_guard_read
    (λ s, foldl (λ matches (p : NodeId * HyperNode.t),
                   match HyperNode.attributes p.2 !! key with
                   | Some found =>
                       if bool_decide (found = value) then matches ++ [p.1]
                       else matches
                   | None => matches
                   end) [] (map_to_list (nodes_ s)))) by done.
  by rewrite foldl_push_attribute.
Qed.

Lemma find_edges_by_attribute_returns key value (s : substrate) :
  unlocked s →
  find_edges_by_attribute key value s =
    Returns (filter (λ p : EdgeId * HyperEdge.t,
                       HyperEdge.attributes p.2 !! key = Some value)
                    (map_to_list (edges_ s))).*1 s.
Proof.
  intros Hs. unfold find_edges_by_attribute.
  rewrite (lock_guard_read
    (λ s, foldl (λ matches (p : EdgeId * HyperEdge.t),
                   match HyperEdge.attributes p.2 !! key with
                   | Some found =>
                       if bool_decide (found = value) then matches ++ [p.1]
                       else matches
                   | None => matches
                   end) [] (map_to_list (edges_ s)))) by done.
  by rewrite foldl_push_attribute.
Qed.

Lemma scan_echo_patterns_push node_id patterns pattern matches :
  scan_echo_patterns node_id patterns pattern matches =
  if bool_decide (pattern ∈ patterns) then matches ++ [node_id] else matches.
Proof.
  induction patterns as [|p patterns IH]; cbn [scan_echo_patterns].
  - by rewrite bool_decide_eq_false_2 by apply not_elem_of_nil.
  - destruct (decide (p = pattern)) as [->|Hne].
    + rewrite (bool_decide_eq_true_2 (pattern = pattern)) by done.
      by rewrite bool_decide_eq_true_2 by apply list_elem_of_here.
    + rewrite (bool_decide_eq_false_2 (p = pattern)) by done.
      rewrite IH.
      rewrite (bool_decide_ext (pattern ∈ patterns) (pattern ∈ p :: patterns));
        [done|].
      rewrite elem_of_cons. naive_solver.
Qed.

Lemma foldl_scan_echo_patterns pattern (l : list (NodeId * HyperNode.t)) acc :
  foldl (λ matches (p : NodeId * HyperNode.t),
           scan_echo_patterns p.1
             (echo_patterns (HyperNode.echo_signature p.2)) pattern matches)
        acc l
  = acc ++ (filter (λ p : NodeId * HyperNode.t,
                      pattern ∈ echo_patterns (HyperNode.echo_signature p.2)) l).*1.
Proof.
  revert acc. induction l as [|p l IH]; intros acc; simpl.
  - by rewrite app_nil_r.
  - rewrite IH, scan_echo_patterns_push, filter_cons.
    case_bool_decide.
    + rewrite decide_True by done. simpl. by rewrite <- app_assoc.
    + by rewrite decide_False by done.
Qed.

Lemma find_nodes_by_echo_pattern_returns pattern (s : substrate) :
  unlocked s →
  find_nodes_by_echo_pattern pattern s =
    Returns (filter (λ p : NodeId * HyperNode.t,
                       pattern ∈ echo_patterns (HyperNode.echo_signature p.2))
                    (map_to_list (nodes_ s))).*1 s.
Proof.
  intros Hs. unfold find_nodes_by_echo_pattern.
  rewrite (lock_guard_read
    (λ s, foldl (λ matches (p : NodeId * HyperNode.t),
                   scan_echo_patterns p.1
                     (echo_patterns (HyperNode.echo_signature p.2)) pattern matches)
                [] (map_to_list (nodes_ s)))) by done.
  by rewrite foldl_scan_echo_patterns.
Qed.

End QueryTheory.

(** * Queries *)

(** [get_connected_nodes] (HypergraphSubstrate.cpp, 237-252).  On an
    unlocked substrate the call returns, leaves the substrate as it was,
    and its vector lists, in ascending order and each once, exactly the
    ids other than [id] that share a stored edge with [id]. *)
Theorem get_connected_nodes_ascending_co_members
    (X : Type) (I : SubstratePersistence.Interface X)
    (s : @HypergraphSubstrate.t X) (id : NodeId) :
  unlocked s →
  ∃ connected,
    HypergraphSubstrate.get_connected_nodes id s = Returns connected s ∧
    StronglySorted string_le connected ∧
    NoDup connected ∧
    ∀ n, n ∈ connected ↔ co_member (HypergraphSubstrate.edges_ s) id n.
Proof. apply get_connected_nodes_spec. Qed.

Lemma get_connected_nodes_ascending_co_members_witness :
  ∃ connected,
    HypergraphSubstrate.get_connected_nodes "node1" three_edges
      = Returns connected three_edges ∧
    StronglySorted string_le connected ∧
    NoDup connected ∧
    ∀ n, n ∈ connected ↔
         co_member (HypergraphSubstrate.edges_ three_edges) "node1" n.
Proof.
  exact (get_connected_nodes_ascending_co_members Empty_set _ three_edges
           "node1" eq_refl).
Defined.

(** [get_incident_edges] and [get_neighbors_via_edge]
    (HypergraphSubstrate.cpp, 254-274).  On an unlocked substrate both
    return and leave it as it was.  The first lists, each once, the ids of
    the stored edges that have [id] as a member; the second lists, each
    once, the members of the edge stored under [edge_id] (all of them: no
    member is left out as "the" node) and nothing when no such edge is
    stored.  The two agree: [edge_id] is incident to [id] exactly when
    [id] is among the neighbours via [edge_id]. *)
Theorem incidence_queries_agree
    (X : Type) (I : SubstratePersistence.Interface X)
    (s : @HypergraphSubstrate.t X) (id : NodeId) (edge_id : EdgeId) :
  unlocked s →
  ∃ incident neighbors,
    HypergraphSubstrate.get_incident_edges id s = Returns incident s ∧
    HypergraphSubstrate.get_neighbors_via_edge edge_id s = Returns neighbors s ∧
    NoDup incident ∧ NoDup neighbors ∧
    (∀ e, e ∈ incident ↔
          ∃ edge, HypergraphSubstrate.edges_ s !! e = Some edge ∧
                  id ∈ HyperEdge.connected_nodes edge) ∧
    (∀ n, n ∈ neighbors ↔
          ∃ edge, HypergraphSubstrate.edges_ s !! edge_id = Some edge ∧
                  n ∈ HyperEdge.connected_nodes edge) ∧
    (edge_id ∈ incident ↔ id ∈ neighbors).
Proof.
  intros Hs.
  assert (∀ n, n ∈ match HypergraphSubstrate.edges_ s !! edge_id with
                   | Some edge => elements (HyperEdge.connected_nodes edge)
                   | None => []
                   end ↔
               ∃ edge, HypergraphSubstrate.edges_ s !! edge_id = Some edge ∧
                       n ∈ HyperEdge.connected_nodes edge) as Hneighbors.
  { intros n. destruct (HypergraphSubstrate.edges_ s !! edge_id) as [edge|].
    - rewrite elem_of_elements. naive_solver.
    - rewrite elem_of_nil. naive_solver. }
  eexists _, _.
  split; [by apply get_incident_edges_returns|].
  split; [by apply get_neighbors_via_edge_returns|].
  split_and!.
  - apply NoDup_edges_to_remove.
  - destruct (HypergraphSubstrate.edges_ s !! edge_id);
      [apply NoDup_elements|apply NoDup_nil_2].
  - intros e. apply elem_of_edges_to_remove.
  - done.
  - by rewrite elem_of_edges_to_remove, Hneighbors.
Qed.

Lemma incidence_queries_agree_witness :
  ∃ incident neighbors,
    HypergraphSubstrate.get_incident_edges "node1" three_edges
      = Returns incident three_edges ∧
    HypergraphSubstrate.get_neighbors_via_edge "edge2" three_edges
      = Returns neighbors three_edges ∧
    "edge2" ∈ incident ∧ "node1" ∈ neighbors.
Proof.
  destruct (incidence_queries_agree Empty_set _ three_edges "node1" "edge2"
              eq_refl)
    as (incident & neighbors & Hi & Hn & _ & _ & _ & Hneighbors & Hagree).
  exists incident, neighbors. split; [exact Hi|]. split; [exact Hn|].
  assert ("node1" ∈ neighbors) as Hin.
  { apply Hneighbors. eexists. split; [vm_compute; reflexivity|].
    vm_compute. reflexivity. }
  split; [apply Hagree, Hin|exact Hin].
Defined.

(** [find_nodes_by_attribute] (HypergraphSubstrate.cpp, 276-287).  On an
    unlocked substrate the call returns, leaves the substrate as it was,
    and lists, each once, exactly the keys of the node table whose node
    has the attribute [key] with a value equal to [value]. *)
Theorem find_nodes_by_attribute_exact
    (X : Type) (I : SubstratePersistence.Interface X)
    (s : @HypergraphSubstrate.t X) (key value : string) :
  unlocked s →
  ∃ matches,
    HypergraphSubstrate.find_nodes_by_attribute key value s = Returns matches s ∧
    NoDup matches ∧
    ∀ n, n ∈ matches ↔
         ∃ node, HypergraphSubstrate.nodes_ s !! n = Some node ∧
                 HyperNode.attributes node !! key = Some value.
Proof.
  intros Hs. eexists. split; [by apply find_nodes_by_attribute_returns|].
  split; [apply NoDup_filter_keys|]. intros n. apply elem_of_filter_keys.
Qed.

Lemma find_nodes_by_attribute_exact_witness :
  ∃ matches,
    HypergraphSubstrate.find_nodes_by_attribute "key" "value" populated
      = Returns matches populated ∧
    "node1" ∈ matches.
Proof.
  destruct (find_nodes_by_attribute_exact Empty_set _ populated "key" "value"
              eq_refl) as (matches & Hrun & _ & Hin).
  exists matches. split; [exact Hrun|].
  apply Hin. exists persistent_node. split; vm_compute; reflexivity.
Defined.

(** [find_edges_by_attribute] (HypergraphSubstrate.cpp, 289-300): the same
    for the edge table. *)
Theorem find_edges_by_attribute_exact
    (X : Type) (I : SubstratePersistence.Interface X)
    (s : @HypergraphSubstrate.t X) (key value : string) :
  unlocked s →
  ∃ matches,
    HypergraphSubstrate.find_edges_by_attribute key value s = Returns matches s ∧
    NoDup matches ∧
    ∀ e, e ∈ matches ↔
         ∃ edge, HypergraphSubstrate.edges_ s !! e = Some edge ∧
                 HyperEdge.attributes edge !! key = Some value.
Proof.
  intros Hs. eexists. split; [by apply find_edges_by_attribute_returns|].
  split; [apply NoDup_filter_keys|]. intros n. apply elem_of_filter_keys.
Qed.

Lemma find_edges_by_attribute_exact_witness :
  ∃ matches,
    HypergraphSubstrate.find_edges_by_attribute "type" "similarity" three_edges
      = Returns matches three_edges ∧
    NoDup matches ∧
    ∀ e, e ∈ matches ↔
         ∃ edge, HypergraphSubstrate.edges_ three_edges !! e = Some edge ∧
                 HyperEdge.attributes edge !! "type" = Some "similarity"%string.
Proof.
  exact (find_edges_by_attribute_exact Empty_set _ three_edges
           "type" "similarity" eq_refl).
Defined.

(** [find_nodes_by_echo_pattern] (HypergraphSubstrate.cpp, 302-315).  On
    an unlocked substrate the call returns, leaves the substrate as it
    was, and lists exactly the keys of the node table whose node has an
    echo pattern equal to [pattern] (equal, not containing it), each once
    even when the node lists the pattern more than once. *)
Theorem find_nodes_by_echo_pattern_exact
    (X : Type) (I : SubstratePersistence.Interface X)
    (s : @HypergraphSubstrate.t X) (pattern : string) :
  unlocked s →
  ∃ matches,
    HypergraphSubstrate.find_nodes_by_echo_pattern pattern s = Returns matches s ∧
    NoDup matches ∧
    ∀ n, n ∈ matches ↔
         ∃ node, HypergraphSubstrate.nodes_ s !! n = Some node ∧
                 pattern ∈ echo_patterns (HyperNode.echo_signature node).
Proof.
  intros Hs. eexists. split; [by apply find_nodes_by_echo_pattern_returns|].
  split; [apply NoDup_filter_keys|]. intros n. apply elem_of_filter_keys.
Qed.

Lemma find_nodes_by_echo_pattern_exact_witness :
  ∃ matches,
    HypergraphSubstrate.find_nodes_by_echo_pattern "pattern" echo_nodes
      = Returns matches echo_nodes ∧
    "node1" ∈ matches ∧ "node3" ∈ matches ∧ "node2" ∉ matches.
Proof.
  destruct (find_nodes_by_echo_pattern_exact Empty_set _ echo_nodes "pattern"
              eq_refl) as (matches & Hrun & _ & Hin).
  exists matches. split; [exact Hrun|]. split_and!.
  - apply Hin. eexists. split; [vm_compute; reflexivity|].
    apply list_elem_of_further, list_elem_of_here.
  - apply Hin. eexists. split; [vm_compute; reflexivity|].
    apply list_elem_of_further, list_elem_of_here.
  - intros Hmatch. apply Hin in Hmatch as (node & Hnode & Hpattern).
    vm_compute in Hnode. injection Hnode as <-.
    cbn [echo_patterns HyperNode.echo_signature] in Hpattern.
    apply elem_of_cons in Hpattern as [Heq|Hpattern]; [discriminate|].
    apply elem_of_cons in Hpattern as [Heq|Hpattern]; [discriminate|].
    by apply elem_of_nil in Hpattern.
Defined.

Section AccessTheory.
Context {X : Type} `{!SubstratePersistence.Interface X}.
Import HypergraphSubstrate.
Abbreviation substrate := (@HypergraphSubstrate.t X).

Lemma get_node_returns id (s : substrate) :
  unlocked s → get_node id s = Returns (nodes_ s !! id) s.
Proof. intros. by apply (lock_guard_read (λ s, nodes_ s !! id)). Qed.

Lemma node_exists_returns id (s : substrate) :
  unlocked s →
  node_exists id s = Returns (bool_decide (is_Some (nodes_ s !! id))) s.
Proof.
  intros. by apply (lock_guard_read (λ s, bool_decide (is_Some (nodes_ s !! id)))).
Qed.

Lemma get_edge_returns id (s : substrate) :
  unlocked s → get_edge id s = Returns (edges_ s !! id) s.
Proof. intros. by apply (lock_guard_read (λ s, edges_ s !! id)). Qed.

Lemma edge_exists_returns id (s : substrate) :
  unlocked s →
  edge_exists id s = Returns (bool_decide (is_Some (edges_ s !! id))) s.
Proof.
  intros. by apply (lock_guard_read (λ s, bool_decide (is_Some (edges_ s !! id)))).
Qed.

Lemma node_count_returns (s : substrate) :
  unlocked s → node_count s = Returns (size (nodes_ s)) s.
Proof. intros. by apply (lock_guard_read (λ s, size (nodes_ s))). Qed.

Lemma edge_count_returns (s : substrate) :
  unlocked s → edge_count s = Returns (size (edges_ s)) s.
Proof. intros. by apply (lock_guard_read (λ s, size (edges_ s))). Qed.

Lemma get_node_activation_returns id (s : substrate) :
  unlocked s →
  get_node_activation id s =
    Returns (match nodes_ s !! id with
             | Some node => HyperNode.activation_level node
             | None => 0%float
             end) s.
Proof.
  intros.
  by apply (lock_guard_read
    (λ s, match nodes_ s !! id with
          | Some node => HyperNode.activation_level node
          | None => 0%float
          end)).
Qed.

Lemma update_node_activation_spec id a (s : substrate) :
  unlocked s →
  update_node_activation id a s =
    Returns ()
      (match nodes_ s !! id with
       | Some node =>
           with_nodes
             (<[id := HyperNode.set_activation_level a node]> (nodes_ s)) s
       | None => s
       end).
Proof.
  intros Hs. unfold update_node_activation.
  rewrite lock_guard_unlocked by done. fields.
  destruct (nodes_ s !! id) as [node|]; f_equal.
  - destruct s. unfold unlocked in Hs. simpl in *. by subst.
  - by apply with_mutex_unlocked.
Qed.

(** No stored edge mentions [id]. *)
Lemma edges_to_remove_nil id (s : substrate) :
  (∀ edge_id edge, edges_ s !! edge_id = Some edge →
                   id ∉ HyperEdge.connected_nodes edge) →
  edges_to_remove id s = [].
Proof.
  intros Hnone. destruct (edges_to_remove id s) as [|e l] eqn:Hl; [done|].
  assert (e ∈ edges_to_remove id s) as Hin by (rewrite Hl; left).
  apply elem_of_edges_to_remove in Hin as (edge & Hedge & Hid).
  by destruct (Hnone e edge Hedge).
Qed.

Lemma connected_set_empty id (edges : gmap EdgeId HyperEdge.t) :
  (∀ edge_id edge, edges !! edge_id = Some edge →
                   id ∉ HyperEdge.connected_nodes edge) →
  connected_set id edges = ∅.
Proof.
  intros Hnone. apply set_eq. intros n.
  rewrite elem_of_connected_set. split; [|set_solver].
  intros (_ & edge_id & edge & Hedge & Hid & _).
  by destruct (Hnone edge_id edge Hedge).
Qed.

End AccessTheory.

(** * Node and edge management *)

(** [add_node] with [get_node] and [node_count]
    (HypergraphSubstrate.cpp, 118-128, 166-175, 360-363).  On an unlocked
    substrate, a node whose id is not stored is stored under its id:
    [get_node] then returns it, the node count is one more, every other
    node and the edge table are as before.  A node whose id is stored is
    refused with [false]; the substrate, and with it the node stored
    first, stays as it was. *)
Theorem add_node_inserts_if_absent
    (X : Type) (I : SubstratePersistence.Interface X)
    (s : @HypergraphSubstrate.t X) (node : HyperNode.t) :
  unlocked s →
  (HypergraphSubstrate.nodes_ s !! HyperNode.id node = None →
   ∃ s',
     HypergraphSubstrate.add_node node s = Returns true s' ∧
     unlocked s' ∧
     HypergraphSubstrate.get_node (HyperNode.id node) s' = Returns (Some node) s' ∧
     HypergraphSubstrate.node_count s'
       = Returns (S (size (HypergraphSubstrate.nodes_ s))) s' ∧
     (∀ other, other ≠ HyperNode.id node →
        HypergraphSubstrate.nodes_ s' !! other
        = HypergraphSubstrate.nodes_ s !! other) ∧
     HypergraphSubstrate.edges_ s' = HypergraphSubstrate.edges_ s) ∧
  (∀ stored,
     HypergraphSubstrate.nodes_ s !! HyperNode.id node = Some stored →
     HypergraphSubstrate.add_node node s = Returns false s ∧
     HypergraphSubstrate.get_node (HyperNode.id node) s = Returns (Some stored) s).
Proof.
  intros Hs. split.
  - intros Hnew. rewrite add_node_spec, Hnew by done.
    eexists. split; [done|].
    assert (unlocked
      (HypergraphSubstrate.persist (SubstratePersistence.save_node node)
         (HypergraphSubstrate.with_nodes
            (<[HyperNode.id node := node]> (HypergraphSubstrate.nodes_ s)) s)))
      as Hs' by done.
    split_and!; [done| | | |done].
    + rewrite get_node_returns by done. fields. by rewrite lookup_insert_eq.
    + rewrite node_count_returns by done. fields.
      by rewrite map_size_insert_None.
    + intros other Hother. fields. by rewrite lookup_insert_ne.
  - intros stored Hstored. rewrite add_node_spec, Hstored by done.
    split; [done|]. by rewrite get_node_returns, Hstored.
Qed.

Lemma add_node_inserts_if_absent_witness :
  HypergraphSubstrate.add_node (HyperNode.make "node1" "Another Node") three_edges
  = Returns false three_edges ∧
  HypergraphSubstrate.get_node "node1" three_edges
  = Returns (Some (HyperNode.make "node1" "First Node")) three_edges.
Proof.
  refine (proj2 (add_node_inserts_if_absent Empty_set _ three_edges
                   (HyperNode.make "node1" "Another Node") eq_refl) _ _).
  vm_compute. reflexivity.
Defined.

(** [update_node] with [get_node] and [get_node_activation]
    (HypergraphSubstrate.cpp, 153-164, 166-175, 353-358).  On an unlocked
    substrate, a node whose id is stored replaces the stored node whole,
    its activation level included; the node count, every other node and
    the edge table are as before.  A node whose id is not stored is
    refused with [false] and nothing is stored. *)
Theorem update_node_replaces_if_present
    (X : Type) (I : SubstratePersistence.Interface X)
    (s : @HypergraphSubstrate.t X) (node : HyperNode.t) :
  unlocked s →
  (is_Some (HypergraphSubstrate.nodes_ s !! HyperNode.id node) →
   ∃ s',
     HypergraphSubstrate.update_node node s = Returns true s' ∧
     unlocked s' ∧
     HypergraphSubstrate.get_node (HyperNode.id node) s' = Returns (Some node) s' ∧
     HypergraphSubstrate.get_node_activation (HyperNode.id node) s'
       = Returns (HyperNode.activation_level node) s' ∧
     HypergraphSubstrate.node_count s'
       = Returns (size (HypergraphSubstrate.nodes_ s)) s' ∧
     (∀ other, other ≠ HyperNode.id node →
        HypergraphSubstrate.nodes_ s' !! other
        = HypergraphSubstrate.nodes_ s !! other) ∧
     HypergraphSubstrate.edges_ s' = HypergraphSubstrate.edges_ s) ∧
  (HypergraphSubstrate.nodes_ s !! HyperNode.id node = None →
   HypergraphSubstrate.update_node node s = Returns false s).
Proof.
  intros Hs. split.
  - intros [stored Hstored]. rewrite update_node_spec, Hstored by done.
    eexists. split; [done|].
    assert (unlocked
      (HypergraphSubstrate.persist (SubstratePersistence.save_node node)
         (HypergraphSubstrate.with_nodes
            (<[HyperNode.id node := node]> (HypergraphSubstrate.nodes_ s)) s)))
      as Hs' by done.
    split_and!; [done| | | | |done].
    + rewrite get_node_returns by done. fields. by rewrite lookup_insert_eq.
    + rewrite get_node_activation_returns by done. fields.
      by rewrite lookup_insert_eq.
    + rewrite node_count_returns by done. fields.
      by rewrite map_size_insert_Some.
    + intros other Hother. fields. by rewrite lookup_insert_ne.
  - intros Hnone. by rewrite update_node_spec, Hnone.
Qed.

Lemma update_node_replaces_if_present_witness :
  ∃ s',
    HypergraphSubstrate.update_node (HyperNode.make "node1" "Renamed") three_edges
      = Returns true s' ∧
    HypergraphSubstrate.get_node "node1" s'
      = Returns (Some (HyperNode.make "node1" "Renamed")) s'.
Proof.
  destruct (proj1 (update_node_replaces_if_present Empty_set _ three_edges
                     (HyperNode.make "node1" "Renamed") eq_refl))
    as (s' & Hrun & _ & Hget & _).
  - vm_compute. eauto.
  - exists s'. split; [exact Hrun|exact Hget].
Defined.

(** [add_edge], [get_edge], [edge_count], [remove_edge] and [edge_exists]
    (HypergraphSubstrate.cpp, 182-205, 221-235, 365-368).  On an unlocked
    substrate, an edge with a new id whose members are all stored is
    stored under its id: [get_edge] returns it and the edge count is one
    more.  Removing it again returns [true] and leaves the edge table and
    the node table exactly as they were before the edge was added.
    [remove_edge] of an id that is not stored returns [false] and changes
    nothing. *)
Theorem add_edge_remove_edge_restores
    (X : Type) (I : SubstratePersistence.Interface X)
    (s : @HypergraphSubstrate.t X) (edge : HyperEdge.t) :
  unlocked s →
  HypergraphSubstrate.edges_ s !! HyperEdge.id edge = None →
  (members_exist edge s →
   ∃ s1 s2,
     HypergraphSubstrate.add_edge edge s = Returns true s1 ∧
     HypergraphSubstrate.get_edge (HyperEdge.id edge) s1 = Returns (Some edge) s1 ∧
     HypergraphSubstrate.edge_count s1
       = Returns (S (size (HypergraphSubstrate.edges_ s))) s1 ∧
     HypergraphSubstrate.remove_edge (HyperEdge.id edge) s1 = Returns true s2 ∧
     HypergraphSubstrate.edge_exists (HyperEdge.id edge) s2 = Returns false s2 ∧
     HypergraphSubstrate.edges_ s2 = HypergraphSubstrate.edges_ s ∧
     HypergraphSubstrate.nodes_ s2 = HypergraphSubstrate.nodes_ s) ∧
  HypergraphSubstrate.remove_edge (HyperEdge.id edge) s = Returns false s.
Proof.
  intros Hs Hnew. split.
  - intros Hmembers. rewrite add_edge_valid by done.
    set (s1 := HypergraphSubstrate.persist (SubstratePersistence.save_edge edge)
                 (HypergraphSubstrate.with_edges
                    (<[HyperEdge.id edge := edge]> (HypergraphSubstrate.edges_ s)) s)).
    assert (unlocked s1) as Hs1 by done.
    assert (HypergraphSubstrate.edges_ s1 !! HyperEdge.id edge = Some edge) as Hstored.
    { subst s1. fields. by rewrite lookup_insert_eq. }
    eexists s1, _. split; [done|].
    rewrite get_edge_returns, edge_count_returns, remove_edge_spec, Hstored by done.
    split; [done|]. split.
    { subst s1. fields. by rewrite map_size_insert_None. }
    split; [done|].
    rewrite edge_exists_returns by done. subst s1. fields.
    rewrite lookup_delete_eq, delete_insert_eq, delete_id by done.
    rewrite bool_decide_eq_false_2 by (by intros [? ?]). done.
  - by rewrite remove_edge_spec, Hnew.
Qed.

Lemma add_edge_remove_edge_restores_witness :
  ∃ s1 s2,
    HypergraphSubstrate.add_edge
      (HyperEdge.make "edge4" {["node1"; "node2"; "node3"]}) three_edges
      = Returns true s1 ∧
    HypergraphSubstrate.remove_edge "edge4" s1 = Returns true s2 ∧
    HypergraphSubstrate.edges_ s2 = HypergraphSubstrate.edges_ three_edges.
Proof.
  destruct (proj1 (add_edge_remove_edge_restores Empty_set _ three_edges
                     (HyperEdge.make "edge4" {["node1"; "node2"; "node3"]})
                     eq_refl eq_refl))
    as (s1 & s2 & Hadd & _ & _ & Hremove & _ & Hedges & _).
  - intros n Hn. cbn [HyperEdge.connected_nodes HyperEdge.make] in Hn.
    apply elem_of_union in Hn as [Hn|Hn];
      [apply elem_of_union in Hn as [Hn|Hn]|];
      apply elem_of_singleton in Hn; subst n; vm_compute; eauto.
  - exists s1, s2. split; [exact Hadd|]. split; [exact Hremove|exact Hedges].
Defined.

(** [add_node] then [remove_node] (HypergraphSubstrate.cpp, 118-151).  On
    an unlocked substrate with referential integrity, adding a node with
    a new id and removing that id again returns [true] twice and leaves
    both tables exactly as they were: the cascade finds no edge to
    remove. *)
Theorem add_node_remove_node_restores
    (X : Type) (I : SubstratePersistence.Interface X)
    (s : @HypergraphSubstrate.t X) (node : HyperNode.t) :
  unlocked s → referential_integrity s →
  HypergraphSubstrate.nodes_ s !! HyperNode.id node = None →
  ∃ s1 s2,
    HypergraphSubstrate.add_node node s = Returns true s1 ∧
    HypergraphSubstrate.remove_node (HyperNode.id node) s1 = Returns true s2 ∧
    HypergraphSubstrate.nodes_ s2 = HypergraphSubstrate.nodes_ s ∧
    HypergraphSubstrate.edges_ s2 = HypergraphSubstrate.edges_ s.
Proof.
  intros Hs HRI Hnew. rewrite add_node_spec, Hnew by done.
  set (s1 := HypergraphSubstrate.persist (SubstratePersistence.save_node node)
               (HypergraphSubstrate.with_nodes
                  (<[HyperNode.id node := node]> (HypergraphSubstrate.nodes_ s)) s)).
  assert (unlocked s1) as Hs1 by done.
  destruct (remove_node_spec (HyperNode.id node) s1 Hs1)
    as (s2 & Hrun & _ & Hnodes & Hedges & _).
  exists s1, s2. split; [done|].
  assert (HypergraphSubstrate.edges_to_remove (HyperNode.id node) s1 = []) as Hnil.
  { apply edges_to_remove_nil. intros edge_id edge Hedge Hin.
    destruct (HRI edge_id edge (HyperNode.id node) Hedge Hin) as [? Hsome].
    congruence. }
  split_and!.
  - rewrite Hrun. f_equal. apply bool_decide_eq_true_2.
    subst s1. fields. rewrite lookup_insert_eq. eauto.
  - rewrite Hnodes. subst s1. fields.
    by rewrite delete_insert_eq, delete_id.
  - apply map_eq. intros edge_id. rewrite Hedges, Hnil.
    by rewrite decide_False by apply not_elem_of_nil.
Qed.

Lemma add_node_remove_node_restores_witness :
  ∃ s1 s2,
    HypergraphSubstrate.add_node (HyperNode.make "node9" "Passing") three_edges
      = Returns true s1 ∧
    HypergraphSubstrate.remove_node "node9" s1 = Returns true s2 ∧
    HypergraphSubstrate.nodes_ s2 = HypergraphSubstrate.nodes_ three_edges ∧
    HypergraphSubstrate.edges_ s2 = HypergraphSubstrate.edges_ three_edges.
Proof.
  apply (add_node_remove_node_restores Empty_set _ three_edges
           (HyperNode.make "node9" "Passing") eq_refl).
  - apply (reachable_state_invariant three_edges).
    change three_edges
      with (run_operations
              [Add_node (HyperNode.make "node1" "First Node");
               Add_node (HyperNode.make "node2" "Second Node");
               Add_node (HyperNode.make "node3" "Third Node");
               Add_edge (HyperEdge.make "edge1" {["node1"; "node2"]});
               Add_edge (HyperEdge.make "edge2" {["node1"; "node3"]});
               Add_edge (HyperEdge.make "edge3" {["node2"; "node3"]})]
              fresh_substrate).
    apply reachable_state_run, reachable_new.
  - vm_compute. reflexivity.
Defined.

(** [remove_node] with the queries (HypergraphSubstrate.cpp, 130-151,
    177-180, 237-264).  On an unlocked substrate [remove_node id] returns,
    [true] exactly when [id] was a key of the node table, and afterwards
    nothing mentions [id]: [node_exists], [get_incident_edges] and
    [get_connected_nodes] answer [false], no edge and no node.  The other
    nodes are untouched.  On a substrate with referential integrity,
    removing an id that is no key changes nothing at all. *)
Theorem remove_node_isolates
    (X : Type) (I : SubstratePersistence.Interface X)
    (s : @HypergraphSubstrate.t X) (id : NodeId) :
  unlocked s →
  ∃ s',
    HypergraphSubstrate.remove_node id s
      = Returns (bool_decide (is_Some (HypergraphSubstrate.nodes_ s !! id))) s' ∧
    HypergraphSubstrate.node_exists id s' = Returns false s' ∧
    HypergraphSubstrate.get_incident_edges id s' = Returns [] s' ∧
    HypergraphSubstrate.get_connected_nodes id s' = Returns [] s' ∧
    (∀ other, other ≠ id →
       HypergraphSubstrate.nodes_ s' !! other
       = HypergraphSubstrate.nodes_ s !! other) ∧
    (referential_integrity s → HypergraphSubstrate.nodes_ s !! id = None →
     s' = s).
Proof.
  intros Hs.
  destruct (remove_node_spec id s Hs) as (s' & Hrun & Hs' & Hnodes & Hedges & Hp).
  exists s'. split; [done|].
  assert (∀ edge_id edge,
            HypergraphSubstrate.edges_ s' !! edge_id = Some edge →
            id ∉ HyperEdge.connected_nodes edge) as Hnone.
  { intros edge_id edge. rewrite Hedges. case_decide as Hrem; [done|].
    intros Hedge Hin. apply Hrem, elem_of_edges_to_remove. eauto. }
  split_and!.
  - rewrite node_exists_returns, Hnodes, lookup_delete_eq by done.
    by rewrite bool_decide_eq_false_2 by (by intros [? ?]).
  - by rewrite get_incident_edges_returns, edges_to_remove_nil.
  - by rewrite get_connected_nodes_returns, connected_set_empty, elements_empty.
  - intros other Hother. by rewrite Hnodes, lookup_delete_ne.
  - intros HRI Hnew.
    assert (HypergraphSubstrate.edges_to_remove id s = []) as Hnil.
    { apply edges_to_remove_nil. intros edge_id edge Hedge Hin.
      destruct (HRI edge_id edge id Hedge Hin) as [? Hsome]. congruence. }
    rewrite Hnil in Hp, Hedges. simpl in Hp.
    rewrite bool_decide_eq_false_2 in Hp by (rewrite Hnew; by intros [? ?]).
    rewrite delete_id in Hnodes by done.
    assert (HypergraphSubstrate.edges_ s' = HypergraphSubstrate.edges_ s) as He.
    { apply map_eq. intros edge_id. rewrite Hedges.
      by rewrite decide_False by apply not_elem_of_nil. }
    destruct s, s'. unfold unlocked in *. simpl in *. by subst.
Qed.

Lemma remove_node_isolates_witness :
  ∃ s',
    HypergraphSubstrate.remove_node "node1" three_edges = Returns true s' ∧
    HypergraphSubstrate.get_incident_edges "node1" s' = Returns [] s' ∧
    HypergraphSubstrate.get_connected_nodes "node1" s' = Returns [] s'.
Proof.
  destruct (remove_node_isolates Empty_set _ three_edges "node1" eq_refl)
    as (s' & Hrun & _ & Hi & Hc & _).
  exists s'. split; [exact Hrun|]. split; [exact Hi|exact Hc].
Defined.

(** [update_node_activation] with [get_node_activation] and [get_node]
    (HypergraphSubstrate.cpp, 344-358, 166-175).  On an unlocked
    substrate, for a stored node the activation written is the activation
    read back, the rest of the node, every other node, the edge table and
    the persistence strategy are untouched.  For an id that is not stored
    the update does nothing (no node is created) and the activation read
    is 0.0. *)
Theorem activation_round_trip
    (X : Type) (I : SubstratePersistence.Interface X)
    (s : @HypergraphSubstrate.t X) (id : NodeId) (activation : Weight) :
  unlocked s →
  (∀ node,
     HypergraphSubstrate.nodes_ s !! id = Some node →
     ∃ s',
       HypergraphSubstrate.update_node_activation id activation s = Returns () s' ∧
       unlocked s' ∧
       HypergraphSubstrate.get_node_activation id s' = Returns activation s' ∧
       HypergraphSubstrate.get_node id s'
         = Returns (Some (HyperNode.set_activation_level activation node)) s' ∧
       (∀ other, other ≠ id →
          HypergraphSubstrate.nodes_ s' !! other
          = HypergraphSubstrate.nodes_ s !! other) ∧
       HypergraphSubstrate.edges_ s' = HypergraphSubstrate.edges_ s ∧
       HypergraphSubstrate.persistence_ s' = HypergraphSubstrate.persistence_ s) ∧
  (HypergraphSubstrate.nodes_ s !! id = None →
   HypergraphSubstrate.update_node_activation id activation s = Returns () s ∧
   HypergraphSubstrate.get_node_activation id s = Returns 0%float s).
Proof.
  intros Hs. split.
  - intros node Hnode. rewrite update_node_activation_spec, Hnode by done.
    eexists. split; [done|].
    assert (unlocked
      (HypergraphSubstrate.with_nodes
         (<[id := HyperNode.set_activation_level activation node]>
            (HypergraphSubstrate.nodes_ s)) s)) as Hs' by done.
    split_and!; [done| | | |done|done].
    + rewrite get_node_activation_returns by done. fields.
      by rewrite lookup_insert_eq.
    + rewrite get_node_returns by done. fields. by rewrite lookup_insert_eq.
    + intros other Hother. fields. by rewrite lookup_insert_ne.
  - intros Hnone.
    by rewrite update_node_activation_spec, get_node_activation_returns, Hnone.
Qed.

Lemma activation_round_trip_witness :
  ∃ s',
    HypergraphSubstrate.update_node_activation "node4" 0.5 chain = Returns () s' ∧
    HypergraphSubstrate.get_node_activation "node4" s' = Returns 0.5%float s'.
Proof.
  destruct (proj1 (activation_round_trip Empty_set _ chain "node4" 0.5%float
                     eq_refl) (HyperNode.make "node4" "Distant Node"))
    as (s' & Hrun & _ & Hget & _).
  - vm_compute. reflexivity.
  - exists s'. split; [exact Hrun|exact Hget].
Defined.

Lemma reachable_state_keyed
    (X : Type) (I : SubstratePersistence.Interface X)
    (s : @HypergraphSubstrate.t X) :
  reachable_state s → keyed_by_id s.
Proof.
  unfold keyed_by_id. induction 1 as [persistence|s op s' Hreach [IHn IHe] Hstep].
  - split; intros id ?; cbn; by rewrite lookup_empty.
  - destruct (reachable_state_invariant s Hreach) as [Hs _].
    assert (∀ node,
      (∀ id n, HypergraphSubstrate.nodes_
                 (HypergraphSubstrate.persist (SubstratePersistence.save_node node)
                    (HypergraphSubstrate.with_nodes
                       (<[HyperNode.id node := node]> (HypergraphSubstrate.nodes_ s)) s))
               !! id = Some n → HyperNode.id n = id)) as Hnode.
    { intros node id n. fields. rewrite lookup_insert.
      case_decide; [naive_solver|apply IHn]. }
    assert (∀ edge,
      (∀ id e, HypergraphSubstrate.edges_
                 (HypergraphSubstrate.persist (SubstratePersistence.save_edge edge)
                    (HypergraphSubstrate.with_edges
                       (<[HyperEdge.id edge := edge]> (HypergraphSubstrate.edges_ s)) s))
               !! id = Some e → HyperEdge.id e = id)) as Hedge.
    { intros edge id e. fields. rewrite lookup_insert.
      case_decide; [naive_solver|apply IHe]. }
    destruct op as [node|node|id|edge|edge|id]; simpl in Hstep.
    + rewrite add_node_spec in Hstep by done.
      destruct (HypergraphSubstrate.nodes_ s !! HyperNode.id node);
        apply completes_Returns in Hstep; subst s'; [done|].
      split; [apply Hnode|done].
    + rewrite update_node_spec in Hstep by done.
      destruct (HypergraphSubstrate.nodes_ s !! HyperNode.id node);
        apply completes_Returns in Hstep; subst s'; [|done].
      split; [apply Hnode|done].
    + destruct (remove_node_spec id s Hs) as (s'' & Hrun & _ & Hn & He & _).
      rewrite Hrun in Hstep. apply completes_Returns in Hstep. subst s''.
      split.
      * intros k node. rewrite Hn. intros Hk%lookup_delete_Some. naive_solver.
      * intros k edge. rewrite He. case_decide; [done|apply IHe].
    + destruct (HypergraphSubstrate.edges_ s !! HyperEdge.id edge) as [stored|] eqn:Hid.
      * rewrite add_edge_duplicate in Hstep by eauto.
        apply completes_Returns in Hstep. by subst s'.
      * destruct (members_exist_or_missing edge s) as [Hall|Hmiss].
        -- rewrite add_edge_valid in Hstep by done.
           apply completes_Returns in Hstep. subst s'. split; [done|apply Hedge].
        -- destruct (add_edge_dangling edge s Hs Hid Hmiss) as (n & _ & _ & Hrun).
           rewrite Hrun in Hstep. apply completes_Throws in Hstep. by subst s'.
    + destruct (HypergraphSubstrate.edges_ s !! HyperEdge.id edge) as [stored|] eqn:Hid.
      * destruct (members_exist_or_missing edge s) as [Hall|Hmiss].
        -- rewrite update_edge_valid in Hstep by eauto.
           apply completes_Returns in Hstep. subst s'. split; [done|apply Hedge].
        -- destruct (update_edge_dangling edge s Hs (mk_is_Some _ _ Hid) Hmiss)
             as (n & _ & _ & Hrun).
           rewrite Hrun in Hstep. apply completes_Throws in Hstep. by subst s'.
      * rewrite update_edge_absent in Hstep by done.
        apply completes_Returns in Hstep. by subst s'.
    + rewrite remove_edge_spec in Hstep by done.
      destruct (HypergraphSubstrate.edges_ s !! id);
        apply completes_Returns in Hstep; subst s'; [|done].
      split; [done|]. intros k edge. fields.
      intros Hk%lookup_delete_Some. naive_solver.
Qed.

(** The tables are keyed by id (HypergraphSubstrate.cpp, 118-219).  On a
    substrate obtained from a new one by [add_node], [update_node],
    [remove_node], [add_edge], [update_edge] and [remove_edge] calls,
    every node is stored under its own id and every edge under its own
    id: what [get_node (id)] and [get_edge (id)] hand out carries [id]. *)
Theorem tables_keyed_by_id
    (X : Type) (I : SubstratePersistence.Interface X)
    (s : @HypergraphSubstrate.t X) :
  reachable_state s → keyed_by_id s.
Proof. apply reachable_state_keyed. Qed.

Lemma tables_keyed_by_id_witness : keyed_by_id three_edges.
Proof.
  apply (tables_keyed_by_id Empty_set _ three_edges).
  change three_edges
    with (run_operations
            [Add_node (HyperNode.make "node1" "First Node");
             Add_node (HyperNode.make "node2" "Second Node");
             Add_node (HyperNode.make "node3" "Third Node");
             Add_edge (HyperEdge.make "edge1" {["node1"; "node2"]});
             Add_edge (HyperEdge.make "edge2" {["node1"; "node3"]});
             Add_edge (HyperEdge.make "edge3" {["node2"; "node3"]})]
            fresh_substrate).
  apply reachable_state_run, reachable_new.
Defined.

Section PersistenceTheory.
Context {X : Type} `{!SubstratePersistence.Interface X}.
Import HypergraphSubstrate.
Abbreviation substrate := (@HypergraphSubstrate.t X).

(** The loops of [save_substrate] on the in-memory strategy: each entry
    is stored under the id its value carries. *)
Lemma save_nodes_memory_store (l : list (NodeId * HyperNode.t)) m :
  save_nodes l (Memory m : persistence_ptr) =
    (true,
     Memory (MemorySubstratePersistence.mk
               (foldl (λ store (p : NodeId * HyperNode.t),
                         <[HyperNode.id p.2 := p.2]> store)
                      (MemorySubstratePersistence.nodes_ m) l)
               (MemorySubstratePersistence.edges_ m))).
Proof.
  revert m. induction l as [|[node_id node] l IH]; intros m; simpl.
  - by destruct m.
  - by rewrite IH.
Qed.

Lemma save_edges_memory_store (l : list (EdgeId * HyperEdge.t)) m :
  save_edges l (Memory m : persistence_ptr) =
    (true,
     Memory (MemorySubstratePersistence.mk
               (MemorySubstratePersistence.nodes_ m)
               (foldl (λ store (p : EdgeId * HyperEdge.t),
                         <[HyperEdge.id p.2 := p.2]> store)
                      (MemorySubstratePersistence.edges_ m) l))).
Proof.
  revert m. induction l as [|[edge_id edge] l IH]; intros m; simpl.
  - by destruct m.
  - by rewrite IH.
Qed.

(** Storing every entry of a table that is keyed by id. *)
Lemma foldl_insert_keyed {V} (key : V → string) (table store : gmap string V) :
  (∀ k v, table !! k = Some v → key v = k) →
  foldl (λ store (p : string * V), <[key p.2 := p.2]> store) store
        (map_to_list table)
  = table ∪ store.
Proof.
  intros Hkeyed.
  assert (∀ (l : list (string * V)) (store : gmap string V),
            (∀ p, p ∈ l → key p.2 = p.1) →
            foldl (λ store (p : string * V), <[key p.2 := p.2]> store) store l
            = foldl (λ store (p : string * V), <[p.1 := p.2]> store) store l)
    as Hsame.
  { induction l as [|p l IH]; intros st Hl; simpl; [done|].
    rewrite (Hl p) by left. apply IH. intros q Hq. apply Hl. by right. }
  rewrite Hsame.
  - apply map_eq. intros k.
    rewrite lookup_union.
    assert (∀ (l : list (string * V)) (st : gmap string V),
              NoDup l.*1 →
              foldl (λ store (p : string * V), <[p.1 := p.2]> store) st l !! k
              = match list_to_map (M:=gmap string V) l !! k with
                | Some v => Some v
                | None => st !! k
                end) as Hfold.
    { induction l as [|[k' v] l IH]; intros st Hnd; simpl; [done|].
      apply NoDup_cons in Hnd as [Hk' Hnd]. rewrite IH by done.
      destruct (decide (k' = k)) as [->|Hne].
      - rewrite lookup_insert_eq.
        rewrite (not_elem_of_list_to_map_1 (M:=gmap string) l k) by done.
        by rewrite lookup_insert_eq.
      - rewrite !lookup_insert_ne by done. done. }
    rewrite Hfold by apply NoDup_fst_map_to_list.
    rewrite list_to_map_to_list.
    destruct (table !! k), (store !! k); done.
  - intros [k v] Hin%elem_of_map_to_list. by apply Hkeyed.
Qed.

Lemma save_substrate_memory_store (s : substrate) m :
  unlocked s → keyed_by_id s → persistence_ s = Memory m →
  save_substrate s =
    Returns true
      (with_persistence
         (Memory (MemorySubstratePersistence.mk
                    (nodes_ s ∪ MemorySubstratePersistence.nodes_ m)
                    (edges_ s ∪ MemorySubstratePersistence.edges_ m))) s).
Proof.
  intros Hs [Hn He] Hp. unfold save_substrate.
  rewrite lock_guard_unlocked by done. fields. rewrite Hp.
  rewrite save_nodes_memory_store. cbn [fst snd].
  rewrite save_edges_memory_store. cbn [fst snd].
  cbn [MemorySubstratePersistence.nodes_ MemorySubstratePersistence.edges_].
  rewrite !foldl_insert_keyed by done.
  f_equal. destruct s; unfold unlocked in Hs; simpl in *; by subst.
Qed.

(** The loops of [load_substrate] on the in-memory strategy. *)
Lemma load_one_node_memory (s : substrate) m id :
  persistence_ s = Memory m →
  load_one_node s id =
    match MemorySubstratePersistence.nodes_ m !! id with
    | Some node => with_nodes (<[id := node]> (nodes_ s)) s
    | None => s
    end.
Proof.
  intros Hp. unfold load_one_node. rewrite Hp.
  cbn [fst snd dispatch SubstratePersistence.load_node virtual_call
       MemorySubstratePersistence.load_node].
  assert (with_persistence (Memory m) s = s) as ->
    by (destruct s; simpl in *; by subst).
  done.
Qed.

Lemma load_one_edge_memory (s : substrate) m id :
  persistence_ s = Memory m →
  load_one_edge s id =
    match MemorySubstratePersistence.edges_ m !! id with
    | Some edge => with_edges (<[id := edge]> (edges_ s)) s
    | None => s
    end.
Proof.
  intros Hp. unfold load_one_edge. rewrite Hp.
  cbn [fst snd dispatch SubstratePersistence.load_edge virtual_call
       MemorySubstratePersistence.load_edge].
  assert (with_persistence (Memory m) s = s) as ->
    by (destruct s; simpl in *; by subst).
  done.
Qed.

Lemma foldl_load_one_node_memory (l : list NodeId) (s : substrate) m :
  persistence_ s = Memory m →
  let s' := foldl load_one_node s l in
  substrate_mutex_ s' = substrate_mutex_ s ∧
  edges_ s' = edges_ s ∧
  persistence_ s' = Memory m ∧
  ∀ k : NodeId,
    nodes_ s' !! k =
    if decide (k ∈ l ∧ is_Some (MemorySubstratePersistence.nodes_ m !! k))
    then MemorySubstratePersistence.nodes_ m !! k else nodes_ s !! k.
Proof.
  revert s. induction l as [|id l IH]; intros s Hp; cbn [foldl].
  - split_and!; [done..|]. intros k.
    rewrite decide_False; [done|]. intros [[]%elem_of_nil _].
  - rewrite (load_one_node_memory s m) by done.
    destruct (MemorySubstratePersistence.nodes_ m !! id) as [node|] eqn:Hid.
    + destruct (IH (with_nodes (<[id := node]> (nodes_ s)) s))
        as (Hm & He & Hp' & Hn); [done|].
      split_and!; [done..|]. intros k. rewrite Hn. fields.
      destruct (decide (k = id)) as [->|Hne].
      * rewrite lookup_insert_eq.
        rewrite (decide_True (P:=id ∈ id :: l ∧ _)) by (split; [left|eauto]).
        case_decide; by rewrite ?Hid.
      * rewrite lookup_insert_ne by done.
        apply decide_ext. rewrite elem_of_cons. naive_solver.
    + destruct (IH s) as (Hm & He & Hp' & Hn); [done|].
      split_and!; [done..|]. intros k. rewrite Hn.
      apply decide_ext. rewrite elem_of_cons. split; [naive_solver|].
      intros [[->|?] Hsome]; [|done]. rewrite Hid in Hsome. by destruct Hsome.
Qed.

Lemma foldl_load_one_edge_memory (l : list EdgeId) (s : substrate) m :
  persistence_ s = Memory m →
  let s' := foldl load_one_edge s l in
  substrate_mutex_ s' = substrate_mutex_ s ∧
  nodes_ s' = nodes_ s ∧
  persistence_ s' = Memory m ∧
  ∀ k : EdgeId,
    edges_ s' !! k =
    if decide (k ∈ l ∧ is_Some (MemorySubstratePersistence.edges_ m !! k))
    then MemorySubstratePersistence.edges_ m !! k else edges_ s !! k.
Proof.
  revert s. induction l as [|id l IH]; intros s Hp; cbn [foldl].
  - split_and!; [done..|]. intros k.
    rewrite decide_False; [done|]. intros [[]%elem_of_nil _].
  - rewrite (load_one_edge_memory s m) by done.
    destruct (MemorySubstratePersistence.edges_ m !! id) as [edge|] eqn:Hid.
    + destruct (IH (with_edges (<[id := edge]> (edges_ s)) s))
        as (Hm & He & Hp' & Hn); [done|].
      split_and!; [done..|]. intros k. rewrite Hn. fields.
      destruct (decide (k = id)) as [->|Hne].
      * rewrite lookup_insert_eq.
        rewrite (decide_True (P:=id ∈ id :: l ∧ _)) by (split; [left|eauto]).
        case_decide; by rewrite ?Hid.
      * rewrite lookup_insert_ne by done.
        apply decide_ext. rewrite elem_of_cons. naive_solver.
    + destruct (IH s) as (Hm & He & Hp' & Hn); [done|].
      split_and!; [done..|]. intros k. rewrite Hn.
      apply decide_ext. rewrite elem_of_cons. split; [naive_solver|].
      intros [[->|?] Hsome]; [|done]. rewrite Hid in Hsome. by destruct Hsome.
Qed.

Lemma load_substrate_memory_store (s : substrate) m :
  unlocked s → persistence_ s = Memory m →
  load_substrate s =
    Returns true
      (mk false (MemorySubstratePersistence.nodes_ m)
          (MemorySubstratePersistence.edges_ m) (Memory m)).
Proof.
  intros Hs Hp. unfold load_substrate.
  rewrite lock_guard_unlocked by done. fields. rewrite Hp.
  cbn [fst snd dispatch SubstratePersistence.get_all_node_ids virtual_call
       MemorySubstratePersistence.get_all_node_ids].
  match goal with |- context [foldl load_one_node ?s0 ?l] =>
    destruct (foldl_load_one_node_memory l s0 m) as (Hm1 & He1 & Hp1 & Hn1);
      [done|];
    set (s1 := foldl load_one_node s0 l) in *
  end.
  rewrite Hp1.
  cbn [fst snd dispatch SubstratePersistence.get_all_edge_ids virtual_call
       MemorySubstratePersistence.get_all_edge_ids].
  match goal with |- context [foldl load_one_edge ?s0 ?l] =>
    destruct (foldl_load_one_edge_memory l s0 m) as (Hm2 & Hn2 & Hp2 & He2);
      [done|];
    set (s2 := foldl load_one_edge s0 l) in *
  end.
  fields.
  assert (nodes_ s2 = MemorySubstratePersistence.nodes_ m) as Hnodes.
  { rewrite Hn2. apply map_eq. intros k. rewrite Hn1. case_decide as Hk; [done|].
    rewrite lookup_empty. symmetry. apply eq_None_not_Some. intros Hsome.
    apply Hk. split; [|done]. destruct Hsome as [node Hnode].
    apply list_elem_of_fmap. exists (k, node). split; [done|].
    by apply elem_of_map_to_list. }
  assert (edges_ s2 = MemorySubstratePersistence.edges_ m) as Hedges.
  { apply map_eq. intros k. rewrite He2. case_decide as Hk; [done|].
    rewrite He1. fields. rewrite lookup_empty. symmetry.
    apply eq_None_not_Some. intros Hsome.
    apply Hk. split; [|done]. destruct Hsome as [edge Hedge].
    apply list_elem_of_fmap. exists (k, edge). split; [done|].
    by apply elem_of_map_to_list. }
  f_equal. clearbody s2 s1.
  destruct s2 as [m2 n2 e2 p2]. simpl in *.
  rewrite Hp2, Hnodes, Hedges. reflexivity.
Qed.

Lemma mirrored_memory (s : substrate) m :
  persistence_ s = Memory m →
  MemorySubstratePersistence.nodes_ m = nodes_ s →
  MemorySubstratePersistence.edges_ m = edges_ s →
  mirrored s.
Proof. unfold mirrored. intros -> <- <-. by destruct m. Qed.

Lemma perform_mirrored op (s s' : substrate) :
  unlocked s → mirrored s → completes (perform op s) s' → mirrored s'.
Proof.
  unfold mirrored. intros Hs Hm Hstep.
  destruct op as [node|node|id|edge|edge|id]; simpl in Hstep.
  - rewrite add_node_spec in Hstep by done.
    destruct (nodes_ s !! HyperNode.id node);
      apply completes_Returns in Hstep; subst s'; [done|].
    fields. by rewrite Hm.
  - rewrite update_node_spec in Hstep by done.
    destruct (nodes_ s !! HyperNode.id node);
      apply completes_Returns in Hstep; subst s'; [|done].
    fields. by rewrite Hm.
  - destruct (remove_node_spec id s Hs) as (s1 & Hrun & _ & Hn & He & _).
    destruct (remove_node_memory id s _ Hs Hm) as (s2 & m' & Hrun' & Hp & Hn' & He').
    rewrite Hrun in Hrun'. injection Hrun' as <-.
    rewrite Hrun in Hstep. apply completes_Returns in Hstep. subst s1.
    apply (mirrored_memory s' m' Hp).
    + rewrite Hn', Hn. cbn [MemorySubstratePersistence.nodes_].
      case_bool_decide as Hid; [done|].
      rewrite delete_id; [done|]. by apply eq_None_not_Some.
    + apply map_eq. intros edge_id. by rewrite He', He.
  - destruct (edges_ s !! HyperEdge.id edge) as [stored|] eqn:Hid.
    + rewrite add_edge_duplicate in Hstep by eauto.
      apply completes_Returns in Hstep. by subst s'.
    + destruct (members_exist_or_missing edge s) as [Hall|Hmiss].
      * rewrite add_edge_valid in Hstep by done.
        apply completes_Returns in Hstep. subst s'. fields. by rewrite Hm.
      * destruct (add_edge_dangling edge s Hs Hid Hmiss) as (n & _ & _ & Hrun).
        rewrite Hrun in Hstep. apply completes_Throws in Hstep. by subst s'.
  - destruct (edges_ s !! HyperEdge.id edge) as [stored|] eqn:Hid.
    + destruct (members_exist_or_missing edge s) as [Hall|Hmiss].
      * rewrite update_edge_valid in Hstep by eauto.
        apply completes_Returns in Hstep. subst s'. fields. by rewrite Hm.
      * destruct (update_edge_dangling edge s Hs (mk_is_Some _ _ Hid) Hmiss)
          as (n & _ & _ & Hrun).
        rewrite Hrun in Hstep. apply completes_Throws in Hstep. by subst s'.
    + rewrite update_edge_absent in Hstep by done.
      apply completes_Returns in Hstep. by subst s'.
  - rewrite remove_edge_spec in Hstep by done.
    destruct (edges_ s !! id);
      apply completes_Returns in Hstep; subst s'; [|done].
    fields. by rewrite Hm.
Qed.

Lemma run_operations_snoc ops op (s : substrate) :
  run_operations (ops ++ [op]) s =
  state_after (perform op (run_operations ops s)) (run_operations ops s).
Proof. unfold run_operations. by rewrite foldl_app. Qed.

Lemma state_after_completes {A} (o : Outcome substrate A) (s s' : substrate) :
  completes o s' → state_after o s = s'.
Proof. by intros [[a ->]|[e ->]]. Qed.

End PersistenceTheory.

(** * Persistence *)

(** Write-through (HypergraphSubstrate.cpp, 111-219).  On a
    default-constructed substrate, after any sequence of [add_node],
    [update_node], [remove_node], [add_edge], [update_edge] and
    [remove_edge] calls (what they throw being caught), the in-memory
    strategy holds exactly the node table and the edge table: every
    change of a table, the cascade of [remove_node] included, reached the
    store, and a refused or failed call changed neither. *)
Theorem write_through_mirror
    (X : Type) (I : SubstratePersistence.Interface X) (ops : list operation) :
  mirrored (run_operations ops (HypergraphSubstrate.new None
                                  : @HypergraphSubstrate.t X)).
Proof.
  induction ops as [|op ops IH] using rev_ind; [done|].
  rewrite run_operations_snoc.
  set (s := run_operations ops (HypergraphSubstrate.new None)) in *.
  assert (reachable_state s) as Hreach
    by apply reachable_state_run, reachable_new.
  destruct (reachable_state_invariant s Hreach) as [Hs _].
  destruct (perform_completes op s Hs) as [s' Hstep].
  rewrite (state_after_completes _ s s' Hstep).
  by eapply perform_mirrored.
Qed.

(** [load_substrate] on the in-memory strategy (HypergraphSubstrate.cpp,
    424-450, 44-62, 74-92).  On an unlocked substrate the call returns
    [true]; the tables it leaves are the store's tables, whatever the
    tables held before and whatever the store holds: the edges loaded are
    not validated, so the substrate has referential integrity afterwards
    exactly when the store has.  The store is left as it was. *)
Theorem load_substrate_takes_the_store
    (X : Type) (I : SubstratePersistence.Interface X)
    (s : @HypergraphSubstrate.t X) (m : MemorySubstratePersistence.t) :
  unlocked s →
  HypergraphSubstrate.persistence_ s = HypergraphSubstrate.Memory m →
  ∃ s',
    HypergraphSubstrate.load_substrate s = Returns true s' ∧
    unlocked s' ∧
    HypergraphSubstrate.nodes_ s' = MemorySubstratePersistence.nodes_ m ∧
    HypergraphSubstrate.edges_ s' = MemorySubstratePersistence.edges_ m ∧
    HypergraphSubstrate.persistence_ s' = HypergraphSubstrate.Memory m ∧
    (referential_integrity s' ↔
     ∀ edge_id edge node_id,
       MemorySubstratePersistence.edges_ m !! edge_id = Some edge →
       node_id ∈ HyperEdge.connected_nodes edge →
       is_Some (MemorySubstratePersistence.nodes_ m !! node_id)).
Proof.
  intros Hs Hp. rewrite (load_substrate_memory_store s m) by done.
  eexists. split; [done|]. by split_and!.
Qed.

Lemma load_substrate_takes_the_store_witness :
  ∃ s',
    HypergraphSubstrate.load_substrate
      (HypergraphSubstrate.new (Some (HypergraphSubstrate.Memory dangling_store))
         : @HypergraphSubstrate.t Empty_set)
      = Returns true s' ∧
    ¬ referential_integrity s'.
Proof.
  destruct (load_substrate_takes_the_store Empty_set _
              (HypergraphSubstrate.new
                 (Some (HypergraphSubstrate.Memory dangling_store)))
              dangling_store eq_refl eq_refl)
    as (s' & Hrun & _ & _ & _ & _ & HRI).
  exists s'. split; [exact Hrun|]. intros Hs'.
  destruct (proj1 HRI Hs' "edge1" (HyperEdge.make "edge1" {["ghost"]}) "ghost")
    as [node Hnode].
  - vm_compute. reflexivity.
  - cbn [HyperEdge.connected_nodes HyperEdge.make].
    apply elem_of_singleton. reflexivity.
  - vm_compute in Hnode. discriminate.
Defined.

(** [save_substrate] then [load_substrate] on the in-memory strategy
    (HypergraphSubstrate.cpp, 405-450, 32-42).  On an unlocked substrate
    whose tables are keyed by id, both calls return [true] and the tables
    afterwards hold every entry of the tables before, unchanged, and
    besides them the entries of the store under ids the tables did not
    have.  When the store mirrors the tables, the tables afterwards are
    the tables before. *)
Theorem save_then_load_keeps_the_tables
    (X : Type) (I : SubstratePersistence.Interface X)
    (s : @HypergraphSubstrate.t X) (m : MemorySubstratePersistence.t) :
  unlocked s → keyed_by_id s →
  HypergraphSubstrate.persistence_ s = HypergraphSubstrate.Memory m →
  ∃ s1 s2,
    HypergraphSubstrate.save_substrate s = Returns true s1 ∧
    HypergraphSubstrate.load_substrate s1 = Returns true s2 ∧
    HypergraphSubstrate.nodes_ s2
      = HypergraphSubstrate.nodes_ s ∪ MemorySubstratePersistence.nodes_ m ∧
    HypergraphSubstrate.edges_ s2
      = HypergraphSubstrate.edges_ s ∪ MemorySubstratePersistence.edges_ m ∧
    (mirrored s →
     HypergraphSubstrate.nodes_ s2 = HypergraphSubstrate.nodes_ s ∧
     HypergraphSubstrate.edges_ s2 = HypergraphSubstrate.edges_ s).
Proof.
  intros Hs Hkeyed Hp.
  rewrite (save_substrate_memory_store s m) by done.
  eexists _, _. split; [done|].
  erewrite load_substrate_memory_store; [|done|reflexivity].
  split; [done|]. cbn. split_and!; [done..|].
  unfold mirrored. rewrite Hp. intros [= ->]. cbn.
  by rewrite !(idemp_L (∪)).
Qed.

Lemma save_then_load_keeps_the_tables_witness :
  ∃ s1 s2,
    HypergraphSubstrate.save_substrate populated = Returns true s1 ∧
    HypergraphSubstrate.load_substrate s1 = Returns true s2 ∧
    HypergraphSubstrate.nodes_ s2 = HypergraphSubstrate.nodes_ populated ∧
    HypergraphSubstrate.edges_ s2 = HypergraphSubstrate.edges_ populated.
Proof.
  assert (reachable_state populated) as Hreach.
  { change populated
      with (run_operations
              [Add_node persistent_node;
               Add_edge (HyperEdge.make "edge1" {["node1"]})]
              fresh_substrate).
    apply reachable_state_run, reachable_new. }
  destruct (save_then_load_keeps_the_tables Empty_set _ populated
              (MemorySubstratePersistence.mk
                 (HypergraphSubstrate.nodes_ populated)
                 (HypergraphSubstrate.edges_ populated))
              eq_refl (reachable_state_keyed _ _ populated Hreach) eq_refl)
    as (s1 & s2 & Hsave & Hload & _ & _ & Hsame).
  exists s1, s2. split; [exact Hsave|]. split; [exact Hload|].
  apply Hsame. reflexivity.
Defined.

(** Activation is not written through (HypergraphSubstrate.cpp, 317-351,
    424-450).  [update_node_activation] and [propagate_activation] change
    the node table and never call the persistence strategy.  On an
    unlocked substrate whose in-memory store mirrors the tables, either
    call followed by [load_substrate] leaves the node table and the edge
    table as they were before the call: the activation levels written are
    gone. *)
Theorem activation_is_not_written_through
    (X : Type) (I : SubstratePersistence.Interface X)
    (s : @HypergraphSubstrate.t X) (id : NodeId) (activation : Weight) :
  unlocked s → mirrored s →
  (∃ s1 s2,
     HypergraphSubstrate.update_node_activation id activation s = Returns () s1 ∧
     HypergraphSubstrate.persistence_ s1 = HypergraphSubstrate.persistence_ s ∧
     HypergraphSubstrate.load_substrate s1 = Returns true s2 ∧
     HypergraphSubstrate.nodes_ s2 = HypergraphSubstrate.nodes_ s ∧
     HypergraphSubstrate.edges_ s2 = HypergraphSubstrate.edges_ s) ∧
  (∃ s1 s2,
     HypergraphSubstrate.propagate_activation id activation s = Returns () s1 ∧
     HypergraphSubstrate.persistence_ s1 = HypergraphSubstrate.persistence_ s ∧
     HypergraphSubstrate.load_substrate s1 = Returns true s2 ∧
     HypergraphSubstrate.nodes_ s2 = HypergraphSubstrate.nodes_ s ∧
     HypergraphSubstrate.edges_ s2 = HypergraphSubstrate.edges_ s).
Proof.
  intros Hs Hm.
  assert (∀ s1 : @HypergraphSubstrate.t X,
            unlocked s1 →
            HypergraphSubstrate.persistence_ s1 = HypergraphSubstrate.persistence_ s →
            ∃ s2, HypergraphSubstrate.load_substrate s1 = Returns true s2 ∧
                  HypergraphSubstrate.nodes_ s2 = HypergraphSubstrate.nodes_ s ∧
                  HypergraphSubstrate.edges_ s2 = HypergraphSubstrate.edges_ s)
    as Hload.
  { intros s1 Hs1 Hp. rewrite Hm in Hp.
    rewrite (load_substrate_memory_store s1 _ Hs1 Hp). by eexists. }
  split.
  - rewrite update_node_activation_spec by done.
    destruct (HypergraphSubstrate.nodes_ s !! id) as [node|].
    + destruct (Hload (HypergraphSubstrate.with_nodes
                         (<[id := HyperNode.set_activation_level activation node]>
                            (HypergraphSubstrate.nodes_ s)) s))
        as (s2 & ? & ? & ?); [done..|].
      by eexists _, s2.
    + destruct (Hload s) as (s2 & ? & ? & ?); [done..|]. by eexists _, s2.
  - destruct (HypergraphSubstrate.nodes_ s !! id) as [src|] eqn:Hsrc.
    + destruct (propagate_activation_present id activation s src Hs Hsrc)
        as (s1 & Hrun & Hs1 & _ & Hp & _).
      destruct (Hload s1) as (s2 & ? & ? & ?); [done..|].
      by exists s1, s2.
    + rewrite propagate_activation_absent by done.
      destruct (Hload s) as (s2 & ? & ? & ?); [done..|]. by eexists _, s2.
Qed.

Lemma activation_is_not_written_through_witness :
  ∃ s1 s2,
    HypergraphSubstrate.propagate_activation "node1" 1 chain = Returns () s1 ∧
    HypergraphSubstrate.load_substrate s1 = Returns true s2 ∧
    HypergraphSubstrate.nodes_ s2 = HypergraphSubstrate.nodes_ chain.
Proof.
  destruct (proj2 (activation_is_not_written_through Empty_set _ chain
                     "node1" 1%float eq_refl eq_refl))
    as (s1 & s2 & Hrun & _ & Hload & Hnodes & _).
  exists s1, s2. split; [exact Hrun|]. split; [exact Hload|exact Hnodes].
Defined.

(** [MemorySubstratePersistence] (HypergraphSubstrate.cpp, 32-108).  A
    node saved is the node loaded under its id, replacing what the store
    held there; other ids and the edges are not affected.  [remove_node]
    answers whether the id was stored and leaves it not loadable.
    [get_all_node_ids] lists each id that can be loaded once, as many as
    [node_count] says; after [clear] nothing is stored. *)
Theorem memory_persistence_round_trip
    (p : MemorySubstratePersistence.t) (node : HyperNode.t) (id : NodeId) :
  MemorySubstratePersistence.save_node node p
    = (true, (MemorySubstratePersistence.save_node node p).2) ∧
  (MemorySubstratePersistence.load_node id
     (MemorySubstratePersistence.save_node node p).2).1
    = (if decide (HyperNode.id node = id) then Some node
       else (MemorySubstratePersistence.load_node id p).1) ∧
  MemorySubstratePersistence.edges_ (MemorySubstratePersistence.save_node node p).2
    = MemorySubstratePersistence.edges_ p ∧
  (MemorySubstratePersistence.remove_node id p).1
    = bool_decide (is_Some (MemorySubstratePersistence.load_node id p).1) ∧
  (MemorySubstratePersistence.load_node id
     (MemorySubstratePersistence.remove_node id p).2).1 = None ∧
  NoDup (MemorySubstratePersistence.get_all_node_ids p).1 ∧
  (∀ k, k ∈ (MemorySubstratePersistence.get_all_node_ids p).1 ↔
        is_Some (MemorySubstratePersistence.load_node k p).1) ∧
  length (MemorySubstratePersistence.get_all_node_ids p).1
    = MemorySubstratePersistence.node_count p ∧
  MemorySubstratePersistence.node_count (MemorySubstratePersistence.clear p) = 0%nat ∧
  MemorySubstratePersistence.edge_count (MemorySubstratePersistence.clear p) = 0%nat.
Proof.
  unfold MemorySubstratePersistence.save_node, MemorySubstratePersistence.load_node,
    MemorySubstratePersistence.remove_node, MemorySubstratePersistence.get_all_node_ids,
    MemorySubstratePersistence.node_count, MemorySubstratePersistence.edge_count,
    MemorySubstratePersistence.clear.
  cbn [fst snd MemorySubstratePersistence.nodes_ MemorySubstratePersistence.edges_].
  split_and!; [done| |done|done| | | | |done|done].
  - apply lookup_insert.
  - apply lookup_delete_eq.
  - apply NoDup_fst_map_to_list.
  - intros k. rewrite list_elem_of_fmap. split.
    + intros ([k' v] & -> & Hin%elem_of_map_to_list). eauto.
    + intros [v Hv]. exists (k, v). by rewrite elem_of_map_to_list.
  - by rewrite length_fmap, length_map_to_list.
Qed.

(** * Further properties of the kernel *)

Section KernelRuns.
Variable hasher : string → Z.
Variable double_to_string : float → string.
Variable Derived : Type.
Import CognitiveKernel.
Abbreviation kernel := (CognitiveKernel.t Derived).
Variable on_cognitive_process : string → kernel → Outcome kernel unit.
Variable on_state_transition :
  CognitiveState → CognitiveState → kernel → Outcome kernel unit.

Abbreviation quiet := (does_nothing Derived on_state_transition).

Lemma set_cognitive_state_quiet new_state (k : kernel) :
  quiet →
  set_cognitive_state Derived on_state_transition new_state k
  = Returns () (with_state Derived new_state k).
Proof.
  intros Hquiet. unfold set_cognitive_state. case_bool_decide; [|done].
  apply Hquiet.
Qed.

Lemma process_cognitive_signal_quiet signal_data (k : kernel) :
  quiet →
  process_cognitive_signal hasher double_to_string Derived
    on_cognitive_process on_state_transition signal_data k
  = match on_cognitive_process signal_data
            (at_hook hasher double_to_string Derived signal_data
               (with_state Derived PROCESSING k)) with
    | Returns _ k' => Returns () (with_state Derived REFLECTING k')
    | Throws e k' => Throws e (with_state Derived (current_state_ Derived k) k')
    | Deadlock => Deadlock
    | Diverges => Diverges
    end.
Proof.
  intros Hquiet. unfold process_cognitive_signal, bind.
  rewrite set_cognitive_state_quiet by done.
  unfold process_attempt.
  fold (at_hook hasher double_to_string Derived signal_data
          (with_state Derived PROCESSING k)).
  destruct (on_cognitive_process _ _) as [[] k'|e k'| |]; [..|done|done].
  - by rewrite set_cognitive_state_quiet.
  - by rewrite set_cognitive_state_quiet.
Qed.

End KernelRuns.

(** Keys of the cognitive memory. *)
Lemma to_string_inj (i j : Z) : 0 ≤ i → 0 ≤ j → to_string i = to_string j → i = j.
Proof.
  unfold to_string. intros Hi Hj Heq%(inj pretty). lia.
Qed.

Lemma append_inj_r (prefix a b : string) :
  String.append prefix a = String.append prefix b → a = b.
Proof.
  induction prefix as [|c prefix IH]; [done|].
  rewrite !append_cons. intros [= Heq]. by apply IH.
Qed.

Lemma pattern_key_inj (i j : Z) :
  0 ≤ i → 0 ≤ j →
  String.append "deep_tree_echo.pattern." (to_string i)
  = String.append "deep_tree_echo.pattern." (to_string j) → i = j.
Proof. intros Hi Hj Heq%append_inj_r. by apply to_string_inj. Qed.

Lemma pattern_key_fresh (suffix : string) :
  String.append "deep_tree_echo.pattern." suffix ∉
    ["deep_tree_echo.identity"; "deep_tree_echo.frequency"; "deep_tree_echo.weight"]%string.
Proof.
  intros Hin.
  assert (String.get 15 (String.append "deep_tree_echo.pattern." suffix)
          = String.get 15 "deep_tree_echo.pattern.") as Hget by reflexivity.
  repeat (apply elem_of_cons in Hin as [Heq|Hin];
          [rewrite Heq in Hget; vm_compute in Hget; discriminate|]).
  by apply elem_of_nil in Hin.
Qed.

Section KernelMemory.
Variable hasher : string → Z.
Variable double_to_string : float → string.
Variable Derived : Type.
Import CognitiveKernel.
Abbreviation kernel := (CognitiveKernel.t Derived).
Variable on_cognitive_process : string → kernel → Outcome kernel unit.
Variable on_state_transition :
  CognitiveState → CognitiveState → kernel → Outcome kernel unit.

(** What the kernel's memory holds under [key]. *)
Abbreviation recalls k key :=
  (CognitiveMemory.retrieve key (cognitive_memory_ Derived k)).
Abbreviation pattern_key i :=
  (String.append "deep_tree_echo.pattern." (to_string i)).

Lemma recalls_remember key value key' (k : kernel) :
  recalls (remember Derived key value k) key' =
  if decide (key = key') then value else recalls k key'.
Proof.
  unfold CognitiveMemory.retrieve, remember, CognitiveMemory.store.
  cbn [cognitive_memory_ CognitiveMemory.memory_store_].
  rewrite lookup_insert. by case_decide.
Qed.

Lemma remember_patterns_fields i patterns (k : kernel) :
  echo_identity_ Derived (remember_patterns Derived i patterns k)
    = echo_identity_ Derived k ∧
  current_state_ Derived (remember_patterns Derived i patterns k)
    = current_state_ Derived k ∧
  process_counter_ Derived (remember_patterns Derived i patterns k)
    = process_counter_ Derived k.
Proof.
  revert i k. induction patterns as [|pattern rest IH]; intros i k; simpl; [done|].
  destruct (IH (i + 1) (remember Derived (pattern_key i) pattern k))
    as (-> & -> & ->). done.
Qed.

Lemma remember_patterns_miss i patterns (k : kernel) key :
  0 ≤ i →
  (∀ j, 0 ≤ j → key ≠ pattern_key (i + j)) →
  CognitiveMemory.memory_store_
    (cognitive_memory_ Derived (remember_patterns Derived i patterns k)) !! key
  = CognitiveMemory.memory_store_ (cognitive_memory_ Derived k) !! key.
Proof.
  revert i k. induction patterns as [|pattern rest IH]; intros i k Hi Hkey;
    simpl; [done|].
  rewrite IH; [|lia|].
  - unfold remember, CognitiveMemory.store.
    cbn [cognitive_memory_ CognitiveMemory.memory_store_].
    apply lookup_insert_ne. specialize (Hkey 0). rewrite Z.add_0_r in Hkey.
    intros Heq. by apply Hkey.
  - intros j Hj. replace (i + 1 + j) with (i + (1 + j)) by lia. apply Hkey. lia.
Qed.

Lemma remember_patterns_hit i patterns (k : kernel) j pattern :
  0 ≤ i → patterns !! j = Some pattern →
  recalls (remember_patterns Derived i patterns k) (pattern_key (i + Z.of_nat j))
  = pattern.
Proof.
  revert i k j. induction patterns as [|p rest IH]; intros i k j Hi Hj;
    [done|]. simpl.
  destruct j as [|j]; simpl in Hj.
  - injection Hj as ->. rewrite Z.add_0_r.
    unfold CognitiveMemory.retrieve. rewrite remember_patterns_miss; [|lia|].
    + unfold remember, CognitiveMemory.store.
      cbn [cognitive_memory_ CognitiveMemory.memory_store_].
      by rewrite lookup_insert_eq.
    + intros j Hj Heq. apply pattern_key_inj in Heq; lia.
  - replace (i + Z.of_nat (S j)) with (i + 1 + Z.of_nat j) by lia.
    apply IH; [lia|done].
Qed.

Lemma remember_patterns_size i patterns (k : kernel) :
  0 ≤ i →
  (∀ j, 0 ≤ j →
     CognitiveMemory.memory_store_ (cognitive_memory_ Derived k)
       !! pattern_key (i + j) = None) →
  CognitiveMemory.size
    (cognitive_memory_ Derived (remember_patterns Derived i patterns k))
  = (CognitiveMemory.size (cognitive_memory_ Derived k) + length patterns)%nat.
Proof.
  revert i k. induction patterns as [|pattern rest IH]; intros i k Hi Hfree;
    simpl; [lia|].
  rewrite IH; [|lia|].
  - unfold CognitiveMemory.size, remember, CognitiveMemory.store.
    cbn [cognitive_memory_ CognitiveMemory.memory_store_].
    rewrite map_size_insert_None; [lia|].
    specialize (Hfree 0). rewrite Z.add_0_r in Hfree. by apply Hfree.
  - intros j Hj. unfold remember, CognitiveMemory.store.
    cbn [cognitive_memory_ CognitiveMemory.memory_store_].
    rewrite lookup_insert_ne.
    + replace (i + 1 + j) with (i + (1 + j)) by lia. apply Hfree. lia.
    + intros Heq. apply pattern_key_inj in Heq; lia.
Qed.

(** The object the processing hook receives, field by field. *)
Lemma at_hook_fields signal_data (k : kernel) :
  let k' := at_hook hasher double_to_string Derived signal_data k in
  echo_identity_ Derived k' = echo_identity_ Derived k ∧
  current_state_ Derived k' = current_state_ Derived k ∧
  process_counter_ Derived k' = to_size_t (process_counter_ Derived k + 1) ∧
  recalls k' "last_signal" = signal_data ∧
  recalls k' "last_resonance"
    = double_to_string (calculate_resonance hasher Derived signal_data k) ∧
  recalls k' "process_count"
    = to_string (to_size_t (process_counter_ Derived k + 1)).
Proof.
  unfold at_hook. cbn zeta. split_and!; try reflexivity.
  - rewrite recalls_remember, decide_False by done.
    cbn [with_counter cognitive_memory_].
    rewrite recalls_remember, decide_False by done.
    by rewrite recalls_remember, decide_True.
  - rewrite recalls_remember, decide_False by done.
    cbn [with_counter cognitive_memory_].
    by rewrite recalls_remember, decide_True.
  - by rewrite recalls_remember, decide_True.
Qed.

End KernelMemory.

(** [CognitiveMemory] (CognitiveKernel.cpp, 31-55).  A value stored is
    the value retrieved under its key, replacing what was there; the other
    keys are not affected, and the size grows by one exactly when the key
    is new.  A key that was never stored retrieves the empty string, which
    a stored empty string does too: only [exists] tells the two apart.
    After [clear] nothing is stored. *)
Theorem cognitive_memory_round_trip
    (m : CognitiveMemory.t) (key value other : string) :
  CognitiveMemory.retrieve key (CognitiveMemory.store key value m) = value ∧
  CognitiveMemory.exists_ key (CognitiveMemory.store key value m) = true ∧
  (other ≠ key →
   CognitiveMemory.retrieve other (CognitiveMemory.store key value m)
     = CognitiveMemory.retrieve other m ∧
   CognitiveMemory.exists_ other (CognitiveMemory.store key value m)
     = CognitiveMemory.exists_ other m) ∧
  CognitiveMemory.size (CognitiveMemory.store key value m)
    = (if CognitiveMemory.exists_ key m then CognitiveMemory.size m
       else S (CognitiveMemory.size m)) ∧
  (CognitiveMemory.exists_ key m = false →
   CognitiveMemory.retrieve key m = EmptyString) ∧
  CognitiveMemory.retrieve key (CognitiveMemory.store key EmptyString m)
    = CognitiveMemory.retrieve key (CognitiveMemory.clear m) ∧
  CognitiveMemory.exists_ key (CognitiveMemory.clear m) = false ∧
  CognitiveMemory.size (CognitiveMemory.clear m) = 0%nat.
Proof.
  unfold CognitiveMemory.retrieve, CognitiveMemory.exists_, CognitiveMemory.store,
    CognitiveMemory.size, CognitiveMemory.clear.
  cbn [CognitiveMemory.memory_store_].
  split_and!.
  - by rewrite lookup_insert_eq.
  - rewrite lookup_insert_eq. apply bool_decide_eq_true_2. eauto.
  - intros Hother. by rewrite lookup_insert_ne.
  - case_bool_decide as Hkey.
    + destruct Hkey as [v Hv]. by rewrite map_size_insert_Some.
    + rewrite map_size_insert_None; [done|]. by apply eq_None_not_Some.
  - intros Hkey%bool_decide_eq_false. apply eq_None_not_Some in Hkey.
    by rewrite Hkey.
  - by rewrite lookup_insert_eq, lookup_empty.
  - apply bool_decide_eq_false_2. rewrite lookup_empty. by intros [? ?].
  - apply map_size_empty.
Qed.

(** [CognitiveKernel::initialize] (CognitiveKernel.cpp, 62-77).  With a
    transition hook that only takes note, the call returns and leaves the
    kernel in [AWAKENING]; the memory then holds the signature under
    "deep_tree_echo.identity", the frequency and the weight as decimal
    text under "deep_tree_echo.frequency" and "deep_tree_echo.weight", and
    the pattern at every index [i] under "deep_tree_echo.pattern.<i>": no
    pattern overwrites another or one of the three fixed entries.  With a
    hook that does nothing the identity is the one passed in, and a memory
    that was empty holds these [3 + n] entries and no other. *)
Theorem initialize_fills_the_memory
    (double_to_string : float → string) (Derived : Type)
    (on_state_transition :
       CognitiveState → CognitiveState →
       CognitiveKernel.t Derived → Outcome (CognitiveKernel.t Derived) unit)
    (echo_identity : DeepTreeEcho) (k : CognitiveKernel.t Derived) :
  notifies_only Derived on_state_transition →
  ∃ k',
    CognitiveKernel.initialize double_to_string Derived on_state_transition
      echo_identity k = Returns () k' ∧
    CognitiveKernel.current_state_ Derived k' = AWAKENING ∧
    CognitiveMemory.retrieve "deep_tree_echo.identity"
      (CognitiveKernel.cognitive_memory_ Derived k')
      = identity_signature echo_identity ∧
    CognitiveMemory.retrieve "deep_tree_echo.frequency"
      (CognitiveKernel.cognitive_memory_ Derived k')
      = to_string (resonance_frequency echo_identity) ∧
    CognitiveMemory.retrieve "deep_tree_echo.weight"
      (CognitiveKernel.cognitive_memory_ Derived k')
      = double_to_string (cognitive_weight echo_identity) ∧
    (∀ i pattern,
       echo_patterns echo_identity !! i = Some pattern →
       CognitiveMemory.retrieve
         (String.append "deep_tree_echo.pattern." (to_string (Z.of_nat i)))
         (CognitiveKernel.cognitive_memory_ Derived k') = pattern) ∧
    (does_nothing Derived on_state_transition →
     CognitiveKernel.echo_identity_ Derived k' = echo_identity ∧
     (CognitiveMemory.size (CognitiveKernel.cognitive_memory_ Derived k) = 0%nat →
      CognitiveMemory.size (CognitiveKernel.cognitive_memory_ Derived k')
      = (3 + length (echo_patterns echo_identity))%nat)).
Proof.
  intros Hnote. unfold CognitiveKernel.initialize, bind.
  destruct (set_cognitive_state_sets Derived on_state_transition AWAKENING
              (CognitiveKernel.with_identity Derived echo_identity k) Hnote)
    as (k1 & Hset & Hk1).
  rewrite Hset.
  set (k2 := CognitiveKernel.remember Derived "deep_tree_echo.weight" _ _).
  assert (∀ key,
            key ∈ ["deep_tree_echo.identity"; "deep_tree_echo.frequency";
                   "deep_tree_echo.weight"]%string →
            CognitiveMemory.retrieve key
              (CognitiveKernel.cognitive_memory_ Derived
                 (CognitiveKernel.remember_patterns Derived 0
                    (echo_patterns echo_identity) k2))
            = CognitiveMemory.retrieve key
                (CognitiveKernel.cognitive_memory_ Derived k2)) as Hfixed.
  { intros key Hkey. unfold CognitiveMemory.retrieve.
    rewrite remember_patterns_miss; [done|lia|].
    intros j _ ->. by apply pattern_key_fresh in Hkey. }
  destruct (remember_patterns_fields Derived 0 (echo_patterns echo_identity) k2)
    as (Hid & Hst & _).
  eexists. split; [done|]. split_and!.
  - by rewrite Hst.
  - rewrite Hfixed by set_solver. subst k2.
    rewrite !recalls_remember. by repeat case_decide.
  - rewrite Hfixed by set_solver. subst k2.
    rewrite !recalls_remember. by repeat case_decide.
  - rewrite Hfixed by set_solver. subst k2.
    rewrite !recalls_remember. by repeat case_decide.
  - intros i pattern Hi.
    by apply (remember_patterns_hit Derived 0 _ k2 i pattern).
  - intros Hquiet.
    rewrite (set_cognitive_state_quiet Derived on_state_transition) in Hset by done.
    injection Hset as <-. split; [by rewrite Hid|].
    intros Hempty. rewrite remember_patterns_size; [|lia|].
    + subst k2. unfold CognitiveMemory.size, CognitiveKernel.remember,
        CognitiveMemory.store in *.
      cbn [CognitiveKernel.cognitive_memory_ CognitiveMemory.memory_store_
           CognitiveKernel.with_state CognitiveKernel.with_identity] in *.
      apply map_size_empty_inv in Hempty. rewrite Hempty.
      rewrite !map_size_insert_None; [done|..].
      * apply lookup_empty.
      * by rewrite lookup_insert_ne.
      * by rewrite !lookup_insert_ne.
    + intros j _. subst k2. unfold CognitiveKernel.remember,
        CognitiveMemory.store, CognitiveMemory.size in *.
      cbn [CognitiveKernel.cognitive_memory_ CognitiveMemory.memory_store_
           CognitiveKernel.with_state CognitiveKernel.with_identity] in *.
      apply map_size_empty_inv in Hempty. rewrite Hempty.
      pose proof (pattern_key_fresh (to_string (0 + j))) as Hfresh.
      rewrite !lookup_insert_ne, lookup_empty; [done|..];
        intros Heq; apply Hfresh; rewrite <- Heq; set_solver.
Qed.

Lemma initialize_fills_the_memory_witness :
  ∃ k',
    CognitiveKernel.initialize (λ _, EmptyString) unit silent_transition
      test_cognitive_identity (CognitiveKernel.new unit ()) = Returns () k' ∧
    CognitiveKernel.current_state_ unit k' = AWAKENING ∧
    CognitiveMemory.retrieve "deep_tree_echo.identity"
      (CognitiveKernel.cognitive_memory_ unit k') = "test_cognitive_identity"%string ∧
    CognitiveMemory.retrieve "deep_tree_echo.pattern.2"
      (CognitiveKernel.cognitive_memory_ unit k') = "cognitive"%string.
Proof.
  assert (notifies_only unit silent_transition) as Hnote
    by (intros from to k; by exists k).
  destruct (initialize_fills_the_memory (λ _, EmptyString) unit silent_transition
              test_cognitive_identity (CognitiveKernel.new unit ()) Hnote)
    as (k' & Hrun & Hstate & Hidentity & _ & _ & Hpatterns & _).
  exists k'. split; [exact Hrun|]. split; [exact Hstate|].
  split; [exact Hidentity|].
  exact (Hpatterns 2%nat "cognitive"%string eq_refl).
Defined.

(** [process_cognitive_signal], called for each signal of a list in turn
    (CognitiveKernel.cpp, 79-101).  With hooks that do nothing, as the
    base class's, every call returns.  Afterwards the identity is
    unchanged, the counter is the counter before plus the number of
    signals (modulo 2^64), and, if there was a signal, the kernel is in
    [REFLECTING] and the memory holds the last signal under "last_signal",
    its resonance as text under "last_resonance" and the counter in
    decimal under "process_count". *)
Theorem process_signals_bookkeeping
    (hasher : string → Z) (double_to_string : float → string) (Derived : Type)
    (on_cognitive_process :
       string → CognitiveKernel.t Derived → Outcome (CognitiveKernel.t Derived) unit)
    (on_state_transition :
       CognitiveState → CognitiveState →
       CognitiveKernel.t Derived → Outcome (CognitiveKernel.t Derived) unit)
    (signals : list string) (k : CognitiveKernel.t Derived) :
  does_nothing Derived on_state_transition →
  (∀ signal_data k, on_cognitive_process signal_data k = Returns () k) →
  ∃ k',
    process_signals hasher double_to_string Derived on_cognitive_process
      on_state_transition signals k = Returns () k' ∧
    CognitiveKernel.echo_identity_ Derived k'
      = CognitiveKernel.echo_identity_ Derived k ∧
    CognitiveKernel.process_counter_ Derived k'
      = (if signals is [] then CognitiveKernel.process_counter_ Derived k
         else to_size_t (CognitiveKernel.process_counter_ Derived k
                         + Z.of_nat (length signals))) ∧
    ∀ signal_data,
      last signals = Some signal_data →
      CognitiveKernel.current_state_ Derived k' = REFLECTING ∧
      CognitiveMemory.retrieve "last_signal"
        (CognitiveKernel.cognitive_memory_ Derived k') = signal_data ∧
      CognitiveMemory.retrieve "last_resonance"
        (CognitiveKernel.cognitive_memory_ Derived k')
        = double_to_string
            (CognitiveKernel.calculate_resonance hasher Derived signal_data k) ∧
      CognitiveMemory.retrieve "process_count"
        (CognitiveKernel.cognitive_memory_ Derived k')
        = to_string (CognitiveKernel.process_counter_ Derived k').
Proof.
  intros Hquiet Hhook. revert k.
  induction signals as [|signal_data rest IH]; intros k.
  - exists k. by split_and!.
  - cbn [process_signals]. unfold bind.
    rewrite process_cognitive_signal_quiet, Hhook by done.
    set (k_in := CognitiveKernel.with_state Derived PROCESSING k).
    set (k1 := CognitiveKernel.with_state Derived REFLECTING
                 (at_hook hasher double_to_string Derived signal_data k_in)).
    destruct (at_hook_fields hasher double_to_string Derived signal_data k_in)
      as (Hid & _ & Hcount & Hlast & Hres & Hpc).
    destruct (IH k1) as (k' & Hrun & Hid' & Hcount' & Hlast').
    exists k'. split; [done|]. split; [by rewrite Hid'|].
    assert (CognitiveKernel.process_counter_ Derived k1
            = to_size_t (CognitiveKernel.process_counter_ Derived k + 1))
      as Hk1 by done.
    split.
    + rewrite Hcount', Hk1. destruct rest as [|next rest]; [done|].
      unfold to_size_t. rewrite Zplus_mod_idemp_l. f_equal.
      cbn [length]. lia.
    + intros last_signal Hl. destruct rest as [|next rest].
      * injection Hl as <-. injection Hrun as <-.
        subst k1.
        cbn [CognitiveKernel.with_state CognitiveKernel.cognitive_memory_
             CognitiveKernel.process_counter_ CognitiveKernel.current_state_] in *.
        split_and!; [done|done| |by rewrite Hpc, Hcount].
        rewrite Hres. reflexivity.
      * destruct (Hlast' last_signal Hl) as (? & ? & Hres' & ?).
        split_and!; [done..| |done].
        rewrite Hres'. reflexivity.
Qed.

Lemma process_signals_bookkeeping_witness :
  ∃ k',
    process_signals (λ _, 1) (λ _, EmptyString) unit silent_process
      silent_transition ["test signal data"; "more"]%string awakening_kernel
      = Returns () k' ∧
    CognitiveKernel.process_counter_ unit k' = 2 ∧
    CognitiveKernel.current_state_ unit k' = REFLECTING ∧
    CognitiveMemory.retrieve "last_signal"
      (CognitiveKernel.cognitive_memory_ unit k') = "more"%string.
Proof.
  destruct (process_signals_bookkeeping (λ _, 1) (λ _, EmptyString) unit
              silent_process silent_transition
              ["test signal data"; "more"]%string awakening_kernel)
    as (k' & Hrun & _ & Hcount & Hlast).
  - intros from to k. reflexivity.
  - intros signal_data k. reflexivity.
  - destruct (Hlast "more"%string eq_refl) as (Hstate & Hsignal & _).
    exists k'. split; [exact Hrun|]. split; [exact Hcount|].
    split; [exact Hstate|exact Hsignal].
Defined.

(** A failed attempt is recorded (CognitiveKernel.cpp, 79-101).  With a
    transition hook that does nothing, when the processing hook throws
    and leaves the object as it received it, [process_cognitive_signal]
    rethrows and restores the state, and nothing else: the counter stays
    incremented and the memory keeps the signal, its resonance and the
    count of the attempt that failed. *)
Theorem failed_attempt_is_recorded
    (hasher : string → Z) (double_to_string : float → string) (Derived : Type)
    (on_cognitive_process :
       string → CognitiveKernel.t Derived → Outcome (CognitiveKernel.t Derived) unit)
    (on_state_transition :
       CognitiveState → CognitiveState →
       CognitiveKernel.t Derived → Outcome (CognitiveKernel.t Derived) unit)
    (signal_data : string) (e : exception) (k : CognitiveKernel.t Derived) :
  does_nothing Derived on_state_transition →
  (∀ k, on_cognitive_process signal_data k = Throws e k) →
  ∃ k',
    CognitiveKernel.process_cognitive_signal hasher double_to_string Derived
      on_cognitive_process on_state_transition signal_data k = Throws e k' ∧
    CognitiveKernel.current_state_ Derived k'
      = CognitiveKernel.current_state_ Derived k ∧
    CognitiveKernel.process_counter_ Derived k'
      = to_size_t (CognitiveKernel.process_counter_ Derived k + 1) ∧
    CognitiveMemory.retrieve "last_signal"
      (CognitiveKernel.cognitive_memory_ Derived k') = signal_data ∧
    CognitiveMemory.retrieve "last_resonance"
      (CognitiveKernel.cognitive_memory_ Derived k')
      = double_to_string
          (CognitiveKernel.calculate_resonance hasher Derived signal_data k) ∧
    CognitiveMemory.retrieve "process_count"
      (CognitiveKernel.cognitive_memory_ Derived k')
      = to_string (to_size_t (CognitiveKernel.process_counter_ Derived k + 1)).
Proof.
  intros Hquiet Hhook.
  rewrite process_cognitive_signal_quiet, Hhook by done.
  set (k_in := CognitiveKernel.with_state Derived PROCESSING k).
  destruct (at_hook_fields hasher double_to_string Derived signal_data k_in)
    as (Hid & _ & Hcount & Hlast & Hres & Hpc).
  eexists. split; [done|]. split_and!; [done..| |done].
  cbn [CognitiveKernel.with_state CognitiveKernel.cognitive_memory_].
  rewrite Hres. reflexivity.
Qed.

Lemma failed_attempt_is_recorded_witness :
  ∃ k',
    CognitiveKernel.process_cognitive_signal (λ _, 1) (λ _, EmptyString) unit
      failing_hook silent_transition "signal" awakening_kernel
      = Throws (runtime_error "hook failed") k' ∧
    CognitiveKernel.current_state_ unit k' = AWAKENING ∧
    CognitiveKernel.process_counter_ unit k' = 1 ∧
    CognitiveMemory.retrieve "last_signal"
      (CognitiveKernel.cognitive_memory_ unit k') = "signal"%string.
Proof.
  destruct (failed_attempt_is_recorded (λ _, 1) (λ _, EmptyString) unit
              failing_hook silent_transition "signal"
              (runtime_error "hook failed") awakening_kernel)
    as (k' & Hrun & Hstate & Hcount & Hsignal & _).
  - intros from to k. reflexivity.
  - intros k. reflexivity.
  - exists k'. split; [exact Hrun|]. split; [exact Hstate|].
    split; [exact Hcount|exact Hsignal].
Defined.

(** * Reachability within any hop bound *)

Section Layers.
Context {X : Type} `{!SubstratePersistence.Interface X}.
Import HypergraphSubstrate.
Abbreviation substrate := (@HypergraphSubstrate.t X).
Abbreviation bfs := HypergraphSubstrate.bfs_state.

Variable edges : gmap EdgeId HyperEdge.t.

Lemma within_hops_mono k k' source n :
  (k ≤ k')%nat → within_hops edges k source n → within_hops edges k' source n.
Proof.
  induction 1 as [|k' _ IH]; [done|]. intros Hk. left. by apply IH.
Qed.

(** The rounds for the entries of one layer below the bound: they leave
    the queue, and their unvisited co-members enter it one hop further. *)
Lemma bfs_loop_layer hops max_hops L T v r :
  hops < max_hops →
  ∃ new,
    NoDup new ∧
    (∀ n, n ∈ new ↔ (n ∉ v) ∧ ∃ c, c ∈ L ∧ co_member edges c n) ∧
    ∀ fuel,
      bfs_loop (length L + fuel) edges max_hops
        (mk_bfs (((λ n, (n, hops)) <$> L) ++ T) v r)
      = bfs_loop fuel edges max_hops
          (mk_bfs (T ++ ((λ n, (n, hops + 1)) <$> new))
                  (list_to_set new ∪ v) (r ++ new)).
Proof.
  intros Hhops. revert T v r. induction L as [|c L IH]; intros T v r.
  - exists []. split_and!; [constructor|set_solver|].
    intros fuel. simpl. by rewrite !app_nil_r, (left_id_L ∅ (∪)).
  - destruct (expand_fields edges c hops (mk_bfs (((λ n, (n, hops)) <$> L) ++ T) v r))
      as (new1 & Hexp & Hnd1 & Hnew1). simpl in Hexp, Hnew1.
    rewrite <- app_assoc in Hexp.
    destruct (IH (T ++ ((λ n, (n, hops + 1)) <$> new1))
                 (list_to_set new1 ∪ v) (r ++ new1)) as (new2 & Hnd2 & Hnew2 & Hrun).
    exists (new1 ++ new2). split_and!.
    + apply NoDup_app. split_and!; [done| |done].
      intros n Hin1 Hin2. apply Hnew2 in Hin2 as [Hnv _]. set_solver.
    + intros n. rewrite elem_of_app, Hnew1, Hnew2. split.
      * intros [[Hc Hnv]|[Hnv (c' & Hc' & Hco)]].
        -- split; [done|]. exists c. split; [left|done].
        -- split; [set_solver|]. exists c'. split; [by right|done].
      * intros [Hnv (c' & [->|Hc']%elem_of_cons & Hco)]; [by left|].
        destruct (decide (n ∈ new1)) as [Hin|Hnin].
        -- left. by apply Hnew1.
        -- right. split; [set_solver|]. by exists c'.
    + intros fuel.
      cbn [length Nat.add bfs_loop fmap list_fmap app queue visited reachable].
      rewrite (proj2 (Z.leb_gt _ _)) by lia.
      rewrite Hexp, Hrun. f_equal. f_equal.
      * by rewrite fmap_app, app_assoc.
      * rewrite list_to_set_app_L. set_solver.
      * by rewrite app_assoc.
Qed.

(** Layer by layer: with the ids within [j] hops visited and the ids
    that may still have unvisited co-members in the queue at [j] hops,
    the loop adds to the result the unvisited ids within the bound. *)
Lemma bfs_loop_layers source k j L v r :
  (∀ n, n ∈ v ↔ within_hops edges j source n) →
  (∀ n, n ∈ L → n ∈ v) →
  (∀ n, n ∈ v → n ∈ L ∨ ∀ m, co_member edges n m → m ∈ v) →
  ∃ fuel result,
    bfs_loop fuel edges (Z.of_nat (j + k))
      (mk_bfs ((λ n, (n, Z.of_nat j)) <$> L) v r) = Some (r ++ result) ∧
    NoDup result ∧
    ∀ n, n ∈ result ↔ (n ∉ v) ∧ within_hops edges (j + k) source n.
Proof.
  revert j L v r. induction k as [|k IH]; intros j L v r Hv HL Hclosed.
  - exists (S (length ((λ n, (n, Z.of_nat j)) <$> L))), [].
    rewrite Nat.add_0_r, app_nil_r. split_and!; [|constructor|].
    + apply bfs_loop_skip. apply Forall_fmap, Forall_forall. intros n _. simpl. lia.
    + intros n. rewrite <- Hv. set_solver.
  - destruct (bfs_loop_layer (Z.of_nat j) (Z.of_nat (j + S k)) L [] v r)
      as (new & Hnd & Hnew & Hrun); [lia|].
    replace (Z.of_nat j + 1) with (Z.of_nat (S j)) in Hrun by lia.
    destruct (IH (S j) new (list_to_set new ∪ v) (r ++ new))
      as (fuel & result & Hrest & Hndr & Hresult).
    { intros n. rewrite elem_of_union, elem_of_list_to_set, Hnew. simpl.
      rewrite <- Hv. split.
      - intros [[_ (c & Hc & Hco)]|Hn]; [|by left].
        right. exists c. split; [|done]. by apply Hv, HL.
      - intros [Hn|(m & Hm & Hco)]; [by right|].
        apply Hv in Hm. destruct (decide (n ∈ v)) as [|Hnv]; [by right|].
        destruct (Hclosed m Hm) as [HmL|Hall].
        + left. split; [done|]. by exists m.
        + by destruct Hnv; apply Hall. }
    { intros n Hn. set_solver. }
    { intros n [Hn%elem_of_list_to_set|Hn]%elem_of_union; [by left|].
      right. intros m Hco. destruct (decide (m ∈ v)) as [|Hmv]; [set_solver|].
      destruct (Hclosed n Hn) as [HnL|Hall]; [|by destruct Hmv; apply Hall].
      apply elem_of_union. left. apply elem_of_list_to_set, Hnew.
      split; [done|]. by exists n. }
    exists (length L + fuel)%nat, (new ++ result). split_and!.
    + rewrite app_nil_r in Hrun. rewrite Hrun. simpl.
      replace (j + S k)%nat with (S j + k)%nat by lia.
      by rewrite Hrest, app_assoc.
    + apply NoDup_app. split_and!; [done| |done].
      intros n Hin1 Hin2. apply Hresult in Hin2 as [Hnv _]. set_solver.
    + intros n. rewrite elem_of_app, Hresult.
      replace (S j + k)%nat with (j + S k)%nat by lia. split.
      * intros [Hn|[Hnv Hw]]; [|split; [set_solver|done]].
        pose proof Hn as [Hnv (c & Hc & Hco)]%Hnew. split; [done|].
        apply (within_hops_mono (S j)); [lia|]. right. exists c.
        split; [|done]. by apply Hv, HL.
      * intros [Hnv Hw]. destruct (decide (n ∈ new)) as [|Hnn]; [by left|].
        right. split; [set_solver|done].
Qed.

Lemma bfs_loop_within_hops source (k : nat) :
  ∃ fuel result,
    bfs_loop fuel edges (Z.of_nat k) (bfs_init source) = Some result ∧
    NoDup result ∧
    ∀ n, n ∈ result ↔ n ≠ source ∧ within_hops edges k source n.
Proof.
  destruct (bfs_loop_layers source k 0 [source] {[source]} [])
    as (fuel & result & Hrun & Hnd & Hresult).
  - intros n. simpl. set_solver.
  - set_solver.
  - intros n Hn. left. set_solver.
  - exists fuel, result. split_and!; [done..|].
    intros n. rewrite Hresult. simpl. set_solver.
Qed.

End Layers.

Section ReachableNodes.
Context {X : Type} `{!SubstratePersistence.Interface X}.
Import HypergraphSubstrate.
Abbreviation substrate := (@HypergraphSubstrate.t X).

Lemma get_reachable_nodes_spec source max_hops (s : substrate) :
  ∃ reachable,
    get_reachable_nodes source max_hops s = Some reachable ∧
    NoDup reachable ∧
    ∀ n, n ∈ reachable ↔
         n ≠ source ∧ within_hops (edges_ s) (Z.to_nat max_hops) source n.
Proof.
  destruct (get_reachable_nodes_total source max_hops s) as [result' Hrun'].
  assert (∃ fuel result,
            bfs_loop fuel (edges_ s) max_hops (bfs_init source) = Some result ∧
            NoDup result ∧
            ∀ n, n ∈ result ↔
                 n ≠ source ∧ within_hops (edges_ s) (Z.to_nat max_hops) source n)
    as (fuel & result & Hrun & Hnd & Hres).
  { destruct (decide (max_hops ≤ 0)) as [Hle|Hgt].
    - exists 2%nat, []. split_and!; [|constructor|].
      + apply (bfs_loop_skip (edges_ s) max_hops [(source, 0)] {[source]} []).
        by repeat constructor.
      + intros n. replace (Z.to_nat max_hops) with 0%nat by lia. simpl.
        set_solver.
    - destruct (bfs_loop_within_hops (edges_ s) source (Z.to_nat max_hops))
        as (fuel & result & Hrun & ?).
      rewrite Z2Nat.id in Hrun by lia. by exists fuel, result. }
  exists result. split_and!; [|done..].
  rewrite Hrun'. unfold get_reachable_nodes in Hrun'.
  eapply bfs_loop_mono in Hrun; [|apply (Nat.le_max_l _ (bfs_fuel (edges_ s)))].
  eapply bfs_loop_mono in Hrun'; [|apply (Nat.le_max_r fuel)].
  congruence.
Qed.

End ReachableNodes.

(** [get_reachable_nodes] (HypergraphSubstrate.cpp, 461-492).  For every
    source and every hop bound the queue loop ends, and the vector it
    returns lists, each once, exactly the ids other than the source that
    a chain of at most [max_hops] hops connects to the source, a hop
    joining two distinct members of one stored edge.  With a bound of
    zero or less it is empty. *)
Theorem get_reachable_nodes_within_hops
    (X : Type) (I : SubstratePersistence.Interface X)
    (s : @HypergraphSubstrate.t X) (source : NodeId) (max_hops : Z) :
  ∃ reachable,
    HypergraphSubstrate.get_reachable_nodes source max_hops s = Some reachable ∧
    NoDup reachable ∧
    (∀ n, n ∈ reachable ↔
          n ≠ source ∧
          within_hops (HypergraphSubstrate.edges_ s) (Z.to_nat max_hops) source n) ∧
    (max_hops ≤ 0 → reachable = []).
Proof.
  destruct (get_reachable_nodes_spec source max_hops s)
    as (reachable & Hrun & Hnd & Hin).
  exists reachable. split_and!; [done..|].
  intros Hle. destruct reachable as [|n l]; [done|].
  destruct (proj1 (Hin n) (list_elem_of_here _ _)) as [Hne Hw].
  replace (Z.to_nat max_hops) with 0%nat in Hw by lia. done.
Qed.

(** [get_reachable_nodes] with its default bound and
    [get_connected_nodes] (HypergraphSubstrate.cpp, 237-252, 461-492;
    HypergraphSubstrate.h, 190).  On an unlocked substrate the ids
    reachable within one hop are the connected nodes: the two vectors
    hold the same ids, each once, the second in ascending order. *)
Theorem one_hop_reaches_the_connected_nodes
    (X : Type) (I : SubstratePersistence.Interface X)
    (s : @HypergraphSubstrate.t X) (id : NodeId) :
  unlocked s →
  ∃ reachable connected,
    HypergraphSubstrate.get_reachable_nodes id 1 s = Some reachable ∧
    HypergraphSubstrate.get_connected_nodes id s = Returns connected s ∧
    reachable ≡ₚ connected.
Proof.
  intros Hs.
  destruct (get_reachable_nodes_spec id 1 s) as (reachable & Hrun & Hnd & Hin).
  destruct (get_connected_nodes_spec id s Hs) as (connected & Hrun' & _ & Hnd' & Hin').
  exists reachable, connected. split_and!; [done..|].
  apply NoDup_Permutation; [done..|].
  intros n. rewrite Hin, Hin'. change (Z.to_nat 1) with 1%nat. simpl.
  unfold co_member. split.
  - intros [Hne [->|(m & -> & Hco)]]; [done|]. done.
  - intros (Hne & Hedge). split; [done|]. right. exists id. done.
Qed.

Lemma one_hop_reaches_the_connected_nodes_witness :
  ∃ reachable connected,
    HypergraphSubstrate.get_reachable_nodes "node2" 1 chain = Some reachable ∧
    HypergraphSubstrate.get_connected_nodes "node2" chain = Returns connected chain ∧
    reachable ≡ₚ connected.
Proof.
  exact (one_hop_reaches_the_connected_nodes Empty_set _ chain "node2" eq_refl).
Defined.

Section PropagationShape.
Context {X : Type} `{!SubstratePersistence.Interface X}.
Import HypergraphSubstrate.
Abbreviation substrate := (@HypergraphSubstrate.t X).

(** Whatever the source: the call returns, and a node differs from the
    node before by its activation level at most. *)
Lemma propagate_activation_shape source a (s : substrate) :
  unlocked s →
  ∃ s',
    propagate_activation source a s = Returns () s' ∧
    unlocked s' ∧ edges_ s' = edges_ s ∧ persistence_ s' = persistence_ s ∧
    ∀ n, HyperNode.set_activation_level 0 <$> nodes_ s' !! n
         = HyperNode.set_activation_level 0 <$> nodes_ s !! n.
Proof.
  intros Hs.
  destruct (nodes_ s !! source) as [src|] eqn:Hsrc;
    [|rewrite propagate_activation_absent by done; by exists s].
  unfold propagate_activation. rewrite lock_guard_unlocked by done.
  cbn [nodes_ with_mutex]. rewrite Hsrc. cbn zeta.
  set (s1 := with_nodes _ (with_mutex true s)).
  destruct (get_reachable_nodes_two_hops source s1) as (result & -> & Hnd & Hres).
  destruct (foldl_receive_activation a result s1 Hnd) as (Hm & He & Hp & Hn).
  unfold on_activation_propagation, ret.
  eexists. split; [reflexivity|].
  set (s2 := foldl (receive_activation a) s1 result) in *.
  split_and!; [done|by cbn; rewrite He|by cbn; rewrite Hp|].
  intros n. cbn [nodes_ with_mutex]. rewrite Hn.
  assert (HyperNode.set_activation_level 0 <$> nodes_ s1 !! n
          = HyperNode.set_activation_level 0 <$> nodes_ s !! n) as Hs1.
  { subst s1. cbn [nodes_ with_nodes with_mutex].
    destruct (decide (n = source)) as [->|Hne].
    - by rewrite lookup_insert_eq, Hsrc.
    - by rewrite lookup_insert_ne. }
  case_decide; [|done]. rewrite <- Hs1.
  by destruct (nodes_ s1 !! n).
Qed.

End PropagationShape.

(** [propagate_activation] changes activation levels only
    (HypergraphSubstrate.cpp, 317-342).  On an unlocked substrate the call
    returns for every source and every activation; afterwards the node
    table has the same keys, each node has its id, label, attributes and
    echo signature of before, the edge table and the persistence strategy
    are as before, and referential integrity, if it held, still holds. *)
Theorem propagate_activation_changes_levels_only
    (X : Type) (I : SubstratePersistence.Interface X)
    (s : @HypergraphSubstrate.t X) (source : NodeId) (activation : Weight) :
  unlocked s →
  ∃ s',
    HypergraphSubstrate.propagate_activation source activation s = Returns () s' ∧
    unlocked s' ∧
    dom (HypergraphSubstrate.nodes_ s') = dom (HypergraphSubstrate.nodes_ s) ∧
    (∀ n node', HypergraphSubstrate.nodes_ s' !! n = Some node' →
       ∃ node, HypergraphSubstrate.nodes_ s !! n = Some node ∧
               HyperNode.id node' = HyperNode.id node ∧
               HyperNode.label node' = HyperNode.label node ∧
               HyperNode.attributes node' = HyperNode.attributes node ∧
               HyperNode.echo_signature node' = HyperNode.echo_signature node) ∧
    HypergraphSubstrate.edges_ s' = HypergraphSubstrate.edges_ s ∧
    HypergraphSubstrate.persistence_ s' = HypergraphSubstrate.persistence_ s ∧
    (referential_integrity s → referential_integrity s').
Proof.
  intros Hs.
  destruct (propagate_activation_shape source activation s Hs)
    as (s' & Hrun & Hs' & He & Hp & Hn).
  exists s'. split_and!; [done..| | |done|done|].
  - apply set_eq. intros n. rewrite !elem_of_dom. specialize (Hn n).
    destruct (HypergraphSubstrate.nodes_ s' !! n),
             (HypergraphSubstrate.nodes_ s !! n); naive_solver.
  - intros n node' Hnode'. specialize (Hn n). rewrite Hnode' in Hn.
    destruct (HypergraphSubstrate.nodes_ s !! n) as [node|]; [|done].
    exists node. split; [done|].
    destruct node, node'. unfold HyperNode.set_activation_level in Hn.
    simpl in *. by injection Hn as -> -> -> ->.
  - intros HRI edge_id edge node_id. rewrite He. intros Hedge Hin.
    specialize (Hn node_id). destruct (HRI edge_id edge node_id Hedge Hin) as [node Hnode].
    rewrite Hnode in Hn. by destruct (HypergraphSubstrate.nodes_ s' !! node_id).
Qed.

Lemma propagate_activation_changes_levels_only_witness :
  ∃ s',
    HypergraphSubstrate.propagate_activation "node1" 1 chain = Returns () s' ∧
    dom (HypergraphSubstrate.nodes_ s') = dom (HypergraphSubstrate.nodes_ chain) ∧
    HypergraphSubstrate.edges_ s' = HypergraphSubstrate.edges_ chain.
Proof.
  destruct (propagate_activation_changes_levels_only Empty_set _ chain
              "node1" 1%float eq_refl)
    as (s' & Hrun & _ & Hdom & _ & Hedges & _).
  exists s'. split; [exact Hrun|]. split; [exact Hdom|exact Hedges].
Defined.

(** * The processors *)

Local Set Default Proof Using "Type".

Section MapperTheory.
Context {F : Type} `{!core.FlowFile F}.
Variable hasher : string → Z.
Variable double_to_string : float → string.
Variable getName : string.
Variable getUUIDStr : string.
Import HypergraphMapperProcessor.
Abbreviation mapper := (@HypergraphMapperProcessor.t F).
Abbreviation substrate := (@HypergraphSubstrate.t Empty_set).

Lemma on_substrate_locked {A} (body : substrate → Outcome substrate A) (p : mapper) :
  ¬ idle p →
  on_substrate (HypergraphSubstrate.lock_guard body) p = Deadlock.
Proof.
  unfold idle, unlocked, on_substrate. intros Hlocked.
  rewrite lock_guard_locked; [done|]. by destruct (HypergraphSubstrate.substrate_mutex_ _).
Qed.

Lemma with_substrate_same (p : mapper) : with_substrate (substrate_ p) p = p.
Proof. by destruct p. Qed.

Lemma add_node_grows node (p : mapper) :
  idle p →
  ∃ added p',
    on_substrate (HypergraphSubstrate.add_node node) p = Returns added p' ∧
    idle p' ∧ node_ids p ⊆ node_ids p' ∧ HyperNode.id node ∈ node_ids p' ∧
    (added = true → HyperNode.id node ∉ node_ids p) ∧
    (added = false → p' = p) ∧
    cognitive_kernel_ p' = cognitive_kernel_ p ∧
    flow_file_ p' = flow_file_ p.
Proof.
  clear hasher getUUIDStr.
  intros Hp. unfold on_substrate, node_ids, idle in *.
  rewrite add_node_spec by done.
  destruct (HypergraphSubstrate.nodes_ (substrate_ p) !! HyperNode.id node)
    as [stored|] eqn:Hid.
  - exists false, p. rewrite with_substrate_same.
    split_and!; [done..| |done|done|done|done].
    apply elem_of_dom. eauto.
  - eexists true, _. split; [done|]. cbn. fields.
    split_and!; [done| | |by intros _; apply not_elem_of_dom|done|done|done].
    + rewrite dom_insert_L. set_solver.
    + rewrite dom_insert_L. set_solver.
Qed.

Lemma add_edge_keeps edge (p : mapper) :
  idle p →
  HyperEdge.connected_nodes edge ⊆ node_ids p →
  ∃ added p',
    on_substrate (HypergraphSubstrate.add_edge edge) p = Returns added p' ∧
    idle p' ∧ node_ids p' = node_ids p ∧
    cognitive_kernel_ p' = cognitive_kernel_ p ∧
    flow_file_ p' = flow_file_ p.
Proof.
  clear hasher.
  intros Hp Hmembers. unfold on_substrate, node_ids, idle in *.
  destruct (HypergraphSubstrate.edges_ (substrate_ p) !! HyperEdge.id edge)
    as [stored|] eqn:Hid.
  - rewrite add_edge_duplicate by eauto. exists false, p.
    by rewrite with_substrate_same.
  - rewrite add_edge_valid; [|done..|].
    + eexists true, _. split; [done|]. cbn. fields. done.
    + intros n Hn. apply elem_of_dom. set_solver.
Qed.

Lemma idle_or_not (p : mapper) : idle p ∨ ¬ idle p.
Proof.
  unfold idle, unlocked.
  destruct (HypergraphSubstrate.substrate_mutex_ (substrate_ p)); [by right|by left].
Qed.

Lemma on_substrate_read {A} (f : substrate → A) (p : mapper) :
  idle p → f (HypergraphSubstrate.with_mutex true (substrate_ p)) = f (substrate_ p) →
  on_substrate (HypergraphSubstrate.lock_guard (λ s, Returns (f s) s)) p
  = Returns (f (substrate_ p)) p.
Proof.
  intros Hp Hf. unfold on_substrate. rewrite lock_guard_read by done.
  by rewrite with_substrate_same.
Qed.

Lemma get_connected_nodes_mapper id (p : mapper) :
  idle p →
  ∃ connected,
    on_substrate (HypergraphSubstrate.get_connected_nodes id) p
    = Returns connected p.
Proof.
  intros Hp. unfold on_substrate.
  rewrite get_connected_nodes_returns by done.
  rewrite with_substrate_same. eauto.
Qed.

Lemma find_nodes_by_attribute_mapper key value (p : mapper) :
  idle p →
  ∃ matches,
    on_substrate (HypergraphSubstrate.find_nodes_by_attribute key value) p
    = Returns matches p ∧
    ∀ n, n ∈ matches → n ∈ node_ids p.
Proof.
  intros Hp. unfold on_substrate.
  rewrite find_nodes_by_attribute_returns by done.
  rewrite with_substrate_same. eexists. split; [done|].
  intros n (node & Hnode & _)%elem_of_filter_keys.
  apply elem_of_dom. eauto.
Qed.

Lemma propagate_activation_mapper source a (p : mapper) :
  idle p →
  ∃ p',
    on_substrate (HypergraphSubstrate.propagate_activation source a) p
    = Returns () p' ∧
    idle p' ∧ node_ids p' = node_ids p ∧
    cognitive_kernel_ p' = cognitive_kernel_ p ∧
    flow_file_ p' = flow_file_ p.
Proof.
  clear hasher double_to_string.
  intros Hp. unfold on_substrate, idle, node_ids in *.
  destruct (propagate_activation_shape source a (substrate_ p) Hp)
    as (s' & -> & Hs' & _ & _ & Hn).
  eexists. split; [done|]. cbn. split_and!; [done| |done|done].
  apply set_eq. intros n. rewrite !elem_of_dom. specialize (Hn n).
  destruct (HypergraphSubstrate.nodes_ s' !! n),
           (HypergraphSubstrate.nodes_ (substrate_ p) !! n); naive_solver.
Qed.

(** The steps of the [try] block before [add_hypergraph_attributes]
    return on an idle mapper and leave it idle. *)
Lemma add_word_nodes_returns unique_words content_related_nodes (p : mapper) :
  idle p → content_related_nodes ⊆ node_ids p →
  ∃ related p',
    add_word_nodes unique_words content_related_nodes p = Returns related p' ∧
    idle p' ∧ node_ids p ⊆ node_ids p' ∧ related ⊆ node_ids p' ∧
    cognitive_kernel_ p' = cognitive_kernel_ p ∧
    flow_file_ p' = flow_file_ p.
Proof.
  clear hasher.
  revert content_related_nodes p.
  induction unique_words as [|unique_word rest IH];
    intros related p Hp Hrelated; cbn [add_word_nodes].
  - exists related, p. by split_and!.
  - unfold bind.
    destruct (add_node_grows (word_node unique_word) p Hp)
      as (added & p1 & -> & Hp1 & Hsub & Hin & _ & _ & Hk & Hf).
    destruct (IH (if added then {["word_" +:+ unique_word]} ∪ related else related) p1)
      as (related' & p' & -> & Hp' & Hsub' & Hrelated' & Hk' & Hf'); [done| |].
    + destruct added; set_solver.
    + exists related', p'. split_and!; [done|done|set_solver|done|congruence..].
Qed.

Lemma fetch_add_edge_counter_returns (p : mapper) :
  ∃ p',
    fetch_add_edge_counter p = Returns (edge_counter_ p) p' ∧
    substrate_ p' = substrate_ p ∧
    cognitive_kernel_ p' = cognitive_kernel_ p ∧
    flow_file_ p' = flow_file_ p.
Proof. by eexists. Qed.

Lemma create_content_node_returns content flow_id (p : mapper) :
  idle p →
  ∃ p',
    create_content_node hasher content flow_id p = Returns () p' ∧
    idle p' ∧ node_ids p ⊆ node_ids p' ∧
    flow_id +:+ "_content" ∈ node_ids p' ∧
    cognitive_kernel_ p' = cognitive_kernel_ p ∧
    flow_file_ p' = flow_file_ p.
Proof.
  intros Hp. unfold create_content_node, bind.
  destruct (add_node_grows
              (content_node hasher content flow_id
                 (CognitiveKernel.echo_identity_ unit (cognitive_kernel_ p))) p Hp)
    as (added & p1 & -> & Hp1 & Hsub1 & Hin1 & _ & _ & Hk1 & Hf1).
  cbn [HyperNode.id content_node] in Hin1.
  destruct (add_word_nodes_returns (elements (significant_words content))
              {[flow_id +:+ "_content"]} p1)
    as (related & p2 & -> & Hp2 & Hsub2 & Hrelated & Hk2 & Hf2); [done|set_solver|].
  destruct (1 <? size related)%nat.
  - destruct (fetch_add_edge_counter_returns p2) as (p3 & -> & Hs3 & Hk3 & Hf3).
    destruct (add_edge_keeps
                (content_edge flow_id (edge_counter_ p2) related) p3)
      as (added' & p4 & -> & Hp4 & Hids4 & Hk4 & Hf4).
    + unfold idle. by rewrite Hs3.
    + unfold node_ids. by rewrite Hs3.
    + unfold ret. exists p4. unfold node_ids in *. rewrite Hs3 in Hids4.
      split_and!; [done|done|set_solver|set_solver|congruence..].
  - unfold ret. exists p2. split_and!; [done|done|set_solver|set_solver|congruence..].
Qed.

Lemma add_attribute_nodes_returns flow_id attributes attribute_nodes (p : mapper) :
  idle p → flow_id +:+ "_content" ∈ node_ids p → attribute_nodes ⊆ node_ids p →
  ∃ nodes p',
    add_attribute_nodes flow_id attributes attribute_nodes p = Returns nodes p' ∧
    idle p' ∧ node_ids p ⊆ node_ids p' ∧ nodes ⊆ node_ids p' ∧
    cognitive_kernel_ p' = cognitive_kernel_ p ∧
    flow_file_ p' = flow_file_ p.
Proof.
  clear hasher.
  revert attribute_nodes p.
  induction attributes as [|[attr_name attr_value] rest IH];
    intros nodes p Hp Hcontent Hnodes; cbn [add_attribute_nodes].
  - exists nodes, p. by split_and!.
  - case_bool_decide; [|by apply IH].
    unfold bind.
    destruct (add_node_grows (attr_node flow_id attr_name attr_value) p Hp)
      as (added & p1 & -> & Hp1 & Hsub1 & Hin1 & _ & Hsame & Hk1 & Hf1).
    cbn [HyperNode.id attr_node] in Hin1.
    destruct added.
    + destruct (add_edge_keeps (attr_edge flow_id attr_name) p1)
        as (added' & p2 & -> & Hp2 & Hids2 & Hk2 & Hf2); [done| |].
      { cbn [HyperEdge.connected_nodes attr_edge]. set_solver. }
      destruct (IH ({[flow_id +:+ "_attr_" +:+ attr_name]} ∪ nodes) p2)
        as (nodes' & p' & -> & Hp' & Hsub' & Hnodes' & Hk' & Hf');
        [done|set_solver|set_solver|].
      exists nodes', p'. split_and!; [done|done|set_solver|done|congruence..].
    + rewrite (Hsame eq_refl). by apply IH.
Qed.

Lemma create_attribute_nodes_returns flow_id (p : mapper) :
  idle p → flow_id +:+ "_content" ∈ node_ids p →
  ∃ p',
    create_attribute_nodes flow_id p = Returns () p' ∧
    idle p' ∧ node_ids p ⊆ node_ids p' ∧
    cognitive_kernel_ p' = cognitive_kernel_ p ∧
    flow_file_ p' = flow_file_ p.
Proof.
  clear hasher.
  intros Hp Hcontent. unfold create_attribute_nodes, bind.
  destruct (add_attribute_nodes_returns flow_id (core.getAttributes (flow_file_ p))
              ∅ p Hp Hcontent)
    as (nodes & p1 & -> & Hp1 & Hsub1 & Hnodes & Hk1 & Hf1); [set_solver|].
  destruct (1 <? size nodes)%nat.
  - destruct (fetch_add_edge_counter_returns p1) as (p2 & -> & Hs2 & Hk2 & Hf2).
    destruct (add_edge_keeps
                (attr_cluster_edge flow_id (edge_counter_ p1)
                   ({[flow_id +:+ "_content"]} ∪ nodes)) p2)
      as (added' & p3 & -> & Hp3 & Hids3 & Hk3 & Hf3).
    + unfold idle. by rewrite Hs2.
    + unfold node_ids. rewrite Hs2.
      cbn [HyperEdge.connected_nodes attr_cluster_edge]. set_solver.
    + unfold ret. exists p3. unfold node_ids in *. rewrite Hs2 in Hids3.
      split_and!; [done|done|set_solver|congruence..].
  - unfold ret. exists p1. by split_and!.
Qed.

Lemma collect_similar_returns main_node_id similar_content_nodes similar_cluster
    (p : mapper) :
  idle p → similar_cluster ⊆ node_ids p →
  (∀ n, n ∈ similar_content_nodes → n ∈ node_ids p) →
  ∃ cluster,
    collect_similar main_node_id similar_content_nodes similar_cluster p
    = Returns cluster p ∧
    cluster ⊆ node_ids p.
Proof.
  clear hasher.
  intros Hp. revert similar_cluster.
  induction similar_content_nodes as [|similar_node rest IH];
    intros cluster Hcluster Hnodes; cbn [collect_similar].
  - by exists cluster.
  - assert (∀ n, n ∈ rest → n ∈ node_ids p) as Hrest
      by (intros n Hn; apply Hnodes; by right).
    case_bool_decide; [|by apply IH].
    unfold bind.
    destruct (get_connected_nodes_mapper main_node_id p Hp) as [this_neighbors ->].
    destruct (get_connected_nodes_mapper similar_node p Hp) as [other_neighbors ->].
    apply IH; [|done].
    case_match; [|done].
    assert (similar_node ∈ node_ids p) by (apply Hnodes; left).
    set_solver.
Qed.

Lemma analyze_relationships_returns flow_id (p : mapper) :
  idle p → flow_id +:+ "_content" ∈ node_ids p →
  ∃ p',
    analyze_relationships flow_id p = Returns () p' ∧
    idle p' ∧
    cognitive_kernel_ p' = cognitive_kernel_ p.
Proof.
  clear hasher.
  intros Hp Hcontent. unfold analyze_relationships, bind.
  destruct (propagate_activation_mapper (flow_id +:+ "_content") 1%float p Hp)
    as (p1 & -> & Hp1 & Hids1 & Hk1 & Hf1).
  destruct (find_nodes_by_attribute_mapper "type" "content" p1 Hp1)
    as (similar_content_nodes & -> & Hsimilar).
  destruct (find_nodes_by_attribute_mapper "type" "word" p1 Hp1)
    as (similar_words & -> & _).
  destruct (collect_similar_returns (flow_id +:+ "_content") similar_content_nodes
              {[flow_id +:+ "_content"]} p1 Hp1)
    as (cluster & -> & Hcluster); [set_solver|done|].
  destruct (1 <? size cluster)%nat.
  - destruct (fetch_add_edge_counter_returns p1) as (p2 & -> & Hs2 & Hk2 & Hf2).
    destruct (add_edge_keeps
                (similarity_edge flow_id (edge_counter_ p1) cluster) p2)
      as (added' & p3 & -> & Hp3 & Hids3 & Hk3 & Hf3).
    + unfold idle. by rewrite Hs2.
    + unfold node_ids. by rewrite Hs2.
    + unfold add_attribute. eexists. split; [done|]. cbn.
      split; [done|]. congruence.
  - unfold ret. exists p1. by split_and!.
Qed.

(** [add_hypergraph_attributes]: on a locked substrate the first call
    blocks, on an unlocked one the call for the clustering coefficient. *)
Lemma add_hypergraph_attributes_blocks node_id now (p : mapper) :
  add_hypergraph_attributes double_to_string getUUIDStr node_id now p = Deadlock.
Proof.
  unfold add_hypergraph_attributes, bind.
  destruct (idle_or_not p) as [Hp|Hp].
  - unfold on_substrate at 1.
    rewrite node_count_returns by done. rewrite with_substrate_same.
    unfold add_attribute at 1.
    set (p1 := with_flow_file _ p).
    assert (idle p1) as Hp1 by done.
    unfold on_substrate at 1.
    rewrite edge_count_returns by done. rewrite with_substrate_same.
    unfold add_attribute at 1.
    set (p2 := with_flow_file _ p1).
    assert (idle p2) as Hp2 by done.
    unfold on_substrate at 1.
    rewrite calculate_substrate_density_spec by done. rewrite with_substrate_same.
    unfold add_attribute at 1.
    set (p3 := with_flow_file _ p2).
    assert (idle p3) as Hp3 by done.
    destruct (get_connected_nodes_mapper (node_id +:+ "_content") p3 Hp3)
      as [connected_nodes ->].
    unfold on_substrate at 1.
    rewrite get_incident_edges_returns by done. rewrite with_substrate_same.
    unfold add_attribute at 1. unfold add_attribute at 1.
    unfold on_substrate at 1.
    by rewrite calculate_clustering_coefficient_blocks.
  - unfold HypergraphSubstrate.node_count. by rewrite on_substrate_locked.
Qed.

Lemma process_cognitive_signal_mapper content (p : mapper) :
  ∃ k,
    on_kernel (CognitiveProcessor.process_cognitive_signal hasher double_to_string
                 content) p
    = Returns () (with_cognitive_kernel k p).
Proof.
  unfold on_kernel, CognitiveProcessor.on_kernel,
    CognitiveProcessor.process_cognitive_signal.
  rewrite process_cognitive_signal_quiet by done.
  unfold CognitiveProcessor.on_cognitive_process, ret. eauto.
Qed.

(** The [try] block never gets as far as the routing. *)
Lemma process_attempt_blocks content now (p : mapper) :
  process_attempt hasher double_to_string getUUIDStr content now p = Deadlock.
Proof.
  unfold process_attempt, bind.
  destruct (process_cognitive_signal_mapper content p) as [k ->].
  set (p0 := with_cognitive_kernel k p).
  destruct (idle_or_not p0) as [Hp|Hp].
  - destruct (create_content_node_returns content
                (core.getUUIDStr (flow_file_ p0)) p0 Hp)
      as (p1 & -> & Hp1 & _ & Hcontent & _ & Hf1).
    destruct (create_attribute_nodes_returns
                (core.getUUIDStr (flow_file_ p0)) p1 Hp1 Hcontent)
      as (p2 & -> & Hp2 & Hsub2 & _ & _).
    destruct (analyze_relationships_returns
                (core.getUUIDStr (flow_file_ p0)) p2 Hp2)
      as (p3 & -> & _); [set_solver|].
    by rewrite add_hypergraph_attributes_blocks.
  - unfold create_content_node, bind, HypergraphSubstrate.add_node.
    by rewrite on_substrate_locked.
Qed.

End MapperTheory.

(** [HypergraphMapperProcessor::add_hypergraph_attributes]
    (HypergraphMapperProcessor.cpp, 257-294).  The call never returns,
    whatever the flow file, the substrate and the node id: it asks the
    substrate for the clustering coefficient of the node, and that call
    blocks on the substrate's mutex.  No attribute after
    "hypergraph.incident_edges" is ever added. *)
Theorem add_hypergraph_attributes_never_returns
    (F : Type) (I : core.FlowFile F)
    (double_to_string : float → string) (getUUIDStr : string)
    (node_id : string) (now : Z) (p : @HypergraphMapperProcessor.t F) :
  HypergraphMapperProcessor.add_hypergraph_attributes double_to_string getUUIDStr
    node_id now p = Deadlock.
Proof. apply add_hypergraph_attributes_blocks. Qed.

(** [HypergraphMapperProcessor::process_with_hypergraph] under
    [CognitiveProcessor::onTrigger] (HypergraphMapperProcessor.cpp,
    39-108; HypergraphSubstrate.cpp, 522-527; CognitiveKernel.cpp,
    157-173).  Without a flow file the call returns at once and the
    trigger leaves the kernel in [REFLECTING].  With a flow file the call
    never returns, whatever the flow file, its content and the state of
    the processor: the kernel processes the content, the nodes and edges
    are created and the relationships analysed without any exception, and
    then [add_hypergraph_attributes] blocks.  No flow file is ever
    transferred, to no relationship. *)
Theorem mapper_never_finishes_a_flow_file
    (F : Type) (I : core.FlowFile F)
    (hasher : string → Z) (double_to_string : float → string)
    (getUUIDStr : string)
    (flow_file : F) (content : string) (now : Z)
    (p : @HypergraphMapperProcessor.t F) :
  HypergraphMapperProcessor.process_with_hypergraph hasher double_to_string
    getUUIDStr (Some flow_file) content now p = Deadlock ∧
  HypergraphMapperProcessor.onTrigger hasher double_to_string getUUIDStr
    (Some flow_file) content now p = Deadlock ∧
  HypergraphMapperProcessor.process_with_hypergraph hasher double_to_string
    getUUIDStr None content now p = Returns () p ∧
  ∃ p',
    HypergraphMapperProcessor.onTrigger hasher double_to_string getUUIDStr
      None content now p = Returns () p' ∧
    CognitiveKernel.current_state_ unit
      (HypergraphMapperProcessor.cognitive_kernel_ p') = REFLECTING ∧
    HypergraphMapperProcessor.transfers_ p' = HypergraphMapperProcessor.transfers_ p.
Proof.
  assert (HypergraphMapperProcessor.process_with_hypergraph hasher double_to_string
            getUUIDStr (Some flow_file) content now p = Deadlock) as Hblocks.
  { unfold HypergraphMapperProcessor.process_with_hypergraph.
    by rewrite process_attempt_blocks. }
  split; [done|].
  unfold HypergraphMapperProcessor.onTrigger, CognitiveProcessor.onTrigger,
    HypergraphMapperProcessor.process_with_cognition, bind,
    CognitiveProcessor.on_kernel, CognitiveProcessor.set_cognitive_state.
  rewrite !set_cognitive_state_quiet by done.
  split_and!.
  - unfold HypergraphMapperProcessor.process_with_hypergraph.
    by rewrite process_attempt_blocks.
  - done.
  - cbn [HypergraphMapperProcessor.process_with_hypergraph ret
         HypergraphMapperProcessor.cognitive_kernel_
         HypergraphMapperProcessor.with_cognitive_kernel].
    rewrite set_cognitive_state_quiet by done.
    eexists. split; [done|]. done.
Qed.

(** [CognitiveProcessor::onTrigger] (CognitiveKernel.cpp, 157-173).  For
    every derived class: [process_with_cognition] is handed a kernel in
    [PROCESSING].  When it returns, the trigger returns and leaves the
    kernel in [REFLECTING].  When it throws a [std::exception], the trigger
    throws the same exception and leaves the kernel in [DORMANT].  When it
    throws anything else, the handler does not take it: the trigger lets
    it through and the object stays as [process_with_cognition] left it,
    in [PROCESSING] unless that method changed the state itself. *)
Theorem onTrigger_final_state
    (W : Type) (cognitive_kernel : W → CognitiveKernel.t unit)
    (with_cognitive_kernel : CognitiveKernel.t unit → W → W)
    (process_with_cognition : W → Outcome W unit) (w : W) :
  (∀ k w, cognitive_kernel (with_cognitive_kernel k w) = k) →
  ∃ w_in,
    CognitiveKernel.current_state_ unit (cognitive_kernel w_in) = PROCESSING ∧
    match CognitiveProcessor.onTrigger W cognitive_kernel with_cognitive_kernel
            process_with_cognition w with
    | Returns _ w' =>
        (∃ w_out, process_with_cognition w_in = Returns () w_out) ∧
        CognitiveKernel.current_state_ unit (cognitive_kernel w') = REFLECTING
    | Throws ex w' =>
        ∃ w_out,
          process_with_cognition w_in = Throws ex w_out ∧
          if is_std_exception ex
          then CognitiveKernel.current_state_ unit (cognitive_kernel w') = DORMANT
          else w' = w_out
    | Deadlock => process_with_cognition w_in = Deadlock
    | Diverges => process_with_cognition w_in = Diverges
    end.
Proof.
  intros Hlens.
  exists (with_cognitive_kernel
            (CognitiveKernel.with_state unit PROCESSING (cognitive_kernel w)) w).
  split; [by rewrite Hlens|].
  unfold CognitiveProcessor.onTrigger, bind, CognitiveProcessor.on_kernel,
    CognitiveProcessor.set_cognitive_state.
  rewrite set_cognitive_state_quiet by done.
  destruct (process_with_cognition _) as [[] w1|ex w1| |]; [| |done|done].
  - rewrite set_cognitive_state_quiet by done.
    split; [by eexists|]. by rewrite Hlens.
  - destruct (is_std_exception ex) eqn:Hstd.
    + rewrite set_cognitive_state_quiet by done.
      exists w1. rewrite Hstd. split; [done|]. by rewrite Hlens.
    + exists w1. by rewrite Hstd.
Qed.

Lemma onTrigger_final_state_witness :
  (∃ k',
     CognitiveProcessor.onTrigger (CognitiveKernel.t unit) id (λ k _, k)
       (failing_hook "signal") awakening_kernel
     = Throws (runtime_error "hook failed") k' ∧
     CognitiveKernel.current_state_ unit k' = DORMANT) ∧
  (∃ k',
     CognitiveProcessor.onTrigger (CognitiveKernel.t unit) id (λ k _, k)
       throws_an_int awakening_kernel
     = Throws (not_std_exception "42") k' ∧
     CognitiveKernel.current_state_ unit k' = PROCESSING).
Proof.
  split.
  - destruct (onTrigger_final_state (CognitiveKernel.t unit) id
                (λ k _, k) (failing_hook "signal") awakening_kernel
                (λ k w, eq_refl))
      as (w_in & _ & Hrun).
    destruct (CognitiveProcessor.onTrigger (CognitiveKernel.t unit) id (λ k _, k)
                (failing_hook "signal") awakening_kernel)
      as [a k'|ex k'| |] eqn:Htrigger.
    + destruct Hrun as [[w_out Hout] _]. discriminate Hout.
    + destruct Hrun as (w_out & Hout & Hstate). injection Hout as <- _.
      exists k'. split; [reflexivity|exact Hstate].
    + discriminate Hrun.
    + discriminate Hrun.
  - destruct (onTrigger_final_state (CognitiveKernel.t unit) id
                (λ k _, k) throws_an_int awakening_kernel (λ k w, eq_refl))
      as (w_in & Hin & Hrun).
    destruct (CognitiveProcessor.onTrigger (CognitiveKernel.t unit) id (λ k _, k)
                throws_an_int awakening_kernel)
      as [a k'|ex k'| |] eqn:Htrigger.
    + destruct Hrun as [[w_out Hout] _]. discriminate Hout.
    + destruct Hrun as (w_out & Hout & Hstate). injection Hout as <- <-.
      exists k'. split; [reflexivity|]. cbn in Hstate. rewrite Hstate. exact Hin.
    + discriminate Hrun.
    + discriminate Hrun.
Defined.

Section EchoTheory.
Context {F : Type} `{!core.FlowFile F}.
Variable hasher : string → Z.
Variable double_to_string : float → string.
Variable getProcessorType : string.
Variable clone : F → option F.
Import CognitiveEchoProcessor.
Abbreviation echo := (@CognitiveEchoProcessor.t F).

Lemma echo_process_attempt content now (p : echo) :
  let resonance :=
    CognitiveKernel.calculate_resonance hasher unit content (cognitive_kernel_ p) in
  let marked :=
    add_cognitive_attributes double_to_string getProcessorType resonance
      "reflecting" now p (flow_file_ p) in
  ∃ p',
    process_attempt hasher double_to_string getProcessorType clone content now p
    = Returns () p' ∧
    flow_file_ p' = marked ∧
    transfers_ p' =
      transfers_ p ++
      (marked, if (resonance_threshold_ p <=? resonance)%float
               then HighResonance else LowResonance)
      :: match clone marked with
         | Some success_flow => [(success_flow, Success)]
         | None => []
         end ∧
    CognitiveKernel.current_state_ unit (cognitive_kernel_ p') = REFLECTING ∧
    CognitiveKernel.echo_identity_ unit (cognitive_kernel_ p')
      = CognitiveKernel.echo_identity_ unit (cognitive_kernel_ p) ∧
    (memory_store_enabled_ p = true →
     CognitiveMemory.retrieve "last_processed_uuid"
       (CognitiveKernel.cognitive_memory_ unit (cognitive_kernel_ p'))
       = core.getUUIDStr marked ∧
     CognitiveMemory.retrieve "last_content_hash"
       (CognitiveKernel.cognitive_memory_ unit (cognitive_kernel_ p'))
       = to_string (to_size_t (hasher content))).
Proof.
  intros resonance marked. unfold process_attempt, bind, on_kernel,
    CognitiveProcessor.on_kernel, CognitiveProcessor.process_cognitive_signal.
  rewrite process_cognitive_signal_quiet by done.
  unfold CognitiveProcessor.on_cognitive_process, ret.
  cbn [cognitive_kernel_ with_cognitive_kernel with_flow_file flow_file_
       memory_store_enabled_ resonance_threshold_ echo_pattern_ transfers_
       CognitiveKernel.get_cognitive_state CognitiveKernel.with_state
       CognitiveKernel.current_state_ cognitive_state_str].
  fold resonance. 
  change (add_cognitive_attributes double_to_string getProcessorType
            (CognitiveProcessor.calculate_resonance hasher content _)
            "reflecting" now _ (flow_file_ p)) with marked.
  change (CognitiveProcessor.calculate_resonance hasher content _) with resonance.
  destruct (memory_store_enabled_ p) eqn:Hstore.
  - unfold store, transfer.
    cbn [cognitive_kernel_ with_cognitive_kernel with_flow_file flow_file_
         memory_store_enabled_ resonance_threshold_ echo_pattern_ transfers_].
    destruct (resonance_threshold_ p <=? resonance)%float;
      cbn [cognitive_kernel_ with_cognitive_kernel with_flow_file flow_file_
           memory_store_enabled_ resonance_threshold_ echo_pattern_ transfers_];
      destruct (clone marked) as [success_flow|];
      (eexists; split; [reflexivity|];
       cbn [cognitive_kernel_ flow_file_ transfers_];
       split_and!; [done|by rewrite <- ?app_assoc|done|done|];
       intros _; rewrite !recalls_remember; by repeat case_decide).
  - unfold transfer.
    cbn [cognitive_kernel_ with_cognitive_kernel with_flow_file flow_file_
         memory_store_enabled_ resonance_threshold_ echo_pattern_ transfers_].
    destruct (resonance_threshold_ p <=? resonance)%float;
      cbn [cognitive_kernel_ with_cognitive_kernel with_flow_file flow_file_
           memory_store_enabled_ resonance_threshold_ echo_pattern_ transfers_];
      destruct (clone marked) as [success_flow|];
      (eexists; split; [reflexivity|];
       cbn [cognitive_kernel_ flow_file_ transfers_];
       split_and!; [done|by rewrite <- ?app_assoc|done|done|done]).
Qed.

End EchoTheory.

(** [CognitiveEchoProcessor::process_with_cognition] and
    [add_cognitive_attributes] (CognitiveEchoProcessor.cpp, 45-145).  For
    every flow file the call returns, and its [catch] block is never
    entered.  The flow file is given the attributes of
    [add_cognitive_attributes] for the resonance of its content, and the
    state written under "cognitive.state" is always "reflecting": the
    kernel has just processed the content.  The flow file goes to
    [HighResonance] when the resonance is at least the threshold and to
    [LowResonance] otherwise (so also when the resonance is NaN), and its
    clone, if the session made one, to [Success].  The kernel is left in
    [REFLECTING] with its identity, and with the memory store enabled its
    memory holds the flow file's UUID and the hash of the content. *)
Theorem echo_processor_marks_and_routes
    (F : Type) (I : core.FlowFile F)
    (hasher : string → Z) (double_to_string : float → string)
    (getProcessorType : string) (clone : F → option F)
    (flow_file : F) (content : string) (now : Z)
    (p : @CognitiveEchoProcessor.t F) :
  let resonance :=
    CognitiveKernel.calculate_resonance hasher unit content
      (CognitiveEchoProcessor.cognitive_kernel_ p) in
  let marked :=
    CognitiveEchoProcessor.add_cognitive_attributes double_to_string
      getProcessorType resonance "reflecting" now p flow_file in
  ∃ p',
    CognitiveEchoProcessor.process_with_cognition hasher double_to_string
      getProcessorType clone (Some flow_file) content now p = Returns () p' ∧
    CognitiveEchoProcessor.flow_file_ p' = marked ∧
    CognitiveEchoProcessor.transfers_ p' =
      CognitiveEchoProcessor.transfers_ p ++
      (marked,
       if (CognitiveEchoProcessor.resonance_threshold_ p <=? resonance)%float
       then CognitiveEchoProcessor.HighResonance
       else CognitiveEchoProcessor.LowResonance)
      :: match clone marked with
         | Some success_flow => [(success_flow, CognitiveEchoProcessor.Success)]
         | None => []
         end ∧
    CognitiveKernel.current_state_ unit
      (CognitiveEchoProcessor.cognitive_kernel_ p') = REFLECTING ∧
    CognitiveKernel.echo_identity_ unit (CognitiveEchoProcessor.cognitive_kernel_ p')
      = CognitiveKernel.echo_identity_ unit
          (CognitiveEchoProcessor.cognitive_kernel_ p) ∧
    (CognitiveEchoProcessor.memory_store_enabled_ p = true →
     CognitiveMemory.retrieve "last_processed_uuid"
       (CognitiveKernel.cognitive_memory_ unit
          (CognitiveEchoProcessor.cognitive_kernel_ p'))
       = core.getUUIDStr marked ∧
     CognitiveMemory.retrieve "last_content_hash"
       (CognitiveKernel.cognitive_memory_ unit
          (CognitiveEchoProcessor.cognitive_kernel_ p'))
       = to_string (to_size_t (hasher content))).
Proof.
  intros resonance marked.
  unfold CognitiveEchoProcessor.process_with_cognition.
  destruct (echo_process_attempt hasher double_to_string getProcessorType clone
              content now (CognitiveEchoProcessor.with_flow_file flow_file p))
    as (p' & -> & Hrest).
  exists p'. split; [done|]. exact Hrest.
Qed.

Section MapperContent.
Context {F : Type} `{!core.FlowFile F}.
Variable hasher : string → Z.
Import HypergraphMapperProcessor.
Abbreviation mapper := (@HypergraphMapperProcessor.t F).

Lemma add_node_exact node (p : mapper) :
  idle p →
  ∃ p',
    on_substrate (HypergraphSubstrate.add_node node) p
    = Returns (bool_decide (HyperNode.id node ∉ node_ids p)) p' ∧
    extends_nodes p p' ∧
    node_ids p' = {[HyperNode.id node]} ∪ node_ids p.
Proof.
  clear hasher.
  intros Hp. unfold on_substrate, node_ids, idle, extends_nodes in *.
  rewrite add_node_spec by done.
  destruct (HypergraphSubstrate.nodes_ (substrate_ p) !! HyperNode.id node)
    as [stored|] eqn:Hid.
  - exists p. rewrite with_substrate_same.
    assert (HyperNode.id node ∈ dom (HypergraphSubstrate.nodes_ (substrate_ p)))
      by (apply elem_of_dom; eauto).
    rewrite bool_decide_eq_false_2 by (intros Hn; by apply Hn).
    split_and!; [done..|]. set_solver.
  - eexists. rewrite bool_decide_eq_true_2 by (by apply not_elem_of_dom).
    split; [done|]. cbn. fields. split_and!; [done| |done|done|done|].
    + intros n stored Hn. rewrite lookup_insert_ne; [done|]. congruence.
    + by rewrite dom_insert_L.
Qed.

Lemma filter_ext_elem {A} (P Q : A → Prop) `{!∀ x, Decision (P x)}
    `{!∀ x, Decision (Q x)} (l : list A) :
  (∀ x, x ∈ l → P x ↔ Q x) → filter P l = filter Q l.
Proof.
  induction l as [|a l IH]; intros Hext; [done|].
  rewrite !filter_cons.
  rewrite IH by (intros x Hx; apply Hext; by right).
  destruct (decide (P a)) as [HP|HP], (decide (Q a)) as [HQ|HQ]; try done;
    destruct (Hext a (list_elem_of_here _ _)); tauto.
Qed.

Lemma word_id_inj (a b : string) : "word_" +:+ a = "word_" +:+ b → a = b.
Proof. apply append_inj_r. Qed.

Lemma add_word_nodes_exact unique_words related (p : mapper) :
  idle p → NoDup unique_words →
  ∃ p',
    add_word_nodes unique_words related p
    = Returns
        (related ∪ list_to_set
                     (filter (λ id, id ∉ node_ids p)
                             ((λ w, "word_" +:+ w) <$> unique_words))) p' ∧
    extends_nodes p p' ∧
    node_ids p' =
      list_to_set ((λ w, "word_" +:+ w) <$> unique_words) ∪ node_ids p.
Proof.
  clear hasher.
  revert related p. induction unique_words as [|w rest IH];
    intros related p Hp Hnd; cbn [add_word_nodes].
  - exists p. unfold ret. cbn.
    rewrite (right_id_L ∅ (∪)), (left_id_L ∅ (∪)).
    split; [done|]. by split.
  - apply NoDup_cons in Hnd as [Hw Hnd]. unfold bind.
    destruct (add_node_exact (word_node w) p Hp) as (p1 & -> & Hext1 & Hids1).
    cbn [HyperNode.id word_node] in *.
    destruct Hext1 as (Hp1 & Hnodes1 & Hedges1 & Hcount1 & Hflow1).
    destruct (IH (if bool_decide ("word_" +:+ w ∉ node_ids p)
                  then {["word_" +:+ w]} ∪ related else related) p1 Hp1 Hnd)
      as (p' & -> & (Hp' & Hnodes' & Hedges' & Hcount' & Hflow') & Hids').
    exists p'. split_and!.
    + f_equal. rewrite fmap_cons, filter_cons.
      assert (filter (λ id, id ∉ node_ids p1) ((λ w, "word_" +:+ w) <$> rest)
              = filter (λ id, id ∉ node_ids p) ((λ w, "word_" +:+ w) <$> rest))
        as ->.
      { apply filter_ext_elem. intros id Hin. rewrite Hids1.
        split; [set_solver|].
        intros Hid. apply not_elem_of_union. split; [|done].
        intros ->%elem_of_singleton.
        apply list_elem_of_fmap in Hin as (w' & ->%word_id_inj & Hw'). done. }
      destruct (decide ("word_" +:+ w ∉ node_ids p)) as [Hnew|Hold].
      * rewrite bool_decide_eq_true_2 by done. cbn. set_solver.
      * by rewrite bool_decide_eq_false_2 by done.
    + split_and!; [done|by eauto|congruence..].
    + rewrite Hids', Hids1, fmap_cons. cbn. set_solver.
Qed.

Lemma add_edge_exact edge (p : mapper) :
  idle p → HyperEdge.connected_nodes edge ⊆ node_ids p →
  ∃ added p',
    on_substrate (HypergraphSubstrate.add_edge edge) p = Returns added p' ∧
    idle p' ∧
    HypergraphSubstrate.nodes_ (substrate_ p')
      = HypergraphSubstrate.nodes_ (substrate_ p) ∧
    HypergraphSubstrate.edges_ (substrate_ p')
      = match HypergraphSubstrate.edges_ (substrate_ p) !! HyperEdge.id edge with
        | Some _ => HypergraphSubstrate.edges_ (substrate_ p)
        | None => <[HyperEdge.id edge := edge]>
                    (HypergraphSubstrate.edges_ (substrate_ p))
        end.
Proof.
  clear hasher.
  intros Hp Hmembers. unfold on_substrate, node_ids, idle in *.
  destruct (HypergraphSubstrate.edges_ (substrate_ p) !! HyperEdge.id edge)
    as [stored|] eqn:Hid.
  - rewrite add_edge_duplicate by eauto. exists false, p.
    by rewrite with_substrate_same.
  - rewrite add_edge_valid; [|done..|].
    + eexists true, _. split; [done|]. cbn. fields. done.
    + intros n Hn. apply elem_of_dom. set_solver.
Qed.

Lemma create_content_node_exact content flow_id (p : mapper) :
  idle p →
  ∃ p',
    create_content_node hasher content flow_id p = Returns () p' ∧
    idle p' ∧
    (∀ n node, HypergraphSubstrate.nodes_ (substrate_ p) !! n = Some node →
               HypergraphSubstrate.nodes_ (substrate_ p') !! n = Some node) ∧
    flow_id +:+ "_content" ∈ node_ids p' ∧
    (∀ w, w ∈ significant_words content → "word_" +:+ w ∈ node_ids p') ∧
    (∀ edge_id edge,
       HypergraphSubstrate.edges_ (substrate_ p') !! edge_id = Some edge →
       HypergraphSubstrate.edges_ (substrate_ p) !! edge_id = Some edge ∨
       (HypergraphSubstrate.edges_ (substrate_ p) !! edge_id = None ∧
        ∀ n, n ∈ HyperEdge.connected_nodes edge ↔
             n = flow_id +:+ "_content" ∨
             ((n ∉ node_ids p) ∧
              ∃ w, w ∈ significant_words content ∧ n = "word_" +:+ w))) ∧
    (∀ edge_id edge,
       HypergraphSubstrate.edges_ (substrate_ p) !! edge_id = Some edge →
       HypergraphSubstrate.edges_ (substrate_ p') !! edge_id = Some edge) ∧
    flow_file_ p' = flow_file_ p.
Proof.
  intros Hp. unfold create_content_node, bind.
  destruct (add_node_exact
              (content_node hasher content flow_id
                 (CognitiveKernel.echo_identity_ unit (cognitive_kernel_ p))) p Hp)
    as (p1 & -> & (Hp1 & Hnodes1 & Hedges1 & Hcount1 & Hflow1) & Hids1).
  cbn [HyperNode.id content_node] in Hids1.
  destruct (add_word_nodes_exact (elements (significant_words content))
              {[flow_id +:+ "_content"]} p1 Hp1 (NoDup_elements _))
    as (p2 & -> & (Hp2 & Hnodes2 & Hedges2 & Hcount2 & Hflow2) & Hids2).
  set (related := {[flow_id +:+ "_content"]} ∪ list_to_set _) in *.
  assert (∀ n, n ∈ related ↔
               n = flow_id +:+ "_content" ∨
               ((n ∉ node_ids p) ∧
                ∃ w, w ∈ significant_words content ∧ n = "word_" +:+ w))
    as Hrelated.
  { intros n. subst related.
    rewrite elem_of_union, elem_of_singleton, elem_of_list_to_set,
      list_elem_of_filter, list_elem_of_fmap, Hids1.
    setoid_rewrite elem_of_elements.
    destruct (decide (n = flow_id +:+ "_content")) as [->|Hne]; [by split; left|].
    split.
    - intros [?|[Hnew (w & -> & Hw)]]; [done|]. right. split; [set_solver|eauto].
    - intros [?|[Hnew (w & Hw & ->)]]; [done|]. right. split; [set_solver|eauto]. }
  assert (related ⊆ node_ids p2) as Hsub.
  { intros n [->|[_ (w & Hw & ->)]]%Hrelated; rewrite Hids2, Hids1.
    - set_solver.
    - apply elem_of_union. left. apply elem_of_list_to_set, list_elem_of_fmap.
      exists w. by rewrite elem_of_elements. }
  assert (flow_id +:+ "_content" ∈ node_ids p2) as Hcontent
    by (rewrite Hids2, Hids1; set_solver).
  assert (∀ w, w ∈ significant_words content → "word_" +:+ w ∈ node_ids p2)
    as Hwords.
  { intros w Hw. rewrite Hids2. apply elem_of_union. left.
    apply elem_of_list_to_set, list_elem_of_fmap. exists w.
    by rewrite elem_of_elements. }
  destruct (1 <? size related)%nat.
  - unfold fetch_add_edge_counter.
    set (p3 := with_edge_counter _ p2).
    destruct (add_edge_exact
                (content_edge flow_id (edge_counter_ p2) related) p3)
      as (added & p4 & Hrun4 & Hp4 & Hnodes4 & Hedges4); [done|done|].
    rewrite Hrun4.
    assert (flow_file_ p4 = flow_file_ p) as Hflow4.
    { unfold on_substrate in Hrun4.
      destruct (HypergraphSubstrate.add_edge _ _) as [a s4| | |]; [|done..].
      injection Hrun4 as _ <-. cbn. congruence. }
    unfold ret. exists p4. unfold node_ids in *.
    change (substrate_ p3) with (substrate_ p2) in *.
    rewrite Hnodes4. split_and!; [done|done|by eauto|done|done| | |done].
    + intros edge_id edge. rewrite Hedges4, Hedges2, Hedges1.
      cbn [HyperEdge.id content_edge].
      destruct (HypergraphSubstrate.edges_ (substrate_ p) !! _) eqn:Hfresh;
        [by left|].
      rewrite lookup_insert. case_decide as Hid; [|by left].
      intros [= <-]. right. subst edge_id. split; [done|].
      cbn [HyperEdge.connected_nodes content_edge]. done.
    + intros edge_id edge Hold. rewrite Hedges4, Hedges2, Hedges1.
      cbn [HyperEdge.id content_edge].
      destruct (HypergraphSubstrate.edges_ (substrate_ p)
                  !! (flow_id +:+ "_content_edge_" +:+ to_string (edge_counter_ p2)))
        eqn:Hfresh; [done|].
      rewrite lookup_insert_ne; [done|]. congruence.
  - unfold ret. exists p2.
    split_and!; [done|done|by eauto|done|done| | |congruence].
    + intros edge_id edge. rewrite Hedges2, Hedges1. by left.
    + intros edge_id edge. by rewrite Hedges2, Hedges1.
Qed.

End MapperContent.

(** [HypergraphMapperProcessor::create_content_node]
    (HypergraphMapperProcessor.cpp, 110-163).  On a mapper whose
    substrate is unlocked the call returns; it throws nothing.  The nodes
    stored before are untouched; afterwards the content node
    "<flow id>_content" and a node "word_<w>" for every significant word
    of the content (a run of non-space characters that has more than three
    characters left once its punctuation is removed, in lower case) are
    stored.  An edge that was not stored before has as members the content
    node and the word nodes that were not stored before: a word the
    substrate already knew gets no link to the new content.  Every edge
    stored before is still stored, unchanged. *)
Theorem create_content_node_links_new_words_only
    (F : Type) (I : core.FlowFile F) (hasher : string → Z)
    (content flow_id : string) (p : @HypergraphMapperProcessor.t F) :
  idle p →
  ∃ p',
    HypergraphMapperProcessor.create_content_node hasher content flow_id p
      = Returns () p' ∧
    idle p' ∧
    (∀ n node,
       HypergraphSubstrate.nodes_ (HypergraphMapperProcessor.substrate_ p) !! n
         = Some node →
       HypergraphSubstrate.nodes_ (HypergraphMapperProcessor.substrate_ p') !! n
         = Some node) ∧
    flow_id +:+ "_content" ∈ node_ids p' ∧
    (∀ w, w ∈ significant_words content → "word_" +:+ w ∈ node_ids p') ∧
    (∀ edge_id edge,
       HypergraphSubstrate.edges_ (HypergraphMapperProcessor.substrate_ p') !! edge_id
         = Some edge →
       HypergraphSubstrate.edges_ (HypergraphMapperProcessor.substrate_ p) !! edge_id
         = Some edge ∨
       (HypergraphSubstrate.edges_ (HypergraphMapperProcessor.substrate_ p) !! edge_id
          = None ∧
        ∀ n, n ∈ HyperEdge.connected_nodes edge ↔
             n = flow_id +:+ "_content" ∨
             ((n ∉ node_ids p) ∧
              ∃ w, w ∈ significant_words content ∧ n = "word_" +:+ w))) ∧
    (∀ edge_id edge,
       HypergraphSubstrate.edges_ (HypergraphMapperProcessor.substrate_ p) !! edge_id
         = Some edge →
       HypergraphSubstrate.edges_ (HypergraphMapperProcessor.substrate_ p') !! edge_id
         = Some edge).
Proof.
  intros Hp.
  destruct (create_content_node_exact hasher content flow_id p Hp)
    as (p' & Hrun & Hp' & Hnodes & Hcontent & Hwords & Hedges & Hkept & _).
  exists p'. by split_and!.
Qed.

Lemma create_content_node_links_new_words_only_witness :
  ∃ p',
    HypergraphMapperProcessor.create_content_node (λ _, 0)
      "Echo, echo: the deep TREE!" "flow-1"
      (HypergraphMapperProcessor.new test_flow) = Returns () p' ∧
    "flow-1_content" ∈ node_ids p' ∧
    "word_echo" ∈ node_ids p' ∧ "word_deep" ∈ node_ids p' ∧
    "word_tree" ∈ node_ids p'.
Proof.
  destruct (create_content_node_links_new_words_only test_flow_file _ (λ _, 0)
              "Echo, echo: the deep TREE!" "flow-1"
              (HypergraphMapperProcessor.new test_flow) eq_refl)
    as (p' & Hrun & _ & _ & Hcontent & Hwords & _).
  exists p'. split; [exact Hrun|]. split; [exact Hcontent|].
  split_and!; apply Hwords; vm_compute; reflexivity.
Defined.

(** * The mapping steps keep the substrate well formed *)

Section MapperIntegrity.
Context {F : Type} `{!core.FlowFile F}.
Variable hasher : string → Z.
Import HypergraphMapperProcessor.
Abbreviation mapper := (@HypergraphMapperProcessor.t F).

Lemma grows_from_refl (p : mapper) : idle p → grows_from p p.
Proof. intros Hp. by split_and!. Qed.

Lemma grows_from_trans (p1 p2 p3 : mapper) :
  grows_from p1 p2 → grows_from p2 p3 → grows_from p1 p3.
Proof.
  clear hasher.
  intros (_ & Hn1 & He1 & Hi1) (Hp3 & Hn2 & He2 & Hi2).
  split_and!; [done|set_solver|by eauto|by eauto].
Qed.

Lemma grows_from_same_substrate (p p' : mapper) :
  idle p → substrate_ p' = substrate_ p → grows_from p p'.
Proof.
  intros Hp Hs. unfold grows_from, idle, node_ids. rewrite Hs. by split_and!.
Qed.

Lemma extends_nodes_grows (p p' : mapper) : extends_nodes p p' → grows_from p p'.
Proof.
  intros (Hp' & Hnodes & Hedges & _ & _). split_and!; [done| | |].
  - unfold node_ids. intros n [node Hn]%elem_of_dom. apply elem_of_dom. eauto.
  - intros edge_id edge. by rewrite Hedges.
  - intros HRI edge_id edge node_id. rewrite Hedges. intros Hedge Hin.
    destruct (HRI edge_id edge node_id Hedge Hin) as [node Hnode]. eauto.
Qed.

Lemma add_node_integrity node (p : mapper) :
  idle p →
  ∃ added p',
    on_substrate (HypergraphSubstrate.add_node node) p = Returns added p' ∧
    grows_from p p' ∧ HyperNode.id node ∈ node_ids p' ∧
    flow_file_ p' = flow_file_ p.
Proof.
  intros Hp.
  destruct (add_node_exact node p Hp) as (p' & -> & Hext & Hids).
  eexists _, p'. split; [done|].
  split_and!; [by apply extends_nodes_grows|set_solver|by destruct Hext as (_&_&_&_&?)].
Qed.

Lemma add_edge_integrity edge (p : mapper) :
  idle p → HyperEdge.connected_nodes edge ⊆ node_ids p →
  ∃ added p',
    on_substrate (HypergraphSubstrate.add_edge edge) p = Returns added p' ∧
    grows_from p p' ∧ node_ids p' = node_ids p.
Proof.
  intros Hp Hmembers.
  destruct (add_edge_exact edge p Hp Hmembers)
    as (added & p' & -> & Hp' & Hnodes & Hedges).
  exists added, p'. split; [done|].
  unfold grows_from, node_ids, referential_integrity.
  rewrite Hnodes, Hedges. split_and!; [done|done| | |done].
  - intros edge_id stored Hstored.
    destruct (HypergraphSubstrate.edges_ (substrate_ p) !! HyperEdge.id edge)
      eqn:Hid; [done|].
    rewrite lookup_insert_ne; [done|]. congruence.
  - intros HRI edge_id stored node_id.
    destruct (HypergraphSubstrate.edges_ (substrate_ p) !! HyperEdge.id edge)
      eqn:Hid; [by apply HRI|].
    rewrite lookup_insert. case_decide; [|by apply HRI].
    intros [= <-] Hin. apply elem_of_dom. by apply Hmembers.
Qed.

Lemma propagate_activation_integrity source a (p : mapper) :
  idle p →
  ∃ p',
    on_substrate (HypergraphSubstrate.propagate_activation source a) p
    = Returns () p' ∧
    grows_from p p' ∧ node_ids p' = node_ids p.
Proof.
  clear hasher.
  intros Hp. unfold on_substrate, idle, node_ids in *.
  destruct (propagate_activation_shape source a (substrate_ p) Hp)
    as (s' & -> & Hs' & Hedges & _ & Hn).
  assert (dom (HypergraphSubstrate.nodes_ s')
          = dom (HypergraphSubstrate.nodes_ (substrate_ p))) as Hdom.
  { apply set_eq. intros n. rewrite !elem_of_dom. specialize (Hn n).
    destruct (HypergraphSubstrate.nodes_ s' !! n),
             (HypergraphSubstrate.nodes_ (substrate_ p) !! n); naive_solver. }
  eexists. split; [done|].
  unfold grows_from, idle, node_ids, referential_integrity. cbn.
  rewrite Hdom, Hedges. split_and!; [done|done|done| |done].
  intros HRI edge_id edge node_id Hedge Hin.
  apply elem_of_dom. rewrite Hdom. apply elem_of_dom. by eapply HRI.
Qed.

Lemma add_attribute_nodes_integrity flow_id attributes attribute_nodes (p : mapper) :
  idle p → flow_id +:+ "_content" ∈ node_ids p → attribute_nodes ⊆ node_ids p →
  ∃ nodes p',
    add_attribute_nodes flow_id attributes attribute_nodes p = Returns nodes p' ∧
    grows_from p p' ∧ nodes ⊆ node_ids p' ∧
    (∀ attr_name attr_value,
       (attr_name, attr_value) ∈ attributes →
       find attr_name "cognitive." ≠ Some 0%nat →
       flow_id +:+ "_attr_" +:+ attr_name ∈ node_ids p').
Proof.
  clear hasher.
  revert attribute_nodes p.
  induction attributes as [|[attr_name attr_value] rest IH];
    intros nodes p Hp Hcontent Hnodes; cbn [add_attribute_nodes].
  - exists nodes, p. split_and!; [done|by apply grows_from_refl|done|].
    intros ?? []%elem_of_nil.
  - case_bool_decide as Hname.
    + unfold bind.
      destruct (add_node_integrity (attr_node flow_id attr_name attr_value) p Hp)
        as (added & p1 & -> & Hgrow1 & Hin1 & _).
      cbn [HyperNode.id attr_node] in Hin1.
      pose proof Hgrow1 as (Hp1 & Hsub1 & _).
      assert (∀ p2 : mapper,
                grows_from p1 p2 →
                (∀ name value,
                   (name, value) ∈ rest →
                   find name "cognitive." ≠ Some 0%nat →
                   flow_id +:+ "_attr_" +:+ name ∈ node_ids p2) →
                ∀ name value,
                  (name, value) ∈ (attr_name, attr_value) :: rest →
                  find name "cognitive." ≠ Some 0%nat →
                  flow_id +:+ "_attr_" +:+ name ∈ node_ids p2) as Hall.
      { intros p2 (_ & Hsub2 & _) Hrest name value
          [[= -> ->]|Hin]%elem_of_cons Hn; [by apply Hsub2|by eauto]. }
      destruct added.
      * destruct (add_edge_integrity (attr_edge flow_id attr_name) p1)
          as (added' & p2 & -> & Hgrow2 & Hids2); [done| |].
        { cbn [HyperEdge.connected_nodes attr_edge]. set_solver. }
        destruct (IH ({[flow_id +:+ "_attr_" +:+ attr_name]} ∪ nodes) p2)
          as (nodes' & p' & -> & Hgrow' & Hnodes' & Hrest');
          [by destruct Hgrow2|set_solver|set_solver|].
        assert (grows_from p1 p') as Hgrow by exact (grows_from_trans _ _ _ Hgrow2 Hgrow').
        exists nodes', p'.
        split_and!; [done|exact (grows_from_trans _ _ _ Hgrow1 Hgrow)|done
                    |by apply Hall].
      * destruct (IH nodes p1) as (nodes' & p' & -> & Hgrow' & Hnodes' & Hrest');
          [done|set_solver|set_solver|].
        exists nodes', p'.
        split_and!; [done|exact (grows_from_trans _ _ _ Hgrow1 Hgrow')|done
                    |by apply Hall].
    + destruct (IH nodes p Hp Hcontent Hnodes)
        as (nodes' & p' & -> & Hgrow' & Hnodes' & Hrest').
      exists nodes', p'. split_and!; [done..|].
      intros name value [[= -> ->]|Hin]%elem_of_cons Hn; [|by eauto].
      contradict Hname. by intros ?.
Qed.

Lemma create_attribute_nodes_integrity flow_id (p : mapper) :
  idle p → flow_id +:+ "_content" ∈ node_ids p →
  ∃ p',
    create_attribute_nodes flow_id p = Returns () p' ∧
    grows_from p p' ∧
    (∀ attr_name attr_value,
       (attr_name, attr_value) ∈ core.getAttributes (flow_file_ p) →
       find attr_name "cognitive." ≠ Some 0%nat →
       flow_id +:+ "_attr_" +:+ attr_name ∈ node_ids p').
Proof.
  clear hasher.
  intros Hp Hcontent. unfold create_attribute_nodes, bind.
  destruct (add_attribute_nodes_integrity flow_id (core.getAttributes (flow_file_ p))
              ∅ p Hp Hcontent)
    as (nodes & p1 & -> & Hgrow1 & Hnodes & Hattrs); [set_solver|].
  destruct (1 <? size nodes)%nat.
  - unfold fetch_add_edge_counter.
    set (p2 := with_edge_counter _ p1).
    assert (grows_from p1 p2) as Hgrow2
      by (apply grows_from_same_substrate; [by destruct Hgrow1|done]).
    destruct (add_edge_integrity
                (attr_cluster_edge flow_id (edge_counter_ p1)
                   ({[flow_id +:+ "_content"]} ∪ nodes)) p2)
      as (added' & p3 & -> & Hgrow3 & Hids3).
    + by destruct Hgrow2.
    + cbn [HyperEdge.connected_nodes attr_cluster_edge].
      destruct Hgrow1 as (_ & Hsub1 & _). 
      change (node_ids p2) with (node_ids p1). set_solver.
    + unfold ret. exists p3. split; [done|]. split.
      * exact (grows_from_trans _ _ _ Hgrow1
                 (grows_from_trans _ _ _ Hgrow2 Hgrow3)).
      * intros name value Hin Hn. rewrite Hids3.
        change (node_ids p2) with (node_ids p1). by eauto.
  - unfold ret. exists p1. by split_and!.
Qed.

Lemma analyze_relationships_integrity flow_id (p : mapper) :
  idle p → flow_id +:+ "_content" ∈ node_ids p →
  ∃ p',
    analyze_relationships flow_id p = Returns () p' ∧
    grows_from p p' ∧ node_ids p' = node_ids p.
Proof.
  clear hasher.
  intros Hp Hcontent. unfold analyze_relationships, bind.
  destruct (propagate_activation_integrity (flow_id +:+ "_content") 1%float p Hp)
    as (p1 & -> & Hgrow1 & Hids1).
  assert (idle p1) as Hp1 by (by destruct Hgrow1).
  destruct (find_nodes_by_attribute_mapper "type" "content" p1 Hp1)
    as (similar_content_nodes & -> & Hsimilar).
  destruct (find_nodes_by_attribute_mapper "type" "word" p1 Hp1)
    as (similar_words & -> & _).
  destruct (collect_similar_returns (flow_id +:+ "_content") similar_content_nodes
              {[flow_id +:+ "_content"]} p1 Hp1)
    as (cluster & -> & Hcluster); [set_solver|done|].
  destruct (1 <? size cluster)%nat.
  - unfold fetch_add_edge_counter.
    set (p2 := with_edge_counter _ p1).
    assert (grows_from p1 p2) as Hgrow2
      by (by apply grows_from_same_substrate).
    destruct (add_edge_integrity
                (similarity_edge flow_id (edge_counter_ p1) cluster) p2)
      as (added' & p3 & -> & Hgrow3 & Hids3); [by destruct Hgrow2|done|].
    unfold add_attribute. eexists. split; [done|].
    set (p4 := with_flow_file _ p3).
    assert (grows_from p3 p4) as Hgrow4
      by (apply grows_from_same_substrate; [by destruct Hgrow3|done]).
    split.
    + exact (grows_from_trans _ _ _ Hgrow1
               (grows_from_trans _ _ _ Hgrow2
                  (grows_from_trans _ _ _ Hgrow3 Hgrow4))).
    + change (node_ids p4) with (node_ids p3). rewrite Hids3.
      change (node_ids p2) with (node_ids p1). done.
  - unfold ret. exists p1. by split_and!.
Qed.

Lemma mapping_steps_integrity content flow_id (p : mapper) :
  idle p →
  ∃ p1 p2 p3,
    create_content_node hasher content flow_id p = Returns () p1 ∧
    create_attribute_nodes flow_id p1 = Returns () p2 ∧
    analyze_relationships flow_id p2 = Returns () p3 ∧
    grows_from p p3 ∧
    flow_id +:+ "_content" ∈ node_ids p3 ∧
    (∀ w, w ∈ significant_words content → "word_" +:+ w ∈ node_ids p3) ∧
    (∀ attr_name attr_value,
       (attr_name, attr_value) ∈ core.getAttributes (flow_file_ p) →
       find attr_name "cognitive." ≠ Some 0%nat →
       flow_id +:+ "_attr_" +:+ attr_name ∈ node_ids p3).
Proof.
  intros Hp.
  destruct (create_content_node_exact hasher content flow_id p Hp)
    as (p1 & Hrun1 & Hp1 & Hnodes1 & Hcontent1 & Hwords1 & Hedges1 & Hkept1 & Hflow1).
  assert (grows_from p p1) as Hgrow1.
  { split_and!; [done| |done|].
    - unfold node_ids. intros n [node Hn]%elem_of_dom. apply elem_of_dom. eauto.
    - intros HRI edge_id edge node_id Hedge Hin.
      destruct (Hedges1 edge_id edge Hedge) as [Hold|[_ Hmembers]].
      + destruct (HRI edge_id edge node_id Hold Hin) as [node Hnode]. eauto.
      + apply elem_of_dom.
        apply Hmembers in Hin as [->|[_ (w & Hw & ->)]]; [done|by apply Hwords1]. }
  destruct (create_attribute_nodes_integrity flow_id p1 Hp1 Hcontent1)
    as (p2 & Hrun2 & Hgrow2 & Hattrs2).
  destruct (analyze_relationships_integrity flow_id p2)
    as (p3 & Hrun3 & Hgrow3 & Hids3);
    [by destruct Hgrow2|by destruct Hgrow2 as (_ & Hsub2 & _); apply Hsub2|].
  exists p1, p2, p3. split_and!; [done..| | | |].
  - exact (grows_from_trans _ _ _ Hgrow1 (grows_from_trans _ _ _ Hgrow2 Hgrow3)).
  - rewrite Hids3. destruct Hgrow2 as (_ & Hsub2 & _). by apply Hsub2.
  - intros w Hw. rewrite Hids3. destruct Hgrow2 as (_ & Hsub2 & _).
    by apply Hsub2, Hwords1.
  - intros name value Hin Hn. rewrite Hids3. rewrite <- Hflow1 in Hin. by eauto.
Qed.

End MapperIntegrity.

(** [HypergraphMapperProcessor::create_content_node],
    [create_attribute_nodes] and [analyze_relationships]
    (HypergraphMapperProcessor.cpp, 110-255), run one after the other as
    [process_with_hypergraph] does.  On a mapper whose substrate is
    unlocked the three calls return without an exception, whatever the
    content and the attributes.  Afterwards the substrate is unlocked
    again; it holds the content node, a node "word_<w>" for every
    significant word and a node "<flow id>_attr_<name>" for every
    attribute whose name does not start with "cognitive."; no node id and
    no edge stored before is lost or replaced; and if every member of
    every edge was a stored node before, that is so afterwards. *)
Theorem mapping_steps_keep_the_substrate_well_formed
    (F : Type) (I : core.FlowFile F) (hasher : string → Z)
    (content flow_id : string) (p : @HypergraphMapperProcessor.t F) :
  idle p →
  ∃ p1 p2 p3,
    HypergraphMapperProcessor.create_content_node hasher content flow_id p
      = Returns () p1 ∧
    HypergraphMapperProcessor.create_attribute_nodes flow_id p1 = Returns () p2 ∧
    HypergraphMapperProcessor.analyze_relationships flow_id p2 = Returns () p3 ∧
    idle p3 ∧
    node_ids p ⊆ node_ids p3 ∧
    flow_id +:+ "_content" ∈ node_ids p3 ∧
    (∀ w, w ∈ significant_words content → "word_" +:+ w ∈ node_ids p3) ∧
    (∀ attr_name attr_value,
       (attr_name, attr_value)
         ∈ core.getAttributes (HypergraphMapperProcessor.flow_file_ p) →
       find attr_name "cognitive." ≠ Some 0%nat →
       flow_id +:+ "_attr_" +:+ attr_name ∈ node_ids p3) ∧
    (∀ edge_id edge,
       HypergraphSubstrate.edges_ (HypergraphMapperProcessor.substrate_ p) !! edge_id
         = Some edge →
       HypergraphSubstrate.edges_ (HypergraphMapperProcessor.substrate_ p3) !! edge_id
         = Some edge) ∧
    (referential_integrity (HypergraphMapperProcessor.substrate_ p) →
     referential_integrity (HypergraphMapperProcessor.substrate_ p3)).
Proof.
  intros Hp.
  destruct (mapping_steps_integrity hasher content flow_id p Hp)
    as (p1 & p2 & p3 & Hrun1 & Hrun2 & Hrun3 & (Hp3 & Hsub & Hedges & HRI)
        & Hcontent & Hwords & Hattrs).
  exists p1, p2, p3. by split_and!.
Qed.

Lemma mapping_steps_keep_the_substrate_well_formed_witness :
  ∃ p1 p2 p3,
    HypergraphMapperProcessor.create_content_node (λ _, 0)
      "Echo, echo: the deep TREE!" "flow-1"
      (HypergraphMapperProcessor.new test_flow) = Returns () p1 ∧
    HypergraphMapperProcessor.create_attribute_nodes "flow-1" p1 = Returns () p2 ∧
    HypergraphMapperProcessor.analyze_relationships "flow-1" p2 = Returns () p3 ∧
    "flow-1_attr_filename" ∈ node_ids p3 ∧ "flow-1_attr_path" ∈ node_ids p3 ∧
    referential_integrity (HypergraphMapperProcessor.substrate_ p3).
Proof.
  destruct (mapping_steps_keep_the_substrate_well_formed test_flow_file _ (λ _, 0)
              "Echo, echo: the deep TREE!" "flow-1"
              (HypergraphMapperProcessor.new test_flow) eq_refl)
    as (p1 & p2 & p3 & Hrun1 & Hrun2 & Hrun3 & _ & _ & _ & _ & Hattrs & _ & HRI).
  exists p1, p2, p3. split; [exact Hrun1|]. split; [exact Hrun2|].
  split; [exact Hrun3|]. split_and!.
  - apply (Hattrs "filename" "a.txt"); [apply list_elem_of_here|discriminate].
  - apply (Hattrs "path" "/tmp");
      [apply list_elem_of_further, list_elem_of_further, list_elem_of_here
      |discriminate].
  - apply HRI. intros edge_id edge node_id Hedge. discriminate Hedge.
Defined.
